(** * Promise and bounded-concurrency helpers of js_polyfills_guide.js

    A shallow embedding of the asynchronous primitives of the polyfill guide:
    the [MyPromise] class with [resolvePromise] (section 3.1), the combinators
    [Promise.myAll], [Promise.myRace] and [Promise.myAllSettled] (3.2-3.4),
    the worker pools [mapLimitOptimized] and [parallelLimitOptimized]
    (sections 4 and 9) and the retry loops [retry] and [retryWithBackoff]
    (section 14).

    JavaScript runs these on one thread.  A synchronous piece of code is a
    function from the state of the program to its next state; what the host
    does between two such pieces (running a timer callback, settling a
    promise a task returned, resuming an [await]) is an explicit step chosen
    by a schedule, and the theorems quantify over every schedule.

    The other helpers of the guide follow: the array methods
    (section 1), [Promise.myAny] (3.5), [debounce] (5), the event emitter
    (7), [mySetInterval] (8), [flattenArray] and [myFlat] (11.4), the
    memoizers with [LRUCache] (12) and [retryWithCondition] (14); a function
    the caller passes in is a function of its arguments that returns or
    throws, and what it may do besides is said where it is introduced. *)

From Stdlib Require Import ZArith String List Lia DecimalString.
From stdpp Require Import base option list.

Open Scope nat_scope.

(** ** Values *)

(** The JavaScript values the modelled code handles.  An array is the list
    of its slots, [None] for a hole.  An instance of [MyPromise] is a
    reference [VPromise p] to cell [p] of the heap, so that [===] and
    [instanceof MyPromise] are decided on the reference. *)
#[warnings="-register-all"]
Inductive value :=
| VUndefined
| VNum (n : Z)
| VStr (s : string)
| VError (name message : string)
| VObject (fields : list (string * value))
| VArray (elems : list (option value))
| VPromise (p : nat).

(** What a call of a function produces: a returned value or a thrown one. *)
Inductive completion :=
| Return (v : value)
| Throw (e : value).

(** [a[index] = x] on an array: an index past the end extends the array
    with holes. *)
Definition array_set {T} (index : nat) (x : T) (a : list (option T))
  : list (option T) :=
  if decide (index < length a) then <[index := Some x]> a
  else a ++ replicate (index - length a) None ++ [Some x].

(** [a[index]]: [None] for a hole and past the end. *)
Definition array_get {T} (a : list (option T)) (index : nat) : option T :=
  default None (a !! index).

(** ** Promises of the host *)

(** How a promise of the host settles, when it does. *)
Inductive outcome :=
| Fulfils (v : value)
| Rejects (e : value).

(** The state of a promise of the host. *)
Inductive promise_state :=
| Pending
| Fulfilled (v : value)
| Rejected (e : value).

(** * MyPromise (section 3.1) *)

Module MyPromise.

(** [this.state]: one of the strings 'pending', 'fulfilled', 'rejected'. *)
Inductive pstate := pending | fulfilled | rejected.

#[global] Instance pstate_eq_dec : EqDecision pstate.
Proof. solve_decision. Defined.

(** The functions that are called as handlers: a function of the caller
    (it computes its completion from its argument), or the [resolve] or
    [reject] arrow function that the constructor of promise [p] created;
    [resolvePromise] passes these two to [x.then]. *)
Inductive fn :=
| Closure (f : value -> completion)
| ResolveOf (p : nat)
| RejectOf (p : nat).

(** The body that [then] hands to [setTimeout]:
    [() => { try { const x = handler(this.value); resolvePromise(promise2, x,
    resolve, reject); } catch (error) { reject(error); } }].
    It closes over [this], over the handler, and over [promise2] with its
    [resolve] and [reject]; [on_rejection] tells the copy that calls
    [onRejected(this.reason)] from the one that calls
    [onFulfilled(this.value)].  The entries of [onFulfilledCallbacks] and
    [onRejectedCallbacks] are [() => { setTimeout(body, 0) }] for such a body,
    and are stored as the body they schedule. *)
Record reaction := Reaction {
  this : nat;
  on_rejection : bool;
  handler : fn;
  promise2 : nat
}.

(** The fields the constructor sets on [this]. *)
Record promise := Promise {
  state : pstate;
  value_ : value;
  reason : value;
  onFulfilledCallbacks : list reaction;
  onRejectedCallbacks : list reaction
}.

(** One handler call that took place: the reaction and the argument. *)
Record call_record := Called {
  called : reaction;
  argument : value
}.

(** The program state: the [MyPromise] objects, the queue of zero-delay
    timers in the order [setTimeout] was called, and the handler calls made
    so far.  [executors] lists the promises built by [new MyPromise(executor)]
    with an executor of the caller: only for these does code outside the
    class hold [resolve] and [reject]. *)
Record world := World {
  heap : list promise;
  timers : list reaction;
  calls : list call_record;
  executors : list nat
}.

Definition empty : world := World [] [] [] [].

Definition set_heap (h : list promise) (w : world) : world :=
  World h (timers w) (calls w) (executors w).

Definition set_timers (t : list reaction) (w : world) : world :=
  World (heap w) t (calls w) (executors w).

(** [setTimeout(body, 0)] *)
Definition setTimeout (r : reaction) (w : world) : world :=
  set_timers (timers w ++ [r]) w.

(** [callbacks.forEach(fn => fn(value))]: each stored callback calls
    [setTimeout]. *)
Definition forEach_call (callbacks : list reaction) (w : world) : world :=
  foldl (fun w r => setTimeout r w) w callbacks.

(** [const resolve = (value) => { if (this.state === 'pending') { ... } }] *)
Definition resolve (p : nat) (v : value) (w : world) : world :=
  match heap w !! p with
  | Some o =>
      match state o with
      | pending =>
          let o' := Promise fulfilled v (reason o)
                      (onFulfilledCallbacks o) (onRejectedCallbacks o) in
          forEach_call (onFulfilledCallbacks o) (set_heap (<[p := o']> (heap w)) w)
      | _ => w
      end
  | None => w
  end.

(** [const reject = (reason) => { if (this.state === 'pending') { ... } }] *)
Definition reject (p : nat) (r : value) (w : world) : world :=
  match heap w !! p with
  | Some o =>
      match state o with
      | pending =>
          let o' := Promise rejected (value_ o) r
                      (onFulfilledCallbacks o) (onRejectedCallbacks o) in
          forEach_call (onRejectedCallbacks o) (set_heap (<[p := o']> (heap w)) w)
      | _ => w
      end
  | None => w
  end.

(** The constructor up to the call of the executor: a fresh pending object. *)
Definition blank : promise := Promise pending VUndefined VUndefined [] [].

Definition allocate (w : world) : world :=
  set_heap (heap w ++ [blank]) w.

(** [new MyPromise(executor)] for an executor of the caller, which keeps
    [resolve] and [reject]; its calls of them are the steps [Resolve] and
    [Reject] below (a call inside the executor, or [reject(error)] of the
    constructor's [catch], is such a step right after). *)
Definition construct (w : world) : world * nat :=
  let p := length (heap w) in
  (World (heap w ++ [blank]) (timers w) (calls w) (executors w ++ [p]), p).

(** [then(onFulfilled, onRejected)] on the existing object [p]; [None] is an
    argument that is not a function.  The three [if]s of the executor test
    the one [this.state]. *)
Definition then_ (p : nat) (onFulfilled onRejected : option fn) (w : world)
  : world * nat :=
  let onFulfilled := default (Closure Return) onFulfilled in
  let onRejected := default (Closure Throw) onRejected in
  let promise2 := length (heap w) in
  match heap w !! p with
  | Some o =>
      let w := allocate w in
      match state o with
      | fulfilled =>
          (setTimeout (Reaction p false onFulfilled promise2) w, promise2)
      | rejected =>
          (setTimeout (Reaction p true onRejected promise2) w, promise2)
      | pending =>
          let o' := Promise (state o) (value_ o) (reason o)
                      (onFulfilledCallbacks o ++ [Reaction p false onFulfilled promise2])
                      (onRejectedCallbacks o ++ [Reaction p true onRejected promise2]) in
          (set_heap (<[p := o']> (heap w)) w, promise2)
      end
  | None => (w, promise2)
  end.

(** [catch(onRejected) { return this.then(null, onRejected); }] *)
Definition catch_ (p : nat) (onRejected : option fn) (w : world) : world * nat :=
  then_ p None onRejected w.

(** [function resolvePromise(promise2, x, resolve, reject)], where [resolve]
    and [reject] are those of [promise2]. *)
Definition resolvePromise (promise2 : nat) (x : value) (w : world) : world :=
  match x with
  | VPromise q =>
      if decide (promise2 = q)
      then reject promise2 (VError "TypeError" "Chaining cycle detected") w
      else fst (then_ q (Some (ResolveOf promise2)) (Some (RejectOf promise2)) w)
  | _ => resolve promise2 x w
  end.

(** A call [f(arg)]: [resolve] and [reject] return [undefined]. *)
Definition call (f : fn) (arg : value) (w : world) : world * completion :=
  match f with
  | Closure g => (w, g arg)
  | ResolveOf p => (resolve p arg w, Return VUndefined)
  | RejectOf p => (reject p arg w, Return VUndefined)
  end.

Definition record_call (r : reaction) (arg : value) (w : world) : world :=
  World (heap w) (timers w) (calls w ++ [Called r arg]) (executors w).

(** The timer callback of [then]. *)
Definition run_reaction (r : reaction) (w : world) : world :=
  match heap w !! this r with
  | Some o =>
      let arg := if on_rejection r then reason o else value_ o in
      let '(w, c) := call (handler r) arg (record_call r arg w) in
      match c with
      | Return x => resolvePromise (promise2 r) x w
      | Throw error => reject (promise2 r) error w
      end
  | None => w
  end.

(** The host runs the oldest zero-delay timer. *)
Definition timeout (w : world) : world :=
  match timers w with
  | [] => w
  | r :: rest => run_reaction r (set_timers rest w)
  end.

(** What a program does to the world, one synchronous piece at a time. *)
Inductive action :=
| New
| Resolve (p : nat) (v : value)
| Reject (p : nat) (r : value)
| Then (p : nat) (onFulfilled onRejected : option (value -> completion))
| Timeout.

Definition step (w : world) (a : action) : world :=
  match a with
  | New => fst (construct w)
  | Resolve p v => if decide (p ∈ executors w) then resolve p v w else w
  | Reject p r => if decide (p ∈ executors w) then reject p r w else w
  | Then p f g => fst (then_ p (Closure <$> f) (Closure <$> g) w)
  | Timeout => timeout w
  end.

Definition run (w : world) (acts : list action) : world := foldl step w acts.

Definition reachable (w : world) : Prop := exists acts, w = run empty acts.

(** The outcome a promise has settled with, if it has. *)
Definition outcome (w : world) (p : nat) : option (pstate * value) :=
  match heap w !! p with
  | Some o =>
      match state o with
      | pending => None
      | fulfilled => Some (fulfilled, value_ o)
      | rejected => Some (rejected, reason o)
      end
  | None => None
  end.

Definition settled (w : world) (p : nat) : Prop := is_Some (outcome w p).

End MyPromise.

(** * Worker pools (sections 4 and 9) *)

Module Pool.

(** An async [worker()] call: suspended at its [await] on the promise of the
    task with this index, which is pending ([Awaiting]) or has settled so
    that the host will resume the worker ([Resumable]); or finished, by
    leaving its loop ([Returned]) or by an exception ([Thrown]). *)
Inductive wstate :=
| Awaiting (index : nat) (promise : outcome)
| Resumable (index : nat) (settled : outcome)
| Returned
| Thrown (e : value).

(** What happened, in the order it did: an index taken from the shared
    iterator (the task of that index is called in the same step), a slot of
    [results] assigned, the promise of the task of an index settled, a
    worker left by an exception while it held an index. *)
Inductive entry :=
| Claim (index : nat)
| Write (index : nat) (v : value)
| Settle (index : nat)
| Raise (index : nat) (e : value).

(** The variables of one call: the array [results], the position of
    [iterator], [completed], the worker promises [workers], and the promise
    that the call returned. *)
Record pool := Pool {
  results : list (option value);
  cursor : nat;
  completed : nat;
  workers : list wstate;
  aggregate : promise_state;
  trace : list entry
}.

(** The body of the worker that is being run. *)
Inductive body :=
| MapLimit
| ParallelLimit.

(** What evaluating [onProgress] throws in the worker of
    [parallelLimitOptimized]: the function has the parameters [tasks] and
    [limit], and neither it nor the script declares the name (the file binds
    it as the third parameter of [parallelLimitWithProgress] only). *)
Definition not_defined : value :=
  VError "ReferenceError" "onProgress is not defined".

Section pool.
(** The array that is iterated and what calling the task of an entry
    gives: the promise [asyncFn(item, index)], or [task()]. *)
Context {A : Type} (array : list A) (invoke : A -> nat -> outcome).

Definition log (e : entry) (st : pool) : pool :=
  Pool (results st) (cursor st) (completed st) (workers st) (aggregate st)
       (trace st ++ [e]).

(** [results[index] = v] *)
Definition assign (index : nat) (v : value) (st : pool) : pool :=
  log (Write index v)
    (Pool (array_set index v (results st)) (cursor st) (completed st)
          (workers st) (aggregate st) (trace st)).

(** [completed++] *)
Definition count (st : pool) : pool :=
  Pool (results st) (cursor st) (S (completed st)) (workers st)
       (aggregate st) (trace st).

(** [for (const [index, item] of iterator)]: [iterator.next()], and for an
    entry the call of its task, whose promise the worker awaits. *)
Definition iterate (st : pool) : pool * wstate :=
  match array !! cursor st with
  | Some item =>
      (log (Claim (cursor st))
         (Pool (results st) (S (cursor st)) (completed st) (workers st)
               (aggregate st) (trace st)),
       Awaiting (cursor st) (invoke item (cursor st)))
  | None => (st, Returned)
  end.

(** The worker of [mapLimitOptimized] from its [await] on:
    [results[index] = await asyncFn(item, index);] and the next
    iteration.  A rejection is not caught. *)
Definition mapLimit_resume (index : nat) (o : outcome) (st : pool)
  : pool * wstate :=
  match o with
  | Fulfils v => iterate (assign index v st)
  | Rejects e => (log (Raise index e) st, Thrown e)
  end.

(** The [catch (error)] block of the worker of [parallelLimitOptimized]:
    [results[index] = { error }; completed++; if (onProgress) ...].  The
    test throws, nothing catches it, and the worker is left. *)
Definition parallelLimit_catch (index : nat) (error : value) (st : pool)
  : pool * wstate :=
  let st := count (assign index (VObject [("error"%string, error)]) st) in
  (log (Raise index not_defined) st, Thrown not_defined).

(** The worker of [parallelLimitOptimized] from its [await] on: the rest
    of the [try] block, [results[index] = ...; completed++;
    if (onProgress) ...], whose test throws into the [catch] block; or,
    for a rejection, the [catch] block. *)
Definition parallelLimit_resume (index : nat) (o : outcome) (st : pool)
  : pool * wstate :=
  match o with
  | Fulfils v => parallelLimit_catch index not_defined (count (assign index v st))
  | Rejects error => parallelLimit_catch index error st
  end.

Definition resume (b : body) : nat -> outcome -> pool -> pool * wstate :=
  match b with
  | MapLimit => mapLimit_resume
  | ParallelLimit => parallelLimit_resume
  end.

Definition is_returned (w : wstate) : bool :=
  match w with Returned => true | _ => false end.

(** [await Promise.all(workers); return results;] when a worker has
    finished: the call is rejected with the error of the first worker
    that threw, and fulfilled with [results] once every worker has
    returned. *)
Definition conclude (w : wstate) (st : pool) : pool :=
  match aggregate st, w with
  | Pending, Thrown e =>
      Pool (results st) (cursor st) (completed st) (workers st) (Rejected e)
           (trace st)
  | Pending, Returned =>
      if forallb is_returned (workers st)
      then Pool (results st) (cursor st) (completed st) (workers st)
                (Fulfilled (VArray (results st))) (trace st)
      else st
  | _, _ => st
  end.

Definition set_worker (i : nat) (w : wstate) (st : pool) : pool :=
  Pool (results st) (cursor st) (completed st) (<[i := w]> (workers st))
       (aggregate st) (trace st).

(** [.map(() => worker())]: one call of [worker], which runs up to its
    first [await]. *)
Definition spawn (st : pool) : pool :=
  let '(st, w) := iterate st in
  Pool (results st) (cursor st) (completed st) (workers st ++ [w])
       (aggregate st) (trace st).

(** The call up to its [await Promise.all(workers)]. *)
Definition start (limit : nat) : pool :=
  let st := Pool (replicate (length array) None) 0 0 [] Pending [] in
  let st := Nat.iter (Nat.min limit (length array)) spawn st in
  conclude Returned st.

Definition is_active (w : wstate) : bool :=
  match w with Awaiting _ _ | Resumable _ _ => true | _ => false end.

Definition active_workers (st : pool) : list nat :=
  filter (fun i => from_option is_active false (workers st !! i))
         (seq 0 (length (workers st))).

(** The next thing that happens to worker [i]: the promise it awaits
    settles, or the host resumes it. *)
Definition advance (b : body) (i : nat) (st : pool) : pool :=
  match workers st !! i with
  | Some (Awaiting index o) =>
      log (Settle index) (set_worker i (Resumable index o) st)
  | Some (Resumable index o) =>
      let '(st, w) := resume b index o st in
      conclude w (set_worker i w st)
  | _ => st
  end.

(** One step of a schedule: [k] picks among the workers that are not
    finished. *)
Definition step (b : body) (st : pool) (k : nat) : pool :=
  match active_workers st !! (k mod length (active_workers st)) with
  | Some i => advance b i st
  | None => st
  end.

Definition run (b : body) (st : pool) (picks : list nat) : pool :=
  foldl (step b) st picks.
End pool.

(** [mapLimitOptimized(array, limit, asyncFn)] after the schedule [picks]. *)
Definition mapLimitOptimized {A} (array : list A) (limit : nat)
    (asyncFn : A -> nat -> outcome) (picks : list nat) : pool :=
  run array asyncFn MapLimit (start array asyncFn limit) picks.


(** The indices of the tasks that were started, and of those whose promise
    has settled. *)
Definition started (st : pool) : list nat :=
  omap (fun e => match e with Claim i => Some i | _ => None end) (trace st).

Definition settled (st : pool) : list nat :=
  omap (fun e => match e with Settle i => Some i | _ => None end) (trace st).

(** The number of tasks that were started and whose promise is pending. *)
Definition in_flight (st : pool) : nat :=
  length (started st) - length (settled st).

End Pool.

(** * Promise.myAll, Promise.myRace, Promise.myAllSettled (sections 3.2-3.4) *)

Module Combinators.

(** The promise [new Promise(...)] of the host that a combinator returns,
    with what is observed of it: the continuations that callers registered
    on it while it was pending, the reaction jobs queued for them, and the
    continuations that were called, with the state they were called for. *)
Record host_promise := HostPromise {
  state : promise_state;
  reactions : list nat;
  jobs : list (nat * promise_state);
  invoked : list (nat * promise_state)
}.

(** Settling a promise of the host: a second settlement does nothing; the
    first one queues a job for every registered continuation. *)
Definition settle (s : promise_state) (p : host_promise) : host_promise :=
  match state p with
  | Pending => HostPromise s [] (jobs p ++ map (fun k => (k, s)) (reactions p))
                           (invoked p)
  | _ => p
  end.

(** What an element of [promises] is to a combinator: how
    [Promise.resolve(promise)] settles, or [None] when it never does. *)
Definition input : Type := option outcome.

(** The variables of one call: [promises] (when it is an array), the array
    [results], the counter ([completedCount] or [settledCount]), the promise
    returned, and the indices whose handlers [forEach] attached and that
    have not run. *)
Record call := Call {
  promises : list input;
  results : list (option value);
  counter : nat;
  promise : host_promise;
  waiting : list nat;
  delivered : list (nat * outcome)
}.

Definition resolve (v : value) (c : call) : call :=
  Call (promises c) (results c) (counter c) (settle (Fulfilled v) (promise c))
       (waiting c) (delivered c).

Definition reject (e : value) (c : call) : call :=
  Call (promises c) (results c) (counter c) (settle (Rejected e) (promise c))
       (waiting c) (delivered c).

(** [results[index] = v; counter++;] *)
Definition store (index : nat) (v : value) (c : call) : call :=
  Call (promises c) (array_set index v (results c)) (S (counter c))
       (promise c) (waiting c) (delivered c).

(** [if (counter === promises.length) { resolve(results); }] *)
Definition resolve_when_complete (c : call) : call :=
  if decide (counter c = length (promises c))
  then resolve (VArray (results c)) c else c.

(** The executor before it looks at [promises]. *)
Definition created (l : list input) : call :=
  Call l [] 0 (HostPromise Pending [] [] []) [] [].

(** [promises.forEach((promise, index) => { Promise.resolve(promise)
    .then(...).catch(...) })] *)
Definition attach (c : call) : call :=
  Call (promises c) (results c) (counter c) (promise c)
       (seq 0 (length (promises c))) (delivered c).

(** The two handlers of an element, [.then(on_value).catch(on_error)], of
    each combinator. *)
Record handlers := Handlers {
  on_value : nat -> value -> call -> call;
  on_error : nat -> value -> call -> call
}.

Definition myAll_handlers : handlers :=
  Handlers
    (fun index value c => resolve_when_complete (store index value c))
    (fun index error c => reject error c).

Definition myRace_handlers : handlers :=
  Handlers (fun index value c => resolve value c)
           (fun index reason c => reject reason c).


Definition not_an_array : value := VError "TypeError" "Argument must be an array".

(** [Promise.myAll(promises)] when it returns; [None] is an argument that
    is not an array. *)
Definition myAll (promises : option (list input)) : call :=
  match promises with
  | None => reject not_an_array (created [])
  | Some l =>
      if decide (length l = 0) then resolve (VArray []) (created l)
      else attach (created l)
  end.

(** [Promise.myRace(promises)] when it returns. *)
Definition myRace (promises : option (list input)) : call :=
  match promises with
  | None => reject not_an_array (created [])
  | Some l =>
      if decide (length l = 0) then created l
      else attach (created l)
  end.


(** The indices whose promise settles and whose handlers have not run. *)
Definition ready (c : call) : list nat :=
  filter (fun i => is_Some (mjoin (promises c !! i))) (waiting c).

Definition detach (i : nat) (o : outcome) (c : call) : call :=
  Call (promises c) (results c) (counter c) (promise c)
       (filter (fun j => j <> i) (waiting c)) (delivered c ++ [(i, o)]).

(** The host runs the handlers of element [i], whose promise has settled. *)
Definition deliver (h : handlers) (i : nat) (c : call) : call :=
  match mjoin (promises c !! i) with
  | Some (Fulfils v) => on_value h i v (detach i (Fulfils v) c)
  | Some (Rejects e) => on_error h i e (detach i (Rejects e) c)
  | None => c
  end.

(** One step of a schedule: [k] picks among the ready elements. *)
Definition step (h : handlers) (c : call) (k : nat) : call :=
  match ready c !! (k mod length (ready c)) with
  | Some i => deliver h i c
  | None => c
  end.

Definition run (h : handlers) (c : call) (picks : list nat) : call :=
  foldl (step h) c picks.

(** What else happens to the promise returned: a caller registers a
    continuation on it ([then], [catch]), and the host runs the oldest
    reaction job. *)
Inductive event :=
| Settles (k : nat)
| Subscribe (continuation : nat)
| Microtask.

Definition subscribe (k : nat) (p : host_promise) : host_promise :=
  match state p with
  | Pending => HostPromise (state p) (reactions p ++ [k]) (jobs p) (invoked p)
  | s => HostPromise s (reactions p) (jobs p ++ [(k, s)]) (invoked p)
  end.

Definition microtask (p : host_promise) : host_promise :=
  match jobs p with
  | [] => p
  | j :: rest => HostPromise (state p) (reactions p) rest (invoked p ++ [j])
  end.

Definition with_promise (f : host_promise -> host_promise) (c : call) : call :=
  Call (promises c) (results c) (counter c) (f (promise c)) (waiting c)
       (delivered c).

Definition observe (h : handlers) (c : call) (e : event) : call :=
  match e with
  | Settles k => step h c k
  | Subscribe k => with_promise (subscribe k) c
  | Microtask => with_promise microtask c
  end.

Definition run_events (h : handlers) (c : call) (events : list event) : call :=
  foldl (observe h) c events.

End Combinators.

(** * Retry (section 14) *)

Module Retry.

(** [o.key]: reading a property of [undefined] throws; an [Error] has its
    [name] and its [message]; an object has its fields. *)
Definition get (o : value) (key : string) : completion :=
  match o with
  | VUndefined =>
      Throw (VError "TypeError" "Cannot read properties of undefined")
  | VError name message =>
      if String.eqb key "message" then Return (VStr message)
      else if String.eqb key "name" then Return (VStr name)
      else Return VUndefined
  | VObject fields =>
      Return (default VUndefined (snd <$> find (fun f => String.eqb f.1 key) fields))
  | _ => Return VUndefined
  end.

(** [`${v}`]: the string of a value in a template literal. *)
Fixpoint to_string (v : value) : string :=
  match v with
  | VUndefined => "undefined"
  | VNum n => NilZero.string_of_int (Z.to_int n)
  | VStr s => s
  | VError name message =>
      if String.eqb name "" then message
      else if String.eqb message "" then name
      else String.concat "" [name; ": "; message]%string
  | VObject _ => "[object Object]"
  | VArray elems =>
      String.concat ","
        (map (fun x => match x with
                       | None | Some VUndefined => ""%string
                       | Some y => to_string y
                       end) elems)
  | VPromise _ => "[object Object]"
  end.

(** What was observed of a call: how many times [fn] was called, and the
    lines logged, the calls of [onRetry] and the delays waited for, in
    their order. *)
Inductive event :=
| Log (line : string)
| OnRetry (attempt : nat) (error : value) (delay : Z)
| Sleep (delay : Z).

Record state := State {
  invocations : nat;
  events : list event
}.

(** A producer [fn]: what [await fn()] comes to at each of its calls, which
    are counted from 0. *)
Definition producer : Type := nat -> outcome.

Definition call_fn (fn : producer) (st : state) : outcome * state :=
  (fn (invocations st), State (S (invocations st)) (events st)).

Definition emit (e : event) (st : state) : state :=
  State (invocations st) (events st ++ [e]).

(** The loop [for (let attempt = ...; attempt <= maxAttempts; attempt++)]
    of [retry], with [remaining] values of [attempt] to go. *)
Fixpoint retry_from (fn : producer) (maxAttempts : nat) (delay : Z)
    (remaining attempt : nat) (st : state) : outcome * state :=
  match remaining with
  | 0 => (Fulfils VUndefined, st)
  | S remaining =>
      let '(o, st) := call_fn fn st in
      match o with
      | Fulfils result => (Fulfils result, st)
      | Rejects error =>
          if decide (attempt = maxAttempts) then
            match get error "message" with
            | Return message =>
                (Rejects
                   (VError "Error"
                      (String.concat ""
                         ["Failed after "; to_string (VNum (Z.of_nat maxAttempts));
                          " attempts: "; to_string message]%string)),
                 st)
            | Throw e => (Rejects e, st)
            end
          else
            let st :=
              emit (Log (String.concat ""
                           ["Attempt "; to_string (VNum (Z.of_nat attempt));
                            " failed, retrying in "; to_string (VNum delay);
                            "ms..."]%string)) st in
            let st := emit (Sleep delay) st in
            retry_from fn maxAttempts delay remaining (S attempt) st
      end
  end.

(** [retry(fn, maxAttempts, delay)] *)
Definition retry (fn : producer) (maxAttempts : nat) (delay : Z)
  : outcome * state :=
  retry_from fn maxAttempts delay maxAttempts 1 (State 0 []).

(** The options of [retryWithBackoff]; [onRetry] returns ([None]) or
    throws.  The delays and the factor are whole numbers, and
    [delay * backoffFactor] below is their product as integers: that is
    what the code computes as long as the product is at most [2 ^ 53] in
    size, the numbers of JavaScript being doubles. *)
Record options := Options {
  maxAttempts : nat;
  initialDelay : Z;
  maxDelay : Z;
  backoffFactor : Z;
  onRetry : nat -> value -> Z -> option value
}.

(** [options = {}]: the defaults. *)
Definition default_options : options :=
  Options 3 1000 30000 2 (fun _ _ _ => None).

(** The loop of [retryWithBackoff]. *)
Fixpoint retryWithBackoff_from (fn : producer) (opts : options) (delay : Z)
    (remaining attempt : nat) (st : state) : outcome * state :=
  match remaining with
  | 0 => (Fulfils VUndefined, st)
  | S remaining =>
      let '(o, st) := call_fn fn st in
      match o with
      | Fulfils result => (Fulfils result, st)
      | Rejects error =>
          if decide (attempt = maxAttempts opts) then (Rejects error, st)
          else
            let st := emit (OnRetry attempt error delay) st in
            match onRetry opts attempt error delay with
            | Some e => (Rejects e, st)
            | None =>
                let st := emit (Sleep delay) st in
                let delay := Z.min (delay * backoffFactor opts) (maxDelay opts) in
                retryWithBackoff_from fn opts delay remaining (S attempt) st
            end
      end
  end.

(** [retryWithBackoff(fn, options)] *)
Definition retryWithBackoff (fn : producer) (opts : options)
  : outcome * state :=
  retryWithBackoff_from fn opts (initialDelay opts) (maxAttempts opts) 1
                        (State 0 []).

End Retry.

(** * Conversions *)

(** [if (v)], [!v], [v || w]: the values that count as false are
    [undefined], [0] and the empty string. *)
Definition to_boolean (v : value) : bool :=
  match v with
  | VUndefined => false
  | VNum n => negb (Z.eqb n 0)
  | VStr s => negb (String.eqb s "")
  | _ => true
  end.

(** * Retry with a condition (section 14.4) *)

Module RetryWithCondition.

(** What was observed of a call: the calls of [shouldRetry] and of
    [onRetry] and the delays waited for, in their order. *)
Inductive event :=
| ShouldRetry (error : value) (attempt : nat)
| OnRetry (attempt : nat) (error : value)
| Sleep (delay : Z).

Record state := State {
  invocations : nat;
  events : list event
}.

(** The options; [shouldRetry] returns a value or throws, [onRetry]
    returns ([None]) or throws. *)
Record options := Options {
  maxAttempts : nat;
  delay : Z;
  shouldRetry : value -> nat -> completion;
  onRetry : nat -> value -> option value
}.

Definition call_fn (fn : Retry.producer) (st : state) : outcome * state :=
  (fn (invocations st), State (S (invocations st)) (events st)).

Definition emit (e : event) (st : state) : state :=
  State (invocations st) (events st ++ [e]).

(** The loop of [retryWithCondition], with [remaining] values of [attempt]
    to go. *)
Fixpoint retryWithCondition_from (fn : Retry.producer) (opts : options)
    (remaining attempt : nat) (st : state) : outcome * state :=
  match remaining with
  | 0 => (Fulfils VUndefined, st)
  | S remaining =>
      let '(o, st) := call_fn fn st in
      match o with
      | Fulfils result => (Fulfils result, st)
      | Rejects error =>
          if decide (attempt < maxAttempts opts) then
            let st := emit (ShouldRetry error attempt) st in
            match shouldRetry opts error attempt with
            | Throw e => (Rejects e, st)
            | Return canRetry =>
                if to_boolean canRetry then
                  let st := emit (OnRetry attempt error) st in
                  match onRetry opts attempt error with
                  | Some e => (Rejects e, st)
                  | None =>
                      let st := emit (Sleep (delay opts)) st in
                      retryWithCondition_from fn opts remaining (S attempt) st
                  end
                else (Rejects error, st)
            end
          else (Rejects error, st)
      end
  end.

(** [retryWithCondition(fn, options)] *)
Definition retryWithCondition (fn : Retry.producer) (opts : options)
  : outcome * state :=
  retryWithCondition_from fn opts (maxAttempts opts) 1 (State 0 []).

End RetryWithCondition.

(** * Promise.myAny (section 3.5) *)

Module PromiseAny.
Import Combinators.

(** [new AggregateError(errors, 'All promises were rejected')], as the
    object of its properties. *)
Definition aggregate_error (errors : list (option value)) : value :=
  VObject [("name"%string, VStr "AggregateError");
           ("message"%string, VStr "All promises were rejected");
           ("errors"%string, VArray errors)].

(** [if (rejectedCount === promises.length) { reject(new AggregateError(
    errors, ...)); }]; the array [errors] is the field [results] of the
    call and [rejectedCount] its [counter]. *)
Definition reject_when_complete (c : call) : call :=
  if decide (counter c = length (promises c))
  then reject (aggregate_error (results c)) c else c.

Definition myAny_handlers : handlers :=
  Handlers
    (fun index value c => resolve value c)
    (fun index error c => reject_when_complete (store index error c)).

(** [Promise.myAny(promises)] when it returns; [None] is an argument that
    is not an array. *)
Definition myAny (promises : option (list input)) : call :=
  match promises with
  | None => reject not_an_array (created [])
  | Some l =>
      if decide (length l = 0) then reject (aggregate_error []) (created l)
      else attach (created l)
  end.

End PromiseAny.

(** * Array methods (section 1) *)

Module ArrayPolyfills.

(** What is passed in the place of a callback: a function, or another
    value. *)
Inductive argument (F : Type) :=
| NotAFunction (v : value)
| Function (f : F).
Arguments NotAFunction {F} v.
Arguments Function {F} f.

(** [callback.call(thisArg, O[i], i, O)] for the array the method was
    called on: the callback returns a value or throws.  It does not
    change the array. *)
Definition callback : Type := value -> nat -> completion.

(** [callback(accumulator, O[k], k, O)] *)
Definition reducer : Type := value -> value -> nat -> completion.

(** The two checks every method starts with: [this == null] and
    [typeof callback !== 'function'].  [None] is a call on [null] or
    [undefined], as in [Array.prototype.myMap.call(null, f)]: the file is
    a script that is not in strict mode, so that [this] is then the global
    object and the first check does not hold for any call; the method runs
    on the global object, which is taken to have no [length] and no
    indices (as in Node, and in a window without frames), as on an empty
    array. *)
Definition guard {F T} (this : option (list (option value)))
    (callback : argument F) (body : list (option value) -> F -> completion * T)
    (nothing : T) : completion * T :=
  match callback with
  | NotAFunction v =>
      (Throw (VError "TypeError"
                (String.concat ""
                   [Retry.to_string v; " is not a function"]%string)),
       nothing)
  | Function f => body (default [] this) f
  end.

(** The loop of [myMap] from index [i] on, [rest] being the elements of
    [o] from there; [calls] lists the calls of the callback. *)
Fixpoint myMap_from (callback : callback) (i : nat) (rest : list (option value))
    (result : list (option value)) (calls : list (value * nat))
  : completion * list (value * nat) :=
  match rest with
  | [] => (Return (VArray result), calls)
  | None :: rest => myMap_from callback (S i) rest result calls
  | Some x :: rest =>
      match callback x i with
      | Return y =>
          myMap_from callback (S i) rest (array_set i y result)
                     (calls ++ [(x, i)])
      | Throw e => (Throw e, calls ++ [(x, i)])
      end
  end.

(** [Array.prototype.myMap] *)
Definition myMap (this : option (list (option value)))
    (callback : argument callback) : completion * list (value * nat) :=
  guard this callback
    (fun o f => myMap_from f 0 o (replicate (length o) None) []) [].

(** The first loop of [myReduce], which looks for the first element:
    [while (k < len && !(k in O)) k++]. *)
Fixpoint first_existing (k : nat) (rest : list (option value))
  : option (value * nat * list (option value)) :=
  match rest with
  | [] => None
  | None :: rest => first_existing (S k) rest
  | Some x :: rest => Some (x, S k, rest)
  end.

(** The second loop of [myReduce]. *)
Fixpoint myReduce_from (callback : reducer) (k : nat)
    (rest : list (option value)) (accumulator : value)
    (calls : list (value * value * nat))
  : completion * list (value * value * nat) :=
  match rest with
  | [] => (Return accumulator, calls)
  | None :: rest => myReduce_from callback (S k) rest accumulator calls
  | Some x :: rest =>
      match callback accumulator x k with
      | Return y =>
          myReduce_from callback (S k) rest y (calls ++ [(accumulator, x, k)])
      | Throw e => (Throw e, calls ++ [(accumulator, x, k)])
      end
  end.

(** [Array.prototype.myReduce]; [initialValue] is [None] when the call has
    fewer than two arguments. *)
Definition myReduce (this : option (list (option value)))
    (callback : argument reducer) (initialValue : option value)
  : completion * list (value * value * nat) :=
  guard this callback
    (fun o f =>
       match initialValue with
       | Some accumulator => myReduce_from f 0 o accumulator []
       | None =>
           match first_existing 0 o with
           | None =>
               (Throw (VError "TypeError"
                         "Reduce of empty array with no initial value"), [])
           | Some (accumulator, k, rest) =>
               myReduce_from f k rest accumulator []
           end
       end) [].

(** The loop of [myFilter]. *)
Fixpoint myFilter_from (callback : callback) (i : nat)
    (rest : list (option value)) (result : list (option value))
    (calls : list (value * nat)) : completion * list (value * nat) :=
  match rest with
  | [] => (Return (VArray result), calls)
  | None :: rest => myFilter_from callback (S i) rest result calls
  | Some val :: rest =>
      match callback val i with
      | Return keep =>
          myFilter_from callback (S i) rest
            (if to_boolean keep then result ++ [Some val] else result)
            (calls ++ [(val, i)])
      | Throw e => (Throw e, calls ++ [(val, i)])
      end
  end.

(** [Array.prototype.myFilter] *)
Definition myFilter (this : option (list (option value)))
    (callback : argument callback) : completion * list (value * nat) :=
  guard this callback (fun o f => myFilter_from f 0 o [] []) [].

(** The loop of [myForEach]. *)
Fixpoint myForEach_from (callback : callback) (i : nat)
    (rest : list (option value)) (calls : list (value * nat))
  : completion * list (value * nat) :=
  match rest with
  | [] => (Return VUndefined, calls)
  | None :: rest => myForEach_from callback (S i) rest calls
  | Some x :: rest =>
      match callback x i with
      | Return _ => myForEach_from callback (S i) rest (calls ++ [(x, i)])
      | Throw e => (Throw e, calls ++ [(x, i)])
      end
  end.

(** [Array.prototype.myForEach] *)
Definition myForEach (this : option (list (option value)))
    (callback : argument callback) : completion * list (value * nat) :=
  guard this callback (fun o f => myForEach_from f 0 o []) [].

(** The loop of [myFind]. *)
Fixpoint myFind_from (callback : callback) (i : nat)
    (rest : list (option value)) (calls : list (value * nat))
  : completion * list (value * nat) :=
  match rest with
  | [] => (Return VUndefined, calls)
  | None :: rest => myFind_from callback (S i) rest calls
  | Some val :: rest =>
      match callback val i with
      | Return found =>
          if to_boolean found then (Return val, calls ++ [(val, i)])
          else myFind_from callback (S i) rest (calls ++ [(val, i)])
      | Throw e => (Throw e, calls ++ [(val, i)])
      end
  end.

(** [Array.prototype.myFind] *)
Definition myFind (this : option (list (option value)))
    (callback : argument callback) : completion * list (value * nat) :=
  guard this callback (fun o f => myFind_from f 0 o []) [].

End ArrayPolyfills.

(** * Flattening nested arrays (section 11.4) *)

Module Flatten.

(** A depth: a number or [Infinity]. *)
Inductive depth :=
| Finite (n : Z)
| Infinity.

(** [depth === 0] *)
Definition is_zero (d : depth) : bool :=
  match d with
  | Finite n => (n =? 0)%Z
  | Infinity => false
  end.

(** [depth - 1] *)
Definition minus_one (d : depth) : depth :=
  match d with
  | Finite n => Finite (n - 1)
  | Infinity => Infinity
  end.

(** [Array.isArray(val)] *)
Definition isArray (val : value) : bool :=
  match val with
  | VArray _ => true
  | _ => false
  end.

(** [...a] in the arguments of [push]: the iterator of an array gives
    [undefined] for a hole. *)
Definition spread (a : list (option value)) : list (option value) :=
  (fun slot => Some (default VUndefined slot)) <$> a.

(** [flattenArray(arr, depth)] for the array [arr]: [slice] copies the
    holes; [reduce] skips them. *)
Fixpoint flattenArray_of (arr : value) (d : depth) : list (option value) :=
  match arr with
  | VArray elems =>
      if is_zero d then elems
      else
        flat_map (fun slot =>
                    match slot with
                    | None => []
                    | Some val =>
                        match val with
                        | VArray _ => spread (flattenArray_of val (minus_one d))
                        | _ => [Some val]
                        end
                    end) elems
  | _ => []
  end.

Definition flattenArray (arr : list (option value)) (d : option depth)
  : list (option value) :=
  flattenArray_of (VArray arr) (default Infinity d).

(** [currentDepth < depth] *)
Definition below (currentDepth : nat) (d : depth) : bool :=
  match d with
  | Finite n => (Z.of_nat currentDepth <? n)%Z
  | Infinity => true
  end.

(** The [flatten(arr, currentDepth)] of [myFlat(depth)]. *)
Fixpoint flatten (d : depth) (arr : value) (currentDepth : nat)
  : list (option value) :=
  match arr with
  | VArray elems =>
      flat_map (fun slot =>
                  match slot with
                  | None => []
                  | Some val =>
                      match val with
                      | VArray _ =>
                          if below currentDepth d
                          then spread (flatten d val (S currentDepth))
                          else [Some val]
                      | _ => [Some val]
                      end
                  end) elems
  | _ => []
  end.

(** [this.myFlat(depth)]; the depth is 1 when it is not given. *)
Definition myFlat (this : list (option value)) (d : option depth)
  : list (option value) :=
  flatten (default (Finite 1) d) (VArray this) 0.

End Flatten.

(** * Event emitter (section 7) *)

Module EventEmitter.

(** A function that can be a listener: function [id] of the caller, or the
    [onceWrapper] that the [n]-th call of [once] built, which closes over
    [event] and [listener].  Two functions are [===] when they are the same
    here.  A wrapper has the property [listener]; a function of the caller
    is taken to have no property of that name. *)
Inductive func :=
| User (id : nat)
| OnceWrapper (n : nat) (event : string) (listener : func).

#[global] Instance func_eq_dec : EqDecision func.
Proof.
  intros f g. unfold Decision.
  decide equality; [apply Nat.eq_dec|apply string_dec|apply Nat.eq_dec].
Defined.

(** [f.listener], [None] for [undefined]. *)
Definition listener_of (f : func) : option func :=
  match f with
  | User _ => None
  | OnceWrapper _ _ listener => Some listener
  end.

(** What is passed in the place of a listener. *)
Inductive argument :=
| NotAFunction (v : value)
| Function (f : func).

(** [listener === listenerToRemove || listener.listener === listenerToRemove] *)
Definition removed (listenerToRemove : argument) (listener : func) : bool :=
  match listenerToRemove with
  | Function g =>
      bool_decide (listener = g) || bool_decide (listener_of listener = Some g)
  | NotAFunction VUndefined => bool_decide (listener_of listener = None)
  | NotAFunction _ => false
  end.

(** An emitter: the own properties of [this.events], and the number of
    wrappers built so far. *)
Record emitter := Emitter {
  events : string -> option (list func);
  wrappers : nat
}.

(** [new EventEmitter()] *)
Definition new : emitter := Emitter (fun _ => None) 0.

(** What a method does: it returns or throws. *)
Inductive result (A : Type) :=
| Returns (a : A)
| Throws (e : value).
Arguments Returns {A} a.
Arguments Throws {A} e.

(** What [emit] does itself that can be seen from outside: its calls of
    the functions of the caller and the errors it gives to [console.error],
    in their order. *)
Inductive effect :=
| Called (id : nat) (args : list value)
| ConsoleError (error : value).

(** [this.events[event]]: nothing, an array of listeners, or what
    [Object.prototype] has under that name. *)
Inductive slot :=
| Absent
| Listeners (l : list func)
| Inherited.

Section emitter.
(** [inherited name] holds for the names of the properties of
    [Object.prototype], which [this.events] inherits; they are functions,
    or for ['__proto__'] an object, so they are true values without [push],
    [filter] or an iterator.  [apply id args] is the call of function [id] of
    the caller with [this] the emitter: it returns or throws, and may have
    changed the emitter. *)
Context (inherited : string -> bool).
Context (apply : nat -> list value -> emitter -> completion * emitter).

Definition lookup (st : emitter) (event : string) : slot :=
  match events st event with
  | Some l => Listeners l
  | None => if inherited event then Inherited else Absent
  end.

(** [this.events[event] = v], and [delete this.events[event]] for [None]. *)
Definition set_event (event : string) (v : option (list func)) (st : emitter)
  : emitter :=
  Emitter (fun e => if String.eqb e event then v else events st e) (wrappers st).

Definition not_a_function (method : string) : value :=
  VError "TypeError"
         (String.concat "" ["this.events[event]."; method; " is not a function"]%string).

(** [on(event, listener)] *)
Definition on (event : string) (listener : argument) (st : emitter)
  : result unit * emitter :=
  match listener with
  | NotAFunction _ =>
      (Throws (VError "TypeError" "Listener must be a function"), st)
  | Function f =>
      match lookup st event with
      | Absent => (Returns (), set_event event (Some ([] ++ [f])) st)
      | Listeners l => (Returns (), set_event event (Some (l ++ [f])) st)
      | Inherited => (Throws (not_a_function "push"), st)
      end
  end.

(** [once(event, listener)] *)
Definition once (event : string) (listener : argument) (st : emitter)
  : result unit * emitter :=
  match listener with
  | NotAFunction _ =>
      (Throws (VError "TypeError" "Listener must be a function"), st)
  | Function f =>
      let onceWrapper := OnceWrapper (wrappers st) event f in
      on event (Function onceWrapper) (Emitter (events st) (S (wrappers st)))
  end.

(** [off(event, listenerToRemove)] *)
Definition off (event : string) (listenerToRemove : argument) (st : emitter)
  : result unit * emitter :=
  match lookup st event with
  | Absent => (Returns (), st)
  | Inherited => (Throws (not_a_function "filter"), st)
  | Listeners l =>
      let l' := List.filter (fun f => negb (removed listenerToRemove f)) l in
      (Returns (),
       set_event event (if length l' =? 0 then None else Some l') st)
  end.

(** [listener.apply(this, args)]: a wrapper calls its listener and then, if
    that returned, [this.off(event, onceWrapper)]. *)
Fixpoint invoke (listener : func) (args : list value) (st : emitter)
  : completion * list effect * emitter :=
  match listener with
  | User id =>
      let '(c, st) := apply id args st in (c, [Called id args], st)
  | OnceWrapper _ event inner =>
      let '(c, effects, st) := invoke inner args st in
      match c with
      | Return _ =>
          match off event (Function listener) st with
          | (Returns _, st) => (Return VUndefined, effects, st)
          | (Throws e, st) => (Throw e, effects, st)
          end
      | Throw e => (Throw e, effects, st)
      end
  end.

(** The callback of [forEach] in [emit]. *)
Definition notify (args : list value) (acc : list effect * emitter)
    (listener : func) : list effect * emitter :=
  let '(c, effects, st) := invoke listener args acc.2 in
  match c with
  | Return _ => (acc.1 ++ effects, st)
  | Throw error => (acc.1 ++ effects ++ [ConsoleError error], st)
  end.

(** [emit(event, ...args)] *)
Definition emit (event : string) (args : list value) (st : emitter)
  : result bool * list effect * emitter :=
  match lookup st event with
  | Absent => (Returns false, [], st)
  | Inherited =>
      (Throws (VError "TypeError" "this.events[event] is not iterable"), [], st)
  | Listeners l =>
      let listeners := l in
      let '(effects, st) := foldl (notify args) ([], st) listeners in
      (Returns true, effects, st)
  end.

(** [removeAllListeners(event)]; [None] is no argument, and the empty
    string is a false value as well. *)
Definition removeAllListeners (event : option string) (st : emitter) : emitter :=
  match event with
  | Some e =>
      if String.eqb e "" then Emitter (fun _ => None) (wrappers st)
      else set_event e None st
  | None => Emitter (fun _ => None) (wrappers st)
  end.

(** What a program does with an emitter, one call at a time. *)
Inductive op :=
| On (event : string) (listener : argument)
| Once (event : string) (listener : argument)
| Off (event : string) (listenerToRemove : argument)
| Emit (event : string) (args : list value)
| RemoveAllListeners (event : option string).

Definition step (acc : list effect * emitter) (o : op) : list effect * emitter :=
  match o with
  | On event listener => (acc.1, (on event listener acc.2).2)
  | Once event listener => (acc.1, (once event listener acc.2).2)
  | Off event listenerToRemove => (acc.1, (off event listenerToRemove acc.2).2)
  | Emit event args =>
      let '(_, effects, st) := emit event args acc.2 in (acc.1 ++ effects, st)
  | RemoveAllListeners event => (acc.1, removeAllListeners event acc.2)
  end.

Definition run (ops : list op) : list effect * emitter := foldl step ([], new) ops.

End emitter.

End EventEmitter.

(** * Timers of the host *)

Module Timers.

(** A timer that [setTimeout] created: its id, the time from which the
    host may run it, and the function it runs. *)
Record timer (F : Type) := Timer {
  id : nat;
  due : Z;
  callback : F
}.
Arguments Timer {F} id due callback.
Arguments id {F} t.
Arguments due {F} t.
Arguments callback {F} t.

(** The timers that wait, in the order of their creation, and the number
    of timers created so far; the ids are 1, 2, ..., which are true
    values. *)
Record host (F : Type) := Host {
  pending : list (timer F);
  created : nat
}.
Arguments Host {F} pending created.
Arguments pending {F} h.
Arguments created {F} h.

Definition idle {F} : host F := Host [] 0.

(** [setTimeout(f, delay)] at the time [now]: the host runs [f] once, not
    before [delay] has passed. *)
Definition setTimeout {F} (f : F) (delay : Z) (now : Z) (h : host F)
  : nat * host F :=
  let i := S (created h) in
  (i, Host (pending h ++ [Timer i (now + delay)%Z f]) i).

(** [clearTimeout(i)]; [None] is [undefined] or [null]. *)
Definition clearTimeout {F} (i : option nat) (h : host F) : host F :=
  match i with
  | Some i => Host (filter (fun t => id t <> i) (pending h)) (created h)
  | None => h
  end.

(** The timers the host may run at the time [now]. *)
Definition ready {F} (now : Z) (h : host F) : list (timer F) :=
  filter (fun t => (due t <= now)%Z) (pending h).

(** The host takes one of the timers that are ready off its list, to run
    it; [pick] chooses among them. *)
Definition take {F} (now : Z) (pick : nat) (h : host F)
  : option (timer F * host F) :=
  match ready now h !! (pick mod length (ready now h)) with
  | Some t => Some (t, Host (filter (fun t' => id t' <> id t) (pending h))
                            (created h))
  | None => None
  end.

End Timers.

(** * Debounce (section 5) *)

Module Debounce.
Import Timers.

(** What a debounced function keeps: [timeoutId] ([None] for [undefined]
    and [null]); with it the timers of the host, whose functions are the
    closures [later], each given by the [args] it closes over, and the
    calls of [func] so far, each with its time and arguments. *)
Record state := State {
  timeoutId : option nat;
  timers : host (list value);
  calls : list (Z * list value)
}.

(** [debounce(func, delay, options)], before the first call. *)
Definition fresh : state := State None idle [].

(** [func.apply(context, args)] at the time [now]; [func] leaves the
    debounced function alone. *)
Definition call_func (now : Z) (args : list value) (st : state) : state :=
  State (timeoutId st) (timers st) (calls st ++ [(now, args)]).

(** [debounced(...args)] at the time [now]. *)
Definition debounced (delay : Z) (immediate : bool) (now : Z)
    (args : list value) (st : state) : state :=
  let callNow := immediate && negb (bool_decide (is_Some (timeoutId st))) in
  let h := clearTimeout (timeoutId st) (timers st) in
  let '(i, h) := setTimeout args delay now h in
  let st := State (Some i) h (calls st) in
  if callNow then call_func now args st else st.

(** [later], which closes over [args], run at the time [now]. *)
Definition later (immediate : bool) (now : Z) (args : list value) (st : state)
  : state :=
  let st := State None (timers st) (calls st) in
  if negb immediate then call_func now args st else st.

(** What happens to a debounced function: it is called, or the host runs
    a timer that is ready, if there is one. *)
Inductive event :=
| Call (now : Z) (args : list value)
| Fire (now : Z) (pick : nat).

Definition step (delay : Z) (immediate : bool) (st : state) (e : event) : state :=
  match e with
  | Call now args => debounced delay immediate now args st
  | Fire now pick =>
      match take now pick (timers st) with
      | Some (t, h) =>
          later immediate now (callback t) (State (timeoutId st) h (calls st))
      | None => st
      end
  end.

Definition run (delay : Z) (immediate : bool) (es : list event) : state :=
  foldl (step delay immediate) fresh es.

End Debounce.

(** * setInterval with setTimeout (section 8) *)

Module MySetInterval.
Import Timers.

(** What a call of [mySetInterval] keeps: [timeoutId] and [count]; with
    them the timers of the host, whose functions are all the one arrow
    function of [interval], and the times of the calls of [callback]. *)
Record state := State {
  timeoutId : option nat;
  count : nat;
  timers : host unit;
  calls : list Z
}.

(** What a call of [callback] does: it may call [clear] of the object that
    [mySetInterval] returned, and it returns or throws. *)
Record conduct := Conduct {
  clears : bool;
  completes : completion
}.

Section interval.
(** [callback n] is the call of [callback] after [n] earlier ones. *)
Context (callback : nat -> conduct) (delay : Z).

(** [interval()] at the time [now]. *)
Definition interval (now : Z) (st : state) : state :=
  let '(i, h) := setTimeout () delay now (timers st) in
  State (Some i) (count st) h (calls st).

(** [mySetInterval(callback, delay, ...args)] at the time [now]. *)
Definition mySetInterval (now : Z) : state :=
  interval now (State None 0 idle []).

(** [clear()] *)
Definition clear (st : state) : state :=
  State (timeoutId st) (count st) (clearTimeout (timeoutId st) (timers st))
        (calls st).

(** The function of the timer, run at the time [now]; when [callback]
    throws, neither [count++] nor [interval()] is reached. *)
Definition tick (now : Z) (st : state) : state :=
  let c := callback (length (calls st)) in
  let st := State (timeoutId st) (count st) (timers st) (calls st ++ [now]) in
  let st := if clears c then clear st else st in
  match completes c with
  | Return _ =>
      interval now (State (timeoutId st) (S (count st)) (timers st) (calls st))
  | Throw _ => st
  end.

(** What happens: the host runs a timer that is ready, if there is one, or
    the program calls [clear]. *)
Inductive event :=
| Fire (now : Z) (pick : nat)
| Clear.

Definition step (st : state) (e : event) : state :=
  match e with
  | Fire now pick =>
      match take now pick (timers st) with
      | Some (_, h) => tick now (State (timeoutId st) (count st) h (calls st))
      | None => st
      end
  | Clear => clear st
  end.

Definition run (start : Z) (es : list event) : state :=
  foldl step (mySetInterval start) es.

End interval.

End MySetInterval.

(** * The LRU cache (section 12.3) *)

Module LRUCache.

Section lru.
(** The keys, compared as a [Map] compares them. *)
Context {K : Type} `{EqDecision K}.

(** A [Map] is the list of its entries in the order of insertion. *)

Definition map_has (key : K) (m : list (K * value)) : bool :=
  bool_decide (key ∈ m.*1).

Fixpoint map_get (key : K) (m : list (K * value)) : option value :=
  match m with
  | [] => None
  | e :: m => if decide (e.1 = key) then Some e.2 else map_get key m
  end.

Definition map_delete (key : K) (m : list (K * value)) : list (K * value) :=
  filter (fun e => e.1 <> key) m.

(** [map.set(key, value)]: the entry of a key the map has keeps its
    place. *)
Definition map_set (key : K) (v : value) (m : list (K * value)) : list (K * value) :=
  if map_has key m
  then (fun e => if decide (e.1 = key) then (key, v) else e) <$> m
  else m ++ [(key, v)].

(** The fields of an [LRUCache]. *)
Record t := LRU {
  capacity : Z;
  cache : list (K * value)
}.

(** [new LRUCache(capacity)] *)
Definition new (capacity : Z) : t := LRU capacity [].

(** [get(key)] *)
Definition get (key : K) (c : t) : value * t :=
  if negb (map_has key (cache c)) then (VUndefined, c)
  else
    let v := default VUndefined (map_get key (cache c)) in
    let m := map_delete key (cache c) in
    let m := map_set key v m in
    (v, LRU (capacity c) m).

(** [put(key, value)]; [this.cache.keys().next().value] is the key of the
    first entry, and deleting it does nothing when there is none. *)
Definition put (key : K) (v : value) (c : t) : t :=
  let m := if map_has key (cache c) then map_delete key (cache c)
           else cache c in
  let m := if (capacity c <=? Z.of_nat (length m))%Z
           then match head m with
                | Some firstEntry => map_delete firstEntry.1 m
                | None => m
                end
           else m in
  LRU (capacity c) (map_set key v m).

Definition has (key : K) (c : t) : bool := map_has key (cache c).

Definition clear (c : t) : t := LRU (capacity c) [].

Definition size (c : t) : nat := length (cache c).

(** What a program does to a cache. *)
Inductive op :=
| Get (key : K)
| Put (key : K) (v : value)
| Has (key : K)
| Clear.

Definition step (c : t) (o : op) : t :=
  match o with
  | Get key => (get key c).2
  | Put key v => put key v c
  | Has key => c
  | Clear => clear c
  end.

Definition run (c : t) (ops : list op) : t := foldl step c ops.
End lru.

Arguments t K : clear implicits.
Arguments op K : clear implicits.

End LRUCache.

(** * Memoization (section 12) *)

Module Memoize.
Import LRUCache.

Section memoize.
(** The keys of the cache, compared as a [Map] compares them, and the key
    [JSON.stringify(args)] of a list of arguments. *)
Context {K : Type} `{EqDecision K} (JSON_stringify : list value -> K).

(** What a memoized function keeps and what was observed of it: the
    cache, the arguments of the calls of [fn], and the lines logged. *)
Record memo := Memo {
  cache : list (K * value);
  calls : list (list value);
  console : list string
}.

(** [memoize(fn)], before its first call. *)
Definition fresh : memo := Memo [] [] [].

(** A call of the function that [memoize(fn)] returns; [fn.apply(this,
    args)] returns a value or throws. *)
Definition memoize (fn : list value -> completion) (args : list value)
    (st : memo) : completion * memo :=
  let key := JSON_stringify args in
  if map_has key (cache st) then
    (Return (default VUndefined (map_get key (cache st))),
     Memo (cache st) (calls st) (console st ++ ["Cache hit"%string]))
  else
    let st := Memo (cache st) (calls st ++ [args])
                   (console st ++ ["Computing..."%string]) in
    match fn args with
    | Return result =>
        (Return result, Memo (map_set key result (cache st)) (calls st) (console st))
    | Throw e => (Throw e, st)
    end.

(** A call of the function that [memoizeWithKey(fn, keyGenerator)]
    returns; [keyGenerator] is [None] when it is not given. *)
Definition memoizeWithKey (fn : list value -> completion)
    (keyGenerator : option (list value -> K)) (args : list value) (st : memo)
  : completion * memo :=
  let key := match keyGenerator with
             | Some generate => generate args
             | None => JSON_stringify args
             end in
  if map_has key (cache st) then
    (Return (default VUndefined (map_get key (cache st))), st)
  else
    let st := Memo (cache st) (calls st ++ [args]) (console st) in
    match fn args with
    | Return result =>
        (Return result, Memo (map_set key result (cache st)) (calls st) (console st))
    | Throw e => (Throw e, st)
    end.

(** The function that [memoizeWithLRU(fn, maxSize)] returns keeps an
    [LRUCache]. *)
Record memo_lru := MemoLRU {
  lru : LRUCache.t K;
  lru_calls : list (list value)
}.

Definition fresh_lru (maxSize : Z) : memo_lru := MemoLRU (new maxSize) [].

Definition memoizeWithLRU (fn : list value -> completion) (args : list value)
    (st : memo_lru) : completion * memo_lru :=
  let key := JSON_stringify args in
  if has key (lru st) then
    let '(v, c) := get key (lru st) in
    (Return v, MemoLRU c (lru_calls st))
  else
    let st := MemoLRU (lru st) (lru_calls st ++ [args]) in
    match fn args with
    | Return result => (Return result, MemoLRU (put key result (lru st)) (lru_calls st))
    | Throw e => (Throw e, st)
    end.

(** The entry [{ value: result, timestamp: now }] of the cache of
    [memoizeWithExpiration]. *)
Definition stamped (result : value) (now : Z) : value :=
  VObject [("value"%string, result); ("timestamp"%string, VNum now)].

(** [entry.name] for an entry of the cache. *)
Definition field (name : string) (entry : value) : value :=
  match entry with
  | VObject fields =>
      default VUndefined (snd <$> find (fun f => String.eqb f.1 name) fields)
  | _ => VUndefined
  end.

(** What the function that [memoizeWithExpiration(fn, ttl)] returns keeps;
    of a call of [fn] the time is kept with the arguments. *)
Record memo_ttl := MemoTTL {
  ttl_cache : list (K * value);
  ttl_calls : list (Z * list value)
}.

(** A call at the time [now] that [Date.now()] gives; what [fn] returns
    may depend on the time of its call. *)
Definition memoizeWithExpiration (fn : Z -> list value -> completion) (ttl : Z)
    (now : Z) (args : list value) (st : memo_ttl) : completion * memo_ttl :=
  let key := JSON_stringify args in
  let hit :=
    if map_has key (ttl_cache st) then
      let entry := default VUndefined (map_get key (ttl_cache st)) in
      match field "timestamp" entry with
      | VNum timestamp =>
          if (now - timestamp <? ttl)%Z then Some (field "value" entry)
          else None
      | _ => None
      end
    else None in
  match hit with
  | Some v => (Return v, st)
  | None =>
      let m := if map_has key (ttl_cache st)
               then map_delete key (ttl_cache st) else ttl_cache st in
      let st := MemoTTL m (ttl_calls st ++ [(now, args)]) in
      match fn now args with
      | Return result =>
          (Return result,
           MemoTTL (map_set key (stamped result now) (ttl_cache st)) (ttl_calls st))
      | Throw e => (Throw e, st)
      end
  end.

(** A sequence of calls of a function with a state: the completions, in
    the order of the calls, and the state at the end. *)
Definition call_all {A S} (f : A -> S -> completion * S) (l : list A) (st : S)
  : list completion * S :=
  foldl (fun acc a => let '(c, st) := f a acc.2 in (acc.1 ++ [c], st)) ([], st) l.

End memoize.

Arguments memo K : clear implicits.
Arguments memo_lru K : clear implicits.
Arguments memo_ttl K : clear implicits.
Arguments fresh {K}.

End Memoize.

(** * Facts about lists and arrays *)

Lemma sum_list_with_insert {A} (g : A -> nat) (l : list A) i x y :
  l !! i = Some x ->
  sum_list_with g (<[i := y]> l) + g x = sum_list_with g l + g y.
Proof.
  revert i. induction l as [|a l IH]; intros [|i] H; simpl in *; try done.
  - injection H as ->. lia.
  - specialize (IH i H). lia.
Qed.

Lemma sum_list_with_zero {A} (g : A -> nat) (l : list A) :
  sum_list_with g l = 0 <-> Forall (fun x => g x = 0) l.
Proof.
  induction l as [|a l IH]; simpl.
  - split; [constructor|done].
  - rewrite Forall_cons, <- IH. lia.
Qed.

Lemma array_set_lt {T} (index : nat) (x : T) (a : list (option T)) :
  index < length a -> array_set index x a = <[index := Some x]> a.
Proof. intros H. unfold array_set. by rewrite decide_True. Qed.

Lemma length_array_set {T} (index : nat) (x : T) (a : list (option T)) :
  length (array_set index x a) = Nat.max (length a) (S index).
Proof.
  unfold array_set. destruct (decide _).
  - rewrite length_insert. lia.
  - rewrite !length_app, length_replicate. simpl. lia.
Qed.

Lemma array_get_set {T} (index j : nat) (x : T) (a : list (option T)) :
  array_get (array_set index x a) j
  = if decide (index = j) then Some x else array_get a j.
Proof.
  unfold array_get, array_set. destruct (decide (index < length a)).
  - destruct (decide (index = j)) as [->|Hne].
    + by rewrite list_lookup_insert_eq.
    + by rewrite list_lookup_insert_ne.
  - destruct (decide (j < length a)).
    + rewrite lookup_app_l by done. rewrite decide_False by lia. done.
    + rewrite lookup_app_r by lia.
      rewrite (lookup_ge_None_2 a j) by lia. simpl.
      destruct (decide (j - length a < index - length a)).
      * rewrite lookup_app_l by (rewrite length_replicate; lia).
        rewrite lookup_replicate_2 by lia. rewrite decide_False by lia. done.
      * rewrite lookup_app_r by (rewrite length_replicate; lia).
        rewrite length_replicate.
        destruct (decide (index = j)) as [->|Hne].
        -- by rewrite Nat.sub_diag.
        -- destruct (j - length a - (index - length a)) as [|k] eqn:Hk;
             [lia|]. done.
Qed.

(** * Facts about MyPromise *)

Module MyPromiseFacts.
Import MyPromise.

(** ** The operations, as equations on the world *)

Definition fulfil (v : value) (o : promise) : promise :=
  Promise fulfilled v (reason o) (onFulfilledCallbacks o) (onRejectedCallbacks o).

Definition refuse (r : value) (o : promise) : promise :=
  Promise rejected (value_ o) r (onFulfilledCallbacks o) (onRejectedCallbacks o).

Definition park (rf rr : reaction) (o : promise) : promise :=
  Promise (state o) (value_ o) (reason o)
    (onFulfilledCallbacks o ++ [rf]) (onRejectedCallbacks o ++ [rr]).

Lemma forEach_call_eq cbs w :
  forEach_call cbs w = set_timers (timers w ++ cbs) w.
Proof.
  unfold forEach_call. revert w.
  induction cbs as [|r cbs IH]; intros w; simpl.
  - destruct w; unfold set_timers; simpl. by rewrite app_nil_r.
  - rewrite IH. unfold setTimeout, set_timers; simpl. by rewrite <- app_assoc.
Qed.

Lemma resolve_pending p v w o :
  heap w !! p = Some o -> state o = pending ->
  resolve p v w =
    World (<[p := fulfil v o]> (heap w)) (timers w ++ onFulfilledCallbacks o)
          (calls w) (executors w).
Proof.
  intros Hp Hs. unfold resolve. rewrite Hp, Hs, forEach_call_eq. reflexivity.
Qed.

Lemma reject_pending p r w o :
  heap w !! p = Some o -> state o = pending ->
  reject p r w =
    World (<[p := refuse r o]> (heap w)) (timers w ++ onRejectedCallbacks o)
          (calls w) (executors w).
Proof.
  intros Hp Hs. unfold reject. rewrite Hp, Hs, forEach_call_eq. reflexivity.
Qed.

Lemma resolve_not_pending p v w :
  (forall o, heap w !! p = Some o -> state o <> pending) -> resolve p v w = w.
Proof.
  intros H. unfold resolve. destruct (heap w !! p) as [o|] eqn:Hp; [|done].
  specialize (H o eq_refl). by destruct (state o).
Qed.

Lemma reject_not_pending p r w :
  (forall o, heap w !! p = Some o -> state o <> pending) -> reject p r w = w.
Proof.
  intros H. unfold reject. destruct (heap w !! p) as [o|] eqn:Hp; [|done].
  specialize (H o eq_refl). by destruct (state o).
Qed.

(** The reaction [then] builds for the state [s] of [this]. *)
Definition on_fulfilled (p : nat) (f : option fn) (c : nat) : reaction :=
  Reaction p false (default (Closure Return) f) c.

Definition on_rejected (p : nat) (g : option fn) (c : nat) : reaction :=
  Reaction p true (default (Closure Throw) g) c.

Lemma then_eq p f g w o :
  heap w !! p = Some o ->
  then_ p f g w =
    (let c := length (heap w) in
     match state o with
     | pending =>
         World (<[p := park (on_fulfilled p f c) (on_rejected p g c) o]> (heap w ++ [blank]))
               (timers w) (calls w) (executors w)
     | fulfilled =>
         World (heap w ++ [blank]) (timers w ++ [on_fulfilled p f c])
               (calls w) (executors w)
     | rejected =>
         World (heap w ++ [blank]) (timers w ++ [on_rejected p g c])
               (calls w) (executors w)
     end, length (heap w)).
Proof.
  intros Hp. unfold then_, park. rewrite Hp.
  destruct (state o) eqn:Hs; rewrite ?Hs; reflexivity.
Qed.

Lemma then_none p f g w :
  heap w !! p = None -> then_ p f g w = (w, length (heap w)).
Proof. intros Hp. unfold then_. by rewrite Hp. Qed.

(** Case analysis on a settlement call: nothing happens, or the pending
    promise is settled and its callbacks are scheduled. *)
Variant settles (p : nat) (w w' : world) : Prop :=
| settles_noop : w' = w -> settles p w w'
| settles_fulfil o v :
    heap w !! p = Some o -> state o = pending ->
    w' = World (<[p := fulfil v o]> (heap w)) (timers w ++ onFulfilledCallbacks o)
               (calls w) (executors w) ->
    settles p w w'
| settles_refuse o r :
    heap w !! p = Some o -> state o = pending ->
    w' = World (<[p := refuse r o]> (heap w)) (timers w ++ onRejectedCallbacks o)
               (calls w) (executors w) ->
    settles p w w'.

Lemma resolve_settles p v w : settles p w (resolve p v w).
Proof.
  destruct (heap w !! p) as [o|] eqn:Hp.
  - destruct (decide (state o = pending)) as [Hs|Hs].
    + by apply (settles_fulfil _ _ _ o v); [| |apply resolve_pending].
    + apply settles_noop, resolve_not_pending. intros o' ?. congruence.
  - apply settles_noop, resolve_not_pending. intros o' ?. congruence.
Qed.

Lemma reject_settles p r w : settles p w (reject p r w).
Proof.
  destruct (heap w !! p) as [o|] eqn:Hp.
  - destruct (decide (state o = pending)) as [Hs|Hs].
    + by apply (settles_refuse _ _ _ o r); [| |apply reject_pending].
    + apply settles_noop, reject_not_pending. intros o' ?. congruence.
  - apply settles_noop, reject_not_pending. intros o' ?. congruence.
Qed.

(** ** Where a reaction waits, and what it will settle *)

Definition kind (r : reaction) : pstate :=
  if on_rejection r then rejected else fulfilled.

Definition input (r : reaction) (o : promise) : value :=
  if on_rejection r then reason o else value_ o.

(** The two handlers of one [then] call: two functions of the caller, or
    [resolve] and [reject] of one promise. *)
Definition partner (f g : fn) : Prop :=
  match f, g with
  | Closure _, Closure _ => True
  | ResolveOf a, RejectOf b => a = b
  | _, _ => False
  end.

(** The two callbacks one [then] call pushes on a pending promise. *)
Definition mates (r1 r2 : reaction) : Prop :=
  this r1 = this r2 /\ promise2 r1 = promise2 r2 /\
  on_rejection r1 = false /\ on_rejection r2 = true /\
  partner (handler r1) (handler r2).

Definition native_target (f : fn) : option nat :=
  match f with
  | Closure _ => None
  | ResolveOf p | RejectOf p => Some p
  end.

(** [to c r]: reaction [r] was created by the [then] call that returned [c]. *)
Definition to (c : nat) (r : reaction) : nat :=
  if decide (promise2 r = c) then 1 else 0.

(** [aim c r]: running [r] may settle [c], as its [promise2] or through its
    handler. *)
Definition aim (c : nat) (r : reaction) : nat :=
  to c r + (if decide (native_target (handler r) = Some c) then 1 else 0).

(** A measure that every timer run decreases. *)
Definition weight (r : reaction) : nat :=
  match handler r with Closure _ => 3 | _ => 1 end.

Definition respects (f : reaction -> nat) : Prop :=
  forall r1 r2, mates r1 r2 -> f r1 = f r2.

Lemma to_respects c : respects (to c).
Proof. intros r1 r2 (_ & H & _). unfold to. by rewrite H. Qed.

Lemma aim_respects c : respects (aim c).
Proof.
  intros r1 r2 (_ & H & _ & _ & Hp). unfold aim, to. rewrite H. f_equal.
  destruct (handler r1), (handler r2); simpl in *; try done. by subst.
Qed.

Lemma weight_respects : respects weight.
Proof.
  intros r1 r2 (_ & _ & _ & _ & Hp). unfold weight.
  by destruct (handler r1), (handler r2).
Qed.

(** The reactions stored on a promise count while it is pending. *)
Definition parked (f : reaction -> nat) (o : promise) : nat :=
  match state o with
  | pending => sum_list_with f (onFulfilledCallbacks o)
  | _ => 0
  end.

Definition load (f : reaction -> nat) (w : world) : nat :=
  sum_list_with f (timers w) + sum_list_with (parked f) (heap w).

Definition runs_of (c : nat) (w : world) : nat :=
  sum_list_with (fun cr => to c (called cr)) (calls w).

Lemma sum_list_with_mates f l1 l2 :
  respects f -> Forall2 mates l1 l2 ->
  sum_list_with f l1 = sum_list_with f l2.
Proof.
  intros Hf H. induction H as [|r1 r2 l1 l2 Hm _ IH]; simpl; [done|].
  by rewrite (Hf _ _ Hm), IH.
Qed.

(** ** Well-formed worlds *)

(** [c] was returned by [then] and is still pending. *)
Definition live (w : world) (c : nat) : Prop :=
  (c ∉ executors w) /\ (state <$> (heap w !! c) = Some pending).

Record wf (w : world) : Prop := {
  wf_parked : forall p o, heap w !! p = Some o ->
    Forall2 mates (onFulfilledCallbacks o) (onRejectedCallbacks o) /\
    Forall (fun r => this r = p) (onFulfilledCallbacks o);
  wf_timers : forall r, r ∈ timers w ->
    exists o, heap w !! this r = Some o /\ state o = kind r;
  wf_calls : forall cr, cr ∈ calls w ->
    exists o, heap w !! this (called cr) = Some o /\
              state o = kind (called cr) /\ argument cr = input (called cr) o;
  wf_executors : forall p, p ∈ executors w -> p < length (heap w);
  wf_once : forall c,
    load (to c) w + runs_of c w =
    if decide ((c < length (heap w)) /\ (c ∉ executors w)) then 1 else 0;
  wf_settlers : forall c,
    load (aim c) w <= 1 /\ (0 < load (aim c) w -> live w c)
}.

Lemma wf_empty : wf empty.
Proof.
  split.
  - by intros [|p] o H.
  - intros r H. by apply not_elem_of_nil in H.
  - intros r H. by apply not_elem_of_nil in H.
  - intros r H. by apply not_elem_of_nil in H.
  - intros c. rewrite decide_False; [done|]. simpl. lia.
  - intros c. unfold load; simpl. split; lia.
Qed.

Lemma mates_kind l1 l2 :
  Forall2 mates l1 l2 ->
  Forall (fun r => kind r = fulfilled) l1 /\ Forall (fun r => kind r = rejected) l2.
Proof.
  induction 1 as [|r1 r2 l1 l2 (_ & _ & H1 & H2 & _) _ [IH1 IH2]]; [done|].
  split; constructor; try done; unfold kind; by rewrite ?H1, ?H2.
Qed.

Lemma mates_this p l1 l2 :
  Forall2 mates l1 l2 -> Forall (fun r => this r = p) l1 ->
  Forall (fun r => this r = p) l2.
Proof.
  induction 1 as [|r1 r2 l1 l2 (H & _) _ IH]; [done|].
  rewrite !Forall_cons. intros [<- ?]. split; [done|]. by apply IH.
Qed.

Lemma parked_pending f o :
  state o = pending -> parked f o = sum_list_with f (onFulfilledCallbacks o).
Proof. intros H. unfold parked. by rewrite H. Qed.

(** The callbacks parked on every promise come in pairs. *)
Definition paired (w : world) : Prop :=
  forall p o, heap w !! p = Some o ->
    Forall2 mates (onFulfilledCallbacks o) (onRejectedCallbacks o).

Lemma wf_paired w : wf w -> paired w.
Proof. intros Hwf p o Hp. by destruct (wf_parked w Hwf p o Hp). Qed.

Lemma paired_settles p w w' : paired w -> settles p w w' -> paired w'.
Proof.
  intros Hp [->|o v Ho Hs ->|o r Ho Hs ->]; [done| |];
    intros q o' Hq; simpl in Hq;
    (apply list_lookup_insert_Some in Hq as [(-> & <- & _)|[_ Hq]];
      [by apply (Hp q o)|by apply (Hp q)]).
Qed.

(** Settling changes no count of waiting reactions: those parked on the
    promise move to the timer queue. *)
Lemma load_settle f p w w' :
  paired w -> respects f -> settles p w w' -> load f w' = load f w.
Proof.
  intros Hwf Hf [->|o v Hp Hs ->|o r Hp Hs ->]; [done| |];
    unfold load; simpl; rewrite sum_list_with_app.
  - pose proof (sum_list_with_insert (parked f) _ _ _ (fulfil v o) Hp) as H.
    rewrite (parked_pending f o Hs) in H. change (parked f (fulfil v o)) with 0 in H.
    lia.
  - pose proof (sum_list_with_insert (parked f) _ _ _ (refuse r o) Hp) as H.
    rewrite (parked_pending f o Hs) in H. change (parked f (refuse r o)) with 0 in H.
    rewrite <- (sum_list_with_mates f _ _ Hf (Hwf p o Hp)). lia.
Qed.

Lemma settles_length p w w' :
  settles p w w' -> length (heap w') = length (heap w).
Proof. intros [->|o v _ _ ->|o r _ _ ->]; simpl; by rewrite ?length_insert. Qed.

Lemma settles_lookup_ne p q w w' :
  settles p w w' -> q <> p -> heap w' !! q = heap w !! q.
Proof.
  intros [->|o v _ _ ->|o r _ _ ->] Hq; simpl; [done| |];
    by apply list_lookup_insert_ne.
Qed.

(** A settled promise keeps its state, value and reason in a settlement
    call. *)
Lemma settles_lookup_settled p q w w' o :
  settles p w w' -> heap w !! q = Some o -> state o <> pending ->
  heap w' !! q = Some o.
Proof.
  intros H Hq Hs. destruct (decide (q = p)) as [->|Hne].
  - destruct H as [->|o' v Hp Hs' ->|o' r Hp Hs' ->]; [done| |]; congruence.
  - by rewrite (settles_lookup_ne _ _ _ _ H Hne).
Qed.

Lemma settles_state p q w w' :
  settles p w w' -> q <> p ->
  state <$> (heap w' !! q) = state <$> (heap w !! q).
Proof. intros H Hq. by rewrite (settles_lookup_ne _ _ _ _ H Hq). Qed.

Lemma live_settles p c w w' :
  settles p w w' -> c <> p -> live w c -> live w' c.
Proof.
  intros H Hc [He Hs]. split.
  - by destruct H as [->|o v _ _ ->|o r _ _ ->].
  - by rewrite (settles_state _ _ _ _ H Hc).
Qed.

(** A settlement call on a promise that no waiting reaction aims at keeps
    the world well formed. *)
Lemma wf_settle p w w' :
  wf w -> settles p w w' -> load (aim p) w = 0 -> wf w'.
Proof.
  intros Hwf H Haim.
  assert (Hload : forall f, respects f -> load f w' = load f w)
    by (intros; eapply load_settle; [by apply wf_paired|done..]).
  assert (Hold : forall q o, heap w !! q = Some o -> state o <> pending ->
                   heap w' !! q = Some o)
    by (intros; by eapply settles_lookup_settled).
  assert (Hlen := settles_length _ _ _ H).
  destruct H as [->|o v Hp Hs Hw'|o r Hp Hs Hw']; [done| |].
  - destruct (wf_parked w Hwf p o Hp) as [Hm Ht].
    destruct (mates_kind _ _ Hm) as [Hk _].
    split.
    + intros q o' Hq. subst w'. simpl in Hq.
      apply list_lookup_insert_Some in Hq as [(-> & <- & _)|[_ Hq]].
      * done.
      * by apply (wf_parked w Hwf).
    + intros x Hx. subst w'; simpl in *. apply elem_of_app in Hx as [Hx|Hx].
      * destruct (wf_timers w Hwf x Hx) as (o' & Ho' & Hk').
        exists o'. split; [|done]. apply Hold; [done|].
        rewrite Hk'. unfold kind. by destruct (on_rejection x).
      * rewrite Forall_forall in Ht, Hk. rewrite (Ht x Hx), (Hk x Hx).
        exists (fulfil v o). split; [|done].
        apply list_lookup_insert_eq. by eapply lookup_lt_Some.
    + intros cr Hcr. replace (calls w') with (calls w) in Hcr by by subst w'.
      destruct (wf_calls w Hwf cr Hcr) as (o' & Ho' & Hk' & Ha).
      exists o'. split; [|done]. apply Hold; [done|].
      rewrite Hk'. unfold kind. by destruct (on_rejection (called cr)).
    + intros q Hq. rewrite Hlen. apply (wf_executors w Hwf).
      by subst w'.
    + intros c. rewrite Hload by apply to_respects. rewrite Hlen.
      replace (executors w') with (executors w) by by subst w'.
      replace (runs_of c w') with (runs_of c w) by by subst w'.
      apply (wf_once w Hwf).
    + intros c. rewrite Hload by apply aim_respects.
      destruct (wf_settlers w Hwf c) as [H1 H2]. split; [done|].
      intros Hpos. destruct (decide (c = p)) as [->|Hne]; [lia|].
      eapply live_settles; [|done|by apply H2].
      by apply (settles_fulfil _ _ _ o v).
  - destruct (wf_parked w Hwf p o Hp) as [Hm Ht].
    destruct (mates_kind _ _ Hm) as [_ Hk].
    pose proof (mates_this _ _ _ Hm Ht) as Ht'.
    split.
    + intros q o' Hq. subst w'. simpl in Hq.
      apply list_lookup_insert_Some in Hq as [(-> & <- & _)|[_ Hq]].
      * done.
      * by apply (wf_parked w Hwf).
    + intros x Hx. subst w'; simpl in *. apply elem_of_app in Hx as [Hx|Hx].
      * destruct (wf_timers w Hwf x Hx) as (o' & Ho' & Hk').
        exists o'. split; [|done]. apply Hold; [done|].
        rewrite Hk'. unfold kind. by destruct (on_rejection x).
      * rewrite Forall_forall in Ht', Hk. rewrite (Ht' x Hx), (Hk x Hx).
        exists (refuse r o). split; [|done].
        apply list_lookup_insert_eq. by eapply lookup_lt_Some.
    + intros cr Hcr. replace (calls w') with (calls w) in Hcr by by subst w'.
      destruct (wf_calls w Hwf cr Hcr) as (o' & Ho' & Hk' & Ha).
      exists o'. split; [|done]. apply Hold; [done|].
      rewrite Hk'. unfold kind. by destruct (on_rejection (called cr)).
    + intros q Hq. rewrite Hlen. apply (wf_executors w Hwf).
      by subst w'.
    + intros c. rewrite Hload by apply to_respects. rewrite Hlen.
      replace (executors w') with (executors w) by by subst w'.
      replace (runs_of c w') with (runs_of c w) by by subst w'.
      apply (wf_once w Hwf).
    + intros c. rewrite Hload by apply aim_respects.
      destruct (wf_settlers w Hwf c) as [H1 H2]. split; [done|].
      intros Hpos. destruct (decide (c = p)) as [->|Hne]; [lia|].
      eapply live_settles; [|done|by apply H2].
      by apply (settles_refuse _ _ _ o r).
Qed.

(** ** Registration by [then] *)

(** The world after [p.then(f, g)] for an existing [p]: one new pending
    promise, and one reaction, parked on [p] or queued. *)
Variant registered (p : nat) (f g : option fn) (w w' : world) : Prop :=
| registered_intro o o2 new :
    heap w !! p = Some o ->
    w' = World (<[p := o2]> (heap w ++ [blank])) (timers w ++ new)
               (calls w) (executors w) ->
    (state o = pending /\
       o2 = park (on_fulfilled p f (length (heap w)))
                 (on_rejected p g (length (heap w))) o /\ new = []) \/
    (state o = fulfilled /\ o2 = o /\ new = [on_fulfilled p f (length (heap w))]) \/
    (state o = rejected /\ o2 = o /\ new = [on_rejected p g (length (heap w))]) ->
    registered p f g w w'.

Lemma then_registered p f g w o :
  heap w !! p = Some o -> registered p f g w (fst (then_ p f g w)).
Proof.
  intros Hp. rewrite (then_eq _ _ _ _ _ Hp). simpl.
  assert (Hlt : p < length (heap w)) by by eapply lookup_lt_Some.
  destruct (state o) eqn:Hs.
  - eapply (registered_intro _ _ _ _ _ o _ []); [done| |left; by repeat split].
    by rewrite app_nil_r.
  - eapply (registered_intro _ _ _ _ _ o o [_]); [done| |right; left; by repeat split].
    f_equal. rewrite list_insert_id; [done|]. by rewrite lookup_app_l.
  - eapply (registered_intro _ _ _ _ _ o o [_]); [done| |right; right; by repeat split].
    f_equal. rewrite list_insert_id; [done|]. by rewrite lookup_app_l.
Qed.

Lemma on_mates p f g c :
  partner (default (Closure Return) f) (default (Closure Throw) g) ->
  mates (on_fulfilled p f c) (on_rejected p g c).
Proof. intros H. by repeat split. Qed.

Lemma parked_park h rf rr o :
  state o = pending -> parked h (park rf rr o) = parked h o + h rf.
Proof.
  intros Hs. unfold parked, park. simpl. rewrite Hs, sum_list_with_app.
  simpl. lia.
Qed.

Section registered.
Context (p : nat) (f g : option fn) (w w' : world).
Hypothesis (H : registered p f g w w').

Lemma registered_length : length (heap w') = S (length (heap w)).
Proof.
  destruct H as [o o2 new Hp -> _]. simpl.
  rewrite length_insert, length_app. simpl. lia.
Qed.

Lemma registered_calls : calls w' = calls w.
Proof. by destruct H as [o o2 new Hp -> _]. Qed.

Lemma registered_executors : executors w' = executors w.
Proof. by destruct H as [o o2 new Hp -> _]. Qed.

Lemma registered_fresh : heap w' !! length (heap w) = Some blank.
Proof.
  destruct H as [o o2 new Hp -> _]. simpl.
  apply lookup_lt_Some in Hp.
  rewrite list_lookup_insert_ne by lia.
  by rewrite lookup_app_r, Nat.sub_diag.
Qed.

(** Every promise keeps its state, value and reason. *)
Lemma registered_lookup q o :
  heap w !! q = Some o ->
  exists o', heap w' !! q = Some o' /\ state o' = state o /\
             value_ o' = value_ o /\ reason o' = reason o.
Proof.
  intros Hq. destruct H as [op o2 new Hp -> Hc]. simpl.
  assert (q < length (heap w)) by by eapply lookup_lt_Some.
  destruct (decide (p = q)) as [->|Hne].
  - exists o2. rewrite list_lookup_insert_eq by (rewrite length_app; lia).
    split; [done|]. rewrite Hp in Hq. injection Hq as ->.
    by destruct Hc as [(_ & -> & _)|[(_ & -> & _)|(_ & -> & _)]].
  - exists o. rewrite list_lookup_insert_ne by done.
    by rewrite lookup_app_l.
Qed.

Lemma registered_settled q o :
  heap w !! q = Some o -> state o <> pending -> heap w' !! q = Some o.
Proof.
  intros Hq Hs. destruct H as [op o2 new Hp -> Hc]. simpl.
  assert (q < length (heap w)) by by eapply lookup_lt_Some.
  destruct (decide (p = q)) as [->|Hne].
  - rewrite list_lookup_insert_eq by (rewrite length_app; lia).
    rewrite Hp in Hq. injection Hq as ->.
    by destruct Hc as [(? & _)|[(_ & -> & _)|(_ & -> & _)]].
  - rewrite list_lookup_insert_ne by done. by rewrite lookup_app_l.
Qed.

Lemma registered_live c : live w c -> live w' c.
Proof.
  intros [He Hs]. split; [by rewrite registered_executors|].
  destruct (heap w !! c) as [o|] eqn:Hc; [|done].
  destruct (registered_lookup c o Hc) as (o' & -> & Hs' & _).
  simpl in *. congruence.
Qed.

Lemma load_registered h :
  respects h ->
  partner (default (Closure Return) f) (default (Closure Throw) g) ->
  load h w' = load h w + h (on_fulfilled p f (length (heap w))).
Proof.
  intros Hh Hfg. pose proof (Hh _ _ (on_mates p f g (length (heap w)) Hfg)) as E.
  destruct H as [o o2 new Hp -> Hc]. unfold load. simpl.
  assert (Hp' : (heap w ++ [blank]) !! p = Some o)
    by (rewrite lookup_app_l; [done|by eapply lookup_lt_Some]).
  pose proof (sum_list_with_insert (parked h) _ _ _ o2 Hp') as Hi.
  rewrite !sum_list_with_app in *. simpl in Hi.
  change (parked h blank) with 0 in Hi.
  destruct Hc as [(Hs & -> & ->)|[(Hs & -> & ->)|(Hs & -> & ->)]]; simpl.
  - rewrite (parked_park h _ _ o Hs) in Hi. lia.
  - lia.
  - lia.
Qed.
End registered.

Lemma aim_zero_fresh w c :
  wf w -> length (heap w) <= c -> load (aim c) w = 0.
Proof.
  intros Hwf Hc. destruct (wf_settlers w Hwf c) as [_ Hl].
  destruct (load (aim c) w) as [|n]; [done|].
  destruct Hl as [_ Hs]; [lia|]. rewrite lookup_ge_None_2 in Hs; done.
Qed.

(** [then] keeps the world well formed when its handlers are two functions
    of the caller, or [resolve] and [reject] of a live promise that nothing
    else aims at. *)
Lemma wf_registered p f g w w' :
  wf w -> registered p f g w w' ->
  partner (default (Closure Return) f) (default (Closure Throw) g) ->
  (forall t, native_target (default (Closure Return) f) = Some t ->
             load (aim t) w = 0 /\ live w t) ->
  wf w'.
Proof.
  intros Hwf H Hfg Hnat.
  pose proof (registered_length _ _ _ _ _ H) as Hlen.
  pose proof (registered_calls _ _ _ _ _ H) as Hcalls.
  pose proof (registered_executors _ _ _ _ _ H) as Hex.
  pose proof (registered_fresh _ _ _ _ _ H) as Hfresh.
  pose proof (registered_lookup _ _ _ _ _ H) as Hlook.
  pose proof (fun h Hh => load_registered _ _ _ _ _ H h Hh Hfg) as Hload.
  split.
  - intros q o' Hq. destruct H as [o o2 new Hp -> Hc]. simpl in Hq.
    assert (p < length (heap w)) by by eapply lookup_lt_Some.
    destruct (wf_parked w Hwf p o Hp) as [Hm Ht].
    apply list_lookup_insert_Some in Hq as [(-> & <- & _)|[Hne Hq]].
    + destruct Hc as [(Hs & -> & _)|[(_ & -> & _)|(_ & -> & _)]]; [|done..].
      simpl. split.
      * apply Forall2_app; [done|]. constructor; [|done]. by apply on_mates.
      * apply Forall_app. split; [done|]. by constructor.
    + apply lookup_app_Some in Hq as [Hq|[_ Hq]].
      * by apply (wf_parked w Hwf).
      * apply list_lookup_singleton_Some in Hq as [_ <-]. by split.
  - intros x Hx.
    assert (Hcase : x ∈ timers w \/
              exists o, heap w !! p = Some o /\ this x = p /\ state o = kind x).
    { destruct H as [o o2 new Hp -> Hc]. simpl in Hx.
      apply elem_of_app in Hx as [Hx|Hx]; [by left|]. right. exists o.
      destruct Hc as [(_ & _ & ->)|[(Hs & _ & ->)|(Hs & _ & ->)]].
      - by apply not_elem_of_nil in Hx.
      - apply list_elem_of_singleton in Hx as ->. by rewrite Hs.
      - apply list_elem_of_singleton in Hx as ->. by rewrite Hs. }
    destruct Hcase as [Hx'|(o & Hp & Ht & Hs)].
    + destruct (wf_timers w Hwf x Hx') as (o & Ho & Hk).
      destruct (Hlook _ _ Ho) as (o' & ? & ? & _). exists o'. split; congruence.
    + rewrite Ht. destruct (Hlook _ _ Hp) as (o' & ? & ? & _).
      exists o'. split; congruence.
  - intros cr Hcr. rewrite Hcalls in Hcr.
    destruct (wf_calls w Hwf cr Hcr) as (o & Ho & Hk & Ha).
    destruct (Hlook _ _ Ho) as (o' & ? & ? & Hv & Hr). exists o'.
    split; [done|]. split; [congruence|]. rewrite Ha. unfold input.
    by rewrite Hv, Hr.
  - intros q Hq. rewrite Hex in Hq. apply (wf_executors w Hwf) in Hq. lia.
  - intros c. rewrite (Hload _ (to_respects c)). unfold runs_of.
    rewrite Hcalls, Hex, Hlen. fold (runs_of c w).
    pose proof (wf_once w Hwf c) as Ho. unfold to at 2. simpl.
    destruct (decide (length (heap w) = c)) as [<-|Hne].
    + rewrite decide_False in Ho by lia. rewrite decide_True; [lia|].
      split; [lia|]. intros Hin. apply (wf_executors w Hwf) in Hin. lia.
    + destruct (decide (c < length (heap w) /\ c ∉ executors w)) as [Hd|Hd].
      * rewrite decide_True; [lia|]. split; [lia|tauto].
      * rewrite decide_False; [lia|]. intros [? ?]. apply Hd. split; [lia|done].
  - intros c. rewrite (Hload _ (aim_respects c)).
    destruct (wf_settlers w Hwf c) as [H1 H2].
    unfold aim at 2 4, to. simpl.
    destruct (decide (length (heap w) = c)) as [<-|Hne].
    + rewrite (aim_zero_fresh w _ Hwf) by lia.
      rewrite decide_False.
      * split; [lia|]. intros _. split.
        -- rewrite Hex. intros Hin. apply (wf_executors w Hwf) in Hin. lia.
        -- by rewrite Hfresh.
      * intros Ht. destruct (Hnat _ Ht) as [_ [_ Hs]].
        rewrite lookup_ge_None_2 in Hs; done.
    + destruct (decide (native_target (default (Closure Return) f) = Some c))
        as [Ht|Ht].
      * destruct (Hnat _ Ht) as [-> Hlive]. split; [lia|]. intros _.
        by eapply registered_live.
      * split; [lia|]. intros Hpos. eapply registered_live; [done|].
        apply H2. lia.
Qed.

Lemma wf_construct w : wf w -> wf (fst (construct w)).
Proof.
  intros Hwf. unfold construct. simpl.
  assert (Hlook : forall q o, heap w !! q = Some o ->
                    (heap w ++ [blank]) !! q = Some o).
  { intros q o Hq. rewrite lookup_app_l; [done|]. by eapply lookup_lt_Some. }
  assert (Hload : forall h, load h (World (heap w ++ [blank]) (timers w)
                    (calls w) (executors w ++ [length (heap w)])) = load h w).
  { intros h. unfold load. simpl. rewrite sum_list_with_app. simpl.
    change (parked h blank) with 0. lia. }
  split; simpl.
  - intros q o Hq. apply lookup_app_Some in Hq as [Hq|[_ Hq]].
    + by apply (wf_parked w Hwf).
    + apply list_lookup_singleton_Some in Hq as [_ <-]. by split.
  - intros x Hx. destruct (wf_timers w Hwf x Hx) as (o & Ho & Hk).
    exists o. split; [by apply Hlook|done].
  - intros cr Hcr. destruct (wf_calls w Hwf cr Hcr) as (o & Ho & Hk).
    exists o. split; [by apply Hlook|done].
  - intros q Hq. rewrite length_app. simpl.
    apply elem_of_app in Hq as [Hq|Hq].
    + apply (wf_executors w Hwf) in Hq. lia.
    + apply list_elem_of_singleton in Hq. lia.
  - intros c. rewrite Hload. unfold runs_of. simpl. fold (runs_of c w).
    rewrite (wf_once w Hwf c), length_app. simpl.
    destruct (decide (c < length (heap w) /\ c ∉ executors w)) as [Hd|Hd].
    + rewrite decide_True; [done|]. split; [lia|].
      intros Hin. apply elem_of_app in Hin as [?|Hin]; [tauto|].
      apply list_elem_of_singleton in Hin. lia.
    + rewrite decide_False; [done|]. intros [H1 H2]. apply Hd.
      apply not_elem_of_app in H2 as [H2 H3].
      apply not_elem_of_cons in H3 as [H3 _]. split; [lia|done].
  - intros c. rewrite Hload. destruct (wf_settlers w Hwf c) as [H1 H2].
    split; [done|]. intros Hpos. destruct (H2 Hpos) as [He Hs].
    destruct (heap w !! c) as [o|] eqn:Hc; [|done]. split.
    + intros Hin. apply elem_of_app in Hin as [?|Hin]; [done|].
      apply list_elem_of_singleton in Hin. apply lookup_lt_Some in Hc. lia.
    + simpl. by rewrite (Hlook _ _ Hc).
Qed.

(** Taking the oldest timer off the queue and recording its call. *)
Definition dequeued (r : reaction) (rest : list reaction) (o : promise)
    (w : world) : world :=
  World (heap w) rest (calls w ++ [Called r (input r o)]) (executors w).

Lemma load_dequeued h r rest o w :
  timers w = r :: rest -> load h (dequeued r rest o w) + h r = load h w.
Proof. intros Ht. unfold load. rewrite Ht. simpl. lia. Qed.

Lemma wf_dequeued r rest o w :
  wf w -> timers w = r :: rest -> heap w !! this r = Some o ->
  wf (dequeued r rest o w).
Proof.
  intros Hwf Ht Ho. split; simpl.
  - apply (wf_parked w Hwf).
  - intros x Hx. apply (wf_timers w Hwf). rewrite Ht. by right.
  - intros cr Hcr. apply elem_of_app in Hcr as [Hcr|Hcr].
    + by apply (wf_calls w Hwf).
    + apply list_elem_of_singleton in Hcr as ->. simpl.
      destruct (wf_timers w Hwf r) as (o' & Ho' & Hk); [rewrite Ht; by left|].
      exists o. split; [done|]. split; [congruence|done].
  - apply (wf_executors w Hwf).
  - intros c. pose proof (load_dequeued (to c) r rest o w Ht) as Hl.
    pose proof (wf_once w Hwf c) as Hon. unfold runs_of in *. simpl.
    rewrite sum_list_with_app. simpl. lia.
  - intros c. pose proof (load_dequeued (aim c) r rest o w Ht) as Hl.
    destruct (wf_settlers w Hwf c) as [H1 H2]. split; [lia|].
    intros Hpos. apply H2. lia.
Qed.

(** ** One timer run *)

Lemma timeout_nil w : timers w = [] -> timeout w = w.
Proof. intros H. unfold timeout. by rewrite H. Qed.

Lemma timeout_cons r rest o w :
  timers w = r :: rest -> heap w !! this r = Some o ->
  timeout w =
    let w1 := dequeued r rest o w in
    match handler r with
    | Closure g =>
        match g (input r o) with
        | Return x => resolvePromise (promise2 r) x w1
        | Throw e => reject (promise2 r) e w1
        end
    | ResolveOf t => resolve (promise2 r) VUndefined (resolve t (input r o) w1)
    | RejectOf t => resolve (promise2 r) VUndefined (reject t (input r o) w1)
    end.
Proof.
  intros Ht Ho. unfold timeout, run_reaction. rewrite Ht. simpl. rewrite Ho.
  unfold call, input. by destruct (handler r).
Qed.

Lemma live_dequeued r rest o w c : live w c -> live (dequeued r rest o w) c.
Proof. done. Qed.

(** [resolvePromise] on a promise that is live and that no waiting reaction
    aims at. *)
Lemma wf_resolvePromise t x w :
  wf w -> load (aim t) w = 0 -> live w t -> wf (resolvePromise t x w).
Proof.
  intros Hwf Hz Hl. unfold resolvePromise.
  destruct x as [|n|s|name msg|fields|elems|q];
    try (eapply wf_settle; [done|apply resolve_settles|done]).
  destruct (decide (t = q)) as [->|Hne].
  - eapply wf_settle; [done|apply reject_settles|done].
  - destruct (heap w !! q) as [o|] eqn:Hq.
    + eapply wf_registered; [done|by eapply then_registered|done|].
      simpl. intros t' [= <-]. done.
    + by rewrite then_none.
Qed.

Lemma wf_timeout w : wf w -> wf (timeout w).
Proof.
  intros Hwf. destruct (timers w) as [|r rest] eqn:Ht.
  { by rewrite timeout_nil. }
  destruct (wf_timers w Hwf r) as (o & Ho & Hk); [rewrite Ht; by left|].
  rewrite (timeout_cons r rest o w Ht Ho). simpl.
  pose proof (wf_dequeued r rest o w Hwf Ht Ho) as Hwf1.
  set (w1 := dequeued r rest o w) in *.
  pose proof (load_dequeued (aim (promise2 r)) r rest o w Ht) as Hl.
  destruct (wf_settlers w Hwf (promise2 r)) as [Hle Hlive].
  assert (Haim : 1 <= aim (promise2 r) r).
  { unfold aim, to. rewrite decide_True by done. lia. }
  assert (Hz : load (aim (promise2 r)) w1 = 0) by (fold w1 in Hl; lia).
  assert (Hlv : live w1 (promise2 r)) by (apply Hlive; lia).
  assert (Hnat : forall t, native_target (handler r) = Some t ->
                   load (aim t) w1 = 0 /\ t <> promise2 r).
  { intros t Ht'. pose proof (load_dequeued (aim t) r rest o w Ht) as Hl'.
    destruct (wf_settlers w Hwf t) as [Hle' _]. fold w1 in Hl'.
    assert (Ha : aim t r = to t r + 1).
    { unfold aim. by rewrite (decide_True _ _ Ht'). }
    split; [lia|]. intros ->. unfold to in Ha.
    rewrite decide_True in Ha by done. lia. }
  destruct (handler r) as [g|t|t] eqn:Hh.
  - destruct (g (input r o)) as [x|e].
    + by apply wf_resolvePromise.
    + eapply wf_settle; [done|apply reject_settles|done].
  - destruct (Hnat t eq_refl) as [Hzt Hne].
    pose proof (resolve_settles t (input r o) w1) as Hs.
    eapply wf_settle; [|apply resolve_settles|].
    + by eapply wf_settle.
    + by rewrite (load_settle _ _ _ _ (wf_paired _ Hwf1) (aim_respects _) Hs).
  - destruct (Hnat t eq_refl) as [Hzt Hne].
    pose proof (reject_settles t (input r o) w1) as Hs.
    eapply wf_settle; [|apply resolve_settles|].
    + by eapply wf_settle.
    + by rewrite (load_settle _ _ _ _ (wf_paired _ Hwf1) (aim_respects _) Hs).
Qed.

Lemma executors_not_aimed w p :
  wf w -> p ∈ executors w -> load (aim p) w = 0.
Proof.
  intros Hwf Hp. destruct (wf_settlers w Hwf p) as [_ Hl].
  destruct (load (aim p) w) as [|n]; [done|].
  destruct Hl as [Hne _]; [lia|done].
Qed.

Lemma wf_step w a : wf w -> wf (step w a).
Proof.
  intros Hwf. destruct a as [|p v|p r|p f g|]; simpl.
  - by apply wf_construct.
  - destruct (decide (p ∈ executors w)); [|done].
    eapply wf_settle; [done|apply resolve_settles|by apply executors_not_aimed].
  - destruct (decide (p ∈ executors w)); [|done].
    eapply wf_settle; [done|apply reject_settles|by apply executors_not_aimed].
  - destruct (heap w !! p) as [o|] eqn:Hp.
    + eapply wf_registered; [done|by eapply then_registered| |].
      * by destruct f, g.
      * by destruct f.
    + by rewrite then_none.
  - by apply wf_timeout.
Qed.

Lemma run_snoc w acts a : run w (acts ++ [a]) = step (run w acts) a.
Proof. unfold run. by rewrite foldl_app. Qed.

Lemma run_app w acts acts' : run w (acts ++ acts') = run (run w acts) acts'.
Proof. unfold run. by rewrite foldl_app. Qed.

Lemma wf_run w acts : wf w -> wf (run w acts).
Proof.
  revert w. induction acts as [|a acts IH]; intros w Hwf; [done|].
  simpl. apply IH. by apply wf_step.
Qed.

Lemma wf_reachable w : reachable w -> wf w.
Proof. intros [acts ->]. apply wf_run, wf_empty. Qed.

(** ** What a synchronous piece of code can change *)

(** [grows w w']: from [w] to [w'] no timer ran.  Settled promises are
    frozen, timers were only added at the end of the queue, no handler was
    called, and the callbacks parked on a pending promise are still parked on
    it, or it was settled and they were moved to the timer queue. *)
Record grows (w w' : world) : Prop := {
  grows_frozen : forall q o,
    heap w !! q = Some o -> state o <> pending -> heap w' !! q = Some o;
  grows_length : length (heap w) <= length (heap w');
  grows_timers : exists extra, timers w' = timers w ++ extra;
  grows_calls : calls w' = calls w;
  grows_executors : executors w `prefix_of` executors w';
  grows_parked : forall q o,
    heap w !! q = Some o -> state o = pending ->
    exists o', heap w' !! q = Some o' /\
      ((state o' = pending /\
        onFulfilledCallbacks o `prefix_of` onFulfilledCallbacks o' /\
        onRejectedCallbacks o `prefix_of` onRejectedCallbacks o') \/
       (state o' = fulfilled /\
        forall r, r ∈ onFulfilledCallbacks o -> r ∈ timers w') \/
       (state o' = rejected /\
        forall r, r ∈ onRejectedCallbacks o -> r ∈ timers w'))
}.

Lemma grows_refl w : grows w w.
Proof.
  split; try done.
  - by exists []; rewrite app_nil_r.
  - intros q o Hq Hs. exists o. split; [done|]. by left.
Qed.

Lemma grows_trans w1 w2 w3 : grows w1 w2 -> grows w2 w3 -> grows w1 w3.
Proof.
  intros H12 H23. split.
  - intros q o Hq Hs. eapply grows_frozen; [done| |done].
    by eapply grows_frozen.
  - pose proof (grows_length _ _ H12). pose proof (grows_length _ _ H23). lia.
  - destruct (grows_timers _ _ H12) as [e1 E1].
    destruct (grows_timers _ _ H23) as [e2 E2].
    exists (e1 ++ e2). by rewrite E2, E1, app_assoc.
  - by rewrite (grows_calls _ _ H23), (grows_calls _ _ H12).
  - etrans; by eapply grows_executors.
  - intros q o Hq Hs.
    destruct (grows_parked _ _ H12 q o Hq Hs) as (o2 & Hq2 & Hc).
    destruct (grows_timers _ _ H23) as [e2 E2].
    destruct Hc as [(Hs2 & Hf & Hr)|[(Hs2 & Hin)|(Hs2 & Hin)]].
    + destruct (grows_parked _ _ H23 q o2 Hq2 Hs2) as (o3 & Hq3 & Hc3).
      exists o3. split; [done|].
      destruct Hc3 as [(Hs3 & Hf3 & Hr3)|[(Hs3 & Hin)|(Hs3 & Hin)]].
      * left. split; [done|]. split; by etrans.
      * right; left. split; [done|]. intros r Hr'. apply Hin.
        by eapply elem_of_prefix.
      * right; right. split; [done|]. intros r Hr'. apply Hin.
        by eapply elem_of_prefix.
    + exists o2. split; [eapply grows_frozen; [done..|congruence]|].
      right; left. split; [done|]. intros r Hr. rewrite E2.
      apply elem_of_app. left. by apply Hin.
    + exists o2. split; [eapply grows_frozen; [done..|congruence]|].
      right; right. split; [done|]. intros r Hr. rewrite E2.
      apply elem_of_app. left. by apply Hin.
Qed.

Lemma settles_grows p w w' : settles p w w' -> grows w w'.
Proof.
  intros H. pose proof (settles_lookup_settled p) as Hfr.
  destruct H as [->|o v Hp Hs Hw'|o r Hp Hs Hw']; [apply grows_refl| |].
  - assert (Hset : settles p w w') by by apply (settles_fulfil _ _ _ o v).
    split; try (subst w'; done).
    + intros q o' Hq Hs'. by eapply Hfr.
    + by rewrite (settles_length _ _ _ Hset).
    + subst w'. by eexists.
    + intros q o' Hq Hs'. destruct (decide (q = p)) as [->|Hne].
      * exists (fulfil v o). assert (o' = o) as -> by congruence.
        subst w'. simpl. split.
        -- apply list_lookup_insert_eq. by eapply lookup_lt_Some.
        -- right; left. split; [done|]. intros x Hx. apply elem_of_app. by right.
      * exists o'. rewrite (settles_lookup_ne _ _ _ _ Hset Hne).
        split; [done|]. by left.
  - assert (Hset : settles p w w') by by apply (settles_refuse _ _ _ o r).
    split; try (subst w'; done).
    + intros q o' Hq Hs'. by eapply Hfr.
    + by rewrite (settles_length _ _ _ Hset).
    + subst w'. by eexists.
    + intros q o' Hq Hs'. destruct (decide (q = p)) as [->|Hne].
      * exists (refuse r o). assert (o' = o) as -> by congruence.
        subst w'. simpl. split.
        -- apply list_lookup_insert_eq. by eapply lookup_lt_Some.
        -- right; right. split; [done|]. intros x Hx. apply elem_of_app. by right.
      * exists o'. rewrite (settles_lookup_ne _ _ _ _ Hset Hne).
        split; [done|]. by left.
Qed.

Lemma registered_grows p f g w w' : registered p f g w w' -> grows w w'.
Proof.
  intros H. split.
  - apply (registered_settled _ _ _ _ _ H).
  - rewrite (registered_length _ _ _ _ _ H). lia.
  - destruct H as [o o2 new Hp -> _]. by eexists.
  - apply (registered_calls _ _ _ _ _ H).
  - by rewrite (registered_executors _ _ _ _ _ H).
  - intros q o Hq Hs. destruct H as [op o2 new Hp -> Hc]. simpl.
    assert (q < length (heap w)) by by eapply lookup_lt_Some.
    destruct (decide (p = q)) as [->|Hne].
    + exists o2. rewrite list_lookup_insert_eq by (rewrite length_app; lia).
      split; [done|]. left. assert (op = o) as -> by congruence.
      destruct Hc as [(_ & -> & _)|[(? & _)|(? & _)]]; [|congruence..].
      simpl. split; [done|]. split; by apply prefix_app_r.
    + exists o. rewrite list_lookup_insert_ne by done.
      rewrite lookup_app_l by done. split; [done|]. by left.
Qed.

Lemma then_grows p f g w : grows w (fst (then_ p f g w)).
Proof.
  destruct (heap w !! p) as [o|] eqn:Hp.
  - eapply registered_grows. by eapply then_registered.
  - rewrite then_none by done. apply grows_refl.
Qed.

Lemma construct_grows w : grows w (fst (construct w)).
Proof.
  assert (Hlook : forall q o, heap w !! q = Some o ->
                    (heap w ++ [blank]) !! q = Some o).
  { intros q o Hq. rewrite lookup_app_l; [done|]. by eapply lookup_lt_Some. }
  split; simpl; try done.
  - intros q o Hq _. by apply Hlook.
  - rewrite length_app. lia.
  - exists []. by rewrite app_nil_r.
  - by apply prefix_app_r.
  - intros q o Hq Hs. exists o. split; [by apply Hlook|]. by left.
Qed.

Lemma resolvePromise_grows t x w : grows w (resolvePromise t x w).
Proof.
  unfold resolvePromise.
  destruct x as [|n|s|name msg|fields|elems|q];
    try (eapply settles_grows, resolve_settles).
  destruct (decide (t = q)).
  - eapply settles_grows, reject_settles.
  - apply then_grows.
Qed.

(** After the oldest timer is taken off the queue and its call recorded,
    the rest of the timer run only grows the world. *)
Lemma timeout_grows r rest o w :
  timers w = r :: rest -> heap w !! this r = Some o ->
  grows (dequeued r rest o w) (timeout w).
Proof.
  intros Ht Ho. rewrite (timeout_cons r rest o w Ht Ho). simpl.
  destruct (handler r) as [g|t|t].
  - destruct (g (input r o)).
    + apply resolvePromise_grows.
    + eapply settles_grows, reject_settles.
  - eapply grows_trans; eapply settles_grows, resolve_settles.
  - eapply grows_trans; [eapply settles_grows, reject_settles|].
    eapply settles_grows, resolve_settles.
Qed.

(** The steps other than a timer run only grow the world. *)
Lemma step_grows w a : a <> Timeout -> grows w (step w a).
Proof.
  intros Ha. destruct a as [|p v|p r|p f g|]; simpl; [| | | |done].
  - apply construct_grows.
  - destruct (decide _); [|apply grows_refl].
    eapply settles_grows, resolve_settles.
  - destruct (decide _); [|apply grows_refl].
    eapply settles_grows, reject_settles.
  - apply then_grows.
Qed.

(** ** Every waiting reaction belongs to an existing promise *)

Lemma to_bound w c : wf w -> 0 < load (to c) w + runs_of c w ->
  c < length (heap w) /\ c ∉ executors w.
Proof.
  intros Hwf H. rewrite (wf_once w Hwf c) in H.
  destruct (decide _) as [Hd|]; [done|lia].
Qed.

Lemma to_self r : to (promise2 r) r = 1.
Proof. unfold to. by rewrite decide_True. Qed.

Lemma wf_bound_timers w r :
  wf w -> r ∈ timers w -> promise2 r < length (heap w).
Proof.
  intros Hwf Hr. apply (to_bound w _ Hwf).
  pose proof (sum_list_with_in _ (to (promise2 r)) _ Hr) as H.
  rewrite to_self in H. unfold load. lia.
Qed.

Lemma wf_bound_calls w cr :
  wf w -> cr ∈ calls w -> promise2 (called cr) < length (heap w).
Proof.
  intros Hwf Hr. apply (to_bound w _ Hwf).
  pose proof (sum_list_with_in _ (fun cr' => to (promise2 (called cr)) (called cr'))
                _ Hr) as H.
  simpl in H. rewrite to_self in H. unfold runs_of. lia.
Qed.

Lemma wf_bound_parked w q o r :
  wf w -> heap w !! q = Some o -> state o = pending ->
  r ∈ onFulfilledCallbacks o -> promise2 r < length (heap w).
Proof.
  intros Hwf Hq Hs Hr. apply (to_bound w _ Hwf).
  pose proof (sum_list_with_in _ (to (promise2 r)) _ Hr) as H.
  rewrite to_self in H.
  pose proof (sum_list_with_in _ (parked (to (promise2 r))) (heap w)
                (list_elem_of_lookup_2 _ _ _ Hq)) as H'.
  rewrite (parked_pending _ _ Hs) in H'. unfold load. lia.
Qed.

Lemma mates_elem l1 l2 r2 :
  Forall2 mates l1 l2 -> r2 ∈ l2 -> exists r1, r1 ∈ l1 /\ mates r1 r2.
Proof.
  induction 1 as [|x y l1 l2 Hm _ IH]; intros Hr.
  - by apply not_elem_of_nil in Hr.
  - apply elem_of_cons in Hr as [->|Hr].
    + exists x. split; [by left|done].
    + destruct (IH Hr) as (r1 & ? & ?). exists r1. split; [by right|done].
Qed.

(** ** Following one registration *)

Section registration.
(** [c] is the promise a call [p.then(...)] returned; [rf] and [rr] are
    the two reactions it built. *)
Context (c : nat) (rf rr : reaction).

Definition owns (r : reaction) : Prop :=
  promise2 r = c -> r = (if on_rejection r then rr else rf).

(** Wherever a reaction of [c] waits or was called, it is [rf] or [rr]. *)
Record tracked (w : world) : Prop := {
  tr_bound : c < length (heap w);
  tr_derived : c ∉ executors w;
  tr_timers : Forall owns (timers w);
  tr_parked : forall q o, heap w !! q = Some o -> state o = pending ->
    Forall owns (onFulfilledCallbacks o) /\ Forall owns (onRejectedCallbacks o);
  tr_calls : Forall (fun cr => owns (called cr)) (calls w)
}.

Lemma tracked_settles q w w' : tracked w -> settles q w w' -> tracked w'.
Proof.
  intros Ht H. pose proof (settles_length _ _ _ H) as Hlen.
  destruct H as [->|o v Hq Hs ->|o r Hq Hs ->]; [done| |];
    destruct (tr_parked w Ht q o Hq Hs) as [Hf Hr].
  - split; simpl.
    + rewrite length_insert. apply (tr_bound w Ht).
    + apply (tr_derived w Ht).
    + apply Forall_app. split; [apply (tr_timers w Ht)|done].
    + intros q' o' Hq' Hs'.
      apply list_lookup_insert_Some in Hq' as [(-> & <- & _)|[_ Hq']];
        [done|]. by apply (tr_parked w Ht q').
    + apply (tr_calls w Ht).
  - split; simpl.
    + rewrite length_insert. apply (tr_bound w Ht).
    + apply (tr_derived w Ht).
    + apply Forall_app. split; [apply (tr_timers w Ht)|done].
    + intros q' o' Hq' Hs'.
      apply list_lookup_insert_Some in Hq' as [(-> & <- & _)|[_ Hq']];
        [done|]. by apply (tr_parked w Ht q').
    + apply (tr_calls w Ht).
Qed.

Lemma owns_later (q : nat) (k : bool) (h : fn) (d : nat) :
  c < d -> owns (Reaction q k h d).
Proof. intros Hlt Heq. simpl in Heq. lia. Qed.

Lemma tracked_registered p' f g w w' :
  tracked w -> registered p' f g w w' -> tracked w'.
Proof.
  intros Ht H. pose proof (registered_length _ _ _ _ _ H) as Hlen.
  pose proof (tr_bound w Ht) as Hb.
  destruct H as [o o2 new Hp -> Hc]. split; simpl.
  - simpl in Hlen. lia.
  - apply (tr_derived w Ht).
  - apply Forall_app. split; [apply (tr_timers w Ht)|].
    destruct Hc as [(_ & _ & ->)|[(_ & _ & ->)|(_ & _ & ->)]];
      [done|constructor; [|done]..]; by apply owns_later.
  - intros q o' Hq Hs.
    apply list_lookup_insert_Some in Hq as [(-> & <- & _)|[Hne Hq]].
    + destruct Hc as [(Hso & -> & _)|[(Hso & -> & _)|(Hso & -> & _)]];
        [|congruence..].
      destruct (tr_parked w Ht q o Hp Hso) as [Hf Hr]. simpl.
      split; (apply Forall_app; split; [done|]);
        (constructor; [|done]); by apply owns_later.
    + apply lookup_app_Some in Hq as [Hq|[_ Hq]].
      * by apply (tr_parked w Ht q).
      * apply list_lookup_singleton_Some in Hq as [_ <-]. by split.
  - apply (tr_calls w Ht).
Qed.

Lemma tracked_then p' f g w : tracked w -> tracked (fst (then_ p' f g w)).
Proof.
  intros Ht. destruct (heap w !! p') as [o|] eqn:Hp.
  - eapply tracked_registered; [done|]. by eapply then_registered.
  - by rewrite then_none.
Qed.

Lemma tracked_construct w : tracked w -> tracked (fst (construct w)).
Proof.
  intros Ht. pose proof (tr_bound w Ht) as Hb. split; simpl.
  - rewrite length_app. lia.
  - intros Hin. apply elem_of_app in Hin as [Hin|Hin].
    + by apply (tr_derived w Ht).
    + apply list_elem_of_singleton in Hin. lia.
  - apply (tr_timers w Ht).
  - intros q o Hq Hs. apply lookup_app_Some in Hq as [Hq|[_ Hq]].
    + by apply (tr_parked w Ht q).
    + apply list_lookup_singleton_Some in Hq as [_ <-]. by split.
  - apply (tr_calls w Ht).
Qed.

Lemma tracked_dequeued r rest o w :
  tracked w -> timers w = r :: rest -> tracked (dequeued r rest o w).
Proof.
  intros Ht Htm. pose proof (tr_timers w Ht) as Hf. rewrite Htm in Hf.
  apply Forall_cons in Hf as [Hr Hrest]. split; simpl.
  - apply (tr_bound w Ht).
  - apply (tr_derived w Ht).
  - done.
  - apply (tr_parked w Ht).
  - apply Forall_app. split; [apply (tr_calls w Ht)|]. by constructor.
Qed.

Lemma tracked_resolvePromise t x w :
  tracked w -> tracked (resolvePromise t x w).
Proof.
  intros Ht. unfold resolvePromise.
  destruct x as [|n|s|name msg|fields|elems|q];
    try (eapply tracked_settles; [done|apply resolve_settles]).
  destruct (decide (t = q)).
  - eapply tracked_settles; [done|apply reject_settles].
  - by apply tracked_then.
Qed.

Lemma tracked_timeout w : wf w -> tracked w -> tracked (timeout w).
Proof.
  intros Hwf Ht. destruct (timers w) as [|r rest] eqn:Htm.
  { by rewrite timeout_nil. }
  destruct (wf_timers w Hwf r) as (o & Ho & _); [rewrite Htm; by left|].
  rewrite (timeout_cons r rest o w Htm Ho). simpl.
  pose proof (tracked_dequeued r rest o w Ht Htm) as Ht1.
  destruct (handler r) as [g|t|t].
  - destruct (g (input r o)).
    + by apply tracked_resolvePromise.
    + eapply tracked_settles; [done|apply reject_settles].
  - eapply tracked_settles; [|apply resolve_settles].
    eapply tracked_settles; [done|apply resolve_settles].
  - eapply tracked_settles; [|apply resolve_settles].
    eapply tracked_settles; [done|apply reject_settles].
Qed.

Lemma tracked_step w a : wf w -> tracked w -> tracked (step w a).
Proof.
  intros Hwf Ht. destruct a as [|q v|q r|q f g|]; simpl.
  - by apply tracked_construct.
  - destruct (decide _); [|done].
    eapply tracked_settles; [done|apply resolve_settles].
  - destruct (decide _); [|done].
    eapply tracked_settles; [done|apply reject_settles].
  - by apply tracked_then.
  - by apply tracked_timeout.
Qed.

Lemma tracked_run w acts : wf w -> tracked w -> tracked (run w acts).
Proof.
  revert w. induction acts as [|a acts IH]; intros w Hwf Ht; [done|].
  simpl. apply IH; [by apply wf_step|by apply tracked_step].
Qed.
End registration.

(** ** Runs *)

Definition timeouts (n : nat) : list action := replicate n Timeout.

Lemma timeout_none r rest w :
  timers w = r :: rest -> heap w !! this r = None ->
  timeout w = set_timers rest w.
Proof.
  intros Ht Ho. unfold timeout, run_reaction. rewrite Ht. simpl. by rewrite Ho.
Qed.

Lemma is_timeout a : a = Timeout \/ a <> Timeout.
Proof. destruct a; (by left) || by right. Qed.

(** A settled promise keeps its state, its value and its reason for ever. *)
Lemma step_frozen w a q o :
  heap w !! q = Some o -> state o <> pending -> heap (step w a) !! q = Some o.
Proof.
  intros Hq Hs. destruct (is_timeout a) as [->|Ha].
  - simpl. destruct (timers w) as [|r rest] eqn:Ht.
    { by rewrite timeout_nil. }
    destruct (heap w !! this r) as [o'|] eqn:Ho.
    + by apply (grows_frozen _ _ (timeout_grows r rest o' w Ht Ho)).
    + by rewrite (timeout_none r rest w Ht Ho).
  - by apply (grows_frozen _ _ (step_grows w a Ha)).
Qed.

Lemma run_frozen w acts q o :
  heap w !! q = Some o -> state o <> pending -> heap (run w acts) !! q = Some o.
Proof.
  revert w. induction acts as [|a acts IH]; intros w Hq Hs; [done|].
  simpl. apply IH; [|done]. by apply step_frozen.
Qed.

Lemma outcome_Some w p o :
  outcome w p = Some o <->
  exists c, heap w !! p = Some c /\ state c <> pending /\
            o = (state c, if decide (state c = rejected) then reason c else value_ c).
Proof.
  unfold outcome. destruct (heap w !! p) as [c|];
    [|split; [done|by intros (c' & ? & _)]].
  destruct (state c) eqn:Hs; split.
  - done.
  - intros (c' & [= <-] & ? & _). congruence.
  - intros [= <-]. exists c. by rewrite Hs.
  - intros (c' & [= <-] & _ & ->). by rewrite Hs.
  - intros [= <-]. exists c. by rewrite Hs.
  - intros (c' & [= <-] & _ & ->). by rewrite Hs.
Qed.

Lemma outcome_run w acts p o :
  outcome w p = Some o -> outcome (run w acts) p = Some o.
Proof.
  rewrite !outcome_Some. intros (c & Hc & Hs & ->). exists c.
  split; [by apply run_frozen|done].
Qed.

(** A settlement call on a settled promise changes nothing at all. *)
Lemma settled_noop w p o v :
  outcome w p = Some o -> resolve p v w = w /\ reject p v w = w.
Proof.
  rewrite outcome_Some. intros (c & Hc & Hs & _). split.
  - apply resolve_not_pending. intros c' ?. congruence.
  - apply reject_not_pending. intros c' ?. congruence.
Qed.

(** The handler calls made so far are never undone. *)
Lemma step_calls w a : calls w `prefix_of` calls (step w a).
Proof.
  destruct (is_timeout a) as [->|Ha].
  - simpl. destruct (timers w) as [|r rest] eqn:Ht.
    { by rewrite timeout_nil. }
    destruct (heap w !! this r) as [o'|] eqn:Ho.
    + rewrite (grows_calls _ _ (timeout_grows r rest o' w Ht Ho)). simpl.
      by apply prefix_app_r.
    + by rewrite (timeout_none r rest w Ht Ho).
  - by rewrite (grows_calls _ _ (step_grows w a Ha)).
Qed.

Lemma run_calls w acts : calls w `prefix_of` calls (run w acts).
Proof.
  revert w. induction acts as [|a acts IH]; intros w; [done|].
  simpl. etrans; [apply step_calls|apply IH].
Qed.

(** A queued reaction is called once the timers before it and itself have
    run. *)
Lemma timeouts_call w l1 r l2 :
  wf w -> timers w = l1 ++ r :: l2 ->
  exists arg, Called r arg ∈ calls (run w (timeouts (S (length l1)))).
Proof.
  revert w l2. induction l1 as [|r' l1 IH]; intros w l2 Hwf Ht.
  - simpl in *. destruct (wf_timers w Hwf r) as (o & Ho & _);
      [rewrite Ht; by left|].
    exists (input r o).
    rewrite (grows_calls _ _ (timeout_grows r l2 o w Ht Ho)). simpl.
    apply elem_of_app. right. by left.
  - simpl in Ht. destruct (wf_timers w Hwf r') as (o & Ho & _);
      [rewrite Ht; by left|].
    destruct (grows_timers _ _ (timeout_grows r' _ o w Ht Ho)) as [extra He].
    simpl in He. change (run w (timeouts (S (S (length l1)))))
      with (run (timeout w) (timeouts (S (length l1)))).
    apply (IH (timeout w) (l2 ++ extra)); [by apply wf_timeout|].
    by rewrite He, <- app_assoc.
Qed.

Lemma timeouts_add n m : timeouts (n + m) = timeouts n ++ timeouts m.
Proof. apply replicate_add. Qed.

Lemma timeouts_call_within w r n :
  wf w -> r ∈ timers w -> length (timers w) <= n ->
  exists arg, Called r arg ∈ calls (run w (timeouts n)).
Proof.
  intros Hwf Hr Hn. apply list_elem_of_split in Hr as (l1 & l2 & Ht).
  destruct (timeouts_call w l1 r l2 Hwf Ht) as [arg Ha]. exists arg.
  rewrite Ht, length_app in Hn. simpl in Hn.
  replace n with (S (length l1) + (n - S (length l1))) by lia.
  rewrite timeouts_add, run_app.
  eapply elem_of_prefix; [done|apply run_calls].
Qed.

(** ** The reactions of one [then] call *)

Lemma owns_earlier c rf rr r : promise2 r < c -> owns c rf rr r.
Proof. intros Hlt Heq. lia. Qed.

(** Right after [p.then(f, g)] returned [c], the reactions of [c] are the
    two it built. *)
Lemma tracked_then_init p f g w o :
  wf w -> heap w !! p = Some o ->
  tracked (length (heap w)) (on_fulfilled p f (length (heap w)))
          (on_rejected p g (length (heap w))) (fst (then_ p f g w)).
Proof.
  intros Hwf Hp. set (c := length (heap w)).
  pose proof (then_registered p f g w o Hp) as H.
  assert (Hold : forall q o', heap w !! q = Some o' -> state o' = pending ->
            Forall (owns c (on_fulfilled p f c) (on_rejected p g c))
                   (onFulfilledCallbacks o') /\
            Forall (owns c (on_fulfilled p f c) (on_rejected p g c))
                   (onRejectedCallbacks o')).
  { intros q o' Hq Hs. destruct (wf_parked w Hwf q o' Hq) as [Hm _].
    split; apply Forall_forall; intros r Hr; apply owns_earlier.
    - by eapply wf_bound_parked.
    - destruct (mates_elem _ _ _ Hm Hr) as (r1 & Hr1 & _ & <- & _).
      by eapply wf_bound_parked. }
  destruct H as [o1 o2 new Hp1 Hw' Hc].
  assert (o1 = o) as -> by congruence. rewrite Hw'. split; simpl.
  - rewrite length_insert, length_app. simpl. lia.
  - intros Hin. apply (wf_executors w Hwf) in Hin. lia.
  - apply Forall_app. split.
    + apply Forall_forall. intros r Hr. apply owns_earlier.
      by apply wf_bound_timers.
    + destruct Hc as [(_ & _ & ->)|[(_ & _ & ->)|(_ & _ & ->)]];
        [done|constructor; [|done]..]; by intros _.
  - intros q o' Hq Hs.
    apply list_lookup_insert_Some in Hq as [(-> & <- & _)|[Hne Hq]].
    + destruct Hc as [(Hso & -> & _)|[(Hso & -> & _)|(Hso & -> & _)]];
        [|congruence..].
      destruct (Hold q o Hp Hso) as [Hf Hr]. simpl.
      split; (apply Forall_app; split; [done|]);
        (constructor; [|done]); by intros _.
    + apply lookup_app_Some in Hq as [Hq|[_ Hq]].
      * by apply Hold with q.
      * apply list_lookup_singleton_Some in Hq as [_ <-]. by split.
  - apply Forall_forall. intros cr Hcr. apply owns_earlier.
    by apply wf_bound_calls.
Qed.

(** The calls made for the reactions of [c]. *)
Definition calls_of (c : nat) (w : world) : list call_record :=
  filter (fun cr => promise2 (called cr) = c) (calls w).

Lemma runs_of_length c w : runs_of c w = length (calls_of c w).
Proof.
  unfold runs_of, calls_of. induction (calls w) as [|cr l IH]; [done|].
  simpl. rewrite filter_cons. unfold to at 1.
  destruct (decide (promise2 (called cr) = c)); simpl; lia.
Qed.

(** The call that a settled [this] makes of the reactions [rf] and [rr]. *)
Definition call_for (rf rr : reaction) (o : pstate * value) : call_record :=
  Called (if decide (o.1 = rejected) then rr else rf) o.2.

Section registration_calls.
Context (p c : nat) (hf hr : fn).
Let rf := Reaction p false hf c.
Let rr := Reaction p true hr c.
Context (w : world).
Hypothesis (Hwf : wf w) (Htr : tracked c rf rr w).

(** Every call for [c] is the call for the outcome of [p]. *)
Lemma calls_of_outcome cr :
  cr ∈ calls_of c w ->
  exists o, outcome w p = Some o /\ cr = call_for rf rr o.
Proof.
  intros Hcr. apply list_elem_of_filter in Hcr as [Hc Hcr].
  pose proof (tr_calls c rf rr w Htr) as Hown.
  rewrite Forall_forall in Hown. specialize (Hown cr Hcr Hc).
  destruct (wf_calls w Hwf cr Hcr) as (o & Ho & Hk & Ha).
  destruct cr as [r arg]. simpl in *. unfold kind, input in *.
  destruct (on_rejection r) eqn:Hrej; subst r; simpl in *.
  - exists (rejected, reason o). split.
    + apply outcome_Some. exists o. rewrite Hk. by repeat split.
    + unfold call_for. simpl. by rewrite Ha.
  - exists (fulfilled, value_ o). split.
    + apply outcome_Some. exists o. rewrite Hk. by repeat split.
    + unfold call_for. simpl. by rewrite Ha.
Qed.

(** At most one call, and it is the call for the outcome. *)
Lemma calls_of_once :
  calls_of c w = [] \/
  exists o, outcome w p = Some o /\ calls_of c w = [call_for rf rr o].
Proof.
  pose proof (wf_once w Hwf c) as Hone. rewrite runs_of_length in Hone.
  destruct (calls_of c w) as [|cr [|cr' l]] eqn:Hl; [by left| |];
    [|simpl in Hone; destruct (decide _) in Hone; lia].
  right. destruct (calls_of_outcome cr) as (o & Ho & ->); [rewrite Hl; by left|].
  by exists o.
Qed.

(** Once [p] is settled, no reaction of [c] is parked any more. *)
Lemma settled_not_parked o :
  outcome w p = Some o -> sum_list_with (parked (to c)) (heap w) = 0.
Proof.
  rewrite outcome_Some. intros (cell & Hp & Hs & _).
  apply sum_list_with_zero, Forall_forall. intros o' Ho'.
  apply list_elem_of_lookup in Ho' as [q Hq]. unfold parked.
  destruct (state o') eqn:Hs'; [|done..].
  apply sum_list_with_zero, Forall_forall. intros r Hr. unfold to.
  destruct (decide (promise2 r = c)) as [Hc|]; [exfalso|done].
  destruct (wf_parked w Hwf q o' Hq) as [Hm Hthis].
  destruct (mates_kind _ _ Hm) as [Hk _].
  rewrite Forall_forall in Hthis, Hk.
  destruct (tr_parked c rf rr w Htr q o' Hq Hs') as [Hown _].
  rewrite Forall_forall in Hown. specialize (Hown r Hr Hc).
  specialize (Hk r Hr). specialize (Hthis r Hr). unfold kind in Hk.
  destruct (on_rejection r); [done|]. subst r. simpl in *. congruence.
Qed.

(** Once [p] is settled, the reaction of [c] is queued or was called. *)
Lemma settled_queued_or_called o :
  outcome w p = Some o ->
  (exists r, r ∈ timers w /\ promise2 r = c) \/ calls_of c w = [call_for rf rr o].
Proof.
  intros Ho. pose proof (wf_once w Hwf c) as Hone.
  rewrite decide_True in Hone
    by (split; [apply (tr_bound _ _ _ _ Htr)|apply (tr_derived _ _ _ _ Htr)]).
  unfold load in Hone. rewrite (settled_not_parked o Ho) in Hone.
  destruct calls_of_once as [Hnil|(o' & Ho' & Hone')].
  - left. rewrite runs_of_length, Hnil in Hone. simpl in Hone.
    destruct (decide (Exists (fun r => promise2 r = c) (timers w))) as [He|He].
    + apply Exists_exists in He as (r & ? & ?). by exists r.
    + apply not_Exists_Forall in He; [|intros r; apply _].
      assert (sum_list_with (to c) (timers w) = 0); [|lia].
      apply sum_list_with_zero. eapply Forall_impl; [done|].
      intros r Hr. simpl in Hr. unfold to. by rewrite decide_False.
  - right. congruence.
Qed.
End registration_calls.

(** ** Deferred continuations *)

(** C4. Settling a promise and registering a continuation call no handler:
    [resolve] and [reject] only move the parked callbacks to the timer queue,
    [then] on a settled promise only queues a timer, and a handler is called
    by a later timer run, one reaction per run. *)
Theorem continuation_deferral (w : world) (p : nat) (v : value)
    (f g : option fn) :
  calls (resolve p v w) = calls w /\
  calls (reject p v w) = calls w /\
  calls (fst (then_ p f g w)) = calls w /\
  (forall a, a <> Timeout -> calls (step w a) = calls w) /\
  (forall o, heap w !! p = Some o -> state o = pending ->
     timers (resolve p v w) = timers w ++ onFulfilledCallbacks o /\
     timers (reject p v w) = timers w ++ onRejectedCallbacks o /\
     timers (fst (then_ p f g w)) = timers w /\
     exists o', heap (fst (then_ p f g w)) !! p = Some o' /\
       onFulfilledCallbacks o' =
         onFulfilledCallbacks o ++ [on_fulfilled p f (length (heap w))] /\
       onRejectedCallbacks o' =
         onRejectedCallbacks o ++ [on_rejected p g (length (heap w))]) /\
  (forall o, heap w !! p = Some o -> state o = fulfilled ->
     timers (fst (then_ p f g w)) =
       timers w ++ [on_fulfilled p f (length (heap w))]) /\
  (forall o, heap w !! p = Some o -> state o = rejected ->
     timers (fst (then_ p f g w)) =
       timers w ++ [on_rejected p g (length (heap w))]) /\
  (forall r rest o, timers w = r :: rest -> heap w !! this r = Some o ->
     calls (timeout w) = calls w ++ [Called r (input r o)]).
Proof.
  split; [apply (grows_calls _ _ (settles_grows _ _ _ (resolve_settles p v w)))|].
  split; [apply (grows_calls _ _ (settles_grows _ _ _ (reject_settles p v w)))|].
  split; [apply (grows_calls _ _ (then_grows p f g w))|].
  split; [intros a Ha; apply (grows_calls _ _ (step_grows w a Ha))|].
  split; [|split; [|split]].
  - intros o Hp Hs.
    rewrite (resolve_pending p v w o), (reject_pending p v w o) by done.
    rewrite (then_eq p f g w o) by done. simpl. rewrite Hs. simpl.
    do 3 (split; [done|]).
    exists (park (on_fulfilled p f (length (heap w)))
                 (on_rejected p g (length (heap w))) o).
    split; [|done].
    apply list_lookup_insert_eq. rewrite length_app.
    apply lookup_lt_Some in Hp. lia.
  - intros o Hp Hs. rewrite (then_eq p f g w o) by done. simpl. by rewrite Hs.
  - intros o Hp Hs. rewrite (then_eq p f g w o) by done. simpl. by rewrite Hs.
  - intros r rest o Ht Ho.
    by rewrite (grows_calls _ _ (timeout_grows r rest o w Ht Ho)).
Qed.

Lemma continuation_deferral_witness :
  timers (resolve 0 (VNum 1) (run empty [New; Then 0 None None]))
    = [on_fulfilled 0 None 1] /\
  calls (resolve 0 (VNum 1) (run empty [New; Then 0 None None])) = [] /\
  timers (fst (then_ 0 None None (run empty [New; Resolve 0 (VNum 1)])))
    = [on_fulfilled 0 None 1] /\
  calls (timeout (run empty [New; Resolve 0 (VNum 1); Then 0 None None]))
    = [Called (on_fulfilled 0 None 1) (VNum 1)].
Proof.
  pose proof (continuation_deferral (run empty [New; Then 0 None None]) 0
                (VNum 1) None None) as (H1 & _ & _ & _ & H5 & _).
  pose proof (continuation_deferral (run empty [New; Resolve 0 (VNum 1)]) 0
                (VNum 1) None None) as (_ & _ & _ & _ & _ & H6 & _).
  pose proof (continuation_deferral
                (run empty [New; Resolve 0 (VNum 1); Then 0 None None]) 0
                (VNum 1) None None) as (_ & _ & _ & _ & _ & _ & _ & H8).
  split; [exact (proj1 (H5 _ eq_refl eq_refl))|].
  split; [exact H1|].
  split; [exact (H6 _ eq_refl eq_refl)|].
  exact (H8 _ _ _ eq_refl eq_refl).
Defined.

(** ** What holds from the call of a reaction on *)

Lemma step_calls_cases w a cr :
  cr ∈ calls (step w a) ->
  cr ∈ calls w \/
  (a = Timeout /\ exists r rest o,
     timers w = r :: rest /\ heap w !! this r = Some o /\
     cr = Called r (input r o)).
Proof.
  intros Hcr. destruct (is_timeout a) as [->|Ha].
  - simpl in Hcr. destruct (timers w) as [|r rest] eqn:Ht.
    { rewrite timeout_nil in Hcr by done. by left. }
    destruct (heap w !! this r) as [o|] eqn:Ho.
    + rewrite (grows_calls _ _ (timeout_grows r rest o w Ht Ho)) in Hcr.
      simpl in Hcr. apply elem_of_app in Hcr as [?|Hcr]; [by left|].
      apply list_elem_of_singleton in Hcr. right. split; [done|].
      by exists r, rest, o.
    + rewrite (timeout_none r rest w Ht Ho) in Hcr. by left.
  - rewrite (grows_calls _ _ (step_grows w a Ha)) in Hcr. by left.
Qed.

Section call_invariant.
Context (c : nat) (rf rr : reaction) (P : call_record -> world -> Prop).
Hypothesis establish : forall w r rest o,
  wf w -> tracked c rf rr w -> timers w = r :: rest ->
  heap w !! this r = Some o -> promise2 r = c ->
  P (Called r (input r o)) (timeout w).
Hypothesis preserve : forall w a cr,
  wf w -> cr ∈ calls_of c w -> P cr w -> P cr (step w a).

Lemma call_invariant w acts :
  wf w -> tracked c rf rr w ->
  (forall cr, cr ∈ calls_of c w -> P cr w) ->
  forall cr, cr ∈ calls_of c (run w acts) -> P cr (run w acts).
Proof.
  revert w. induction acts as [|a acts IH]; intros w Hwf Htr H0; [done|].
  simpl. apply IH; [by apply wf_step|by apply tracked_step|].
  intros cr Hcr. apply list_elem_of_filter in Hcr as [Hc Hcr].
  apply step_calls_cases in Hcr as [Hcr|(-> & r & rest & o & Ht & Ho & ->)].
  - assert (cr ∈ calls_of c w) by by apply list_elem_of_filter.
    apply preserve; [done..|]. by apply H0.
  - by apply (establish w r rest o).
Qed.
End call_invariant.

(** What the handler call produced. *)
Definition returned (cr : call_record) : completion :=
  match handler (called cr) with
  | Closure h => h (argument cr)
  | ResolveOf _ | RejectOf _ => Return VUndefined
  end.

Lemma aimed_live w r c :
  wf w -> r ∈ timers w -> 0 < aim c r ->
  exists o, heap w !! c = Some o /\ state o = pending.
Proof.
  intros Hwf Hr Ha. destruct (wf_settlers w Hwf c) as [_ Hl].
  pose proof (sum_list_with_in _ (aim c) _ Hr) as Hle.
  destruct Hl as [_ Hs]; [unfold load; lia|].
  destruct (heap w !! c) as [o|]; [|done]. exists o. split; [done|].
  simpl in Hs. congruence.
Qed.

Lemma outcome_step w a p o :
  outcome w p = Some o -> outcome (step w a) p = Some o.
Proof. apply (outcome_run w [a]). Qed.

Lemma on_fulfilled_closure p f c :
  on_fulfilled p (Closure <$> f) c = Reaction p false (Closure (default Return f)) c.
Proof. by destruct f. Qed.

Lemma on_rejected_closure p g c :
  on_rejected p (Closure <$> g) c = Reaction p true (Closure (default Throw g)) c.
Proof. by destruct g. Qed.

(** ** A continuation that returns the promise [then] returned *)

Definition cycle_error : value := VError "TypeError" "Chaining cycle detected".

Section cycle.
Context (c : nat) (rf rr : reaction).

Definition cycle_caught (cr : call_record) (w : world) : Prop :=
  returned cr = Return (VPromise c) -> outcome w c = Some (rejected, cycle_error).

Lemma cycle_caught_establish w r rest o :
  wf w -> tracked c rf rr w -> timers w = r :: rest ->
  heap w !! this r = Some o -> promise2 r = c ->
  cycle_caught (Called r (input r o)) (timeout w).
Proof.
  intros Hwf Htr Ht Ho Hc Hret. unfold returned in Hret. simpl in Hret.
  rewrite (timeout_cons r rest o w Ht Ho). simpl.
  destruct (aimed_live w r c Hwf) as (oc & Hoc & Hs).
  { rewrite Ht. by left. }
  { unfold aim. rewrite <- Hc, to_self. lia. }
  destruct (handler r) as [h| |]; [|done..]. rewrite Hret, Hc.
  unfold resolvePromise. rewrite decide_True by done.
  rewrite (reject_pending c _ _ oc) by done.
  apply outcome_Some. exists (refuse cycle_error oc). simpl.
  split; [|done]. apply list_lookup_insert_eq. by eapply lookup_lt_Some.
Qed.

Lemma cycle_caught_run w acts :
  wf w -> tracked c rf rr w -> calls_of c w = [] ->
  forall cr, cr ∈ calls_of c (run w acts) -> cycle_caught cr (run w acts).
Proof.
  intros Hwf Htr Hnil.
  apply (call_invariant c rf rr cycle_caught); try done.
  - apply cycle_caught_establish.
  - intros w' a cr _ _ H Hret. by apply outcome_step, H.
  - intros cr. rewrite Hnil. intros H. by apply not_elem_of_nil in H.
Qed.
End cycle.

(** ** From a registration to the call *)

Lemma calls_of_fresh w c : wf w -> length (heap w) <= c -> calls_of c w = [].
Proof.
  intros Hwf Hc. apply elem_of_nil_inv. intros cr Hcr.
  apply list_elem_of_filter in Hcr as [Heq Hcr].
  apply (wf_bound_calls w cr Hwf) in Hcr. lia.
Qed.

(** The world of a program that at some point called [p.then(f, g)] on an
    existing promise: it is well formed and the reactions of the promise
    [c] that the call returned are tracked; [c] had no call before. *)
Lemma registration pre p f g post :
  p < length (heap (run empty pre)) ->
  let c := length (heap (run empty pre)) in
  let w1 := fst (then_ p (Closure <$> f) (Closure <$> g) (run empty pre)) in
  run empty (pre ++ Then p f g :: post) = run w1 post /\
  wf w1 /\
  tracked c (on_fulfilled p (Closure <$> f) c) (on_rejected p (Closure <$> g) c) w1 /\
  calls_of c w1 = [].
Proof.
  intros Hp c w1. destruct (lookup_lt_is_Some_2 _ _ Hp) as [o0 Hp0].
  assert (Hwf0 : wf (run empty pre)) by apply wf_run, wf_empty.
  split; [by rewrite run_app|]. split; [|split].
  - apply (wf_step _ (Then p f g) Hwf0).
  - by eapply tracked_then_init.
  - unfold calls_of, w1. rewrite (grows_calls _ _ (then_grows _ _ _ _)).
    by apply calls_of_fresh.
Qed.

(** Once [p] is settled, running the timers that are queued calls the
    continuation of [c], if that has not been done before. *)
Lemma settled_then_called p c hf hr w o :
  let rf := Reaction p false hf c in
  let rr := Reaction p true hr c in
  wf w -> tracked c rf rr w -> outcome w p = Some o ->
  calls_of c (run w (timeouts (length (timers w)))) = [call_for rf rr o].
Proof.
  intros rf rr Hwf Htr Ho.
  set (w' := run w (timeouts (length (timers w)))).
  destruct (calls_of_once p c hf hr w') as [Hnil|(o' & Ho' & ?)];
    [by apply wf_run|by apply tracked_run| |].
  - exfalso.
    assert (Hin : exists cr, cr ∈ calls w' /\ promise2 (called cr) = c).
    { destruct (settled_queued_or_called p c hf hr w Hwf Htr o Ho)
        as [(r & Hr & Hc)|Hcalled].
      - destruct (timeouts_call_within w r _ Hwf Hr (le_n _)) as [arg Ha].
        by exists (Called r arg).
      - exists (call_for rf rr o). split.
        + eapply elem_of_prefix; [|apply run_calls].
          assert (Hin : call_for rf rr o ∈ calls_of c w)
            by (rewrite Hcalled; by left).
          by apply list_elem_of_filter in Hin as [_ Hin].
        + unfold call_for. simpl. by destruct (decide _). }
    destruct Hin as (cr & Hcr & Hc).
    assert (H : cr ∈ calls_of c w') by by apply list_elem_of_filter.
    rewrite Hnil in H. by apply not_elem_of_nil in H.
  - unfold w' in Ho'. rewrite (outcome_run w _ p o Ho) in Ho'.
    by injection Ho' as <-.
Qed.

(** ** Single settlement *)

(** C1. A settled promise stays as it is: [resolve] and [reject] leave the
    whole world unchanged, its outcome is the same after any further steps,
    and the continuation pair of every [then] call on it is called at most
    once, with that first outcome, and exactly once when the timers queued
    at that point have run. *)
Theorem single_settlement (acts : list action) (p : nat) (o : pstate * value) :
  outcome (run empty acts) p = Some o ->
  (forall v, resolve p v (run empty acts) = run empty acts /\
             reject p v (run empty acts) = run empty acts) /\
  (forall more, outcome (run (run empty acts) more) p = Some o) /\
  (forall pre f g post,
     acts = pre ++ Then p f g :: post ->
     p < length (heap (run empty pre)) ->
     let c := length (heap (run empty pre)) in
     let rf := on_fulfilled p (Closure <$> f) c in
     let rr := on_rejected p (Closure <$> g) c in
     (forall more,
        calls_of c (run (run empty acts) more) = [] \/
        calls_of c (run (run empty acts) more) = [call_for rf rr o]) /\
     calls_of c (run (run empty acts) (timeouts (length (timers (run empty acts)))))
       = [call_for rf rr o]).
Proof.
  intros Ho. split; [|split].
  - intros v. by eapply settled_noop.
  - intros more. by apply outcome_run.
  - intros pre f g post -> Hp c rf rr.
    destruct (registration pre p f g post Hp) as (Hrun & Hwf1 & Htr1 & _).
    set (w := run empty (pre ++ Then p f g :: post)) in *.
    assert (Hwf : wf w) by apply wf_run, wf_empty.
    assert (Htr : tracked c rf rr w)
      by (rewrite Hrun; by apply tracked_run).
    split; [|by apply (settled_then_called p c (handler rf) (handler rr))].
    intros more.
    destruct (calls_of_once p c (handler rf) (handler rr) (run w more))
      as [?|(o' & Ho' & ?)];
      [by apply wf_run|by apply tracked_run|by left|right].
    rewrite (outcome_run w more p o Ho) in Ho'. by injection Ho' as <-.
Qed.

Definition settle_twice_demo : list action :=
  [New; Then 0 None None; Resolve 0 (VNum 1); Reject 0 (VStr "late")].

Lemma single_settlement_witness :
  outcome (run empty settle_twice_demo) 0 = Some (fulfilled, VNum 1) /\
  (forall v, resolve 0 v (run empty settle_twice_demo)
             = run empty settle_twice_demo /\
             reject 0 v (run empty settle_twice_demo)
             = run empty settle_twice_demo) /\
  calls_of 1 (run (run empty settle_twice_demo) (timeouts 1))
    = [call_for (on_fulfilled 0 None 1) (on_rejected 0 None 1) (fulfilled, VNum 1)].
Proof.
  split; [reflexivity|].
  pose proof (single_settlement settle_twice_demo 0 (fulfilled, VNum 1) eq_refl)
    as (H1 & _ & H3).
  split; [exact H1|].
  exact (proj2 (H3 [New] None None [Resolve 0 (VNum 1); Reject 0 (VStr "late")]
                  eq_refl (le_n 1))).
Defined.

(** ** Cycles *)

Lemma timeouts_idle w n : timers w = [] -> run w (timeouts n) = w.
Proof.
  intros Ht. induction n as [|n IH]; [done|].
  simpl. by rewrite timeout_nil.
Qed.

(** The handler that [then] calls for the outcome [o] of [this], applied to
    the value or reason. *)
Definition continuation_result (f g : option (value -> completion))
    (o : pstate * value) : completion :=
  if decide (o.1 = rejected) then default Throw g o.2 else default Return f o.2.

Lemma returned_call_for p c f g o :
  returned (call_for (on_fulfilled p (Closure <$> f) c)
                     (on_rejected p (Closure <$> g) c) o)
  = continuation_result f g o.
Proof.
  unfold returned, call_for, continuation_result.
  destruct (decide (o.1 = rejected)); simpl; [by destruct g|by destruct f].
Qed.

(** C3, as the code has it.  When the continuation that [then] calls returns
    the very promise [c] that this [then] call returned, [c] is rejected
    with the TypeError 'Chaining cycle detected', at the latest when the
    timers queued at the time [this] is settled have run. *)
Theorem returned_promise_cycle (pre post : list action) (p : nat)
    (f g : option (value -> completion)) (o : pstate * value) :
  p < length (heap (run empty pre)) ->
  outcome (run empty (pre ++ Then p f g :: post)) p = Some o ->
  continuation_result f g o = Return (VPromise (length (heap (run empty pre)))) ->
  outcome (run (run empty (pre ++ Then p f g :: post))
               (timeouts (length (timers (run empty (pre ++ Then p f g :: post))))))
          (length (heap (run empty pre)))
  = Some (rejected, cycle_error).
Proof.
  intros Hp Ho Hret.
  destruct (registration pre p f g post Hp) as (Hrun & Hwf1 & Htr1 & Hnil).
  set (c := length (heap (run empty pre))) in *.
  set (rf := on_fulfilled p (Closure <$> f) c) in *.
  set (rr := on_rejected p (Closure <$> g) c) in *.
  set (w := run empty (pre ++ Then p f g :: post)) in *.
  assert (Hwf : wf w) by apply wf_run, wf_empty.
  assert (Htr : tracked c rf rr w) by (rewrite Hrun; by apply tracked_run).
  pose proof (settled_then_called p c (handler rf) (handler rr) w o Hwf Htr Ho)
    as Hcalled.
  rewrite Hrun, <- run_app in Hcalled |- *.
  eapply (cycle_caught_run c rf rr _ _ Hwf1 Htr1 Hnil).
  - rewrite Hcalled. by left.
  - rewrite <- Hret. apply (returned_call_for p c f g o).
Qed.

Lemma returned_promise_cycle_witness :
  outcome (run (run empty [New; Resolve 0 (VNum 1);
                           Then 0 (Some (fun _ => Return (VPromise 1))) None])
               (timeouts 1)) 1
  = Some (rejected, cycle_error).
Proof.
  exact (returned_promise_cycle [New; Resolve 0 (VNum 1)] [] 0
           (Some (fun _ => Return (VPromise 1))) None (fulfilled, VNum 1)
           (le_n 1) eq_refl eq_refl).
Defined.

(** Two continuations that return each other's promise: promise 1 is
    [p0.then(() => promise 2)] and promise 2 is [p0.then(() => promise 1)]. *)
Definition chain_cycle : list action :=
  [New; Resolve 0 (VNum 1);
   Then 0 (Some (fun _ => Return (VPromise 2))) None;
   Then 0 (Some (fun _ => Return (VPromise 1))) None].

(** A cycle through two promises is not caught: when the two timers have
    run the queue is empty and both promises are pending, and they stay
    pending however many timers run; no TypeError is raised. *)
Lemma chain_cycle_hangs :
  timers (run empty (chain_cycle ++ timeouts 2)) = [] /\
  outcome (run empty (chain_cycle ++ timeouts 2)) 1 = None /\
  outcome (run empty (chain_cycle ++ timeouts 2)) 2 = None /\
  (forall n,
     outcome (run empty (chain_cycle ++ timeouts n)) 1 = None /\
     outcome (run empty (chain_cycle ++ timeouts n)) 2 = None).
Proof.
  split; [done|]. split; [done|]. split; [done|].
  intros n. rewrite run_app.
  destruct n as [|[|n]]; [by split..|].
  change (timeouts (S (S n))) with (timeouts 2 ++ timeouts n).
  rewrite run_app, timeouts_idle; [by split|done].
Qed.

(** ** The timer queue runs empty *)

Lemma load_resolvePromise_weight t x w :
  wf w -> load weight (resolvePromise t x w) <= load weight w + 1.
Proof.
  intros Hwf. unfold resolvePromise.
  destruct x as [|n|s|name msg|fields|elems|q];
    try (rewrite (load_settle weight t w _ (wf_paired w Hwf) weight_respects
                    (resolve_settles t _ w)); lia).
  destruct (decide (t = q)).
  - rewrite (load_settle weight t w _ (wf_paired w Hwf) weight_respects
               (reject_settles t _ w)). lia.
  - destruct (heap w !! q) as [o|] eqn:Hq.
    + rewrite (load_registered _ _ _ _ _ (then_registered _ _ _ _ _ Hq)
                 weight weight_respects); [|by simpl].
      change (weight (on_fulfilled q (Some (ResolveOf t)) (length (heap w))))
        with 1. lia.
    + rewrite then_none by done. simpl. lia.
Qed.

Lemma weight_pos r : 0 < weight r.
Proof. unfold weight. destruct (handler r); lia. Qed.

(** Every timer run decreases the total weight of the waiting reactions. *)
Lemma load_weight_timeout w r rest :
  wf w -> timers w = r :: rest -> load weight (timeout w) < load weight w.
Proof.
  intros Hwf Ht.
  destruct (wf_timers w Hwf r) as (o & Ho & _); [rewrite Ht; by left|].
  rewrite (timeout_cons r rest o w Ht Ho). simpl.
  pose proof (wf_dequeued r rest o w Hwf Ht Ho) as Hwf1.
  pose proof (load_dequeued weight r rest o w Ht) as Hl.
  set (w1 := dequeued r rest o w) in *.
  assert (Hset : forall t w2 w3, paired w2 -> settles t w2 w3 ->
                   load weight w3 = load weight w2)
    by (intros; by eapply load_settle; [|apply weight_respects|]).
  unfold weight in Hl at 2.
  destruct (handler r) as [g|t|t].
  - destruct (g (input r o)).
    + pose proof (load_resolvePromise_weight (promise2 r) v w1 Hwf1). lia.
    + rewrite (Hset _ w1 _ (wf_paired _ Hwf1) (reject_settles _ _ _)). lia.
  - pose proof (resolve_settles t (input r o) w1) as Hs.
    rewrite (Hset _ _ _ (paired_settles _ _ _ (wf_paired _ Hwf1) Hs)
               (resolve_settles _ _ _)).
    rewrite (Hset _ w1 _ (wf_paired _ Hwf1) Hs). lia.
  - pose proof (reject_settles t (input r o) w1) as Hs.
    rewrite (Hset _ _ _ (paired_settles _ _ _ (wf_paired _ Hwf1) Hs)
               (resolve_settles _ _ _)).
    rewrite (Hset _ w1 _ (wf_paired _ Hwf1) Hs). lia.
Qed.

(** A number of timer runs after which the queue is empty: 3 for each
    waiting reaction whose handler is a function of the caller, 1 for each
    whose handler is [resolve] or [reject]. *)
Definition fuel (w : world) : nat := load weight w.

Lemma timeouts_drain w n : wf w -> fuel w <= n -> timers (run w (timeouts n)) = [].
Proof.
  revert w. induction n as [|n IH]; intros w Hwf Hn.
  - simpl. destruct (timers w) as [|r rest] eqn:Ht; [done|].
    unfold fuel, load in Hn. rewrite Ht in Hn. simpl in Hn.
    pose proof (weight_pos r). lia.
  - destruct (timers w) as [|r rest] eqn:Ht.
    + by rewrite timeouts_idle.
    + simpl. apply IH; [by apply wf_timeout|].
      pose proof (load_weight_timeout w r rest Hwf Ht). unfold fuel in *. lia.
Qed.

(** ** Adoption of a returned promise *)

Lemma outcome_grows w w' p o :
  grows w w' -> outcome w p = Some o -> outcome w' p = Some o.
Proof.
  intros Hg. rewrite !outcome_Some. intros (c & Hc & Hs & ->). exists c.
  split; [by apply (grows_frozen _ _ Hg)|done].
Qed.

Lemma parked_live w q o r c :
  wf w -> heap w !! q = Some o -> state o = pending ->
  r ∈ onFulfilledCallbacks o -> 0 < aim c r ->
  exists oc, heap w !! c = Some oc /\ state oc = pending.
Proof.
  intros Hwf Hq Hs Hr Ha. destruct (wf_settlers w Hwf c) as [_ Hl].
  pose proof (sum_list_with_in _ (aim c) _ Hr) as Hle.
  pose proof (sum_list_with_in _ (parked (aim c)) (heap w)
                (list_elem_of_lookup_2 _ _ _ Hq)) as Hle'.
  rewrite (parked_pending _ _ Hs) in Hle'.
  destruct Hl as [_ Hsc]; [unfold load; lia|].
  destruct (heap w !! c) as [oc|]; [|done]. exists oc. split; [done|].
  simpl in Hsc. congruence.
Qed.

(** No step removes a promise. *)
Lemma heap_step_length w a : length (heap w) <= length (heap (step w a)).
Proof.
  destruct (is_timeout a) as [->|Ha].
  - simpl. destruct (timers w) as [|r rest] eqn:Ht; [by rewrite timeout_nil|].
    destruct (heap w !! this r) as [o|] eqn:Ho.
    + apply (grows_length _ _ (timeout_grows r rest o w Ht Ho)).
    + by rewrite (timeout_none r rest w Ht Ho).
  - apply (grows_length _ _ (step_grows w a Ha)).
Qed.

Section adoption.
(** [c] is the promise a [then] call returned, [q] another promise, which
    its continuation returns. *)
Context (c q : nat) (rf rr : reaction).
Hypothesis (Hqc : q <> c).

(** The reactions of the call [q.then(resolve, reject)] that
    [resolvePromise] makes for [c]; [d] is the promise that call returns. *)
Definition adopt_f (d : nat) : reaction := Reaction q false (ResolveOf c) d.
Definition adopt_r (d : nat) : reaction := Reaction q true (RejectOf c) d.

(** [c] follows [q]: it waits on [q] with [resolve] and [reject] parked,
    or [q] is settled and the matching one of them is queued, or [c] has
    taken the outcome of [q]. *)
Definition adopting (w : world) : Prop :=
  (exists d oq, heap w !! q = Some oq /\
     ((state oq = pending /\ adopt_f d ∈ onFulfilledCallbacks oq /\
         adopt_r d ∈ onRejectedCallbacks oq) \/
      (state oq = fulfilled /\ adopt_f d ∈ timers w) \/
      (state oq = rejected /\ adopt_r d ∈ timers w))) \/
  (exists o, outcome w c = Some o /\ outcome w q = Some o).

Lemma adopting_grows w w' : grows w w' -> adopting w -> adopting w'.
Proof.
  intros Hg [(d & oq & Hq & Hc)|(o & Ho1 & Ho2)].
  - left. destruct (grows_timers _ _ Hg) as [extra He].
    destruct Hc as [(Hs & Hf & Hr)|[(Hs & Hin)|(Hs & Hin)]].
    + destruct (grows_parked _ _ Hg q oq Hq Hs) as (o' & Hq' & Hc').
      exists d, o'. split; [done|].
      destruct Hc' as [(Hs' & Hpf & Hpr)|[(Hs' & Hin)|(Hs' & Hin)]].
      * left. split; [done|]. split; by eapply elem_of_prefix.
      * right; left. split; [done|]. by apply Hin.
      * right; right. split; [done|]. by apply Hin.
    + exists d, oq. split; [apply (grows_frozen _ _ Hg); congruence|].
      right; left. split; [done|]. rewrite He. apply elem_of_app. by left.
    + exists d, oq. split; [apply (grows_frozen _ _ Hg); congruence|].
      right; right. split; [done|]. rewrite He. apply elem_of_app. by left.
  - right. exists o. split; by eapply outcome_grows.
Qed.

(** Running the queued [resolve] or [reject] of [c] gives [c] the outcome
    of [q]. *)
Lemma adopting_fire w r rest oq :
  wf w -> timers w = r :: rest -> heap w !! q = Some oq ->
  state oq = kind r -> (exists d, r = adopt_f d \/ r = adopt_r d) ->
  exists o, outcome (timeout w) c = Some o /\ outcome (timeout w) q = Some o.
Proof.
  intros Hwf Ht Hq Hk (d & Hr).
  assert (Hthis : this r = q) by by destruct Hr as [->| ->].
  assert (Ho : heap w !! this r = Some oq) by by rewrite Hthis.
  destruct (aimed_live w r c Hwf) as (oc & Hoc & Hs).
  { rewrite Ht. by left. }
  { unfold aim. destruct Hr as [->| ->]; simpl; rewrite decide_True by done; lia. }
  assert (Hlt : c < length (heap w)) by by eapply lookup_lt_Some.
  assert (Hsq : state oq <> pending)
    by (rewrite Hk; unfold kind; by destruct (on_rejection r)).
  rewrite (timeout_cons r rest oq w Ht Ho). simpl.
  destruct Hr as [->| ->]; simpl.
  - exists (fulfilled, value_ oq).
    split; (eapply outcome_grows; [eapply settles_grows, resolve_settles|]);
      rewrite (resolve_pending c _ _ oc) by done;
      apply outcome_Some; simpl.
    + exists (fulfil (value_ oq) oc). split; [|done].
      by apply list_lookup_insert_eq.
    + exists oq. rewrite list_lookup_insert_ne by congruence. simpl in Hk.
      rewrite Hk. by repeat split.
  - exists (rejected, reason oq).
    split; (eapply outcome_grows; [eapply settles_grows, resolve_settles|]);
      rewrite (reject_pending c _ _ oc) by done;
      apply outcome_Some; simpl.
    + exists (refuse (reason oq) oc). split; [|done].
      by apply list_lookup_insert_eq.
    + exists oq. rewrite list_lookup_insert_ne by congruence. simpl in Hk.
      rewrite Hk. by repeat split.
Qed.

Lemma adopting_timeout w : wf w -> adopting w -> adopting (timeout w).
Proof.
  intros Hwf Ha. destruct (timers w) as [|r rest] eqn:Ht.
  { by rewrite timeout_nil. }
  destruct (wf_timers w Hwf r) as (o & Ho & Hk); [rewrite Ht; by left|].
  pose proof (timeout_grows r rest o w Ht Ho) as Hg.
  destruct Ha as [(d & oq & Hq & Hc)|(o' & Ho1 & Ho2)].
  - destruct Hc as [Hc|[(Hs & Hin)|(Hs & Hin)]].
    + apply (adopting_grows _ _ Hg). left. exists d, oq. split; [done|].
      by left.
    + rewrite Ht in Hin. apply elem_of_cons in Hin as [<-|Hin].
      * right. eapply adopting_fire; [done..|by exists d; left].
      * apply (adopting_grows _ _ Hg). left. exists d, oq.
        split; [done|]. right; left. by split.
    + rewrite Ht in Hin. apply elem_of_cons in Hin as [<-|Hin].
      * right. eapply adopting_fire; [done..|by exists d; right].
      * apply (adopting_grows _ _ Hg). left. exists d, oq.
        split; [done|]. right; right. by split.
  - apply (adopting_grows _ _ Hg). right. by exists o'.
Qed.

Lemma adopting_step w a : wf w -> adopting w -> adopting (step w a).
Proof.
  intros Hwf Ha. destruct (is_timeout a) as [->|Hne].
  - by apply adopting_timeout.
  - by apply (adopting_grows _ _ (step_grows w a Hne)).
Qed.

Definition adopted (cr : call_record) (w : world) : Prop :=
  returned cr = Return (VPromise q) -> adopting w.

(** The call of the continuation finds [q], which exists, and subscribes
    [c] to it. *)
Lemma adopted_establish w r rest o :
  q < length (heap w) -> timers w = r :: rest ->
  heap w !! this r = Some o -> promise2 r = c ->
  adopted (Called r (input r o)) (timeout w).
Proof.
  intros Hb Ht Ho Hc Hret. unfold returned in Hret. simpl in Hret.
  rewrite (timeout_cons r rest o w Ht Ho). simpl.
  destruct (handler r) as [h| |]; [|done..]. rewrite Hret, Hc.
  unfold resolvePromise. rewrite decide_False by congruence.
  destruct (lookup_lt_is_Some_2 (heap w) q) as [oq Hq]; [lia|].
  rewrite (then_eq q _ _ (dequeued r rest o w) oq) by done. simpl.
  left. exists (length (heap w)).
  destruct (state oq) eqn:Hs; simpl.
  - eexists. split; [apply list_lookup_insert_eq; rewrite length_app; lia|].
    left. simpl. rewrite Hs. split; [done|].
    split; apply elem_of_app; right; by left.
  - exists oq. split; [by rewrite lookup_app_l by lia|].
    right; left. split; [done|]. apply elem_of_app; right; by left.
  - exists oq. split; [by rewrite lookup_app_l by lia|].
    right; right. split; [done|]. apply elem_of_app; right; by left.
Qed.

(** From a state in which [q] exists and the continuation was not called
    yet. *)
Lemma adopted_run w acts :
  wf w -> q < length (heap w) -> calls_of c w = [] ->
  forall cr, cr ∈ calls_of c (run w acts) -> adopted cr (run w acts).
Proof.
  intros Hwf Hq Hnil.
  assert (H0 : forall cr, cr ∈ calls_of c w -> adopted cr w).
  { intros cr. rewrite Hnil. intros H. by apply not_elem_of_nil in H. }
  clear Hnil. revert w Hwf Hq H0.
  induction acts as [|a acts IH]; intros w Hwf Hq H0; [done|].
  simpl. apply IH; [by apply wf_step|pose proof (heap_step_length w a); lia|].
  intros cr Hcr. apply list_elem_of_filter in Hcr as [Hc Hcr].
  apply step_calls_cases in Hcr as [Hcr|(-> & r & rest & o & Ht & Ho & ->)].
  - intros Hret. apply adopting_step; [done|]. apply (H0 cr); [|done].
    by apply list_elem_of_filter.
  - by apply (adopted_establish w r rest o).
Qed.

(** While [c] follows [q] it has no outcome of its own. *)
Lemma adopting_outcome w :
  wf w -> adopting w ->
  (forall o, outcome w c = Some o -> outcome w q = Some o) /\
  (timers w = [] -> outcome w c = outcome w q).
Proof.
  intros Hwf [(d & oq & Hq & Hc)|(o & Ho1 & Ho2)].
  - assert (Hpend : exists oc, heap w !! c = Some oc /\ state oc = pending).
    { assert (Haf : 0 < aim c (adopt_f d))
        by (unfold aim; simpl; rewrite decide_True by done; lia).
      assert (Har : 0 < aim c (adopt_r d))
        by (unfold aim; simpl; rewrite decide_True by done; lia).
      destruct Hc as [(Hs & Hf & _)|[(_ & Hin)|(_ & Hin)]].
      - by eapply parked_live.
      - by eapply aimed_live.
      - by eapply aimed_live. }
    destruct Hpend as (oc & Hoc & Hsc).
    assert (Hnone : outcome w c = None) by (unfold outcome; by rewrite Hoc, Hsc).
    split; [intros o; by rewrite Hnone|]. intros Ht. rewrite Hnone.
    destruct Hc as [(Hs & _)|[(_ & Hin)|(_ & Hin)]].
    + unfold outcome. by rewrite Hq, Hs.
    + rewrite Ht in Hin. by apply not_elem_of_nil in Hin.
    + rewrite Ht in Hin. by apply not_elem_of_nil in Hin.
  - split; [|by rewrite Ho1, Ho2]. intros o'. rewrite Ho1. by intros [= <-].
Qed.
End adoption.

(** The promise [c] that [p.then(f, g)] returned, when the continuation
    called for the outcome of [p] returns another promise [q], one that
    exists after [mid], when the continuation was not called yet. *)
Lemma following pre mid p q f g post o :
  p < length (heap (run empty pre)) ->
  q <> length (heap (run empty pre)) ->
  q < length (heap (run empty (pre ++ Then p f g :: mid))) ->
  calls_of (length (heap (run empty pre)))
           (run empty (pre ++ Then p f g :: mid)) = [] ->
  outcome (run empty (pre ++ Then p f g :: mid ++ post)) p = Some o ->
  continuation_result f g o = Return (VPromise q) ->
  (forall oc, outcome (run empty (pre ++ Then p f g :: mid ++ post))
                (length (heap (run empty pre))) = Some oc ->
              outcome (run empty (pre ++ Then p f g :: mid ++ post)) q = Some oc) /\
  (timers (run empty (pre ++ Then p f g :: mid ++ post)) = [] ->
   outcome (run empty (pre ++ Then p f g :: mid ++ post))
           (length (heap (run empty pre)))
   = outcome (run empty (pre ++ Then p f g :: mid ++ post)) q).
Proof.
  intros Hp Hqc Hq Hnil Ho Hret.
  destruct (registration pre p f g (mid ++ post) Hp) as (Hrun & Hwf1 & Htr1 & _).
  destruct (registration pre p f g mid Hp) as (Hmid & _).
  set (c := length (heap (run empty pre))) in *.
  set (rf := on_fulfilled p (Closure <$> f) c) in *.
  set (rr := on_rejected p (Closure <$> g) c) in *.
  set (w := run empty (pre ++ Then p f g :: mid ++ post)) in *.
  assert (Hwf : wf w) by apply wf_run, wf_empty.
  assert (Htr : tracked c rf rr w) by (rewrite Hrun; by apply tracked_run).
  destruct (settled_queued_or_called p c (handler rf) (handler rr) w Hwf Htr o Ho)
    as [(r & Hr & Hc)|Hcalled].
  - destruct (aimed_live w r c Hwf Hr) as (oc & Hoc & Hs).
    { unfold aim. rewrite <- Hc, to_self. lia. }
    assert (Hnone : outcome w c = None) by (unfold outcome; by rewrite Hoc, Hs).
    split; [intros oc'; by rewrite Hnone|]. intros Ht. rewrite Ht in Hr.
    by apply not_elem_of_nil in Hr.
  - apply (adopting_outcome c q Hqc w Hwf).
    rewrite Hmid in Hq, Hnil. rewrite Hrun, run_app.
    eapply (adopted_run c q Hqc _ post (wf_run _ mid Hwf1) Hq Hnil).
    + rewrite <- run_app, <- Hrun. fold w. rewrite Hcalled. by left.
    + rewrite <- Hret. apply (returned_call_for p c f g o).
Qed.

(** C2, as the code has it.  When the continuation that [then] calls
    returns another promise [q] (any promise but the one [then] returned,
    older or newer, that exists when the continuation is called: here, one
    that exists after the steps [mid], which do not call the continuation),
    the promise [c] that [then] returned takes the outcome of [q] and no
    other: whenever [c] is settled, [q] is settled with the same state and
    the same value or reason; and after [fuel] timer runs the queue is empty
    and [c] and [q] have the same outcome (none while [q] is pending).  The
    value is passed on as it is, one level.  The continuations of the model
    create no promise: one that a continuation makes and returns is a
    promise made by a [New] step of [mid] right before the timer runs. *)
Theorem continuation_adoption (pre mid post : list action) (p q : nat)
    (f g : option (value -> completion)) (o : pstate * value) :
  p < length (heap (run empty pre)) ->
  q <> length (heap (run empty pre)) ->
  q < length (heap (run empty (pre ++ Then p f g :: mid))) ->
  calls_of (length (heap (run empty pre)))
           (run empty (pre ++ Then p f g :: mid)) = [] ->
  outcome (run empty (pre ++ Then p f g :: mid ++ post)) p = Some o ->
  continuation_result f g o = Return (VPromise q) ->
  let c := length (heap (run empty pre)) in
  let w := run empty (pre ++ Then p f g :: mid ++ post) in
  let w' := run w (timeouts (fuel w)) in
  (forall oc, outcome w c = Some oc -> outcome w q = Some oc) /\
  (timers w = [] -> outcome w c = outcome w q) /\
  timers w' = [] /\
  outcome w' c = outcome w' q.
Proof.
  intros Hp Hqc Hq Hnil Ho Hret c w w'.
  destruct (following pre mid p q f g post o Hp Hqc Hq Hnil Ho Hret) as [H1 H2].
  split; [done|]. split; [done|].
  assert (Hdrain : timers w' = [])
    by (apply timeouts_drain; [apply wf_run, wf_empty|done]).
  split; [done|].
  assert (Hw' : w' = run empty (pre ++ Then p f g :: mid
                                  ++ (post ++ timeouts (fuel w)))).
  { unfold w', w. rewrite <- run_app. f_equal.
    rewrite <- app_assoc. simpl. by rewrite <- app_assoc. }
  rewrite Hw' in *.
  apply (following pre mid p q f g _ o Hp Hqc Hq Hnil); [|done..].
  rewrite <- Hw'. by apply outcome_run.
Qed.

(** A promise is fulfilled and [then] is called on it with a continuation
    that returns the promise made next, which is rejected after the
    continuation has run. *)
Definition adoption_demo_pre : list action := [New; Resolve 0 (VNum 1)].
Definition adoption_demo_mid : list action := [New].
Definition adoption_demo_post : list action := [Timeout; Reject 2 (VStr "no")].

Lemma continuation_adoption_witness :
  outcome (run (run empty (adoption_demo_pre ++
                  Then 0 (Some (fun _ => Return (VPromise 2))) None ::
                  adoption_demo_mid ++ adoption_demo_post)) (timeouts 1)) 1
  = Some (rejected, VStr "no").
Proof.
  pose proof (continuation_adoption adoption_demo_pre adoption_demo_mid
                adoption_demo_post 0 2
                (Some (fun _ => Return (VPromise 2))) None (fulfilled, VNum 1)
                (Nat.lt_0_succ 0) (Nat.neq_succ_diag_l 1) (le_n 3) eq_refl
                eq_refl eq_refl) as (_ & _ & _ & H).
  exact H.
Defined.

(** An outer promise whose executor calls [resolve] with an inner promise. *)
Definition nested_settle : list action :=
  [New; New; Resolve 0 (VPromise 1); Resolve 1 (VNum 7)].

(** The [resolve] function of the constructor does not adopt: the outer
    promise is fulfilled at once with the inner promise as its value, and
    stays so when the inner promise is fulfilled with 7. *)
Lemma constructor_resolve_no_adoption :
  outcome (run empty nested_settle) 0 = Some (fulfilled, VPromise 1) /\
  outcome (run empty nested_settle) 1 = Some (fulfilled, VNum 7) /\
  timers (run empty nested_settle) = [] /\
  (forall n,
     outcome (run empty (nested_settle ++ timeouts n)) 0
       = Some (fulfilled, VPromise 1) /\
     outcome (run empty (nested_settle ++ timeouts n)) 1
       = Some (fulfilled, VNum 7)).
Proof.
  split; [done|]. split; [done|]. split; [done|].
  intros n. rewrite run_app, timeouts_idle; [by split|done].
Qed.

End MyPromiseFacts.

(** * Facts about the worker pools *)

Module PoolFacts.
Import Pool.

(** ** What the trace and the workers say about an index *)

Definition claimed (st : pool) : list nat :=
  omap (fun e => match e with Claim i => Some i | _ => None end) (trace st).

Definition written (st : pool) : list nat :=
  omap (fun e => match e with Write i _ => Some i | _ => None end) (trace st).

Definition raised (st : pool) : list value :=
  omap (fun e => match e with Raise _ e => Some e | _ => None end) (trace st).

Definition is_write (index : nat) (e : entry) : nat :=
  match e with Write i _ => if decide (i = index) then 1 else 0 | _ => 0 end.

Definition is_raise (index : nat) (e : entry) : nat :=
  match e with Raise i _ => if decide (i = index) then 1 else 0 | _ => 0 end.

Definition holds (index : nat) (w : wstate) : nat :=
  match w with
  | Awaiting i _ | Resumable i _ => if decide (i = index) then 1 else 0
  | _ => 0
  end.

Definition holders (index : nat) (st : pool) : nat :=
  sum_list_with (holds index) (workers st).

Definition writes (index : nat) (st : pool) : nat :=
  sum_list_with (is_write index) (trace st).

Definition raises (index : nat) (st : pool) : nat :=
  sum_list_with (is_raise index) (trace st).

(** The worker of this body evaluates no name that is not bound. *)
Definition well_scoped (b : body) : Prop :=
  match b with
  | MapLimit => True
  | ParallelLimit => False
  end.

(** What the worker of [mapLimitOptimized] stores in the slot of a task:
    the value of a task that fulfils, and nothing for one that rejects. *)
Definition recorded (o : outcome) : option value :=
  match o with
  | Fulfils v => Some v
  | Rejects e => None
  end.

Section pool_facts.
Context {A : Type} (array : list A) (invoke : A -> nat -> outcome).

Abbreviation iterate := (iterate array invoke).
Abbreviation resume := (resume array invoke).
Abbreviation advance := (advance array invoke).
Abbreviation step := (step array invoke).
Abbreviation run := (run array invoke).
Abbreviation start := (start array invoke).
Abbreviation spawn := (spawn array invoke).

(** ** A schedule step *)

Lemma active_workers_spec st i :
  i ∈ active_workers st <->
  exists w, workers st !! i = Some w /\ is_active w = true.
Proof.
  unfold active_workers. rewrite list_elem_of_filter, elem_of_seq. split.
  - intros [Ha _]. destruct (workers st !! i) as [w|]; [|done].
    exists w. split; [done|]. by apply Is_true_true.
  - intros (w & Hw & Ha). rewrite Hw. simpl. split; [by apply Is_true_true|].
    apply lookup_lt_Some in Hw. lia.
Qed.

Lemma step_cases b st k :
  (active_workers st = [] /\ step b st k = st) \/
  (exists i w, workers st !! i = Some w /\ is_active w = true /\
               step b st k = advance b i st).
Proof.
  unfold step. destruct (active_workers st) as [|i0 l] eqn:Ha.
  - left. by rewrite lookup_nil.
  - right. destruct (lookup_lt_is_Some_2 (i0 :: l) (k mod length (i0 :: l)))
      as [i Hi].
    { apply Nat.mod_upper_bound. simpl. lia. }
    rewrite Hi. apply list_elem_of_lookup_2 in Hi. rewrite <- Ha in Hi.
    apply active_workers_spec in Hi as (w & Hw & Hact). by exists i, w.
Qed.

Lemma pool_run_snoc b st picks k : run b st (picks ++ [k]) = step b (run b st picks) k.
Proof. unfold run. by rewrite foldl_app. Qed.

Lemma pool_run_app b st l1 l2 : run b st (l1 ++ l2) = run b (run b st l1) l2.
Proof. unfold run. by rewrite foldl_app. Qed.

(** ** The workers *)

Lemma iterate_workers st : workers (iterate st).1 = workers st.
Proof. unfold iterate. by destruct (array !! cursor st). Qed.

Lemma resume_workers b index o st :
  workers (resume b index o st).1 = workers st.
Proof.
  destruct b, o as [v|e]; simpl;
    unfold mapLimit_resume, parallelLimit_resume, parallelLimit_catch;
    simpl; try done; by rewrite ?iterate_workers.
Qed.

Lemma conclude_workers w st : workers (conclude w st) = workers st.
Proof.
  unfold conclude. destruct (aggregate st), w; try done.
  by destruct (forallb _ _).
Qed.

Lemma advance_length b i st :
  length (workers (advance b i st)) = length (workers st).
Proof.
  unfold advance. destruct (workers st !! i) as [[index o|index o| |e]|];
    try done.
  - simpl. by rewrite length_insert.
  - destruct (resume b index o st) as [st' w] eqn:Hr.
    rewrite conclude_workers. simpl. rewrite length_insert.
    change st' with ((st', w).1). by rewrite <- Hr, resume_workers.
Qed.

Lemma step_length b st k : length (workers (step b st k)) = length (workers st).
Proof.
  destruct (step_cases b st k) as [[_ ->]|(i & w & _ & _ & ->)]; [done|].
  apply advance_length.
Qed.

Lemma run_length b st picks :
  length (workers (run b st picks)) = length (workers st).
Proof.
  revert st. induction picks as [|k picks IH]; intros st; [done|].
  simpl. by rewrite IH, step_length.
Qed.

Lemma spawn_length st : length (workers (spawn st)) = S (length (workers st)).
Proof.
  unfold spawn. destruct (iterate st) as [st' w] eqn:Hi. simpl.
  change st' with ((st', w).1). rewrite <- Hi, iterate_workers, length_app.
  simpl. lia.
Qed.

Lemma iter_spawn_length n st :
  length (workers (Nat.iter n spawn st)) = n + length (workers st).
Proof.
  induction n as [|n IH]; [done|]. simpl. rewrite spawn_length, IH. lia.
Qed.

(** Exactly [min(limit, array.length)] workers are started, and that many
    there are for ever. *)
Lemma start_length limit :
  length (workers (start limit)) = Nat.min limit (length array).
Proof.
  unfold start. rewrite conclude_workers, iter_spawn_length. simpl. lia.
Qed.

(** ** What resuming a worker does *)

(** The worker stored [v] in the slot and went on to the next
    iteration. *)
Definition moved (index : nat) (v : value) (st st' : pool) (w : wstate)
  : Prop :=
  results st' = array_set index v (results st) /\
  workers st' = workers st /\ aggregate st' = aggregate st /\
  ((array !! cursor st = None /\ cursor st' = cursor st /\
    trace st' = trace st ++ [Write index v] /\ w = Returned) \/
   (exists item, array !! cursor st = Some item /\
    cursor st' = S (cursor st) /\
    trace st' = trace st ++ [Write index v; Claim (cursor st)] /\
    w = Awaiting (cursor st) (invoke item (cursor st)))).

(** The worker left with the rejection of its task. *)
Definition failed (index : nat) (e : value) (st st' : pool) (w : wstate)
  : Prop :=
  results st' = results st /\ workers st' = workers st /\
  aggregate st' = aggregate st /\ cursor st' = cursor st /\
  trace st' = trace st ++ [Raise index e] /\ w = Thrown e.

Lemma iterate_moved index v st0 st1 :
  results st1 = array_set index v (results st0) ->
  workers st1 = workers st0 -> aggregate st1 = aggregate st0 ->
  cursor st1 = cursor st0 -> trace st1 = trace st0 ++ [Write index v] ->
  moved index v st0 (iterate st1).1 (iterate st1).2.
Proof.
  intros Hr Hw Ha Hc Ht. unfold iterate. rewrite Hc.
  destruct (array !! cursor st0) as [item|] eqn:Hi; simpl;
    (split; [done|]); (split; [done|]); (split; [done|]).
  - right. exists item. rewrite ?Hc, Ht. simpl.
    by rewrite <- app_assoc.
  - left. by rewrite ?Hc, Ht.
Qed.

Lemma resume_spec b index o st :
  well_scoped b ->
  match recorded o with
  | Some v => moved index v st (resume b index o st).1 (resume b index o st).2
  | None =>
      exists e, o = Rejects e /\
        failed index e st (resume b index o st).1 (resume b index o st).2
  end.
Proof.
  intros Hq. destruct b; [|done]. destruct o as [v|e]; simpl.
  - by apply iterate_moved.
  - exists e. by repeat split.
Qed.

(** ** Every schedule comes to an end *)

Definition effort (w : wstate) : nat :=
  match w with Awaiting _ _ => 2 | Resumable _ _ => 1 | _ => 0 end.

(** A bound on the number of steps that are left. *)
Definition remaining (st : pool) : nat :=
  2 * (length array - cursor st) + sum_list_with effort (workers st).

Lemma iterate_effect st :
  (exists item, array !! cursor st = Some item /\
     cursor (iterate st).1 = S (cursor st) /\
     (iterate st).2 = Awaiting (cursor st) (invoke item (cursor st))) \/
  (array !! cursor st = None /\ cursor (iterate st).1 = cursor st /\
     (iterate st).2 = Returned).
Proof.
  unfold iterate. destruct (array !! cursor st) as [item|] eqn:Hi.
  - left. by exists item.
  - by right.
Qed.

Lemma iterate_remaining st :
  remaining (iterate st).1 + effort (iterate st).2 = remaining st.
Proof.
  unfold remaining. rewrite iterate_workers.
  destruct (iterate_effect st) as [(item & Hi & -> & ->)|(Hi & -> & ->)].
  - apply lookup_lt_Some in Hi. simpl. lia.
  - simpl. lia.
Qed.

Lemma resume_remaining b index o st :
  remaining (resume b index o st).1 + effort (resume b index o st).2
  = remaining st.
Proof.
  destruct b, o as [v|e]; simpl; try (unfold remaining; simpl; lia).
  unfold mapLimit_resume. by rewrite iterate_remaining.
Qed.

Lemma conclude_remaining w st : remaining (conclude w st) = remaining st.
Proof.
  unfold conclude. destruct (aggregate st), w; try done.
  by destruct (forallb _ _).
Qed.

Lemma advance_remaining b i w st :
  workers st !! i = Some w -> is_active w = true ->
  S (remaining (advance b i st)) = remaining st.
Proof.
  intros Hw Ha. unfold advance. rewrite Hw.
  destruct w as [index o|index o| |e]; try done.
  - unfold remaining. simpl.
    pose proof (sum_list_with_insert effort _ _ _ (Resumable index o) Hw) as H.
    simpl in H. lia.
  - pose proof (resume_remaining b index o st) as Hr.
    pose proof (resume_workers b index o st) as Hws.
    destruct (resume b index o st) as [st' w']. simpl in *.
    rewrite conclude_remaining. unfold remaining in *. simpl.
    rewrite <- Hws in Hw.
    pose proof (sum_list_with_insert effort _ _ _ w' Hw) as H.
    simpl in H. lia.
Qed.

Lemma spawn_remaining st : remaining (spawn st) = remaining st.
Proof.
  pose proof (iterate_remaining st) as Hr.
  pose proof (iterate_workers st) as Hw.
  unfold spawn. destruct (iterate st) as [st' w]. simpl in *.
  unfold remaining in *. simpl. rewrite sum_list_with_app. simpl. lia.
Qed.

Lemma start_remaining limit : remaining (start limit) = 2 * length array.
Proof.
  unfold start. rewrite conclude_remaining.
  induction (Nat.min limit (length array)) as [|n IH].
  - unfold remaining. simpl. lia.
  - simpl. by rewrite spawn_remaining.
Qed.

Lemma run_idle b st picks : active_workers st = [] -> run b st picks = st.
Proof.
  intros Ha. induction picks as [|k picks IH]; [done|].
  simpl. unfold step. by rewrite Ha, lookup_nil.
Qed.

(** After as many steps as [remaining] says, no worker is left to run. *)
Lemma run_quiescent b st picks :
  remaining st <= length picks -> active_workers (run b st picks) = [].
Proof.
  revert st. induction picks as [|k picks IH]; intros st Hn; simpl in *.
  - destruct (active_workers st) as [|i l] eqn:Ha; [done|].
    assert (Hi : i ∈ active_workers st) by (rewrite Ha; by left).
    apply active_workers_spec in Hi as (w & Hw & Hact).
    pose proof (sum_list_with_in _ effort _ (list_elem_of_lookup_2 _ _ _ Hw)).
    unfold remaining in Hn. destruct w; simpl in *; try done; lia.
  - destruct (step_cases b st k) as [[Ha Hs]|(i & w & Hw & Hact & Hs)];
      rewrite Hs.
    + by rewrite run_idle.
    + apply IH. pose proof (advance_remaining b i w st Hw Hact). lia.
Qed.

(** ** Sound pools *)

Record sound (b : body) (st : pool) : Prop := {
  sound_length : length (results st) = length array;
  sound_cursor : cursor st <= length array;
  sound_claimed : claimed st = seq 0 (cursor st);
  sound_task : forall i index o,
    workers st !! i = Some (Awaiting index o) \/
    workers st !! i = Some (Resumable index o) ->
    exists item, array !! index = Some item /\ o = invoke item index;
  sound_once : forall index,
    holders index st + writes index st + raises index st
    = if decide (index < cursor st) then 1 else 0;
  sound_written : forall index v,
    Write index v ∈ trace st ->
    results st !! index = Some (Some v) /\
    exists item, array !! index = Some item /\
                 recorded (invoke item index) = Some v;
  sound_raised : forall index e,
    Raise index e ∈ trace st ->
    exists item, array !! index = Some item /\
                 invoke item index = Rejects e /\
                 recorded (Rejects e) = None;
  sound_thrown : forall i e,
    workers st !! i = Some (Thrown e) -> e ∈ raised st;
  sound_returned : forall i,
    workers st !! i = Some Returned -> cursor st = length array
}.

Lemma holds_held index i st w :
  workers st !! i = Some w -> 0 < holds index w ->
  0 < holders index st.
Proof.
  intros Hw Hh.
  pose proof (sum_list_with_in _ (holds index) _
                (list_elem_of_lookup_2 _ _ _ Hw)).
  unfold holders. lia.
Qed.

Lemma not_written index v st :
  writes index st = 0 -> Write index v ∉ trace st.
Proof.
  intros Hz Hin. apply sum_list_with_zero in Hz.
  rewrite Forall_forall in Hz. specialize (Hz _ Hin). simpl in Hz.
  by rewrite decide_True in Hz.
Qed.

(** A worker that holds an index is the only one, and the slot is not
    written yet. *)
Lemma held_once b st i w index :
  sound b st -> workers st !! i = Some w -> 0 < holds index w ->
  index < cursor st /\ holders index st = 1 /\
  writes index st = 0 /\ raises index st = 0.
Proof.
  intros Hs Hw Hh. pose proof (holds_held index i st w Hw Hh).
  pose proof (sound_once b st Hs index) as Ho.
  destruct (decide (index < cursor st)); [split; [done|]|]; lia.
Qed.

Lemma holds_self index o : holds index (Resumable index o) = 1.
Proof. simpl. by rewrite decide_True. Qed.

Lemma sound_log_settle b index st : sound b st -> sound b (log (Settle index) st).
Proof.
  intros Hs. split; simpl; try apply Hs.
  - unfold claimed. simpl. rewrite omap_app. simpl. rewrite app_nil_r.
    apply (sound_claimed b st Hs).
  - intros index'. rewrite <- (sound_once b st Hs index').
    unfold holders, writes, raises. simpl. rewrite !sum_list_with_app.
    simpl. lia.
  - intros index' v Hin. apply elem_of_app in Hin as [Hin|Hin].
    + by apply (sound_written b st Hs).
    + by apply list_elem_of_singleton in Hin.
  - intros index' e Hin. apply elem_of_app in Hin as [Hin|Hin].
    + by apply (sound_raised b st Hs).
    + by apply list_elem_of_singleton in Hin.
  - intros i e Hi. unfold raised. simpl. rewrite omap_app. simpl.
    rewrite app_nil_r. by apply (sound_thrown b st Hs i).
Qed.

Lemma sound_settle b st i index o :
  sound b st -> workers st !! i = Some (Awaiting index o) ->
  sound b (set_worker i (Resumable index o) st).
Proof.
  intros Hs Hw. split; simpl; try apply Hs.
  - intros j index' o' Hj.
    destruct (decide (i = j)) as [->|Hne].
    + rewrite list_lookup_insert_eq in Hj by by eapply lookup_lt_Some.
      destruct Hj as [[=]|[= <- <-]]. apply (sound_task b st Hs j). by left.
    + rewrite list_lookup_insert_ne in Hj by done.
      by apply (sound_task b st Hs j).
  - intros index'. rewrite <- (sound_once b st Hs index').
    unfold holders, writes, raises. simpl.
    pose proof (sum_list_with_insert (holds index') _ _ _
                  (Resumable index o) Hw) as H.
    simpl in H. lia.
  - intros j e Hj. apply (sound_thrown b st Hs j).
    destruct (decide (i = j)) as [->|Hne].
    + by rewrite list_lookup_insert_eq in Hj by by eapply lookup_lt_Some.
    + by rewrite list_lookup_insert_ne in Hj.
  - intros j Hj. apply (sound_returned b st Hs j).
    destruct (decide (i = j)) as [->|Hne].
    + by rewrite list_lookup_insert_eq in Hj by by eapply lookup_lt_Some.
    + by rewrite list_lookup_insert_ne in Hj.
Qed.


Lemma sound_moved b st st' w i index o v :
  sound b st -> workers st !! i = Some (Resumable index o) ->
  recorded o = Some v -> moved index v st st' w ->
  sound b (set_worker i w st').
Proof.
  intros Hs Hw Hrec (Hres & Hws & _ & Hcase).
  destruct (held_once b st i _ index Hs Hw) as (Hlt & Hone & Hnw & Hnr).
  { rewrite holds_self. lia. }
  destruct (sound_task b st Hs i index o) as (item0 & Hitem0 & Ho); [by right|].
  assert (Hcur : cursor st <= cursor st' /\ cursor st' <= length array).
  { pose proof (sound_cursor b st Hs).
    destruct Hcase as [(_ & -> & _)|(item & Hi & -> & _)]; [lia|].
    apply lookup_lt_Some in Hi. lia. }
  assert (Htr : exists extra, trace st' = trace st ++ Write index v :: extra /\
            (forall j, sum_list_with (is_write j) extra = 0) /\
            (forall j, sum_list_with (is_raise j) extra = 0) /\
            (forall j u, Write j u ∉ extra) /\
            (forall j u, Raise j u ∉ extra)).
  { destruct Hcase as [(_ & _ & -> & _)|(item & _ & _ & -> & _)].
    - exists []. split; [done|].
      repeat split; intros j; try done; intros u Hu;
        by apply not_elem_of_nil in Hu.
    - exists [Claim (cursor st)]. split; [done|].
      repeat split; intros j; try done; intros u Hu;
        by apply list_elem_of_singleton in Hu. }
  destruct Htr as (extra & Htr & Hew & Her & Hnw' & Hnr').
  assert (Hin : index < length (results st))
    by (rewrite (sound_length b st Hs); pose proof (sound_cursor b st Hs); lia).
  rewrite (array_set_lt index v _ Hin) in Hres.
  split; simpl.
  - rewrite Hres, length_insert. apply (sound_length b st Hs).
  - apply Hcur.
  - unfold claimed. simpl. pose proof (sound_claimed b st Hs) as Hcl.
    unfold claimed in Hcl.
    destruct Hcase as [(_ & -> & -> & _)|(item & _ & -> & -> & _)];
      rewrite !omap_app; simpl; rewrite Hcl.
    + by rewrite app_nil_r.
    + symmetry. apply (seq_S (cursor st) 0).
  - intros j index' o' Hj. rewrite Hws in Hj.
    assert (Hj' : (i = j /\ (w = Awaiting index' o' \/ w = Resumable index' o'))
                  \/ (workers st !! j = Some (Awaiting index' o') \/
                      workers st !! j = Some (Resumable index' o'))).
    { destruct Hj as [Hj|Hj];
        apply list_lookup_insert_Some in Hj as [(-> & <- & _)|[_ Hj]]; eauto. }
    destruct Hj' as [[_ Hj']|Hj']; [|by apply (sound_task b st Hs j)].
    destruct Hcase as [(_ & _ & _ & ->)|(item & Hi & _ & _ & ->)].
    + by destruct Hj'.
    + destruct Hj' as [[= <- <-]|[=]]. by exists item.
  - intros index'. pose proof (sound_once b st Hs index') as Hon.
    unfold holders, writes, raises in *. simpl. rewrite Hws, Htr.
    pose proof (sum_list_with_insert (holds index') _ _ _ w Hw) as Hins.
    rewrite !sum_list_with_app. simpl. rewrite Hew, Her.
    simpl in Hins.
    assert (Hw' : holds index' w = if decide (index' < cursor st') then
                    if decide (index' < cursor st) then 0 else 1 else 0).
    { destruct Hcase as [(_ & -> & _ & ->)|(item & _ & -> & _ & ->)]; simpl.
      - by repeat destruct (decide _).
      - repeat destruct (decide _); lia. }
    rewrite Hw' in Hins.
    repeat destruct (decide _); lia.
  - intros j u Hj. rewrite Htr in Hj. rewrite Hres.
    apply elem_of_app in Hj as [Hj|Hj].
    + destruct (sound_written b st Hs j u Hj) as [Hr Hit]. split; [|done].
      rewrite list_lookup_insert_ne; [done|]. intros <-.
      by apply (not_written index u st Hnw).
    + apply elem_of_cons in Hj as [[= -> ->]|Hj]; [|by apply Hnw' in Hj].
      split.
      * apply list_lookup_insert_eq. rewrite (sound_length b st Hs).
        pose proof (sound_cursor b st Hs). lia.
      * exists item0. by rewrite <- Ho.
  - intros j u Hj. rewrite Htr in Hj.
    apply elem_of_app in Hj as [Hj|Hj]; [by apply (sound_raised b st Hs)|].
    apply elem_of_cons in Hj as [[=]|Hj]. by apply Hnr' in Hj.
  - intros j e Hj. rewrite Hws in Hj.
    apply list_lookup_insert_Some in Hj as [(-> & Hwe & _)|[_ Hj]].
    + destruct Hcase as [(_ & _ & _ & ->)|(item & _ & _ & _ & ->)]; done.
    + unfold raised. simpl. rewrite Htr, omap_app. apply elem_of_app. left.
      by apply (sound_thrown b st Hs j).
  - intros j Hj. rewrite Hws in Hj.
    apply list_lookup_insert_Some in Hj as [(-> & Hwe & _)|[_ Hj]].
    + destruct Hcase as [(Hnone & -> & _ & _)|(item & _ & _ & _ & ->)];
        [|done].
      apply lookup_ge_None in Hnone. pose proof (sound_cursor b st Hs). lia.
    + pose proof (sound_returned b st Hs j Hj). lia.
Qed.

Lemma sound_failed b st st' w i index e :
  sound b st -> workers st !! i = Some (Resumable index (Rejects e)) ->
  recorded (Rejects e) = None ->
  failed index e st st' w -> sound b (set_worker i w st').
Proof.
  intros Hs Hw Hrec (Hres & Hws & _ & Hcur & Htr & ->).
  destruct (held_once b st i _ index Hs Hw) as (Hlt & Hone & Hnw & Hnr).
  { rewrite holds_self. lia. }
  destruct (sound_task b st Hs i index (Rejects e)) as (item0 & Hitem0 & Ho);
    [by right|].
  split; simpl.
  - rewrite Hres. apply (sound_length b st Hs).
  - rewrite Hcur. apply (sound_cursor b st Hs).
  - unfold claimed. simpl. rewrite Htr, omap_app, Hcur. simpl. rewrite app_nil_r.
    apply (sound_claimed b st Hs).
  - intros j index' o' Hj. rewrite Hws in Hj. apply (sound_task b st Hs j).
    destruct Hj as [Hj|Hj];
      apply list_lookup_insert_Some in Hj as [(_ & [=] & _)|[_ Hj]]; eauto.
  - intros index'. pose proof (sound_once b st Hs index') as Hon.
    unfold holders, writes, raises in *. simpl. rewrite Hws, Htr, Hcur.
    pose proof (sum_list_with_insert (holds index') _ _ _ (Thrown e) Hw) as Hins.
    rewrite !sum_list_with_app. simpl in *. lia.
  - intros j u Hj. rewrite Htr in Hj. rewrite Hres.
    apply elem_of_app in Hj as [Hj|Hj]; [by apply (sound_written b st Hs)|].
    by apply list_elem_of_singleton in Hj.
  - intros j u Hj. rewrite Htr in Hj.
    apply elem_of_app in Hj as [Hj|Hj]; [by apply (sound_raised b st Hs)|].
    apply list_elem_of_singleton in Hj as [= -> ->]. by exists item0.
  - intros j e' Hj. rewrite Hws in Hj. unfold raised. simpl.
    rewrite Htr, omap_app. apply elem_of_app.
    apply list_lookup_insert_Some in Hj as [(_ & [= ->] & _)|[_ Hj]].
    + right. by left.
    + left. by apply (sound_thrown b st Hs j).
  - intros j Hj. rewrite Hws in Hj. rewrite Hcur.
    apply list_lookup_insert_Some in Hj as [(_ & [=] & _)|[_ Hj]].
    by apply (sound_returned b st Hs j).
Qed.

Lemma sound_conclude b w st : sound b st -> sound b (conclude w st).
Proof.
  intros Hs. unfold conclude. destruct (aggregate st), w; try done.
  - destruct (forallb _ _); [|done]. by destruct Hs.
  - by destruct Hs.
Qed.

Lemma sound_advance b i st : well_scoped b -> sound b st -> sound b (advance b i st).
Proof.
  intros Hq Hs. unfold advance.
  destruct (workers st !! i) as [[index o|index o| |e]|] eqn:Hw; try done.
  - by apply sound_log_settle, sound_settle.
  - pose proof (resume_spec b index o st Hq) as Hspec.
    destruct (resume b index o st) as [st' w]. apply sound_conclude.
    simpl in Hspec. destruct (recorded o) as [v|] eqn:Hrec.
    + by eapply sound_moved.
    + destruct Hspec as (e & -> & Hf). by eapply sound_failed.
Qed.

Lemma sound_step b st k : well_scoped b -> sound b st -> sound b (step b st k).
Proof.
  intros Hq Hs.
  destruct (step_cases b st k) as [[_ ->]|(i & w & _ & _ & ->)]; [done|].
  by apply sound_advance.
Qed.

Lemma sound_run b st picks : well_scoped b -> sound b st -> sound b (run b st picks).
Proof.
  intros Hq. revert st. induction picks as [|k picks IH]; intros st Hs; [done|].
  simpl. by apply IH, sound_step.
Qed.

Lemma sound_spawn b st : sound b st -> sound b (spawn st).
Proof.
  intros Hs. unfold spawn, iterate.
  pose proof (sound_cursor b st Hs) as Hc.
  destruct (array !! cursor st) as [item|] eqn:Hi; simpl.
  - apply lookup_lt_Some in Hi as Hlt. split; simpl.
    + apply (sound_length b st Hs).
    + lia.
    + unfold claimed. simpl. rewrite omap_app. simpl.
      pose proof (sound_claimed b st Hs) as Hcl. unfold claimed in Hcl.
      rewrite Hcl. symmetry. apply (seq_S (cursor st) 0).
    + intros j index o Hj.
      assert (Hj' : (index = cursor st /\ o = invoke item (cursor st)) \/
                (workers st !! j = Some (Awaiting index o) \/
                 workers st !! j = Some (Resumable index o))).
      { destruct Hj as [Hj|Hj];
          apply lookup_app_Some in Hj as [Hj|[_ Hj]]; eauto;
          apply list_lookup_singleton_Some in Hj as [_ [=]]; eauto. }
      destruct Hj' as [[-> ->]|Hj']; [by exists item|].
      by apply (sound_task b st Hs j).
    + intros index. pose proof (sound_once b st Hs index) as Hon.
      unfold holders, writes, raises in *. simpl.
      rewrite !sum_list_with_app. simpl.
      repeat destruct (decide _); lia.
    + intros index v Hj. apply elem_of_app in Hj as [Hj|Hj].
      * by apply (sound_written b st Hs).
      * by apply list_elem_of_singleton in Hj.
    + intros index e Hj. apply elem_of_app in Hj as [Hj|Hj].
      * by apply (sound_raised b st Hs).
      * by apply list_elem_of_singleton in Hj.
    + intros j e Hj. unfold raised. simpl. rewrite omap_app. simpl.
      rewrite app_nil_r. apply lookup_app_Some in Hj as [Hj|[_ Hj]].
      * by apply (sound_thrown b st Hs j).
      * by apply list_lookup_singleton_Some in Hj as [_ [=]].
    + intros j Hj. apply lookup_app_Some in Hj as [Hj|[_ Hj]].
      * pose proof (sound_returned b st Hs j Hj). lia.
      * by apply list_lookup_singleton_Some in Hj as [_ [=]].
  - apply lookup_ge_None in Hi. split; simpl; try apply Hs.
    + intros j index o Hj. apply (sound_task b st Hs j).
      destruct Hj as [Hj|Hj];
        apply lookup_app_Some in Hj as [Hj|[_ Hj]]; eauto;
        by apply list_lookup_singleton_Some in Hj as [_ [=]].
    + intros index. pose proof (sound_once b st Hs index) as Hon.
      unfold holders, writes, raises in *. simpl.
      rewrite sum_list_with_app. simpl. lia.
    + intros j e Hj. apply lookup_app_Some in Hj as [Hj|[_ Hj]].
      * by apply (sound_thrown b st Hs j).
      * by apply list_lookup_singleton_Some in Hj as [_ [=]].
    + intros j Hj. lia.
Qed.

Definition fresh : pool := Pool (replicate (length array) None) 0 0 [] Pending [].

Lemma sound_fresh b : sound b fresh.
Proof.
  split.
  - apply length_replicate.
  - simpl. lia.
  - done.
  - simpl. intros i index o [H|H]; by rewrite lookup_nil in H.
  - intros index. by rewrite decide_False by (simpl; lia).
  - simpl. intros index v H. by apply not_elem_of_nil in H.
  - simpl. intros index v H. by apply not_elem_of_nil in H.
  - simpl. intros i e H. by rewrite lookup_nil in H.
  - simpl. intros i H. by rewrite lookup_nil in H.
Qed.

Lemma sound_start b limit : sound b (start limit).
Proof.
  unfold start. apply sound_conclude. fold fresh.
  induction (Nat.min limit (length array)) as [|n IH]; simpl.
  - apply sound_fresh.
  - by apply sound_spawn.
Qed.

(** ** The promise of the call *)

(** What [await Promise.all(workers); return results;] has come to: the
    error of the first worker that threw, or [results] once all workers
    have returned. *)
Definition settled_as (st : pool) : promise_state :=
  match head (raised st) with
  | Some e => Rejected e
  | None =>
      if forallb is_returned (workers st) then Fulfilled (VArray (results st))
      else Pending
  end.

Definition decided (st : pool) : Prop := aggregate st = settled_as st.

Lemma forallb_insert_false i w (l : list wstate) :
  i < length l -> is_returned w = false ->
  forallb is_returned (<[i := w]> l) = false.
Proof.
  revert i. induction l as [|x l IH]; intros [|i] Hi Hw; simpl in *;
    try lia.
  - by rewrite Hw.
  - rewrite IH by (done || lia). by destruct (is_returned x).
Qed.

Lemma forallb_lookup_false i w (l : list wstate) :
  l !! i = Some w -> is_returned w = false -> forallb is_returned l = false.
Proof.
  intros Hl Hw. rewrite <- (list_insert_id l i w Hl).
  apply forallb_insert_false; [by eapply lookup_lt_Some|done].
Qed.

Lemma conclude_aggregate w st :
  aggregate (conclude w st) =
  match aggregate st, w with
  | Pending, Thrown e => Rejected e
  | Pending, Returned =>
      if forallb is_returned (workers st) then Fulfilled (VArray (results st))
      else Pending
  | a, _ => a
  end.
Proof.
  unfold conclude. destruct (aggregate st) eqn:Ha, w; try done.
  by destruct (forallb _ _).
Qed.

Lemma settled_as_conclude w st : settled_as (conclude w st) = settled_as st.
Proof.
  unfold conclude. destruct (aggregate st), w; try done.
  by destruct (forallb _ _) eqn:Hf.
Qed.

Lemma decided_advance b i st :
  well_scoped b -> decided st -> decided (advance b i st).
Proof.
  unfold decided, advance. intros Hq Hd.
  destruct (workers st !! i) as [[index o|index o| |e]|] eqn:Hw; try done.
  - unfold settled_as in *. unfold raised in *. simpl. rewrite Hd.
    rewrite omap_app. simpl. rewrite app_nil_r.
    destruct (head _); [done|].
    rewrite (forallb_lookup_false i _ _ Hw) by done.
    rewrite forallb_insert_false; [done|by eapply lookup_lt_Some|done].
  - pose proof (resume_spec b index o st Hq) as Hspec.
    destruct (resume b index o st) as [st' w]. simpl in Hspec.
    assert (Hlt : i < length (workers st)) by by eapply lookup_lt_Some.
    rewrite conclude_aggregate, settled_as_conclude.
    unfold settled_as in *.
    rewrite (forallb_lookup_false i _ _ Hw) in Hd by done.
    destruct (recorded o) as [v|].
    + destruct Hspec as (Hres & Hws & Hagg & Hcase).
      assert (Hraised : raised (set_worker i w st') = raised st).
      { unfold raised. simpl.
        destruct Hcase as [(_ & _ & -> & _)|(item & _ & _ & -> & _)];
          rewrite omap_app; simpl; by rewrite ?app_nil_r. }
      rewrite Hraised. simpl. rewrite Hagg, Hd, Hws.
      destruct (head (raised st)) as [e0|]; [done|].
      destruct Hcase as [(_ & _ & _ & ->)|(item & _ & _ & _ & ->)].
      * done.
      * by rewrite forallb_insert_false.
    + destruct Hspec as (e & -> & _ & Hws & Hagg & _ & Htr & ->).
      assert (Hraised : raised (set_worker i (Thrown e) st') = raised st ++ [e]).
      { unfold raised. simpl. by rewrite Htr, omap_app. }
      rewrite Hraised. simpl. rewrite Hagg, Hd.
      by destruct (raised st).
Qed.

Lemma spawn_fields st :
  aggregate (spawn st) = aggregate st /\ raised (spawn st) = raised st.
Proof.
  unfold spawn, iterate, raised. destruct (array !! cursor st); simpl;
    [|done]. rewrite omap_app. simpl. by rewrite app_nil_r.
Qed.

Lemma decided_start limit : decided (start limit).
Proof.
  unfold start. fold fresh.
  assert (H : aggregate (Nat.iter (Nat.min limit (length array)) spawn fresh)
              = Pending /\
              raised (Nat.iter (Nat.min limit (length array)) spawn fresh) = []).
  { induction (Nat.min limit (length array)) as [|n [IH1 IH2]]; [done|].
    simpl. destruct (spawn_fields (Nat.iter n spawn fresh)) as [-> ->].
    done. }
  destruct H as [Hagg Hr].
  set (st := Nat.iter _ _ _) in *. unfold decided, settled_as, conclude.
  rewrite Hagg. destruct (forallb is_returned (workers st)) eqn:Hf;
    unfold raised in *; simpl; by rewrite Hr, Hf.
Qed.

Lemma decided_run b st picks :
  well_scoped b -> decided st -> decided (run b st picks).
Proof.
  intros Hq. revert st. induction picks as [|k picks IH]; intros st Hd; [done|].
  simpl. apply IH.
  destruct (step_cases b st k) as [[_ ->]|(i & w & _ & _ & ->)]; [done|].
  by apply decided_advance.
Qed.

(** ** When no worker is left *)

Lemma raised_elem st e :
  e ∈ raised st <-> exists index, Raise index e ∈ trace st.
Proof.
  unfold raised. rewrite list_elem_of_omap. split.
  - intros (en & Hin & He). destruct en; try done. injection He as ->.
    by eexists.
  - intros (index & Hin). by exists (Raise index e).
Qed.

Lemma raises_none st index : raised st = [] -> raises index st = 0.
Proof.
  intros Hr. apply sum_list_with_zero, Forall_forall. intros en Hin.
  destruct en as [| | |j e]; try done. exfalso.
  assert (e ∈ raised st) by (apply raised_elem; by exists j).
  rewrite Hr in H. by apply not_elem_of_nil in H.
Qed.

Lemma writes_elem st index :
  0 < writes index st -> exists v, Write index v ∈ trace st.
Proof.
  unfold writes. induction (trace st) as [|en tr IH]; simpl; [lia|].
  intros Hpos. destruct (decide (0 < is_write index en)) as [He|He].
  - destruct en as [|j v| |]; simpl in He; try lia.
    destruct (decide (j = index)) as [->|]; [|lia]. exists v. by left.
  - destruct IH as [v Hv]; [lia|]. exists v. by right.
Qed.

Lemma written_elem st index :
  index ∈ written st <-> exists v, Write index v ∈ trace st.
Proof.
  unfold written. rewrite list_elem_of_omap. split.
  - intros (en & Hin & He). destruct en; try done. injection He as ->.
    by eexists.
  - intros (v & Hin). by exists (Write index v).
Qed.

Lemma quiescent_finished st i w :
  active_workers st = [] -> workers st !! i = Some w -> is_active w = false.
Proof.
  intros Ha Hw. destruct (is_active w) eqn:Hact; [|done].
  assert (i ∈ active_workers st) by (apply active_workers_spec; by exists w).
  rewrite Ha in H. by apply not_elem_of_nil in H.
Qed.

Lemma all_returned b st :
  sound b st -> active_workers st = [] -> raised st = [] ->
  forall i w, workers st !! i = Some w -> w = Returned.
Proof.
  intros Hs Ha Hr i w Hw.
  pose proof (quiescent_finished st i w Ha Hw) as Hact.
  destruct w as [| | |e]; try done.
  pose proof (sound_thrown b st Hs i e Hw) as Hin. rewrite Hr in Hin.
  by apply not_elem_of_nil in Hin.
Qed.

Lemma forallb_returned (l : list wstate) :
  (forall i w, l !! i = Some w -> w = Returned) ->
  forallb is_returned l = true.
Proof.
  induction l as [|x l IH]; intros H; [done|].
  simpl. rewrite (H 0 x eq_refl). simpl. apply IH.
  intros i w Hw. by apply (H (S i)).
Qed.

Lemma returned_holds index (l : list wstate) :
  (forall i w, l !! i = Some w -> w = Returned) ->
  sum_list_with (holds index) l = 0.
Proof.
  intros H. apply sum_list_with_zero, Forall_forall. intros w Hw.
  apply list_elem_of_lookup in Hw as [i Hi]. by rewrite (H i w Hi).
Qed.

(** When every worker has returned, every slot holds what was recorded
    for its task. *)
Lemma returned_results b st :
  sound b st -> workers st <> [] ->
  (forall i w, workers st !! i = Some w -> w = Returned) ->
  raised st = [] ->
  forall index item, array !! index = Some item ->
    index ∈ written st /\
    exists v, recorded (invoke item index) = Some v /\
              results st !! index = Some (Some v).
Proof.
  intros Hs Hne Hall Hr index item Hitem.
  assert (Hcur : cursor st = length array).
  { destruct (workers st) as [|w0 l] eqn:Hw; [done|].
    apply (sound_returned b st Hs 0). rewrite Hw. simpl.
    f_equal. by apply (Hall 0). }
  pose proof (sound_once b st Hs index) as Hon.
  unfold holders in Hon. rewrite (returned_holds index _ Hall) in Hon.
  rewrite (raises_none st index Hr), Hcur in Hon.
  apply lookup_lt_Some in Hitem as Hlt.
  rewrite decide_True in Hon by done.
  destruct (writes_elem st index) as [v Hv]; [lia|].
  split; [apply written_elem; by exists v|].
  destruct (sound_written b st Hs index v Hv) as (Hres & item' & Hi' & Hrec).
  exists v. split; [|done]. congruence.
Qed.

(** A schedule of [2 * array.length] steps or more ends every worker;
    when none of them threw, the call is fulfilled with [results], which
    holds in slot [index] what was recorded for the task of that index. *)
Lemma run_fulfilled b limit picks :
  well_scoped b -> 1 <= limit -> 2 * length array <= length picks ->
  raised (run b (start limit) picks) = [] ->
  aggregate (run b (start limit) picks)
    = Fulfilled (VArray (results (run b (start limit) picks))) /\
  length (results (run b (start limit) picks)) = length array /\
  forall index item, array !! index = Some item ->
    exists v, recorded (invoke item index) = Some v /\
              results (run b (start limit) picks) !! index = Some (Some v).
Proof.
  intros Hq Hlimit Hpicks Hr. set (st := run b (start limit) picks) in *.
  assert (Hs : sound b st) by (apply sound_run; [done|apply sound_start]).
  assert (Hd : decided st) by (apply decided_run; [done|apply decided_start]).
  assert (Ha : active_workers st = [])
    by (apply run_quiescent; by rewrite start_remaining).
  pose proof (all_returned b st Hs Ha Hr) as Hall.
  split; [|split].
  - unfold decided, settled_as in Hd.
    by rewrite Hr, (forallb_returned _ Hall) in Hd.
  - apply (sound_length b st Hs).
  - intros index item Hitem.
    apply (returned_results b st Hs); try done.
    intros Hnil. apply (f_equal length) in Hnil.
    unfold st in Hnil. rewrite run_length, start_length in Hnil.
    apply lookup_lt_Some in Hitem. simpl in Hnil. lia.
Qed.


(** ** Tasks in flight *)

Definition pending (w : wstate) : nat :=
  match w with Awaiting _ _ => 1 | _ => 0 end.













(** ** A pool whose worker reads a name that is not bound *)












(** ** Claims and writes *)




(** ** A settled call stays as it is *)

Lemma aggregate_advance b i st :
  well_scoped b -> aggregate st <> Pending ->
  aggregate (advance b i st) = aggregate st.
Proof.
  intros Hq Hne. unfold advance.
  destruct (workers st !! i) as [[index o|index o| |e]|]; try done.
  pose proof (resume_spec b index o st Hq) as Hspec.
  destruct (resume b index o st) as [st' w]. simpl in Hspec.
  rewrite conclude_aggregate. simpl.
  assert (Hagg : aggregate st' = aggregate st).
  { destruct (recorded o).
    - by destruct Hspec as (_ & _ & -> & _).
    - by destruct Hspec as (e & _ & _ & _ & -> & _). }
  rewrite Hagg. by destruct (aggregate st), w.
Qed.

Lemma aggregate_run b st picks :
  well_scoped b -> aggregate st <> Pending ->
  aggregate (run b st picks) = aggregate st.
Proof.
  intros Hq. revert st. induction picks as [|k picks IH]; intros st Hne;
    [done|].
  simpl. destruct (step_cases b st k) as [[_ ->]|(i & w & _ & _ & ->)];
    [by apply IH|].
  pose proof (aggregate_advance b i st Hq Hne) as Heq.
  rewrite IH; [done|by rewrite Heq].
Qed.

(** ** A pool whose worker lets a rejection through *)

(** At every step of every schedule the call is rejected exactly when a
    worker has thrown, with the error of the first worker that threw,
    which is the rejection of a task; it stays so; and when a task
    rejects, a schedule that is long enough rejects the call. *)
Lemma pool_fail_fast b limit picks :
  well_scoped b ->
  let st := run b (start limit) picks in
  (forall e, head (raised st) = Some e <-> aggregate st = Rejected e) /\
  (forall e, aggregate st = Rejected e ->
     exists index item, array !! index = Some item /\
                        invoke item index = Rejects e) /\
  (forall e more, aggregate st = Rejected e ->
     aggregate (run b (start limit) (picks ++ more)) = Rejected e) /\
  (1 <= limit -> 2 * length array <= length picks ->
   (exists index item e, array !! index = Some item /\
      invoke item index = Rejects e /\ recorded (Rejects e) = None) ->
   exists e, aggregate st = Rejected e).
Proof.
  intros Hq st.
  assert (Hs : sound b st) by (apply sound_run; [done|apply sound_start]).
  assert (Hd : decided st) by (apply decided_run; [done|apply decided_start]).
  assert (Hhead : forall e, head (raised st) = Some e <-> aggregate st = Rejected e).
  { intros e. unfold decided, settled_as in Hd. rewrite Hd.
    destruct (head (raised st)) as [e0|].
    - split; congruence.
    - destruct (forallb _ _); split; congruence. }
  split; [done|]. split; [|split].
  - intros e Hagg. apply Hhead in Hagg.
    assert (He : e ∈ raised st).
    { destruct (raised st) as [|e0 l]; [done|]. simpl in Hagg.
      injection Hagg as ->. apply elem_of_cons. by left. }
    apply raised_elem in He as [index Hin].
    destruct (sound_raised b st Hs index e Hin) as (item & Hi & Ho & _).
    by exists index, item.
  - intros e more Hagg. rewrite pool_run_app. fold st.
    rewrite aggregate_run; [done|done|]. by rewrite Hagg.
  - intros Hlimit Hpicks (index & item & e & Hi & Ho & Hnone).
    destruct (raised st) as [|e0 l] eqn:Hr.
    + destruct (run_fulfilled b limit picks Hq Hlimit Hpicks Hr)
        as (_ & _ & Hres).
      destruct (Hres index item Hi) as (v & Hv & _).
      rewrite Ho in Hv. congruence.
    + exists e0. by apply Hhead.
Qed.

End pool_facts.

(** ** Order of the results *)



(** ** The concurrency bound *)



End PoolFacts.

(** * Facts about the combinators *)

Module CombinatorsFacts.
Import Combinators.

(** ** The elements whose handlers have run *)

Lemma filter_ne_absent (l : list nat) i :
  i ∉ l -> filter (fun j => j <> i) l = l.
Proof.
  induction l as [|y l IH]; intros Hi; [done|].
  apply not_elem_of_cons in Hi as [Hne Hi].
  rewrite filter_cons, decide_True by done. by rewrite IH.
Qed.

Lemma filter_ne_Permutation (l : list nat) i :
  NoDup l -> i ∈ l -> l ≡ₚ i :: filter (fun j => j <> i) l.
Proof.
  induction 1 as [|x l Hx Hnd IH]; intros Hi.
  - by apply not_elem_of_nil in Hi.
  - rewrite filter_cons. apply elem_of_cons in Hi as [->|Hi].
    + rewrite decide_False by auto. by rewrite filter_ne_absent.
    + rewrite decide_True by (intros ->; done).
      rewrite (IH Hi) at 1. apply Permutation_swap.
Qed.

(** What every call keeps, whatever its handlers do to [results],
    [counter] and the promise. *)
Record tidy (l : list input) (c : call) : Prop := {
  tidy_promises : promises c = l;
  tidy_split : waiting c ++ (delivered c).*1 ≡ₚ seq 0 (length l);
  tidy_delivered : forall i o, (i, o) ∈ delivered c -> l !! i = Some (Some o)
}.

(** The handlers leave [promises], [waiting] and [delivered] alone. *)
Definition modest (h : handlers) : Prop :=
  forall i v c,
    (promises (on_value h i v c) = promises c /\
     waiting (on_value h i v c) = waiting c /\
     delivered (on_value h i v c) = delivered c) /\
    (promises (on_error h i v c) = promises c /\
     waiting (on_error h i v c) = waiting c /\
     delivered (on_error h i v c) = delivered c).

Lemma resolve_when_complete_fields c :
  promises (resolve_when_complete c) = promises c /\
  waiting (resolve_when_complete c) = waiting c /\
  delivered (resolve_when_complete c) = delivered c /\
  results (resolve_when_complete c) = results c /\
  counter (resolve_when_complete c) = counter c.
Proof. unfold resolve_when_complete. by destruct (decide _). Qed.

Lemma myAll_modest : modest myAll_handlers.
Proof.
  intros i v c. simpl. split; [|done].
  by destruct (resolve_when_complete_fields (store i v c)) as (-> & -> & -> & _).
Qed.

Lemma myRace_modest : modest myRace_handlers.
Proof. by intros i v c. Qed.


Lemma ready_spec c i :
  i ∈ ready c <-> i ∈ waiting c /\ exists o, promises c !! i = Some (Some o).
Proof.
  unfold ready. rewrite list_elem_of_filter. split.
  - intros [[o Ho] Hw]. split; [done|]. exists o.
    destruct (promises c !! i) as [[o'|]|]; simpl in Ho; congruence.
  - intros [Hw [o Ho]]. split; [|done]. rewrite Ho. by eexists.
Qed.

Lemma delivery_cases h c k :
  (ready c = [] /\ step h c k = c) \/
  (exists i o, i ∈ waiting c /\ promises c !! i = Some (Some o) /\
     step h c k =
       match o with
       | Fulfils v => on_value h i v (detach i o c)
       | Rejects e => on_error h i e (detach i o c)
       end).
Proof.
  unfold step. destruct (ready c) as [|i0 l] eqn:Hr.
  - left. by rewrite lookup_nil.
  - right. destruct (lookup_lt_is_Some_2 (i0 :: l) (k mod length (i0 :: l)))
      as [i Hi].
    { apply Nat.mod_upper_bound. simpl. lia. }
    rewrite Hi. apply list_elem_of_lookup_2 in Hi. rewrite <- Hr in Hi.
    apply ready_spec in Hi as (Hw & o & Ho). exists i, o.
    split; [done|]. split; [done|]. unfold deliver. rewrite Ho. simpl.
    by destruct o.
Qed.

Lemma tidy_detach l c i o :
  tidy l c -> i ∈ waiting c -> l !! i = Some (Some o) -> tidy l (detach i o c).
Proof.
  intros Ht Hw Ho. pose proof (tidy_split l c Ht) as Hsplit.
  assert (Hnd : NoDup (waiting c)).
  { assert (Hall : NoDup (waiting c ++ (delivered c).*1))
      by (rewrite Hsplit; apply NoDup_seq).
    by apply NoDup_app in Hall as [? _]. }
  split; simpl.
  - apply (tidy_promises l c Ht).
  - rewrite fmap_app. simpl. rewrite <- Hsplit.
    rewrite (filter_ne_Permutation (waiting c) i Hnd Hw) at 2.
    rewrite (Permutation_app_comm _ [i]). rewrite app_assoc.
    rewrite (Permutation_app_comm _ [i]). done.
  - intros j o' Hj. apply elem_of_app in Hj as [Hj|Hj].
    + by apply (tidy_delivered l c Ht).
    + apply list_elem_of_singleton in Hj. by injection Hj as -> ->.
Qed.

Lemma tidy_step h l c k : modest h -> tidy l c -> tidy l (step h c k).
Proof.
  intros Hm Ht.
  destruct (delivery_cases h c k) as [[_ ->]|(i & o & Hw & Ho & ->)]; [done|].
  rewrite (tidy_promises l c Ht) in Ho.
  pose proof (tidy_detach l c i o Ht Hw Ho) as [H1 H2 H3].
  destruct o as [v|e]; destruct (Hm i v (detach i (Fulfils v) c)) as
    [(Hp & Hwt & Hd) (Hp' & Hwt' & Hd')] || 
    destruct (Hm i e (detach i (Rejects e) c)) as
    [(Hp & Hwt & Hd) (Hp' & Hwt' & Hd')];
    split; rewrite ?Hp, ?Hwt, ?Hd, ?Hp', ?Hwt', ?Hd'; done.
Qed.

Lemma tidy_run h l c picks : modest h -> tidy l c -> tidy l (run h c picks).
Proof.
  intros Hm. revert c. induction picks as [|k picks IH]; intros c Ht; [done|].
  simpl. by apply IH, tidy_step.
Qed.

Lemma tidy_attach l : tidy l (attach (created l)).
Proof.
  split; simpl; [done|by rewrite app_nil_r|].
  intros i o H. by apply not_elem_of_nil in H.
Qed.

(** ** Every schedule comes to an end *)

Lemma filter_ne_length (l : list nat) i :
  i ∈ l -> length (filter (fun j => j <> i) l) < length l.
Proof.
  induction l as [|x l IH]; intros Hi.
  - by apply not_elem_of_nil in Hi.
  - rewrite filter_cons. destruct (decide (x <> i)) as [Hne|Heq]; simpl.
    + apply elem_of_cons in Hi as [->|Hi]; [done|]. specialize (IH Hi). lia.
    + pose proof (length_filter (fun j => j <> i) l). lia.
Qed.

Lemma ready_detach i o c :
  ready (detach i o c) = filter (fun j => j <> i) (ready c).
Proof.
  unfold ready. simpl. induction (waiting c) as [|x l IH]; [done|].
  rewrite !filter_cons.
  destruct (decide (x <> i)), (decide (is_Some _)); simpl;
    rewrite ?filter_cons; repeat (destruct (decide _); try done);
    by rewrite IH.
Qed.

Lemma modest_ready h c i o :
  modest h ->
  ready (match o with
         | Fulfils v => on_value h i v c
         | Rejects e => on_error h i e c
         end) = ready c.
Proof.
  intros Hm. unfold ready. destruct o as [v|e];
    destruct (Hm i v c) as [(-> & -> & _) _] ||
    destruct (Hm i e c) as [_ (-> & -> & _)]; done.
Qed.

Lemma ready_step h c k :
  modest h -> ready c <> [] -> length (ready (step h c k)) < length (ready c).
Proof.
  intros Hm Hne.
  destruct (delivery_cases h c k) as [[Hr _]|(i & o & Hw & Ho & ->)]; [done|].
  assert (Hi : i ∈ ready c) by (apply ready_spec; eauto).
  rewrite (modest_ready h _ i o Hm), ready_detach. by apply filter_ne_length.
Qed.

Lemma run_nothing_ready h c picks : ready c = [] -> run h c picks = c.
Proof.
  intros Hr. induction picks as [|k picks IH]; [done|].
  simpl. assert (step h c k = c) as ->; [|done].
  unfold step. by rewrite Hr, lookup_nil.
Qed.

(** After as many steps as there are elements, the handlers of every
    element whose promise settles have run. *)
Lemma run_all_delivered h c picks :
  modest h -> length (ready c) <= length picks -> ready (run h c picks) = [].
Proof.
  intros Hm. revert c. induction picks as [|k picks IH]; intros c Hn; simpl in *.
  - destruct (ready c); [done|simpl in Hn; lia].
  - destruct (ready c) as [|i0 l] eqn:Hr.
    + unfold step. rewrite Hr, lookup_nil. by rewrite run_nothing_ready.
    + apply IH. pose proof (ready_step h c k Hm) as Hlt.
      rewrite Hr in Hlt. simpl in *. specialize (Hlt ltac:(done)). lia.
Qed.

Lemma ready_bound l c : tidy l c -> length (ready c) <= length l.
Proof.
  intros Ht. pose proof (tidy_split l c Ht) as Hs.
  apply Permutation_length in Hs. rewrite length_app, length_seq in Hs.
  unfold ready. pose proof (length_filter (fun i => is_Some (mjoin (promises c !! i)))
                              (waiting c)). lia.
Qed.

(** When the handlers of every settling element have run, every element
    that settles is in [delivered]. *)
Lemma quiescent_delivered l c i o :
  tidy l c -> ready c = [] -> l !! i = Some (Some o) -> (i, o) ∈ delivered c.
Proof.
  intros Ht Hr Hi. pose proof (tidy_split l c Ht) as Hs.
  assert (Hin : i ∈ waiting c ++ (delivered c).*1).
  { rewrite Hs. apply elem_of_seq. apply lookup_lt_Some in Hi. split; [apply Nat.le_0_l|exact Hi]. }
  apply elem_of_app in Hin as [Hin|Hin].
  - assert (i ∈ ready c).
    { apply ready_spec. split; [done|]. exists o.
      by rewrite (tidy_promises l c Ht). }
    rewrite Hr in H. by apply not_elem_of_nil in H.
  - apply list_elem_of_fmap in Hin as ([j o'] & -> & Hin). simpl in *.
    pose proof (tidy_delivered l c Ht _ _ Hin). congruence.
Qed.

(** ** Promise.myAllSettled *)



Lemma tidy_waiting l c i :
  tidy l c -> i ∈ waiting c -> length (delivered c) < length l.
Proof.
  intros Ht Hw. pose proof (tidy_split l c Ht) as Hs.
  apply Permutation_length in Hs.
  rewrite length_app, length_fmap, length_seq in Hs.
  destruct (waiting c); [by apply not_elem_of_nil in Hw|]. simpl in Hs. lia.
Qed.




Lemma tidy_created l : length l = 0 -> tidy l (created l).
Proof.
  intros Hl. split; simpl; [done|by rewrite Hl|].
  intros i o H. by apply not_elem_of_nil in H.
Qed.

Lemma tidy_resolve l v c : tidy l c -> tidy l (resolve v c).
Proof. intros [H1 H2 H3]. by split. Qed.




(** ** Promise.myAll *)

(** The errors of the rejected elements, in the order in which their
    handlers ran. *)
Definition rejections (c : call) : list value :=
  omap (fun d => match d.2 with Rejects e => Some e | Fulfils _ => None end)
       (delivered c).

(** What a call of [Promise.myAll] has come to. *)
Definition all_state (l : list input) (c : call) : promise_state :=
  match head (rejections c) with
  | Some e => Rejected e
  | None =>
      if decide (counter c = length l) then Fulfilled (VArray (results c))
      else Pending
  end.

Record gathering (l : list input) (c : call) : Prop := {
  gathering_tidy : tidy l c;
  gathering_counter : rejections c = [] -> counter c = length (delivered c);
  gathering_state : state (promise c) = all_state l c
}.

Lemma rejections_snoc c i o :
  rejections (detach i o c)
  = rejections c ++ match o with Rejects e => [e] | Fulfils _ => [] end.
Proof.
  unfold rejections. simpl. rewrite omap_app. simpl. by destruct o.
Qed.

Lemma head_snoc_default {T} (l : list T) x : head (l ++ [x]) = Some (default x (head l)).
Proof. by destruct l. Qed.

Lemma gathering_step l c k :
  gathering l c -> gathering l (step myAll_handlers c k).
Proof.
  intros [Ht Hc Hst].
  destruct (delivery_cases myAll_handlers c k)
    as [[_ ->]|(i & o & Hw & Ho & ->)]; [done|].
  rewrite (tidy_promises l c Ht) in Ho.
  pose proof (tidy_detach l c i o Ht Hw Ho) as Ht'.
  pose proof (tidy_waiting l c i Ht Hw) as Hlt.
  destruct o as [v|e]; simpl.
  - destruct (resolve_when_complete_fields (store i v (detach i (Fulfils v) c)))
      as (Hp & Hwt & Hd & Hr & Hn).
    assert (Hrej : rejections (resolve_when_complete
                                 (store i v (detach i (Fulfils v) c)))
                   = rejections c).
    { unfold rejections at 1. rewrite Hd.
      change (rejections (detach i (Fulfils v) c) = rejections c).
      by rewrite rejections_snoc, app_nil_r. }
    split.
    + destruct Ht' as [H1 H2 H3]. split; rewrite ?Hp, ?Hwt, ?Hd; done.
    + rewrite Hrej, Hn, Hd. intros Hnil. simpl. rewrite length_app, (Hc Hnil).
      simpl. lia.
    + unfold all_state. rewrite Hrej, Hn, Hr.
      unfold all_state in Hst. unfold resolve_when_complete. simpl.
      rewrite (tidy_promises l c Ht).
      destruct (head (rejections c)) as [e0|] eqn:Hh.
      * destruct (decide (S (counter c) = length l)); simpl; [|done].
        unfold settle. by rewrite Hst.
      * assert (Hnil : rejections c = []) by (by destruct (rejections c)).
        rewrite (Hc Hnil), decide_False in Hst by lia.
        destruct (decide (S (counter c) = length l)); simpl; [|done].
        unfold settle. by rewrite Hst.
  - assert (Hrej : rejections (reject e (detach i (Rejects e) c))
                   = rejections c ++ [e])
      by (change (rejections (detach i (Rejects e) c) = rejections c ++ [e]);
          by rewrite rejections_snoc).
    split.
    + destruct Ht' as [H1 H2 H3]. by split.
    + rewrite Hrej. intros Hnil. by destruct (rejections c).
    + unfold all_state. rewrite Hrej, head_snoc_default. simpl.
      unfold all_state in Hst. unfold settle.
      destruct (head (rejections c)) as [e0|] eqn:Hh; simpl.
      * by rewrite Hst.
      * assert (Hnil : rejections c = []) by (by destruct (rejections c)).
        rewrite (Hc Hnil), decide_False in Hst by lia. by rewrite Hst.
Qed.

Lemma gathering_run l c picks :
  gathering l c -> gathering l (run myAll_handlers c picks).
Proof.
  revert c. induction picks as [|k picks IH]; intros c Hs; [done|].
  simpl. by apply IH, gathering_step.
Qed.

Lemma gathering_start l : gathering l (myAll (Some l)).
Proof.
  unfold myAll. destruct (decide (length l = 0)) as [Hl|Hl].
  - split; simpl; [by apply tidy_resolve, tidy_created|done|].
    unfold all_state. simpl. by rewrite decide_True.
  - split; simpl; [apply tidy_attach|done|].
    unfold all_state. simpl. by rewrite decide_False.
Qed.

Lemma rejections_elem c e :
  e ∈ rejections c <-> exists i, (i, Rejects e) ∈ delivered c.
Proof.
  unfold rejections. rewrite list_elem_of_omap. split.
  - intros ([i o] & Hin & Ho). simpl in Ho. destruct o; [done|].
    injection Ho as ->. by exists i.
  - intros [i Hi]. by exists (i, Rejects e).
Qed.

Lemma settle_settled s p : state p <> Pending -> settle s p = p.
Proof. unfold settle. by destruct (state p). Qed.

Lemma myAll_settled_step c k :
  state (promise c) <> Pending ->
  promise (step myAll_handlers c k) = promise c.
Proof.
  intros Hne.
  destruct (delivery_cases myAll_handlers c k)
    as [[_ ->]|(i & o & _ & _ & ->)]; [done|].
  destruct o as [v|e]; simpl.
  - unfold resolve_when_complete. destruct (decide _); [|done].
    simpl. by apply settle_settled.
  - by apply settle_settled.
Qed.

Lemma myAll_settled_run c picks :
  state (promise c) <> Pending ->
  promise (run myAll_handlers c picks) = promise c.
Proof.
  revert c. induction picks as [|k picks IH]; intros c Hne; [done|].
  simpl. pose proof (myAll_settled_step c k Hne) as Heq.
  rewrite IH; [done|by rewrite Heq].
Qed.

(** At every step of every schedule a call of [Promise.myAll] is rejected
    exactly when the rejection handler of an element has run, with the
    error of the first one that ran, which is the rejection of an element;
    it stays so; and when an element rejects, a schedule with a step for
    every element rejects the call, whether or not the other elements
    ever settle. *)
Lemma myAll_fail_fast (l : list input) picks :
  let c := run myAll_handlers (myAll (Some l)) picks in
  (forall e, head (rejections c) = Some e <-> state (promise c) = Rejected e) /\
  (forall e, state (promise c) = Rejected e ->
     exists i, l !! i = Some (Some (Rejects e))) /\
  (forall e more, state (promise c) = Rejected e ->
     state (promise (run myAll_handlers (myAll (Some l)) (picks ++ more)))
     = Rejected e) /\
  (length l <= length picks ->
   (exists i e, l !! i = Some (Some (Rejects e))) ->
   exists e, state (promise c) = Rejected e).
Proof.
  intros c.
  assert (Hg : gathering l c) by apply gathering_run, gathering_start.
  destruct Hg as [Ht Hc Hst].
  assert (Hhead : forall e,
            head (rejections c) = Some e <-> state (promise c) = Rejected e).
  { intros e. rewrite Hst. unfold all_state.
    destruct (head (rejections c)) as [e0|].
    - split; congruence.
    - destruct (decide _); split; congruence. }
  split; [done|]. split; [|split].
  - intros e He. apply Hhead in He.
    assert (Hin : e ∈ rejections c).
    { destruct (rejections c) as [|e0 r]; [done|]. simpl in He.
      injection He as ->. apply elem_of_cons. by left. }
    apply rejections_elem in Hin as [i Hi]. exists i.
    by apply (tidy_delivered l c Ht).
  - intros e more He. unfold run. rewrite foldl_app.
    change (state (promise (run myAll_handlers c more)) = Rejected e).
    rewrite myAll_settled_run; [done|]. by rewrite He.
  - intros Hlen (i & e & Hi).
    assert (Hr : ready c = []).
    { apply run_all_delivered; [apply myAll_modest|].
      assert (Ht0 : tidy l (myAll (Some l)))
        by apply (gathering_tidy l _ (gathering_start l)).
      pose proof (ready_bound l _ Ht0). unfold input in *. lia. }
    pose proof (quiescent_delivered l c i _ Ht Hr Hi) as Hd.
    assert (Hin : e ∈ rejections c) by (apply rejections_elem; by exists i).
    destruct (rejections c) as [|e0 r] eqn:Hrej;
      [by apply not_elem_of_nil in Hin|].
    exists e0. by apply Hhead.
Qed.


(** ** Promise.myRace of an empty array *)

(** Nothing was ever done to the promise. *)
Definition untouched (c : call) : Prop :=
  waiting c = [] /\ state (promise c) = Pending /\
  jobs (promise c) = [] /\ invoked (promise c) = [].

Lemma untouched_observe h c e : untouched c -> untouched (observe h c e).
Proof.
  intros (Hw & Hs & Hj & Hi). destruct e as [k|k|]; simpl.
  - assert (Hr : ready c = []) by (unfold ready; by rewrite Hw).
    unfold step. by rewrite Hr, lookup_nil.
  - unfold untouched, with_promise, subscribe. simpl. by rewrite Hs.
  - unfold untouched, with_promise, microtask. simpl. by rewrite Hj.
Qed.

Lemma untouched_run_events h c events :
  untouched c -> untouched (run_events h c events).
Proof.
  revert c. induction events as [|e events IH]; intros c Hu; [done|].
  simpl. by apply IH, untouched_observe.
Qed.

(** C10. [Promise.myRace([])] returns a promise that stays pending:
    whatever continuations are registered on it and whatever steps the
    host takes, in any order, the promise is pending, no reaction job is
    queued for it, and no continuation registered on it was called. *)
Theorem myRace_empty_never_settles (events : list event) :
  let c := run_events myRace_handlers (myRace (Some [])) events in
  state (promise c) = Pending /\
  jobs (promise c) = [] /\
  invoked (promise c) = [].
Proof.
  intros c.
  assert (Hu : untouched c) by (by apply untouched_run_events).
  by destruct Hu as (_ & Hs & Hj & Hi).
Qed.

End CombinatorsFacts.

(** * The two ways to aggregate: all outcomes, or the first error *)

Module AggregateFacts.
Import Pool PoolFacts Combinators CombinatorsFacts.



(** C8. At every step of every schedule, [mapLimitOptimized] and
    [Promise.myAll] are rejected exactly when a rejection was let through
    (a worker was resumed with the rejection of its task, the rejection
    handler of an element ran), with the first such error, whatever the
    other tasks are doing; the error is the rejection of a task, and the
    rejection carries nothing else; later steps do not change it.  When a
    task rejects, a schedule that is long enough rejects the call; for
    [Promise.myAll] this holds also when other elements never settle. *)
Theorem fail_fast_short_circuit :
  (forall (A : Type) (array : list A) (asyncFn : A -> nat -> outcome)
          (limit : nat) (picks : list nat),
     let st := mapLimitOptimized array limit asyncFn picks in
     (forall e, head (raised st) = Some e <-> aggregate st = Rejected e) /\
     (forall e, aggregate st = Rejected e ->
        exists index item, array !! index = Some item /\
                           asyncFn item index = Rejects e) /\
     (forall e more, aggregate st = Rejected e ->
        aggregate (mapLimitOptimized array limit asyncFn (picks ++ more))
        = Rejected e) /\
     (1 <= limit -> 2 * length array <= length picks ->
      (exists index item e, array !! index = Some item /\
                            asyncFn item index = Rejects e) ->
      exists e, aggregate st = Rejected e)) /\
  (forall (promises : list input) (picks : list nat),
     let c := run myAll_handlers (myAll (Some promises)) picks in
     (forall e, head (rejections c) = Some e <-> state (promise c) = Rejected e) /\
     (forall e, state (promise c) = Rejected e ->
        exists index, promises !! index = Some (Some (Rejects e))) /\
     (forall e more, state (promise c) = Rejected e ->
        state (promise (run myAll_handlers (myAll (Some promises))
                          (picks ++ more)))
        = Rejected e) /\
     (length promises <= length picks ->
      (exists index e, promises !! index = Some (Some (Rejects e))) ->
      exists e, state (promise c) = Rejected e)).
Proof.
  split.
  - intros A array asyncFn limit picks.
    destruct (pool_fail_fast array asyncFn MapLimit limit picks I)
      as (H1 & H2 & H3 & H4).
    split; [done|]. split; [done|]. split; [done|].
    intros Hlimit Hpicks (index & item & e & Hi & Ho).
    apply (H4 Hlimit Hpicks). by exists index, item, e.
  - intros promises picks. apply myAll_fail_fast.
Qed.

(** Five elements, the second of which rejects at once while the others
    never settle. *)
Lemma fail_fast_short_circuit_witness :
  5 <= 5 /\
  exists e,
    state (promise (run myAll_handlers
                      (myAll (Some [None; Some (Rejects (VStr "boom")); None;
                                    None; None]))
                      [0; 0; 0; 0; 0]))
    = Rejected e.
Proof.
  split; [lia|].
  destruct (proj2 fail_fast_short_circuit
              [None; Some (Rejects (VStr "boom")); None; None; None]
              [0; 0; 0; 0; 0]) as (_ & _ & _ & H).
  apply H; [simpl; lia|]. by exists 1, (VStr "boom").
Defined.

(** Five tasks and five workers: when the worker of the second task is
    resumed with its rejection, the call is rejected though three tasks are
    in flight, and the value stored before for the first task is not part
    of the rejection. *)
Lemma fail_fast_in_flight :
  let tasks := [Fulfils (VNum 1); Rejects (VStr "boom"); Fulfils (VNum 3);
                Fulfils (VNum 4); Fulfils (VNum 5)] in
  let st := mapLimitOptimized tasks 5 (fun task _ => task) [0; 0; 0; 0] in
  aggregate st = Rejected (VStr "boom") /\ in_flight st = 3 /\
  Pool.results st !! 0 = Some (Some (VNum 1)).
Proof. vm_compute. done. Qed.

End AggregateFacts.

(** * Facts about the retry loops *)

Module RetryFacts.
Import Retry.


Section retry_facts.
Context (fn : producer).

(** ** A producer that always fails *)



(** ** A producer that fails [k] times and then succeeds *)



End retry_facts.




(** A producer that always fails: three calls, and the message of the last
    error in the error of [retry]. *)
Lemma retry_exhausted :
  retry (fun n => Rejects (VError "Error" "down")) 3 1000
  = (Rejects (VError "Error" "Failed after 3 attempts: down"),
     State 3 [Log "Attempt 1 failed, retrying in 1000ms..."; Sleep 1000;
              Log "Attempt 2 failed, retrying in 1000ms..."; Sleep 1000]).
Proof. vm_compute. done. Qed.

End RetryFacts.

(** * More facts about the retry loops *)

Module RetryBounds.
Import Retry.

(** The delays the loop waited for, in their order. *)
Definition sleeps (st : state) : list Z :=
  omap (fun e => match e with Sleep d => Some d | _ => None end) (events st).

Lemma sleeps_emit e st :
  sleeps (emit e st)
  = sleeps st ++ match e with Sleep d => [d] | _ => [] end.
Proof. unfold sleeps. simpl. rewrite omap_app. by destruct e. Qed.

(** What a loop keeps from the state [st0] on, with [remaining] attempts
    to go: at least one call of [fn] and at most one per attempt, a success
    only as the value of the last call, and one delay between two calls,
    the delays being [d 0], [d 1], ... *)
Definition bounded (fn : producer) (d : nat -> Z) (st0 : state)
    (remaining : nat) (r : outcome * state) : Prop :=
  invocations st0 < invocations r.2 <= invocations st0 + remaining /\
  (forall v, r.1 = Fulfils v -> fn (invocations r.2 - 1) = Fulfils v) /\
  sleeps r.2
  = sleeps st0 ++ (d <$> seq 0 (invocations r.2 - invocations st0 - 1)).

Lemma bounded_stop fn d st remaining o events' :
  sleeps (State (S (invocations st)) events') = sleeps st ->
  (forall v, o = Fulfils v -> fn (invocations st) = Fulfils v) ->
  bounded fn d st (S remaining) (o, State (S (invocations st)) events').
Proof.
  intros Hs Ho. unfold bounded. simpl. split; [lia|]. split.
  - intros v Hv. rewrite Nat.sub_0_r. by apply Ho.
  - replace (S (invocations st) - invocations st - 1) with 0 by lia.
    simpl. by rewrite app_nil_r.
Qed.

Lemma bounded_next fn d st st1 remaining r :
  invocations st1 = S (invocations st) ->
  sleeps st1 = sleeps st ++ [d 0] ->
  bounded fn (fun k => d (S k)) st1 remaining r ->
  bounded fn d st (S remaining) r.
Proof.
  intros Hi Hs (H1 & H2 & H3). rewrite Hi in *. unfold bounded.
  split; [lia|]. split; [done|].
  rewrite H3, Hs, <- app_assoc. f_equal.
  replace (invocations r.2 - invocations st - 1)
    with (S (invocations r.2 - S (invocations st) - 1)) by lia.
  simpl. f_equal. by rewrite <- fmap_S_seq, <- list_fmap_compose.
Qed.

Section retry_bounds.
Context (fn : producer).

Lemma retry_from_bounded N delay remaining attempt st :
  attempt + remaining = N + 1 -> 1 <= remaining ->
  bounded fn (fun _ => delay) st remaining
          (retry_from fn N delay remaining attempt st).
Proof.
  revert attempt st.
  induction remaining as [|remaining IH]; intros attempt st Hsum Hpos; [lia|].
  simpl. destruct (fn (invocations st)) as [v|e] eqn:Hfn.
  - apply bounded_stop; [done|]. by intros v' [= <-].
  - destruct (decide (attempt = N)).
    + destruct (get e "message"); by apply bounded_stop.
    + eapply (bounded_next fn (fun _ => delay)); cycle 2.
      * apply IH; lia.
      * done.
      * rewrite !sleeps_emit. simpl. by rewrite app_nil_r.
Qed.

Lemma retryWithBackoff_from_bounded opts delay remaining attempt st :
  attempt + remaining = maxAttempts opts + 1 -> 1 <= remaining ->
  bounded fn
    (fun k => Nat.iter k (fun d => Z.min (d * backoffFactor opts) (maxDelay opts))
                       delay)
    st remaining
    (retryWithBackoff_from fn opts delay remaining attempt st).
Proof.
  revert delay attempt st.
  induction remaining as [|remaining IH]; intros delay attempt st Hsum Hpos;
    [lia|].
  simpl. destruct (fn (invocations st)) as [v|e] eqn:Hfn.
  - apply bounded_stop; [done|]. by intros v' [= <-].
  - destruct (decide (attempt = maxAttempts opts)).
    + by apply bounded_stop.
    + destruct (onRetry opts attempt e delay) as [thrown|].
      * apply (bounded_stop fn _ st remaining (Rejects thrown)
                 (events st ++ [OnRetry attempt e delay])); [|done].
        unfold sleeps. simpl. rewrite omap_app. simpl. by rewrite app_nil_r.
      * apply (bounded_next fn _ st
                 (emit (Sleep delay)
                    (emit (OnRetry attempt e delay)
                       (State (S (invocations st)) (events st))))).
        -- done.
        -- rewrite !sleeps_emit. simpl. by rewrite app_nil_r.
        -- specialize (IH (Z.min (delay * backoffFactor opts) (maxDelay opts))
                          (S attempt)
                          (emit (Sleep delay)
                             (emit (OnRetry attempt e delay)
                                (State (S (invocations st)) (events st))))).
           assert (Heq : forall k,
                     Nat.iter (S k) (fun d => Z.min (d * backoffFactor opts) (maxDelay opts)) delay
                     = Nat.iter k (fun d => Z.min (d * backoffFactor opts) (maxDelay opts))
                         (Z.min (delay * backoffFactor opts) (maxDelay opts))).
           { intros k. by rewrite Nat.iter_succ_r. }
           destruct IH as (H1 & H2 & H3); [lia|lia|].
           split; [done|]. split; [done|]. rewrite H3. f_equal.
           apply list_fmap_ext. intros i k _. by rewrite Heq.
Qed.
End retry_bounds.

(** The delay of [retryWithBackoff] after attempt [k + 1] failed. *)
Definition backoff_delay (opts : options) (k : nat) : Z :=
  if decide (k = 0) then initialDelay opts
  else Z.min (initialDelay opts * backoffFactor opts ^ Z.of_nat k) (maxDelay opts).

Lemma backoff_delay_iter opts k :
  (1 <= backoffFactor opts)%Z -> (0 <= maxDelay opts)%Z ->
  Nat.iter k (fun d => Z.min (d * backoffFactor opts) (maxDelay opts))
           (initialDelay opts)
  = backoff_delay opts k.
Proof.
  intros Hf Hm. unfold backoff_delay. induction k as [|k IH]; [done|].
  rewrite Nat.iter_succ, IH. rewrite (decide_False (P := S k = 0)) by lia.
  replace (backoffFactor opts ^ Z.of_nat (S k))%Z
    with (backoffFactor opts ^ Z.of_nat k * backoffFactor opts)%Z
    by (rewrite Nat2Z.inj_succ, Z.pow_succ_r; lia).
  destruct (decide (k = 0)) as [->|Hk];
    [change (Z.of_nat 0) with 0%Z; by rewrite Z.pow_0_r, Z.mul_1_l|].
  set (a := (initialDelay opts * backoffFactor opts ^ Z.of_nat k)%Z).
  replace (initialDelay opts * (backoffFactor opts ^ Z.of_nat k * backoffFactor opts))%Z
    with (a * backoffFactor opts)%Z by (unfold a; lia).
  destruct (Z.le_gt_cases a (maxDelay opts)).
  - by rewrite (Z.min_l a) by done.
  - rewrite (Z.min_r a) by lia. rewrite Z.min_r by nia.
    rewrite Z.min_r by nia. done.
Qed.

(** With [maxAttempts] at least 1, whatever the producer does and whatever
    [onRetry] does: [retry] and [retryWithBackoff] call [fn] at least once
    and at most [maxAttempts] times; a value they return is the value of
    the last call of [fn]; and they wait exactly once between two calls,
    [retry] for [delay] each time. *)
Theorem retry_attempts_bounded (fn : producer) :
  (forall maxAttempts delay, 1 <= maxAttempts ->
     1 <= invocations (retry fn maxAttempts delay).2 <= maxAttempts /\
     (forall v, (retry fn maxAttempts delay).1 = Fulfils v ->
        fn (invocations (retry fn maxAttempts delay).2 - 1) = Fulfils v) /\
     sleeps (retry fn maxAttempts delay).2
     = replicate (invocations (retry fn maxAttempts delay).2 - 1) delay) /\
  (forall opts, 1 <= maxAttempts opts ->
     1 <= invocations (retryWithBackoff fn opts).2 <= maxAttempts opts /\
     (forall v, (retryWithBackoff fn opts).1 = Fulfils v ->
        fn (invocations (retryWithBackoff fn opts).2 - 1) = Fulfils v) /\
     length (sleeps (retryWithBackoff fn opts).2)
     = invocations (retryWithBackoff fn opts).2 - 1).
Proof.
  split.
  - intros N delay HN.
    destruct (retry_from_bounded fn N delay N 1 (State 0 [])) as (H1 & H2 & H3);
      [lia|lia|].
    fold (retry fn N delay) in H1, H2, H3. simpl in H1, H3.
    split; [lia|]. split; [done|]. rewrite H3, Nat.sub_0_r.
    rewrite (const_fmap (fun _ : nat => delay) _ delay) by done.
    by rewrite length_seq.
  - intros opts HN.
    destruct (retryWithBackoff_from_bounded fn opts (initialDelay opts)
                (maxAttempts opts) 1 (State 0 [])) as (H1 & H2 & H3); [lia|lia|].
    fold (retryWithBackoff fn opts) in H1, H2, H3. simpl in H1, H3.
    split; [lia|]. split; [done|].
    by rewrite H3, length_fmap, length_seq, Nat.sub_0_r.
Qed.

(** A producer that fails once and then succeeds: two calls, one delay. *)
Lemma retry_attempts_bounded_witness :
  1 <= 3 /\
  1 <= invocations
         (retry (fun n => if decide (n < 1) then Rejects (VStr "down")
                          else Fulfils (VStr "up")) 3 1000).2 <= 3.
Proof.
  split; [lia|].
  apply (proj1 (retry_attempts_bounded
                  (fun n => if decide (n < 1) then Rejects (VStr "down")
                            else Fulfils (VStr "up"))) 3 1000%Z).
  lia.
Defined.

(** For whole numbers [initialDelay], [maxDelay] and [backoffFactor] with
    a factor of at least 1, delays that are not negative, and
    [max(initialDelay, maxDelay) * backoffFactor] at most [2 ^ 53],
    whatever the producer does: every product [delay * backoffFactor] of
    the loop is a whole number from 0 to [2 ^ 53], which a double holds
    exactly; the delays [retryWithBackoff] waits for are, in their order,
    [initialDelay] and then [min(initialDelay * backoffFactor ^ k, maxDelay)]
    for [k = 1, 2, ...]; so every delay but the first is at most
    [maxDelay], and the first is [initialDelay] also when that is more than
    [maxDelay]. *)
Theorem backoff_delays (fn : producer) (opts : options) :
  1 <= maxAttempts opts ->
  (1 <= backoffFactor opts)%Z ->
  (0 <= initialDelay opts)%Z -> (0 <= maxDelay opts)%Z ->
  (Z.max (initialDelay opts) (maxDelay opts) * backoffFactor opts <= 2 ^ 53)%Z ->
  sleeps (retryWithBackoff fn opts).2
  = backoff_delay opts
      <$> seq 0 (invocations (retryWithBackoff fn opts).2 - 1) /\
  (forall k d, sleeps (retryWithBackoff fn opts).2 !! S k = Some d ->
               (d <= maxDelay opts)%Z) /\
  (forall k d, sleeps (retryWithBackoff fn opts).2 !! k = Some d ->
               (0 <= d * backoffFactor opts <= 2 ^ 53)%Z).
Proof.
  intros HN Hf Hi Hm Hmax.
  destruct (retryWithBackoff_from_bounded fn opts (initialDelay opts)
              (maxAttempts opts) 1 (State 0 [])) as (H1 & H2 & H3); [lia|lia|].
  fold (retryWithBackoff fn opts) in H1, H2, H3. simpl in H1, H3.
  assert (Heq : sleeps (retryWithBackoff fn opts).2
                = backoff_delay opts
                    <$> seq 0 (invocations (retryWithBackoff fn opts).2 - 1)).
  { rewrite H3, Nat.sub_0_r. apply list_fmap_ext. intros i k _.
    by apply backoff_delay_iter. }
  split; [done|]. split.
  - intros k d. rewrite Heq, list_lookup_fmap.
    intros Hk. destruct (seq _ _ !! S k) as [j|] eqn:Hj; [|done].
    apply lookup_seq in Hj as [-> _]. injection Hk as <-.
    unfold backoff_delay. simpl. lia.
  - intros k d. rewrite Heq, list_lookup_fmap.
    intros Hk. destruct (seq _ _ !! k) as [j|] eqn:Hj; [|done].
    apply lookup_seq in Hj as [-> _]. injection Hk as <-. simpl.
    assert (Hd : (0 <= backoff_delay opts k
                  <= Z.max (initialDelay opts) (maxDelay opts))%Z).
    { unfold backoff_delay. destruct (decide (k = 0)); [lia|].
      pose proof (Z.pow_nonneg (backoffFactor opts) (Z.of_nat k)).
      nia. }
    nia.
Qed.

(** A producer that always fails, tried five times with delays capped at
    3000: the delays are 1000, 2000, 3000 and 3000. *)
Lemma backoff_delays_witness :
  (1 <= 5 /\ (1 <= 2)%Z /\ (0 <= 1000)%Z /\ (0 <= 3000)%Z /\
   (Z.max 1000 3000 * 2 <= 2 ^ 53)%Z) /\
  sleeps (retryWithBackoff (fun _ => Rejects (VStr "down"))
            (Options 5 1000 3000 2 (fun _ _ _ => None))).2
  = [1000; 2000; 3000; 3000]%Z.
Proof.
  split; [repeat split; lia|].
  exact (proj1 (backoff_delays (fun _ => Rejects (VStr "down"))
                  (Options 5 1000 3000 2 (fun _ _ _ => None))
                  ltac:(simpl; lia) ltac:(simpl; lia) ltac:(simpl; lia)
                  ltac:(simpl; lia) ltac:(simpl; lia))).
Defined.

End RetryBounds.

(** * Facts about the retry with a condition *)

Module RetryWithConditionFacts.
Import RetryWithCondition.

Section condition_facts.
Context (fn : Retry.producer) (opts : options).

(** The loop leaves with the first error that [shouldRetry] refuses. *)
Lemma retryWithCondition_from_refused (error : nat -> value) k remaining
    attempt st :
  (forall n, n <= k -> fn (invocations st + n) = Rejects (error n)) ->
  (forall n, n < k -> exists b,
     shouldRetry opts (error n) (attempt + n) = Return b /\
     to_boolean b = true) ->
  (attempt + k < maxAttempts opts ->
   exists b, shouldRetry opts (error k) (attempt + k) = Return b /\
             to_boolean b = false) ->
  (forall a e, onRetry opts a e = None) ->
  k < remaining -> attempt + k <= maxAttempts opts ->
  (retryWithCondition_from fn opts remaining attempt st).1 = Rejects (error k) /\
  invocations (retryWithCondition_from fn opts remaining attempt st).2
  = invocations st + k + 1.
Proof.
  intros Hfn Hyes Hno Hon. revert error remaining attempt st Hfn Hyes Hno.
  induction k as [|k IH];
    intros error remaining attempt st Hfn Hyes Hno Hk Hle;
    (destruct remaining as [|remaining]; [lia|]); simpl.
  - specialize (Hfn 0). rewrite Nat.add_0_r in Hfn. rewrite Hfn by lia.
    rewrite Nat.add_0_r in Hno.
    destruct (decide (attempt < maxAttempts opts)) as [Hlt|Hge].
    + destruct (Hno Hlt) as (b & -> & ->). simpl. split; [done|lia].
    + simpl. split; [done|lia].
  - pose proof (Hfn 0) as H0. rewrite Nat.add_0_r in H0. rewrite H0 by lia.
    rewrite decide_True by lia.
    destruct (Hyes 0) as (b & Hb & Htrue); [lia|].
    rewrite Nat.add_0_r in Hb. rewrite Hb, Htrue, Hon.
    match goal with
    | |- context [retryWithCondition_from fn opts remaining (S attempt) ?s] =>
        destruct (IH (fun n => error (S n)) remaining (S attempt) s)
          as [Hr Hn]
    end; simpl.
    + intros n Hn. rewrite <- Nat.add_succ_r. apply Hfn. lia.
    + intros n Hn. destruct (Hyes (S n)) as (b' & Hb' & Ht'); [lia|].
      exists b'. by rewrite <- Nat.add_succ_r.
    + rewrite <- Nat.add_succ_r. done.
    + lia.
    + lia.
    + rewrite Hr, Hn. simpl. split; [done|lia].
Qed.

(** When [shouldRetry] accepts every error, the loop calls [fn] as
    [retryWithBackoff] does and ends as it ends. *)
Lemma retryWithCondition_from_always (opts' : Retry.options) delay' remaining
    attempt st st' :
  (forall e a, exists b, shouldRetry opts e a = Return b /\
                         to_boolean b = true) ->
  (forall a e, onRetry opts a e = None) ->
  (forall a e d, Retry.onRetry opts' a e d = None) ->
  Retry.maxAttempts opts' = maxAttempts opts ->
  attempt + remaining = maxAttempts opts + 1 ->
  Retry.invocations st' = invocations st ->
  (retryWithCondition_from fn opts remaining attempt st).1
  = (Retry.retryWithBackoff_from fn opts' delay' remaining attempt st').1 /\
  invocations (retryWithCondition_from fn opts remaining attempt st).2
  = Retry.invocations
      (Retry.retryWithBackoff_from fn opts' delay' remaining attempt st').2.
Proof.
  intros Hyes Hon Hon' Hmax. revert delay' attempt st st'.
  induction remaining as [|remaining IH]; intros delay' attempt st st' Hsum Hi;
    simpl; [done|].
  unfold call_fn, Retry.call_fn. simpl. rewrite Hi.
  destruct (fn (invocations st)) as [v|e]; simpl; [done|].
  rewrite Hmax.
  destruct (decide (attempt = maxAttempts opts)) as [->|Hne].
  - rewrite decide_False by lia. done.
  - rewrite decide_True by lia.
    destruct (Hyes e attempt) as (b & -> & ->). rewrite Hon, Hon'.
    apply IH; [lia|]. done.
Qed.
End condition_facts.

(** [retryWithCondition] fails with the first error that [shouldRetry]
    refuses, without calling [fn] again: when [fn] fails at its first
    [k + 1] calls, [shouldRetry] returns a true value for the first [k]
    errors and a false one for the next, and [onRetry] returns, the call
    is rejected with the error of call [k + 1], after exactly [k + 1] calls
    of [fn].  For the error of attempt [maxAttempts], [shouldRetry] is not
    asked. *)
Theorem retryWithCondition_refused (fn : Retry.producer) (opts : options)
    (error : nat -> value) (k : nat) :
  k < maxAttempts opts ->
  (forall n, n <= k -> fn n = Rejects (error n)) ->
  (forall n, n < k -> exists b,
     shouldRetry opts (error n) (n + 1) = Return b /\ to_boolean b = true) ->
  (k + 1 < maxAttempts opts ->
   exists b, shouldRetry opts (error k) (k + 1) = Return b /\
             to_boolean b = false) ->
  (forall a e, onRetry opts a e = None) ->
  (retryWithCondition fn opts).1 = Rejects (error k) /\
  invocations (retryWithCondition fn opts).2 = k + 1.
Proof.
  intros Hk Hfn Hyes Hno Hon.
  destruct (retryWithCondition_from_refused fn opts error k (maxAttempts opts)
              1 (State 0 [])) as [Hr Hn]; [done| | |done|done|lia|done].
  - intros n Hn. destruct (Hyes n Hn) as (b & Hb & Ht). exists b.
    by rewrite Nat.add_comm.
  - intros Hlt. destruct Hno as (b & Hb & Ht); [lia|]. exists b.
    by rewrite Nat.add_comm.
Qed.

(** A producer that fails with "busy" and from then on with "404". *)
Definition busy_then_missing (n : nat) : value :=
  if decide (n = 0) then VStr "busy" else VStr "404".

(** Retrying every error but "404": the second error is refused and ends
    the call after two calls of the producer, though five were allowed. *)
Definition unless_missing : options :=
  Options 5 1000
    (fun e _ => match e with
                | VStr "404" => Return (VNum 0)
                | _ => Return (VNum 1)
                end)
    (fun _ _ => None).

Lemma retryWithCondition_refused_witness :
  (retryWithCondition (fun n => Rejects (busy_then_missing n))
                      unless_missing).1
  = Rejects (busy_then_missing 1) /\
  invocations (retryWithCondition (fun n => Rejects (busy_then_missing n))
                                  unless_missing).2
  = 1 + 1.
Proof.
  apply (retryWithCondition_refused (fun n => Rejects (busy_then_missing n))
           unless_missing busy_then_missing 1).
  - simpl. lia.
  - done.
  - intros n Hn. assert (n = 0) as -> by lia. by exists (VNum 1).
  - intros _. by exists (VNum 0).
  - done.
Defined.

(** When [shouldRetry] returns a true value for every error (as the
    default does) and the [onRetry] callbacks return, [retryWithCondition]
    and [retryWithBackoff] with the same [maxAttempts] end in the same way
    after the same number of calls of [fn], whatever the producer does. *)
Theorem retryWithCondition_always (fn : Retry.producer) (opts : options)
    (opts' : Retry.options) :
  (forall e a, exists b, shouldRetry opts e a = Return b /\
                         to_boolean b = true) ->
  (forall a e, onRetry opts a e = None) ->
  (forall a e d, Retry.onRetry opts' a e d = None) ->
  Retry.maxAttempts opts' = maxAttempts opts ->
  (retryWithCondition fn opts).1 = (Retry.retryWithBackoff fn opts').1 /\
  invocations (retryWithCondition fn opts).2
  = Retry.invocations (Retry.retryWithBackoff fn opts').2.
Proof.
  intros Hyes Hon Hon' Hmax. unfold retryWithCondition, Retry.retryWithBackoff.
  rewrite Hmax.
  apply retryWithCondition_from_always; try done. lia.
Qed.

Lemma retryWithCondition_always_witness :
  (retryWithCondition (fun n => if decide (n < 2) then Rejects (VStr "down")
                                else Fulfils (VStr "up"))
     (Options 3 1000 (fun _ _ => Return (VNum 1)) (fun _ _ => None))).1
  = (Retry.retryWithBackoff
       (fun n => if decide (n < 2) then Rejects (VStr "down")
                 else Fulfils (VStr "up"))
       Retry.default_options).1.
Proof.
  apply (retryWithCondition_always
           (fun n => if decide (n < 2) then Rejects (VStr "down")
                     else Fulfils (VStr "up"))
           (Options 3 1000 (fun _ _ => Return (VNum 1)) (fun _ _ => None))
           Retry.default_options); try done.
  intros e a. by exists (VNum 1).
Defined.

End RetryWithConditionFacts.

(** * More facts about the combinators *)

Module CombinatorsOutcomes.
Import Combinators CombinatorsFacts PromiseAny.

(** ** What the handlers have been given *)

(** The values of the fulfilled elements, in the order in which their
    handlers ran. *)
Definition fulfilments (c : call) : list value :=
  omap (fun d => match d.2 with Fulfils v => Some v | Rejects _ => None end)
       (delivered c).

Lemma fulfilments_elem c v :
  v ∈ fulfilments c <-> exists i, (i, Fulfils v) ∈ delivered c.
Proof.
  unfold fulfilments. rewrite list_elem_of_omap. split.
  - intros ([i o] & Hin & Ho). simpl in Ho. destruct o; [|done].
    injection Ho as ->. by exists i.
  - intros [i Hi]. by exists (i, Fulfils v).
Qed.

Lemma fulfilments_detach c i o :
  fulfilments (detach i o c)
  = fulfilments c ++ match o with Fulfils v => [v] | Rejects _ => [] end.
Proof. unfold fulfilments. simpl. rewrite omap_app. simpl. by destruct o. Qed.

Lemma rejections_detach c i o :
  rejections (detach i o c)
  = rejections c ++ match o with Rejects e => [e] | Fulfils _ => [] end.
Proof. unfold rejections. simpl. rewrite omap_app. simpl. by destruct o. Qed.

Lemma outcomes_length c :
  length (fulfilments c) + length (rejections c) = length (delivered c).
Proof.
  unfold fulfilments, rejections. induction (delivered c) as [|[i [v|e]] l IH];
    cbn in *; lia.
Qed.

Lemma head_app_cons {T} (l : list T) x :
  head (l ++ [x]) = Some (default x (head l)).
Proof. by destruct l. Qed.

(** The handlers of every combinator only add to [delivered]. *)
Lemma delivered_run h c picks :
  modest h -> exists more, delivered (run h c picks) = delivered c ++ more.
Proof.
  intros Hm. revert c. induction picks as [|k picks IH]; intros c.
  - exists []. by rewrite app_nil_r.
  - simpl. destruct (IH (step h c k)) as [more Hmore].
    fold (run h (step h c k) picks). rewrite Hmore.
    destruct (delivery_cases h c k) as [[_ ->]|(i & o & _ & _ & ->)];
      [by exists more|].
    exists ((i, o) :: more).
    assert (Hd : delivered (match o with
                            | Fulfils v => on_value h i v (detach i o c)
                            | Rejects e => on_error h i e (detach i o c)
                            end) = delivered c ++ [(i, o)]).
    { destruct o as [v|e].
      - by destruct (Hm i v (detach i (Fulfils v) c)) as [(_ & _ & ->) _].
      - by destruct (Hm i e (detach i (Rejects e) c)) as [_ (_ & _ & ->)]. }
    rewrite Hd, <- app_assoc. done.
Qed.

(** ** Promise.myRace *)

(** What a call of [Promise.myRace] has come to: the outcome of the first
    element whose handlers ran. *)
Definition race_state (c : call) : promise_state :=
  match head (delivered c) with
  | Some (_, Fulfils v) => Fulfilled v
  | Some (_, Rejects e) => Rejected e
  | None => Pending
  end.

Lemma racing_step c k :
  state (promise c) = race_state c ->
  state (promise (step myRace_handlers c k))
  = race_state (step myRace_handlers c k).
Proof.
  intros Hst.
  destruct (delivery_cases myRace_handlers c k)
    as [[_ ->]|(i & o & _ & _ & ->)]; [done|].
  unfold race_state in *.
  destruct o as [v|e]; simpl; unfold settle; rewrite Hst;
    by destruct (delivered c) as [|[j [v'|e']] l].
Qed.

Lemma racing_run c picks :
  state (promise c) = race_state c ->
  state (promise (run myRace_handlers c picks))
  = race_state (run myRace_handlers c picks).
Proof.
  revert c. induction picks as [|k picks IH]; intros c Hst; [done|].
  simpl. by apply IH, racing_step.
Qed.

(** ** Promise.myAll when no element rejects *)

(** The values of the fulfilled elements are in their slots. *)
Record collecting (l : list input) (c : call) : Prop := {
  collecting_gathering : gathering l c;
  collecting_length : length (results c) <= length l;
  collecting_results : forall j v,
    (j, Fulfils v) ∈ delivered c -> array_get (results c) j = Some v
}.

Lemma collecting_step l c k :
  collecting l c -> collecting l (step myAll_handlers c k).
Proof.
  intros [Hg Hlen Hres].
  pose proof (gathering_step l c k Hg) as Hg'.
  pose proof (gathering_tidy l c Hg) as Ht.
  destruct (delivery_cases myAll_handlers c k)
    as [[_ Heq]|(i & o & Hw & Ho & Heq)]; rewrite Heq in *; [done|].
  rewrite (tidy_promises l c Ht) in Ho.
  destruct o as [v|e]; simpl in *.
  - destruct (resolve_when_complete_fields (store i v (detach i (Fulfils v) c)))
      as (Hp & Hwt & Hd & Hr & Hn).
    split; [done| |].
    + rewrite Hr. simpl. rewrite length_array_set.
      apply lookup_lt_Some in Ho. unfold input in *. lia.
    + intros j v'. rewrite Hd, Hr. simpl. intros Hj. rewrite array_get_set.
      destruct (decide (i = j)) as [->|Hne].
      * apply elem_of_app in Hj as [Hj|Hj].
        -- pose proof (tidy_delivered l c Ht _ _ Hj). congruence.
        -- apply list_elem_of_singleton in Hj. congruence.
      * apply elem_of_app in Hj as [Hj|Hj]; [by apply Hres|].
        apply list_elem_of_singleton in Hj. congruence.
  - split; [done|done|]. simpl. intros j v Hj.
    apply elem_of_app in Hj as [Hj|Hj]; [by apply Hres|].
    apply list_elem_of_singleton in Hj. congruence.
Qed.

Lemma collecting_run l c picks :
  collecting l c -> collecting l (run myAll_handlers c picks).
Proof.
  revert c. induction picks as [|k picks IH]; intros c Hs; [done|].
  simpl. by apply IH, collecting_step.
Qed.

Lemma collecting_start l : collecting l (myAll (Some l)).
Proof.
  split; [apply gathering_start| |];
    unfold myAll; destruct (decide (length l = 0)); simpl; try lia;
    intros j v H; by apply not_elem_of_nil in H.
Qed.

(** ** Promise.myAny *)

(** What a call of [Promise.myAny] has come to. *)
Definition any_state (l : list input) (c : call) : promise_state :=
  match head (fulfilments c) with
  | Some v => Fulfilled v
  | None =>
      if decide (counter c = length l)
      then Rejected (aggregate_error (results c)) else Pending
  end.

Record hoping (l : list input) (c : call) : Prop := {
  hoping_tidy : tidy l c;
  hoping_counter : counter c = length (rejections c);
  hoping_length : length (results c) <= length l;
  hoping_results : forall j e,
    (j, Rejects e) ∈ delivered c -> array_get (results c) j = Some e;
  hoping_state : state (promise c) = any_state l c
}.

Lemma reject_when_complete_fields c :
  promises (reject_when_complete c) = promises c /\
  waiting (reject_when_complete c) = waiting c /\
  delivered (reject_when_complete c) = delivered c /\
  results (reject_when_complete c) = results c /\
  counter (reject_when_complete c) = counter c.
Proof. unfold reject_when_complete. by destruct (decide _). Qed.

Lemma myAny_modest : modest myAny_handlers.
Proof.
  intros i v c. simpl. split; [done|].
  by destruct (reject_when_complete_fields (store i v c)) as (-> & -> & -> & _).
Qed.

Lemma hoping_step l c k :
  hoping l c -> hoping l (step myAny_handlers c k).
Proof.
  intros [Ht Hc Hlen Hres Hst].
  destruct (delivery_cases myAny_handlers c k)
    as [[_ ->]|(i & o & Hw & Ho & ->)]; [done|].
  rewrite (tidy_promises l c Ht) in Ho.
  pose proof (tidy_detach l c i o Ht Hw Ho) as Ht'.
  pose proof (tidy_waiting l c i Ht Hw) as Hlt.
  pose proof (outcomes_length c) as Hsum.
  destruct o as [v|e]; simpl.
  - split; simpl.
    + destruct Ht' as [H1 H2 H3]. by split.
    + change (counter c = length (rejections (detach i (Fulfils v) c))).
      by rewrite rejections_detach, app_nil_r.
    + done.
    + intros j e Hj. apply elem_of_app in Hj as [Hj|Hj]; [by apply Hres|].
      apply list_elem_of_singleton in Hj. congruence.
    + unfold any_state. simpl.
      change (fulfilments _) with (fulfilments (detach i (Fulfils v) c)).
      rewrite fulfilments_detach, head_app_cons.
      unfold any_state in Hst. unfold settle. rewrite Hst.
      destruct (head (fulfilments c)) as [v0|] eqn:Hh; simpl; [done|].
      rewrite decide_False by (unfold input in *; lia). done.
  - destruct (reject_when_complete_fields (store i e (detach i (Rejects e) c)))
      as (Hp & Hwt & Hd & Hr & Hn).
    assert (Hrej : rejections (reject_when_complete
                                 (store i e (detach i (Rejects e) c)))
                   = rejections c ++ [e]).
    { unfold rejections at 1. rewrite Hd.
      change (rejections (detach i (Rejects e) c) = rejections c ++ [e]).
      by rewrite rejections_detach. }
    assert (Hful : fulfilments (reject_when_complete
                                  (store i e (detach i (Rejects e) c)))
                   = fulfilments c).
    { unfold fulfilments at 1. rewrite Hd.
      change (fulfilments (detach i (Rejects e) c) = fulfilments c).
      by rewrite fulfilments_detach, app_nil_r. }
    split.
    + destruct Ht' as [H1 H2 H3]. split; rewrite ?Hp, ?Hwt, ?Hd; done.
    + rewrite Hrej, Hn, length_app. simpl. lia.
    + rewrite Hr. simpl. rewrite length_array_set.
      apply lookup_lt_Some in Ho. unfold input in *. lia.
    + intros j e'. rewrite Hd, Hr. simpl. intros Hj. rewrite array_get_set.
      destruct (decide (i = j)) as [->|Hne].
      * apply elem_of_app in Hj as [Hj|Hj].
        -- pose proof (tidy_delivered l c Ht _ _ Hj). congruence.
        -- apply list_elem_of_singleton in Hj. congruence.
      * apply elem_of_app in Hj as [Hj|Hj]; [by apply Hres|].
        apply list_elem_of_singleton in Hj. congruence.
    + unfold any_state. rewrite Hful, Hn, Hr.
      unfold any_state in Hst. unfold reject_when_complete. simpl.
      rewrite (tidy_promises l c Ht).
      destruct (head (fulfilments c)) as [v0|] eqn:Hh.
      * destruct (decide (S (counter c) = length l)); simpl; [|done].
        unfold settle. by rewrite Hst.
      * rewrite decide_False in Hst by (unfold input in *; lia).
        destruct (decide (S (counter c) = length l)); simpl; [|done].
        unfold settle. by rewrite Hst.
Qed.

Lemma hoping_run l c picks :
  hoping l c -> hoping l (run myAny_handlers c picks).
Proof.
  revert c. induction picks as [|k picks IH]; intros c Hs; [done|].
  simpl. by apply IH, hoping_step.
Qed.

Lemma tidy_reject l e c : tidy l c -> tidy l (reject e c).
Proof. intros [H1 H2 H3]. by split. Qed.

Lemma hoping_start l : hoping l (myAny (Some l)).
Proof.
  unfold myAny. destruct (decide (length l = 0)) as [Hl|Hl].
  - split; simpl; [by apply tidy_reject, tidy_created|done|lia| |].
    + intros j e H. by apply not_elem_of_nil in H.
    + unfold any_state. simpl. by rewrite decide_True.
  - split; simpl; [apply tidy_attach|done|lia| |].
    + intros j e H. by apply not_elem_of_nil in H.
    + unfold any_state. simpl. by rewrite decide_False.
Qed.

(** ** When every handler has run *)

Lemma all_delivered l c i :
  tidy l c -> length (delivered c) = length l -> i < length l ->
  exists o, (i, o) ∈ delivered c /\ l !! i = Some (Some o).
Proof.
  intros Ht Hlen Hi. pose proof (tidy_split l c Ht) as Hs.
  assert (Hw : waiting c = []).
  { apply Permutation_length in Hs.
    rewrite length_app, length_fmap, length_seq in Hs.
    destruct (waiting c); [done|]. simpl in Hs. unfold input in *. lia. }
  assert (Hin : i ∈ waiting c ++ (delivered c).*1).
  { rewrite Hs. apply elem_of_seq. split; [apply Nat.le_0_l|exact Hi]. }
  rewrite Hw in Hin. simpl in Hin.
  apply list_elem_of_fmap in Hin as ([j o] & -> & Hin). simpl.
  exists o. split; [done|]. by apply (tidy_delivered l c Ht).
Qed.

(** When the handlers of every element have stored what [record] gives
    for its outcome, the array holds it for every index and has the length
    of the input. *)
Lemma complete_results l c (record : outcome -> option value) :
  tidy l c -> length (results c) <= length l ->
  length (delivered c) = length l ->
  (forall j o, (j, o) ∈ delivered c ->
     exists x, record o = Some x /\ array_get (results c) j = Some x) ->
  length (results c) = length l /\
  forall i, i < length l ->
    exists o x, l !! i = Some (Some o) /\ record o = Some x /\
                results c !! i = Some (Some x).
Proof.
  intros Ht Hle Hlen Hres.
  assert (Hall : forall i, i < length l ->
            exists o x, l !! i = Some (Some o) /\ record o = Some x /\
                        results c !! i = Some (Some x)).
  { intros i Hi. destruct (all_delivered l c i Ht Hlen Hi) as (o & Hin & Ho).
    destruct (Hres i o Hin) as (x & Hx & Hget). exists o, x.
    split; [done|]. split; [done|]. unfold array_get in Hget.
    destruct (results c !! i) as [[y|]|]; simpl in Hget; congruence. }
  split; [|done].
  destruct (length l) as [|n] eqn:Hn.
  - unfold input in *. lia.
  - destruct (Hall n) as (o & x & _ & _ & Hx); [lia|].
    apply lookup_lt_Some in Hx. unfold input in *. lia.
Qed.

(** ** The race *)

(** [Promise.myRace] settles as the first element whose handlers run, and
    stays so: at every step of every schedule the promise is pending while
    no handler has run and has from then on the outcome of the element
    whose handlers ran first; that is the outcome of an element; and when
    an element settles, a schedule with a step for every element settles
    the promise, whether or not the other elements ever settle. *)
Theorem myRace_first_settled (promises : list input) (picks : list nat) :
  let c := run myRace_handlers (myRace (Some promises)) picks in
  state (promise c) = race_state c /\
  (forall more,
     state (promise c) <> Pending ->
     state (promise (run myRace_handlers (myRace (Some promises))
                       (picks ++ more)))
     = state (promise c)) /\
  (forall v, state (promise c) = Fulfilled v ->
     exists index, promises !! index = Some (Some (Fulfils v))) /\
  (forall e, state (promise c) = Rejected e ->
     exists index, promises !! index = Some (Some (Rejects e))) /\
  (length promises <= length picks ->
   (exists index o, promises !! index = Some (Some o)) ->
   state (promise c) <> Pending).
Proof.
  intros c.
  assert (Hinit : state (promise (myRace (Some promises)))
                  = race_state (myRace (Some promises)))
    by (unfold myRace; by destruct (decide _)).
  assert (Ht0 : tidy promises (myRace (Some promises))).
  { unfold myRace. destruct (decide _); [by apply tidy_created|].
    apply tidy_attach. }
  assert (Ht : tidy promises c) by (apply tidy_run; [apply myRace_modest|done]).
  assert (Hst : state (promise c) = race_state c) by by apply racing_run.
  assert (Hfrom : forall j o, head (delivered c) = Some (j, o) ->
                    promises !! j = Some (Some o)).
  { intros j o Hh. apply (tidy_delivered promises c Ht).
    destruct (delivered c) as [|d l]; [done|]. injection Hh as ->.
    apply elem_of_cons. by left. }
  split; [done|]. split; [|split; [|split]].
  - intros more Hne. unfold run. rewrite foldl_app. fold c.
    change (state (promise (run myRace_handlers c more)) = state (promise c)).
    rewrite (racing_run c more Hst), Hst. unfold race_state.
    destruct (delivered_run myRace_handlers c more myRace_modest) as [m ->].
    rewrite Hst in Hne. unfold race_state in Hne.
    by destruct (delivered c) as [|[j o] l].
  - intros v Hv. rewrite Hst in Hv. unfold race_state in Hv.
    destruct (head (delivered c)) as [[j [v'|e']]|] eqn:Hh; try done.
    injection Hv as ->. exists j. by apply Hfrom.
  - intros e He. rewrite Hst in He. unfold race_state in He.
    destruct (head (delivered c)) as [[j [v'|e']]|] eqn:Hh; try done.
    injection He as ->. exists j. by apply Hfrom.
  - intros Hlen (i & o & Hi).
    assert (Hr : ready c = []).
    { apply run_all_delivered; [apply myRace_modest|].
      pose proof (ready_bound promises _ Ht0). unfold input in *. lia. }
    pose proof (quiescent_delivered promises c i o Ht Hr Hi) as Hd.
    rewrite Hst. unfold race_state.
    destruct (delivered c) as [|[j [v|e]] l]; [|done..].
    by apply not_elem_of_nil in Hd.
Qed.

(** Three elements of which the second settles while the others never do:
    the race is settled with the second. *)
Lemma myRace_first_settled_witness :
  3 <= 3 /\
  state (promise (run myRace_handlers
                    (myRace (Some [None; Some (Fulfils (VStr "fast")); None]))
                    [0; 0; 0]))
  <> Pending.
Proof.
  split; [lia|].
  destruct (myRace_first_settled [None; Some (Fulfils (VStr "fast")); None]
              [0; 0; 0]) as (_ & _ & _ & _ & H).
  apply H; [simpl; lia|]. by exists 1, (Fulfils (VStr "fast")).
Defined.

(** ** All fulfilled *)

(** [Promise.myAll] is fulfilled exactly when every element is: when every
    element fulfils, a schedule with a step for every element fulfils the
    promise with the array of their values in the order of the elements,
    whatever the order in which they settle; and at every step of every
    schedule, a fulfilled promise holds an array of the length of the
    input whose slot [i] is the value that element [i] fulfilled with. *)
Theorem myAll_fulfilled :
  (forall (values : list value) (picks : list nat),
     length values <= length picks ->
     state (promise (run myAll_handlers
                       (myAll (Some ((fun v => Some (Fulfils v)) <$> values)))
                       picks))
     = Fulfilled (VArray (Some <$> values))) /\
  (forall (promises : list input) (picks : list nat) x,
     state (promise (run myAll_handlers (myAll (Some promises)) picks))
     = Fulfilled x ->
     exists rs, x = VArray rs /\ length rs = length promises /\
       forall i, i < length promises ->
         exists v, promises !! i = Some (Some (Fulfils v)) /\
                   rs !! i = Some (Some v)).
Proof.
  assert (Hchar : forall (promises : list input) picks x,
     state (promise (run myAll_handlers (myAll (Some promises)) picks))
     = Fulfilled x ->
     exists rs, x = VArray rs /\ length rs = length promises /\
       forall i, i < length promises ->
         exists v, promises !! i = Some (Some (Fulfils v)) /\
                   rs !! i = Some (Some v)).
  { intros promises picks x Hx.
    set (c := run myAll_handlers (myAll (Some promises)) picks) in *.
    assert (Hc : collecting promises c)
      by apply collecting_run, collecting_start.
    destruct Hc as [[Ht Hcount Hst] Hlen Hres].
    rewrite Hst in Hx. unfold all_state in Hx.
    destruct (head (rejections c)) as [e|] eqn:Hh; [done|].
    destruct (decide (counter c = length promises)) as [Hn|]; [|done].
    injection Hx as <-.
    assert (Hnil : rejections c = []) by (by destruct (rejections c)).
    rewrite (Hcount Hnil) in Hn.
    destruct (complete_results promises c
                (fun o => match o with Fulfils v => Some v | Rejects _ => None end)
                Ht Hlen Hn) as [Hl Hall].
    { intros j [v|e] Hj.
      - exists v. split; [done|]. by apply Hres.
      - assert (e ∈ rejections c) by (apply rejections_elem; by exists j).
        rewrite Hnil in H. by apply not_elem_of_nil in H. }
    exists (results c). split; [done|]. split; [done|].
    intros i Hi. destruct (Hall i Hi) as (o & v & Ho & Hv & Hr).
    destruct o as [v'|]; [|done]. injection Hv as ->. by exists v. }
  split; [|done].
  intros values picks Hlen.
  set (l := (fun v => Some (Fulfils v)) <$> values).
  set (c := run myAll_handlers (myAll (Some l)) picks).
  assert (Hc : collecting l c) by apply collecting_run, collecting_start.
  destruct Hc as [[Ht Hcount Hst] Hlen' Hres].
  assert (Hr : ready c = []).
  { apply run_all_delivered; [apply myAll_modest|].
    pose proof (ready_bound l _ (gathering_tidy l _ (gathering_start l))) as Hb.
    assert (Hll : length l = length values) by (unfold l; by rewrite length_fmap).
    unfold input in *. lia. }
  assert (Hnil : rejections c = []).
  { apply elem_of_nil_inv. intros e He. apply rejections_elem in He as [i Hi].
    pose proof (tidy_delivered l c Ht _ _ Hi) as Hl. unfold l in Hl.
    rewrite list_lookup_fmap in Hl. by destruct (values !! i). }
  assert (Hdel : forall i v, values !! i = Some v -> (i, Fulfils v) ∈ delivered c).
  { intros i v Hv. apply (quiescent_delivered l c i _ Ht Hr).
    unfold l. by rewrite list_lookup_fmap, Hv. }
  assert (Hn : length (delivered c) = length l).
  { pose proof (tidy_split l c Ht) as Hs. apply Permutation_length in Hs.
    rewrite length_app, length_fmap, length_seq in Hs.
    destruct (waiting c) as [|i w] eqn:Hw; [simpl in Hs; done|].
    assert (Hi : i ∈ waiting c ++ (delivered c).*1)
      by (rewrite Hw; apply elem_of_app; left; apply elem_of_cons; by left).
    rewrite (tidy_split l c Ht) in Hi. apply elem_of_seq in Hi as [_ Hi].
    unfold l in Hi. rewrite length_fmap in Hi. simpl in Hi.
    destruct (lookup_lt_is_Some_2 values i Hi) as [v Hv].
    assert (i ∈ ready c).
    { apply ready_spec. split; [rewrite Hw; apply elem_of_cons; by left|].
      exists (Fulfils v).
      rewrite (tidy_promises l c Ht). unfold l.
      by rewrite list_lookup_fmap, Hv. }
    rewrite Hr in H. by apply not_elem_of_nil in H. }
  rewrite Hst. unfold all_state. rewrite Hnil. simpl.
  rewrite (Hcount Hnil), decide_True by done. do 2 f_equal.
  apply list_eq. intros i. rewrite list_lookup_fmap.
  destruct (values !! i) as [v|] eqn:Hv; simpl.
  - pose proof (Hres i v (Hdel i v Hv)) as Hget. unfold array_get in Hget.
    destruct (results c !! i) as [[y|]|]; simpl in Hget; congruence.
  - apply lookup_ge_None_2. apply lookup_ge_None_1 in Hv.
    unfold l in Hlen'. rewrite length_fmap in Hlen'. lia.
Qed.

(** Three elements that settle in the order 2, 0, 1. *)
Lemma myAll_fulfilled_witness :
  3 <= 3 /\
  state (promise (run myAll_handlers
                    (myAll (Some ((fun v => Some (Fulfils v))
                                    <$> [VNum 1; VNum 2; VNum 3])))
                    [2; 0; 0]))
  = Fulfilled (VArray (Some <$> [VNum 1; VNum 2; VNum 3])).
Proof.
  split; [lia|].
  apply (proj1 myAll_fulfilled [VNum 1; VNum 2; VNum 3] [2; 0; 0]).
  simpl. lia.
Defined.

(** ** Any fulfilled *)

(** [Promise.myAny] is fulfilled with the value of the first element whose
    fulfilment handler runs, and is rejected only when every element
    rejected: at every step of every schedule, a fulfilled promise holds
    the first value handed over, which is the value of an element; a
    rejected promise holds an AggregateError whose [errors] has the length
    of the input and in slot [i] the error of element [i] (for an empty
    input: no errors).  When an element fulfils, a schedule with a step for
    every element fulfils the promise, whether or not the other elements
    ever settle. *)
Theorem myAny_outcome (promises : list input) (picks : list nat) :
  let c := run myAny_handlers (myAny (Some promises)) picks in
  (forall v, head (fulfilments c) = Some v <-> state (promise c) = Fulfilled v) /\
  (forall v, state (promise c) = Fulfilled v ->
     exists index, promises !! index = Some (Some (Fulfils v))) /\
  (forall x, state (promise c) = Rejected x ->
     exists errors, x = aggregate_error errors /\
       length errors = length promises /\
       forall i, i < length promises ->
         exists e, promises !! i = Some (Some (Rejects e)) /\
                   errors !! i = Some (Some e)) /\
  (length promises <= length picks ->
   (exists index v, promises !! index = Some (Some (Fulfils v))) ->
   exists v, state (promise c) = Fulfilled v).
Proof.
  intros c.
  assert (Hh : hoping promises c) by apply hoping_run, hoping_start.
  destruct Hh as [Ht Hcount Hlen Hres Hst].
  assert (Hhead : forall v, head (fulfilments c) = Some v
                            <-> state (promise c) = Fulfilled v).
  { intros v. rewrite Hst. unfold any_state.
    destruct (head (fulfilments c)) as [v0|].
    - split; congruence.
    - destruct (decide _); split; congruence. }
  split; [done|]. split; [|split].
  - intros v Hv. apply Hhead in Hv.
    assert (Hin : v ∈ fulfilments c).
    { destruct (fulfilments c) as [|v0 r]; [done|]. simpl in Hv.
      injection Hv as ->. apply elem_of_cons. by left. }
    apply fulfilments_elem in Hin as [i Hi]. exists i.
    by apply (tidy_delivered promises c Ht).
  - intros x Hx. rewrite Hst in Hx. unfold any_state in Hx.
    destruct (head (fulfilments c)) as [v0|] eqn:Hf; [done|].
    destruct (decide (counter c = length promises)) as [Hn|]; [|done].
    injection Hx as <-.
    assert (Hnil : fulfilments c = []) by (by destruct (fulfilments c)).
    pose proof (outcomes_length c) as Hsum. rewrite Hnil in Hsum.
    simpl in Hsum. rewrite Hcount, Hsum in Hn.
    destruct (complete_results promises c
                (fun o => match o with Rejects e => Some e | Fulfils _ => None end)
                Ht Hlen Hn) as [Hl Hall].
    { intros j [v|e] Hj.
      - assert (v ∈ fulfilments c) by (apply fulfilments_elem; by exists j).
        rewrite Hnil in H. by apply not_elem_of_nil in H.
      - exists e. split; [done|]. by apply Hres. }
    exists (results c). split; [done|]. split; [done|].
    intros i Hi. destruct (Hall i Hi) as (o & e & Ho & He & Hr).
    destruct o as [|e']; [done|]. injection He as ->. by exists e.
  - intros Hle (i & v & Hi).
    assert (Hr : ready c = []).
    { apply run_all_delivered; [apply myAny_modest|].
      pose proof (ready_bound promises _ (hoping_tidy _ _ (hoping_start promises))).
      unfold input in *. lia. }
    pose proof (quiescent_delivered promises c i _ Ht Hr Hi) as Hd.
    assert (Hin : v ∈ fulfilments c) by (apply fulfilments_elem; by exists i).
    destruct (fulfilments c) as [|v0 r] eqn:Hful;
      [by apply not_elem_of_nil in Hin|].
    exists v0. by apply Hhead.
Qed.

(** The example of the source: the second element fulfils, the others
    reject. *)
Lemma myAny_outcome_witness :
  3 <= 3 /\
  exists v,
    state (promise (run myAny_handlers
                      (myAny (Some [Some (Rejects (VStr "error1"));
                                    Some (Fulfils (VStr "success"));
                                    Some (Rejects (VStr "error2"))]))
                      [2; 0; 0]))
    = Fulfilled v.
Proof.
  split; [lia|].
  destruct (myAny_outcome [Some (Rejects (VStr "error1"));
                           Some (Fulfils (VStr "success"));
                           Some (Rejects (VStr "error2"))] [2; 0; 0])
    as (_ & _ & _ & H).
  apply H; [simpl; lia|]. by exists 1, (VStr "success").
Defined.

(** When every element rejects, [Promise.myAny] is rejected, once the
    rejection handler of the last has run, with an AggregateError that
    holds the errors in the order of the elements, whatever the order in
    which they were rejected. *)
Theorem myAny_all_rejected (errors : list value) (picks : list nat) :
  length errors <= length picks ->
  state (promise (run myAny_handlers
                    (myAny (Some ((fun e => Some (Rejects e)) <$> errors)))
                    picks))
  = Rejected (aggregate_error (Some <$> errors)).
Proof.
  intros Hle.
  set (l := (fun e => Some (Rejects e)) <$> errors).
  set (c := run myAny_handlers (myAny (Some l)) picks).
  assert (Hh : hoping l c) by apply hoping_run, hoping_start.
  destruct Hh as [Ht Hcount Hlen Hres Hst].
  assert (Hr : ready c = []).
  { apply run_all_delivered; [apply myAny_modest|].
    pose proof (ready_bound l _ (hoping_tidy _ _ (hoping_start l))) as Hb.
    assert (Hll : length l = length errors) by (unfold l; by rewrite length_fmap).
    unfold input in *. lia. }
  assert (Hnil : fulfilments c = []).
  { apply elem_of_nil_inv. intros v Hv. apply fulfilments_elem in Hv as [i Hi].
    pose proof (tidy_delivered l c Ht _ _ Hi) as Hl. unfold l in Hl.
    rewrite list_lookup_fmap in Hl. by destruct (errors !! i). }
  assert (Hdel : forall i e, errors !! i = Some e -> (i, Rejects e) ∈ delivered c).
  { intros i e He. apply (quiescent_delivered l c i _ Ht Hr).
    unfold l. by rewrite list_lookup_fmap, He. }
  assert (Hn : length (delivered c) = length l).
  { pose proof (tidy_split l c Ht) as Hs. apply Permutation_length in Hs.
    rewrite length_app, length_fmap, length_seq in Hs.
    destruct (waiting c) as [|i w] eqn:Hw; [simpl in Hs; done|].
    assert (Hi : i ∈ waiting c ++ (delivered c).*1)
      by (rewrite Hw; apply elem_of_app; left; apply elem_of_cons; by left).
    rewrite (tidy_split l c Ht) in Hi. apply elem_of_seq in Hi as [_ Hi].
    unfold l in Hi. rewrite length_fmap in Hi. simpl in Hi.
    destruct (lookup_lt_is_Some_2 errors i Hi) as [e He].
    assert (i ∈ ready c).
    { apply ready_spec. split; [rewrite Hw; apply elem_of_cons; by left|].
      exists (Rejects e).
      rewrite (tidy_promises l c Ht). unfold l.
      by rewrite list_lookup_fmap, He. }
    rewrite Hr in H. by apply not_elem_of_nil in H. }
  pose proof (outcomes_length c) as Hsum. rewrite Hnil in Hsum. simpl in Hsum.
  rewrite Hst. unfold any_state. rewrite Hnil. simpl.
  rewrite Hcount, Hsum, decide_True by done. do 3 f_equal.
  unfold aggregate_error. do 4 f_equal.
  apply list_eq. intros i. rewrite list_lookup_fmap.
  destruct (errors !! i) as [e|] eqn:He; simpl.
  - pose proof (Hres i e (Hdel i e He)) as Hget. unfold array_get in Hget.
    destruct (results c !! i) as [[y|]|]; simpl in Hget; congruence.
  - apply lookup_ge_None_2. apply lookup_ge_None_1 in He.
    unfold l in Hlen. rewrite length_fmap in Hlen. lia.
Qed.

Lemma myAny_all_rejected_witness :
  2 <= 2 /\
  state (promise (run myAny_handlers
                    (myAny (Some ((fun e => Some (Rejects e))
                                    <$> [VStr "a"; VStr "b"])))
                    [1; 0]))
  = Rejected (aggregate_error (Some <$> [VStr "a"; VStr "b"])).
Proof.
  split; [lia|].
  apply (myAny_all_rejected [VStr "a"; VStr "b"] [1; 0]). simpl. lia.
Defined.

End CombinatorsOutcomes.

(** * Facts about chains of [then] *)

Module MyPromiseChaining.
Import MyPromise MyPromiseFacts.

Section chain.
Context (c : nat) (rf rr : reaction).

(** The promise [c] has what the call of its continuation, a function of
    the caller, produced: the value it returned, when that is no
    [MyPromise], as its value, or what it threw as its reason. *)
Definition chained (cr : call_record) (w : world) : Prop :=
  forall h, handler (called cr) = Closure h ->
    (forall x, h (argument cr) = Return x -> (forall q, x <> VPromise q) ->
       outcome w c = Some (fulfilled, x)) /\
    (forall e, h (argument cr) = Throw e -> outcome w c = Some (rejected, e)).

Lemma chained_establish w r rest o :
  wf w -> tracked c rf rr w -> timers w = r :: rest ->
  heap w !! this r = Some o -> promise2 r = c ->
  chained (Called r (input r o)) (timeout w).
Proof.
  intros Hwf Htr Ht Ho Hc h Hh.
  destruct (aimed_live w r c Hwf) as (oc & Hoc & Hs).
  { rewrite Ht. by left. }
  { unfold aim. rewrite <- Hc, to_self. lia. }
  assert (Hlt : c < length (heap w)) by by eapply lookup_lt_Some.
  simpl in *. rewrite (timeout_cons r rest o w Ht Ho). simpl. rewrite Hh.
  split.
  - intros x Hret Hx. rewrite Hret, Hc.
    assert (Hres : forall w', resolvePromise c x w' = resolve c x w').
    { intros w'. unfold resolvePromise. destruct x; try done. by destruct (Hx p). }
    rewrite Hres, (resolve_pending c _ _ oc) by done.
    apply outcome_Some. exists (fulfil x oc). simpl.
    split; [|done]. by apply list_lookup_insert_eq.
  - intros e Hret. rewrite Hret, Hc.
    rewrite (reject_pending c _ _ oc) by done.
    apply outcome_Some. exists (refuse e oc). simpl.
    split; [|done]. by apply list_lookup_insert_eq.
Qed.

Lemma chained_run w acts :
  wf w -> tracked c rf rr w -> calls_of c w = [] ->
  forall cr, cr ∈ calls_of c (run w acts) -> chained cr (run w acts).
Proof.
  intros Hwf Htr Hnil.
  apply (call_invariant c rf rr chained); try done.
  - apply chained_establish.
  - intros w' a cr _ _ H h Hh. destruct (H h Hh) as [Hx He].
    split; intros; apply outcome_step; eauto.
  - intros cr. rewrite Hnil. intros H. by apply not_elem_of_nil in H.
Qed.

End chain.

(** When [p.then(f, g)] returned [c] and [p] is settled, then once the
    timers queued at that point have run, [c] has what the continuation
    made of the outcome of [p]: it is fulfilled with the value the
    continuation returned, when that is no [MyPromise], and rejected with
    what the continuation threw.  The continuation is [f] for a fulfilled
    [p] and [g] for a rejected one; an argument that is not a function
    passes the value on, or throws the reason again, so that
    [p.then(f)] and [p.catch(g)] hand a rejection, or a value, down the
    chain. *)
Theorem then_chaining (pre post : list action) (p : nat)
    (f g : option (value -> completion)) (o : pstate * value) :
  p < length (heap (run empty pre)) ->
  outcome (run empty (pre ++ Then p f g :: post)) p = Some o ->
  let c := length (heap (run empty pre)) in
  let w := run empty (pre ++ Then p f g :: post) in
  let w' := run w (timeouts (length (timers w))) in
  (forall x, continuation_result f g o = Return x ->
     (forall q, x <> VPromise q) ->
     forall more, outcome (run w' more) c = Some (fulfilled, x)) /\
  (forall e, continuation_result f g o = Throw e ->
     forall more, outcome (run w' more) c = Some (rejected, e)) /\
  (f = None -> o.1 = fulfilled -> (forall q, o.2 <> VPromise q) ->
     outcome w' c = Some o) /\
  (g = None -> o.1 = rejected -> outcome w' c = Some o).
Proof.
  intros Hp Ho c w w'.
  destruct (registration pre p f g post Hp) as (Hrun & Hwf1 & Htr1 & Hnil).
  fold c in Hrun, Hwf1, Htr1, Hnil. fold w in Hrun.
  set (rf := on_fulfilled p (Closure <$> f) c) in *.
  set (rr := on_rejected p (Closure <$> g) c) in *.
  assert (Hwf : wf w) by apply wf_run, wf_empty.
  assert (Htr : tracked c rf rr w) by (rewrite Hrun; by apply tracked_run).
  pose proof (settled_then_called p c (handler rf) (handler rr) w o Hwf Htr Ho)
    as Hcalled.
  fold w' in Hcalled.
  assert (Hch : chained c (call_for rf rr o) w').
  { unfold w' in *. rewrite Hrun, <- run_app in Hcalled |- *.
    apply (chained_run c rf rr _ _ Hwf1 Htr1 Hnil). rewrite Hcalled. by left. }
  pose proof (returned_call_for p c f g o) as Hret. fold rf rr in Hret.
  assert (Hcl : exists h, handler (called (call_for rf rr o)) = Closure h /\
                          h (argument (call_for rf rr o)) = continuation_result f g o).
  { unfold returned in Hret.
    destruct (handler (called (call_for rf rr o))) as [h| |] eqn:Hh.
    - by exists h.
    - exfalso. unfold call_for, rf, rr in Hh. simpl in Hh.
      rewrite on_fulfilled_closure, on_rejected_closure in Hh.
      by destruct (decide _).
    - exfalso. unfold call_for, rf, rr in Hh. simpl in Hh.
      rewrite on_fulfilled_closure, on_rejected_closure in Hh.
      by destruct (decide _). }
  destruct Hcl as (h & Hh & Hres). destruct (Hch h Hh) as [Hx He].
  rewrite Hres in Hx, He.
  split; [|split; [|split]].
  - intros x Hr Hn more. apply outcome_run. by apply Hx.
  - intros e Hr more. apply outcome_run. by apply He.
  - intros -> Hs Hn. destruct o as [s v]. simpl in *. subst s.
    by apply Hx.
  - intros -> Hs. destruct o as [s v]. simpl in *. subst s.
    by apply He.
Qed.

(** [p.then(v => v + 1)] on a promise resolved with 1. *)
Definition add_one (v : value) : completion :=
  match v with
  | VNum n => Return (VNum (n + 1))
  | _ => Throw (VError "TypeError" "not a number")
  end.

Lemma then_chaining_witness :
  outcome (run (run empty ([New; Resolve 0 (VNum 1)]
                           ++ Then 0 (Some add_one) None :: []))
                    (timeouts (length (timers
                       (run empty ([New; Resolve 0 (VNum 1)]
                                   ++ Then 0 (Some add_one) None :: []))))))
          1
  = Some (fulfilled, VNum 2).
Proof.
  refine (proj1 (then_chaining [New; Resolve 0 (VNum 1)] [] 0
                   (Some add_one) None (fulfilled, VNum 1)
                   (le_n 1) eq_refl) (VNum 2) eq_refl _ []).
  intros q. discriminate.
Defined.

End MyPromiseChaining.

(** * Facts about the array methods *)

Module ArrayPolyfillsFacts.
Import ArrayPolyfills.

(** The elements an array has, with their indices, from index [i] on. *)
Fixpoint present_from (i : nat) (o : list (option value)) : list (value * nat) :=
  match o with
  | [] => []
  | None :: o => present_from (S i) o
  | Some x :: o => (x, i) :: present_from (S i) o
  end.

Definition present (o : list (option value)) : list (value * nat) :=
  present_from 0 o.

(** The elements of a list up to the first one for which [stop] holds,
    that one included. *)
Fixpoint until {T} (stop : T -> bool) (l : list T) : list T :=
  match l with
  | [] => []
  | x :: l => if stop x then [x] else x :: until stop l
  end.

Definition throws (f : callback) (p : value * nat) : bool :=
  match f p.1 p.2 with Throw _ => true | Return _ => false end.

Definition accepts (f : callback) (p : value * nat) : bool :=
  match f p.1 p.2 with Return v => to_boolean v | Throw _ => false end.

(** The error of the first call that throws. *)
Fixpoint first_throw (f : callback) (l : list (value * nat)) : option value :=
  match l with
  | [] => None
  | p :: l =>
      match f p.1 p.2 with
      | Throw e => Some e
      | Return _ => first_throw f l
      end
  end.

(** The value a completion holds. *)
Definition held (c : completion) : value :=
  match c with Return v => v | Throw e => e end.

Lemma until_none {T} (stop : T -> bool) (l : list T) :
  (forall x, x ∈ l -> stop x = false) -> until stop l = l.
Proof.
  induction l as [|x l IH]; intros H; [done|]. simpl.
  rewrite H by (apply elem_of_cons; by left). f_equal. apply IH.
  intros y Hy. apply H. apply elem_of_cons. by right.
Qed.

Lemma first_throw_none f l :
  (forall p, p ∈ l -> exists y, f p.1 p.2 = Return y) -> first_throw f l = None.
Proof.
  induction l as [|p l IH]; intros H; [done|]. simpl.
  destruct (H p) as [y ->]; [apply elem_of_cons; by left|].
  apply IH. intros q Hq. apply H. apply elem_of_cons. by right.
Qed.

Lemma throws_none f (l : list (value * nat)) :
  (forall p, p ∈ l -> exists y, f p.1 p.2 = Return y) ->
  forall p, p ∈ l -> throws f p = false.
Proof. intros H p Hp. unfold throws. by destruct (H p Hp) as [y ->]. Qed.

Lemma present_from_elem i o x j :
  (x, j) ∈ present_from i o <-> i <= j /\ o !! (j - i) = Some (Some x).
Proof.
  revert i. induction o as [|[y|] o IH]; intros i; simpl.
  - split; [intros H; by apply not_elem_of_nil in H|]. by intros [_ ?].
  - rewrite elem_of_cons, IH. split.
    + intros [[= -> ->]|[Hle Hl]].
      * split; [lia|]. by rewrite Nat.sub_diag.
      * split; [lia|]. replace (j - i) with (S (j - S i)) by lia. done.
    + intros [Hle Hl]. destruct (decide (j = i)) as [->|Hne].
      * rewrite Nat.sub_diag in Hl. injection Hl as ->. by left.
      * right. split; [lia|].
        replace (j - i) with (S (j - S i)) in Hl by lia. done.
  - rewrite IH. split.
    + intros [Hle Hl]. split; [lia|].
      replace (j - i) with (S (j - S i)) by lia. done.
    + intros [Hle Hl]. destruct (decide (j = i)) as [->|Hne].
      * by rewrite Nat.sub_diag in Hl.
      * split; [lia|]. replace (j - i) with (S (j - S i)) in Hl by lia. done.
Qed.

Lemma present_elem o x j : (x, j) ∈ present o <-> o !! j = Some (Some x).
Proof.
  unfold present. rewrite present_from_elem, Nat.sub_0_r.
  split; [by intros [_ ?]|]. intros H. split; [lia|done].
Qed.

(** ** The loops, over the elements the array has *)

Lemma myMap_from_spec (f : callback) i rest result calls :
  myMap_from f i rest result calls
  = (match first_throw f (present_from i rest) with
     | Some e => Throw e
     | None =>
         Return (VArray
           (foldl (fun r p => array_set p.2 (held (f p.1 p.2)) r) result
                  (present_from i rest)))
     end,
     calls ++ until (throws f) (present_from i rest)).
Proof.
  revert i result calls. induction rest as [|[x|] rest IH];
    intros i result calls; simpl.
  - by rewrite app_nil_r.
  - unfold throws at 1. simpl. destruct (f x i) as [y|e] eqn:Hf; simpl; [|done].
    by rewrite IH, <- app_assoc.
  - apply IH.
Qed.

Lemma myFilter_from_spec (f : callback) i rest result calls :
  myFilter_from f i rest result calls
  = (match first_throw f (present_from i rest) with
     | Some e => Throw e
     | None =>
         Return (VArray
           (result ++ ((fun p => Some p.1)
                         <$> List.filter (accepts f) (present_from i rest))))
     end,
     calls ++ until (throws f) (present_from i rest)).
Proof.
  revert i result calls. induction rest as [|[x|] rest IH];
    intros i result calls; simpl.
  - by rewrite !app_nil_r.
  - assert (Ha : accepts f (x, i) = match f x i with
                                     | Return v => to_boolean v
                                     | Throw _ => false
                                     end) by done.
    assert (Ht : throws f (x, i) = match f x i with
                                    | Return _ => false
                                    | Throw _ => true
                                    end) by done.
    rewrite Ha, Ht. destruct (f x i) as [y|e] eqn:Hf; simpl; [|done].
    rewrite IH, <- app_assoc. destruct (first_throw _ _); [done|].
    destruct (to_boolean y); simpl; [|done]. by rewrite <- app_assoc.
  - apply IH.
Qed.

Lemma myForEach_from_spec (f : callback) i rest calls :
  myForEach_from f i rest calls
  = (match first_throw f (present_from i rest) with
     | Some e => Throw e
     | None => Return VUndefined
     end,
     calls ++ until (throws f) (present_from i rest)).
Proof.
  revert i calls. induction rest as [|[x|] rest IH]; intros i calls; simpl.
  - by rewrite app_nil_r.
  - unfold throws at 1. simpl. destruct (f x i) as [y|e] eqn:Hf; simpl; [|done].
    by rewrite IH, <- app_assoc.
  - apply IH.
Qed.

Lemma myFind_from_spec (f : callback) i rest calls :
  (forall p, p ∈ present_from i rest -> exists y, f p.1 p.2 = Return y) ->
  myFind_from f i rest calls
  = (Return (default VUndefined
               (fst <$> head (List.filter (accepts f)
                                          (present_from i rest)))),
     calls ++ until (accepts f) (present_from i rest)).
Proof.
  revert i calls. induction rest as [|[x|] rest IH]; intros i calls H; simpl.
  - by rewrite app_nil_r.
  - simpl in H. destruct (H (x, i)) as [y Hy]; [apply elem_of_cons; by left|].
    simpl in Hy.
    assert (Ha : accepts f (x, i) = to_boolean y)
      by (unfold accepts; simpl; by rewrite Hy).
    rewrite Ha, Hy. destruct (to_boolean y); simpl; [done|].
    rewrite IH, <- app_assoc; [done|].
    intros p Hp. apply H. apply elem_of_cons. by right.
  - apply IH. intros p Hp. by apply H.
Qed.

(** ** The array [myMap] returns *)

Lemma fold_set_shape (f : callback) i rest mapped :
  length mapped = i ->
  foldl (fun r p => array_set p.2 (held (f p.1 p.2)) r)
        (mapped ++ replicate (length rest) None) (present_from i rest)
  = mapped ++ imap (fun j x => (fun v => held (f v (i + j))) <$> x) rest.
Proof.
  revert i mapped. induction rest as [|[x|] rest IH]; intros i mapped Hlen;
    simpl.
  - done.
  - rewrite array_set_lt by (rewrite length_app; simpl; lia).
    replace i with (length mapped + 0) at 1 by lia.
    rewrite insert_app_r. simpl.
    rewrite (cons_middle _ mapped), app_assoc.
    rewrite (IH (S i)) by (rewrite length_app; simpl; lia).
    rewrite <- app_assoc. simpl. rewrite Nat.add_0_r. do 2 f_equal.
    apply imap_ext. intros j y _. simpl. by rewrite Nat.add_succ_r.
  - rewrite (cons_middle _ mapped), app_assoc.
    rewrite (IH (S i)) by (rewrite length_app; simpl; lia).
    rewrite <- app_assoc. simpl. do 2 f_equal.
    apply imap_ext. intros j y _. simpl. by rewrite Nat.add_succ_r.
Qed.

(** The array [myMap] returns with a callback that returns. *)
Lemma myMap_result (o : list (option value)) (f : callback)
    (g : value -> nat -> value) :
  (forall x i, o !! i = Some (Some x) -> f x i = Return (g x i)) ->
  (myMap (Some o) (Function f)).1
  = Return (VArray (imap (fun i x => (fun v => g v i) <$> x) o)).
Proof.
  intros Hf. unfold myMap, guard; cbn [from_option id]. rewrite myMap_from_spec.
  assert (Hall : forall p, p ∈ present_from 0 o -> exists y, f p.1 p.2 = Return y).
  { intros [x i] Hp. apply present_elem in Hp. exists (g x i). by apply Hf. }
  rewrite (first_throw_none f _ Hall).
  pose proof (fold_set_shape f 0 o [] eq_refl) as H. simpl in H.
  rewrite H. simpl. do 2 f_equal.
  apply imap_ext. intros i [x|] Hi; simpl; [|done].
  by rewrite (Hf x i Hi).
Qed.

(** [myMap] keeps the shape of the array: when the callback returns for
    every element the array has, the result has the length of the array,
    a hole where the array has a hole, and at every other index what the
    callback returned for the element and the index; the callback was
    called once for every element the array has, in the order of the
    indices, and not for a hole. *)
Theorem myMap_shape (o : list (option value)) (f : callback)
    (g : value -> nat -> value) :
  (forall x i, o !! i = Some (Some x) -> f x i = Return (g x i)) ->
  myMap (Some o) (Function f)
  = (Return (VArray (imap (fun i x => (fun v => g v i) <$> x) o)), present o).
Proof.
  intros Hf. rewrite (surjective_pairing (myMap _ _)).
  rewrite (myMap_result o f g Hf). f_equal.
  unfold myMap, guard; cbn [from_option id]. rewrite myMap_from_spec.
  assert (Hall : forall p, p ∈ present_from 0 o -> exists y, f p.1 p.2 = Return y).
  { intros [x i] Hp. apply present_elem in Hp. exists (g x i). by apply Hf. }
  by rewrite (first_throw_none f _ Hall), (until_none _ _ (throws_none f _ Hall)).
Qed.

Lemma myMap_shape_witness :
  myMap (Some [Some (VNum 1); None; Some (VNum 3)])
        (Function (fun x i => Return (VArray [Some x; Some (VNum (Z.of_nat i))])))
  = (Return (VArray [Some (VArray [Some (VNum 1); Some (VNum 0)]); None;
                     Some (VArray [Some (VNum 3); Some (VNum 2)])]),
     [(VNum 1, 0); (VNum 3, 2)]).
Proof.
  apply (myMap_shape [Some (VNum 1); None; Some (VNum 3)]
           (fun x i => Return (VArray [Some x; Some (VNum (Z.of_nat i))]))
           (fun x i => VArray [Some x; Some (VNum (Z.of_nat i))])).
  done.
Defined.

(** Mapping twice is mapping once with the composed callback: the holes
    stay where they are, so the second callback gets every value at the
    index of the element it comes from. *)
Theorem myMap_compose (o : list (option value)) (f g : callback)
    (f' g' : value -> nat -> value) :
  (forall x i, f x i = Return (f' x i)) ->
  (forall x i, g x i = Return (g' x i)) ->
  exists mapped,
    (myMap (Some o) (Function f)).1 = Return (VArray mapped) /\
    (myMap (Some mapped) (Function g)).1
    = (myMap (Some o) (Function (fun x i => g (f' x i) i))).1.
Proof.
  intros Hf Hg.
  exists (imap (fun i x => (fun v => f' v i) <$> x) o).
  rewrite (myMap_result o f f') by (intros; apply Hf).
  split; [done|].
  rewrite (myMap_result _ g g') by (intros; apply Hg).
  rewrite (myMap_result o _ (fun x i => g' (f' x i) i)) by (intros; apply Hg).
  do 2 f_equal. apply list_eq. intros i.
  rewrite !list_lookup_imap. by destruct (o !! i) as [[x|]|].
Qed.

Lemma myMap_compose_witness :
  exists mapped,
    (myMap (Some [Some (VNum 1); None])
           (Function (fun x _ => Return (VArray [Some x])))).1
    = Return (VArray mapped) /\
    (myMap (Some mapped) (Function (fun x _ => Return (VArray [Some x; Some x])))).1
    = (myMap (Some [Some (VNum 1); None])
             (Function (fun x i => (fun x _ => Return (VArray [Some x; Some x]))
                                     ((fun x _ => VArray [Some x]) x i) i))).1.
Proof.
  apply (myMap_compose [Some (VNum 1); None]
           (fun x _ => Return (VArray [Some x]))
           (fun x _ => Return (VArray [Some x; Some x]))
           (fun x _ => VArray [Some x])
           (fun x _ => VArray [Some x; Some x])); done.
Defined.

(** ** myFilter and myFind *)

(** The elements for which the callback returned a true value. *)
Definition kept (f : callback) (o : list (option value)) : list value :=
  fst <$> List.filter (accepts f) (present o).

Lemma returns_present (f : callback) o :
  (forall x i, o !! i = Some (Some x) -> exists y, f x i = Return y) ->
  forall p, p ∈ present_from 0 o -> exists y, f p.1 p.2 = Return y.
Proof. intros Hf [x i] Hp. apply present_elem in Hp. by apply Hf. Qed.

(** The array [myFilter] returns with a callback that returns. *)
Lemma myFilter_result (o : list (option value)) (f : callback) :
  (forall x i, o !! i = Some (Some x) -> exists y, f x i = Return y) ->
  (myFilter (Some o) (Function f)).1 = Return (VArray (Some <$> kept f o)).
Proof.
  intros Hf. unfold myFilter, guard; cbn [from_option id]. rewrite myFilter_from_spec.
  pose proof (returns_present f o Hf) as Hall.
  rewrite (first_throw_none f _ Hall).
  simpl. unfold kept, present. by rewrite <- list_fmap_compose.
Qed.

(** When the callback returns for every element the array has, [myFilter]
    returns an array without holes that holds, in their order, the
    elements for which the callback returned a true value; the callback
    was called once for every element the array has. *)
Theorem myFilter_kept (o : list (option value)) (f : callback) :
  (forall x i, o !! i = Some (Some x) -> exists y, f x i = Return y) ->
  myFilter (Some o) (Function f)
  = (Return (VArray (Some <$> kept f o)), present o).
Proof.
  intros Hf. rewrite (surjective_pairing (myFilter _ _)).
  rewrite (myFilter_result o f Hf). f_equal.
  unfold myFilter, guard; cbn [from_option id]. rewrite myFilter_from_spec.
  pose proof (returns_present f o Hf) as Hall.
  by rewrite (first_throw_none f _ Hall), (until_none _ _ (throws_none f _ Hall)).
Qed.

Lemma myFilter_kept_witness :
  myFilter (Some [Some (VNum 0); None; Some (VNum 3); Some (VStr "")])
           (Function (fun x _ => Return x))
  = (Return (VArray (Some <$> kept (fun x _ => Return x)
                                   [Some (VNum 0); None; Some (VNum 3);
                                    Some (VStr "")])),
     present [Some (VNum 0); None; Some (VNum 3); Some (VStr "")]).
Proof.
  apply (myFilter_kept [Some (VNum 0); None; Some (VNum 3); Some (VStr "")]
           (fun x _ => Return x)).
  intros x i _. by exists x.
Defined.

(** When the callback returns for every element the array has, [myFind]
    returns the first element that [myFilter] keeps, or [undefined] when
    it keeps none, and it calls the callback for the elements the array
    has up to that one and for no later one. *)
Theorem myFind_first (o : list (option value)) (f : callback) :
  (forall x i, o !! i = Some (Some x) -> exists y, f x i = Return y) ->
  (myFilter (Some o) (Function f)).1 = Return (VArray (Some <$> kept f o)) /\
  myFind (Some o) (Function f)
  = (Return (default VUndefined (head (kept f o))),
     until (accepts f) (present o)).
Proof.
  intros Hf. split; [by apply myFilter_result|].
  unfold myFind, guard; cbn [from_option id]. rewrite myFind_from_spec by by apply returns_present.
  unfold kept, present. simpl. by destruct (List.filter _ _).
Qed.

Lemma myFind_first_witness :
  myFind (Some [Some (VNum 0); None; Some (VNum 3); Some (VNum 4)])
         (Function (fun x _ => Return x))
  = (Return (VNum 3), [(VNum 0, 0); (VNum 3, 2)]).
Proof.
  apply (myFind_first [Some (VNum 0); None; Some (VNum 3); Some (VNum 4)]
           (fun x _ => Return x)).
  intros x i _. by exists x.
Defined.

(** ** myReduce *)

(** The left fold of the callback over elements with their indices. *)
Fixpoint reduce_over (f : reducer) (accumulator : value)
    (l : list (value * nat)) : completion :=
  match l with
  | [] => Return accumulator
  | p :: l =>
      match f accumulator p.1 p.2 with
      | Return y => reduce_over f y l
      | Throw e => Throw e
      end
  end.

Lemma myReduce_from_spec (f : reducer) k rest accumulator calls :
  (myReduce_from f k rest accumulator calls).1
  = reduce_over f accumulator (present_from k rest).
Proof.
  revert k accumulator calls.
  induction rest as [|[x|] rest IH]; intros k accumulator calls; simpl;
    [done| |apply IH].
  destruct (f accumulator x k); [apply IH|done].
Qed.

Lemma myReduce_from_calls (f : reducer) k rest accumulator calls :
  length (myReduce_from f k rest accumulator calls).2
  <= length calls + length (present_from k rest).
Proof.
  revert k accumulator calls.
  induction rest as [|[x|] rest IH]; intros k accumulator calls; simpl;
    [lia| |apply IH].
  destruct (f accumulator x k).
  - etransitivity; [apply IH|]. rewrite length_app. simpl. lia.
  - simpl. rewrite length_app. simpl. lia.
Qed.

Lemma first_existing_spec k rest :
  match first_existing k rest with
  | None => present_from k rest = []
  | Some (x, k', rest') =>
      exists j, k' = S j /\
        present_from k rest = (x, j) :: present_from k' rest'
  end.
Proof.
  revert k. induction rest as [|[x|] rest IH]; intros k; simpl;
    [done|by exists k|apply IH].
Qed.

(** [myReduce] folds the callback from the left over the elements the
    array has, with their indices.  With an initial value the fold starts
    from it, so an array without elements gives the initial value back.
    Without one the first element the array has is the start and the
    callback is first called for the next one; an array without elements
    (empty, or only holes) then throws a TypeError, and the callback is not
    called. *)
Theorem myReduce_fold (o : list (option value)) (f : reducer) :
  (forall initialValue,
     (myReduce (Some o) (Function f) (Some initialValue)).1
     = reduce_over f initialValue (present o)) /\
  (myReduce (Some o) (Function f) None).1
  = match present o with
    | [] => Throw (VError "TypeError"
                          "Reduce of empty array with no initial value")
    | p :: rest => reduce_over f p.1 rest
    end /\
  length (myReduce (Some o) (Function f) None).2 <= length (present o) - 1.
Proof.
  unfold myReduce, guard, present; cbn [from_option id]. split; [|split].
  - intros initialValue. apply myReduce_from_spec.
  - pose proof (first_existing_spec 0 o) as H.
    destruct (first_existing 0 o) as [[[x k] rest]|].
    + destruct H as (j & -> & ->). apply myReduce_from_spec.
    + by rewrite H.
  - pose proof (first_existing_spec 0 o) as H.
    destruct (first_existing 0 o) as [[[x k] rest]|].
    + destruct H as (j & -> & ->).
      pose proof (myReduce_from_calls f (S j) rest x []). simpl in *. lia.
    + simpl. lia.
Qed.

(** ** A callback that throws *)

Lemma abort_at (f : callback) i o k x e :
  o !! k = Some (Some x) -> f x (i + k) = Throw e ->
  (forall j y, j < k -> o !! j = Some (Some y) ->
     exists z, f y (i + j) = Return z) ->
  first_throw f (present_from i o) = Some e /\
  until (throws f) (present_from i o) = present_from i (take (S k) o).
Proof.
  revert i k. induction o as [|[y|] o IH]; intros i k Hk Hf Hbefore;
    [done| |].
  - destruct k as [|k].
    + injection Hk as ->. rewrite Nat.add_0_r in Hf. simpl.
      unfold throws. simpl. rewrite Hf. simpl. by rewrite ?take_0.
    + destruct (Hbefore 0 y) as [z Hz]; [lia|done|].
      rewrite Nat.add_0_r in Hz.
      destruct (IH (S i) k) as [H1 H2]; [done| | |].
      * by rewrite Nat.add_succ_comm.
      * intros j y' Hj Hy'. rewrite Nat.add_succ_comm.
        apply Hbefore; [lia|done].
      * change (take (S (S k)) (Some y :: o)) with (Some y :: take (S k) o).
        simpl. unfold throws at 1. simpl. rewrite Hz. by rewrite H1, H2.
  - destruct k as [|k]; [done|].
    destruct (IH (S i) k) as [H1 H2]; [done| | |].
    + by rewrite Nat.add_succ_comm.
    + intros j y' Hj Hy'. rewrite Nat.add_succ_comm.
      apply Hbefore; [lia|done].
    + change (take (S (S k)) (None :: o)) with (None :: take (S k) o).
      simpl. by rewrite H1, H2.
Qed.

(** When the callback throws for the element at index [k], and returned for
    the elements before it, [myMap], [myFilter] and [myForEach] throw what
    it threw, and the callback was called for the elements the array has
    up to index [k] and for none after it. *)
Theorem callback_exception (o : list (option value)) (f : callback)
    (k : nat) (x e : value) :
  o !! k = Some (Some x) -> f x k = Throw e ->
  (forall j y, j < k -> o !! j = Some (Some y) -> exists z, f y j = Return z) ->
  myMap (Some o) (Function f) = (Throw e, present (take (S k) o)) /\
  myFilter (Some o) (Function f) = (Throw e, present (take (S k) o)) /\
  myForEach (Some o) (Function f) = (Throw e, present (take (S k) o)).
Proof.
  intros Hk Hf Hbefore.
  destruct (abort_at f 0 o k x e Hk Hf Hbefore) as [H1 H2].
  unfold myMap, myFilter, myForEach, guard, present; cbn [from_option id].
  by rewrite myMap_from_spec, myFilter_from_spec, myForEach_from_spec, H1, H2.
Qed.

Lemma callback_exception_witness :
  myForEach (Some [Some (VNum 1); None; Some (VStr "x"); Some (VNum 2)])
            (Function (fun v _ => match v with
                                  | VStr _ => Throw v
                                  | _ => Return VUndefined
                                  end))
  = (Throw (VStr "x"), [(VNum 1, 0); (VStr "x", 2)]).
Proof.
  apply (callback_exception
           [Some (VNum 1); None; Some (VStr "x"); Some (VNum 2)]
           (fun v _ => match v with
                       | VStr _ => Throw v
                       | _ => Return VUndefined
                       end) 2 (VStr "x") (VStr "x")); try done.
  intros [|[|j]] y Hj Hy; [|done|lia].
  injection Hy as <-. by exists VUndefined.
Defined.

End ArrayPolyfillsFacts.

(** * Facts about flattening *)

Module FlattenFacts.
Import Flatten.

(** An array without holes, at any depth. *)
Fixpoint dense (v : value) : bool :=
  match v with
  | VArray elems =>
      forallb (fun slot => match slot with
                           | Some x => dense x
                           | None => false
                           end) elems
  | _ => true
  end.

(** What the callback of [reduce] in [flattenArray] pushes for a slot. *)
Definition pushed (d : depth) (slot : option value) : list (option value) :=
  match slot with
  | None => []
  | Some val =>
      if isArray val then spread (flattenArray_of val (minus_one d))
      else [Some val]
  end.

Lemma flattenArray_of_eq elems d :
  flattenArray_of (VArray elems) d
  = if is_zero d then elems else flat_map (pushed d) elems.
Proof.
  simpl. destruct (is_zero d); [done|].
  apply flat_map_ext. intros [val|]; [|done]. by destruct val.
Qed.

(** What the callback of [reduce] in [myFlat] pushes for a slot. *)
Definition pushed_flat (d : depth) (currentDepth : nat) (slot : option value)
  : list (option value) :=
  match slot with
  | None => []
  | Some val =>
      if isArray val && below currentDepth d
      then spread (flatten d val (S currentDepth))
      else [Some val]
  end.

Lemma flatten_eq d elems k :
  flatten d (VArray elems) k = flat_map (pushed_flat d k) elems.
Proof.
  simpl. apply flat_map_ext. intros [val|]; [|done]. by destruct val.
Qed.

(** Induction on a value with the arrays it holds. *)
Lemma value_nested_ind (P : value -> Prop) :
  (forall v, isArray v = false -> P v) ->
  (forall elems, (forall x, Some x ∈ elems -> P x) -> P (VArray elems)) ->
  forall v, P v.
Proof.
  intros Hother Harray.
  assert (Hall : forall elems,
            Forall (fun slot => match slot with
                                | Some x => P x
                                | None => True
                                end) elems -> P (VArray elems)).
  { intros elems H. apply Harray. intros x Hx.
    rewrite Forall_forall in H. apply (H (Some x) Hx). }
  clear Harray.
  refine (fix IH (v : value) : P v :=
            match v as v0 return P v0 with
            | VArray elems =>
                Hall elems
                  ((fix go (l : list (option value))
                      : Forall (fun slot => match slot with
                                            | Some x => P x
                                            | None => True
                                            end) l :=
                      match l with
                      | [] => @List.Forall_nil _ _
                      | slot :: l' =>
                          @List.Forall_cons _ _ slot l'
                            (match slot as s
                                   return match s with
                                          | Some x => P x
                                          | None => True
                                          end with
                             | Some y => IH y
                             | None => I
                             end) (go l')
                      end) elems)
            | VUndefined => Hother VUndefined eq_refl
            | VNum n => Hother (VNum n) eq_refl
            | VStr s => Hother (VStr s) eq_refl
            | VError name message => Hother (VError name message) eq_refl
            | VObject fields => Hother (VObject fields) eq_refl
            | VPromise p => Hother (VPromise p) eq_refl
            end).
Qed.

(** A slot that holds a value that is no array. *)
Definition flat_slot (slot : option value) : Prop :=
  exists x, slot = Some x /\ isArray x = false.

Lemma spread_full l : Forall is_Some l -> spread l = l.
Proof.
  intros H. unfold spread. induction H as [|slot l [x ->] _ IH]; [done|].
  by rewrite fmap_cons, IH.
Qed.

Lemma spread_is_Some l : Forall is_Some (spread l).
Proof. unfold spread. apply Forall_fmap, Forall_true. by eexists. Qed.

Lemma flat_slot_is_Some l : Forall flat_slot l -> Forall is_Some l.
Proof.
  intros H. eapply Forall_impl; [exact H|]. intros slot (x & -> & _). by eexists.
Qed.

Lemma Forall_flat_map {A B} (P : B -> Prop) (f : A -> list B) l :
  (forall a, a ∈ l -> Forall P (f a)) -> Forall P (flat_map f l).
Proof.
  induction l as [|a l IH]; intros H; simpl; [done|].
  apply Forall_app. split; [apply H; by left|].
  apply IH. intros b Hb. apply H. by right.
Qed.

Lemma flat_map_ext_elem {A B} (f g : A -> list B) l :
  (forall a, a ∈ l -> f a = g a) -> flat_map f l = flat_map g l.
Proof.
  induction l as [|a l IH]; intros H; simpl; [done|].
  rewrite (H a) by by left. f_equal. apply IH. intros b Hb. apply H. by right.
Qed.

Lemma flat_map_singletons {A} (f : A -> list A) l :
  (forall a, a ∈ l -> f a = [a]) -> flat_map f l = l.
Proof.
  induction l as [|a l IH]; intros H; simpl; [done|].
  rewrite (H a) by by left. simpl. f_equal. apply IH. intros b Hb.
  apply H. by right.
Qed.

(** The result of [flattenArray] with a depth other than 0 has no hole. *)
Lemma flattenArray_of_full v d :
  is_zero d = false -> Forall is_Some (flattenArray_of v d).
Proof.
  intros Hd. destruct v as [| | | | |elems|]; try done.
  rewrite flattenArray_of_eq, Hd. apply Forall_flat_map.
  intros [val|] _; simpl; [|done].
  destruct (isArray val); [apply spread_is_Some|].
  constructor; [by eexists|done].
Qed.

(** A depth that never becomes 0: [Infinity], or a negative number. *)
Definition endless (d : depth) : Prop :=
  match d with
  | Infinity => True
  | Finite n => (n < 0)%Z
  end.

Lemma endless_is_zero d : endless d -> is_zero d = false.
Proof. destruct d as [n|]; simpl; [|done]. intros H. apply Z.eqb_neq. lia. Qed.

Lemma endless_minus_one d : endless d -> endless (minus_one d).
Proof. destruct d as [n|]; simpl; [|done]. lia. Qed.

Lemma flattenArray_of_endless v :
  forall d, endless d ->
    Forall flat_slot (flattenArray_of v d) /\
    flattenArray_of v d = flattenArray_of v Infinity.
Proof.
  induction v as [v Hv|elems IH] using value_nested_ind; intros d Hd.
  { destruct v; try done. }
  rewrite !flattenArray_of_eq, (endless_is_zero d Hd). simpl is_zero. cbv iota.
  split.
  - apply Forall_flat_map. intros [val|] Hin; simpl; [|done].
    destruct (isArray val) eqn:Ha.
    + destruct (IH val Hin (minus_one d) (endless_minus_one d Hd)) as [Hflat _].
      rewrite spread_full by by apply flat_slot_is_Some. done.
    + constructor; [by exists val|done].
  - apply flat_map_ext_elem. intros [val|] Hin; simpl; [|done].
    destruct (isArray val); [|done].
    by destruct (IH val Hin (minus_one d) (endless_minus_one d Hd)) as [_ ->].
Qed.

(** Flattening what is flat changes nothing. *)
Lemma flattenArray_of_flat l d :
  Forall flat_slot l -> flattenArray_of (VArray l) d = l.
Proof.
  intros Hl. rewrite flattenArray_of_eq. destruct (is_zero d); [done|].
  apply flat_map_singletons. intros slot Hin.
  rewrite Forall_forall in Hl. destruct (Hl slot Hin) as (x & -> & Hx).
  simpl. by rewrite Hx.
Qed.

Lemma flatten_full d v k : Forall is_Some (flatten d v k).
Proof.
  destruct v as [| | | | |elems|]; try done.
  rewrite flatten_eq. apply Forall_flat_map.
  intros [val|] _; simpl; [|done].
  destruct (_ && _); [apply spread_is_Some|].
  constructor; [by eexists|done].
Qed.

Lemma flatten_Infinity v :
  forall k, flatten Infinity v k = flattenArray_of v Infinity.
Proof.
  induction v as [v Hv|elems IH] using value_nested_ind; intros k.
  { destruct v; try done. }
  rewrite flatten_eq, flattenArray_of_eq. simpl is_zero. cbv iota.
  apply flat_map_ext_elem. intros [val|] Hin; simpl; [|done].
  rewrite andb_true_r. destruct (isArray val); [|done].
  by rewrite (IH val Hin).
Qed.

(** ** Arrays without holes *)

Lemma dense_elems elems :
  dense (VArray elems) = true ->
  forall slot, slot ∈ elems -> exists x, slot = Some x /\ dense x = true.
Proof.
  simpl. intros H slot Hin. rewrite forallb_forall in H.
  apply list_elem_of_In in Hin. specialize (H slot Hin).
  destruct slot as [x|]; [by exists x|done].
Qed.

Lemma dense_full v d : dense v = true -> Forall is_Some (flattenArray_of v d).
Proof.
  intros Hv. destruct (is_zero d) eqn:Hd; [|by apply flattenArray_of_full].
  destruct v as [| | | | |elems|]; try done.
  rewrite flattenArray_of_eq, Hd. apply Forall_forall. intros slot Hin.
  destruct (dense_elems elems Hv slot Hin) as (x & -> & _). by eexists.
Qed.

Lemma flattenArray_of_app l1 l2 d :
  flattenArray_of (VArray (l1 ++ l2)) d
  = flattenArray_of (VArray l1) d ++ flattenArray_of (VArray l2) d.
Proof.
  rewrite !flattenArray_of_eq. destruct (is_zero d); [done|].
  apply flat_map_app.
Qed.

Lemma flattenArray_of_flat_map {A} (f : A -> list (option value)) l d :
  is_zero d = false ->
  flattenArray_of (VArray (flat_map f l)) d
  = flat_map (fun a => flattenArray_of (VArray (f a)) d) l.
Proof.
  intros Hd. induction l as [|a l IH]; simpl flat_map.
  - by rewrite flattenArray_of_eq, Hd.
  - by rewrite flattenArray_of_app, IH.
Qed.

Lemma flattenArray_of_add (a : nat) :
  forall v (b : nat), dense v = true ->
    flattenArray_of (VArray (flattenArray_of v (Finite (Z.of_nat a))))
                    (Finite (Z.of_nat b))
    = flattenArray_of v (Finite (Z.of_nat (a + b))).
Proof.
  induction a as [|a IH]; intros v b Hv.
  { destruct v as [| | | | |elems|]; try by destruct b. }
  destruct v as [| | | | |elems|]; try by destruct b.
  destruct b as [|b].
  { rewrite Nat.add_0_r. by rewrite (flattenArray_of_eq (flattenArray_of _ _)). }
  rewrite (flattenArray_of_eq elems), (flattenArray_of_eq elems).
  replace (is_zero (Finite (Z.of_nat (S a)))) with false
    by (symmetry; apply Z.eqb_neq; lia).
  replace (is_zero (Finite (Z.of_nat (S a + S b)))) with false
    by (symmetry; apply Z.eqb_neq; lia).
  rewrite flattenArray_of_flat_map by (apply Z.eqb_neq; lia).
  apply flat_map_ext_elem. intros slot Hin.
  destruct (dense_elems elems Hv slot Hin) as (x & -> & Hx). simpl pushed.
  replace (Z.of_nat (S a) - 1)%Z with (Z.of_nat a) by lia.
  replace (Z.of_nat (S a + S b) - 1)%Z with (Z.of_nat (a + S b)) by lia.
  destruct (isArray x) eqn:Ha.
  - rewrite !spread_full by by apply dense_full.
    rewrite (IH x (S b) Hx). do 2 f_equal. lia.
  - rewrite flattenArray_of_eq.
    replace (is_zero (Finite (Z.of_nat (S b)))) with false
      by (symmetry; apply Z.eqb_neq; lia).
    simpl. by rewrite Ha.
Qed.

Lemma flatten_flattenArray_of (m : nat) :
  forall v (k : nat), dense v = true ->
    flatten (Finite (Z.of_nat (k + m))) v k
    = flattenArray_of v (Finite (Z.of_nat m)).
Proof.
  induction m as [|m IH]; intros v k Hv;
    (destruct v as [| | | | |elems|]; try done);
    rewrite flatten_eq, flattenArray_of_eq.
  - simpl is_zero. cbv iota. apply flat_map_singletons. intros slot Hin.
    destruct (dense_elems elems Hv slot Hin) as (x & -> & Hx). simpl.
    replace (Z.of_nat k <? Z.of_nat (k + 0))%Z with false
      by (symmetry; apply Z.ltb_ge; lia).
    by rewrite andb_false_r.
  - replace (is_zero (Finite (Z.of_nat (S m)))) with false
      by (symmetry; apply Z.eqb_neq; lia).
    apply flat_map_ext_elem. intros slot Hin.
    destruct (dense_elems elems Hv slot Hin) as (x & -> & Hx). simpl.
    replace (Z.of_nat k <? Z.of_nat (k + S m))%Z with true
      by (symmetry; apply Z.ltb_lt; lia).
    rewrite andb_true_r. destruct (isArray x); [|done].
    replace (Z.of_nat (S m) - 1)%Z with (Z.of_nat m) by lia.
    replace (k + S m) with (S k + m) by lia.
    by rewrite IH.
Qed.

(** Flattening all the way gives an array without holes that holds no
    array, whatever the array given: flattening it again, to any depth,
    changes nothing.  A negative depth flattens all the way as well. *)
Theorem flattenArray_deep (arr : list (option value)) :
  Forall (fun slot => exists x, slot = Some x /\ isArray x = false)
         (flattenArray arr None) /\
  (forall d, flattenArray (flattenArray arr None) d = flattenArray arr None) /\
  (forall n, (n < 0)%Z ->
     flattenArray arr (Some (Finite n)) = flattenArray arr None) /\
  flattenArray arr (Some Infinity) = flattenArray arr None.
Proof.
  unfold flattenArray. simpl default.
  destruct (flattenArray_of_endless (VArray arr) Infinity I) as [Hflat _].
  split; [done|]. split; [|split; [|done]].
  - intros d. by apply flattenArray_of_flat.
  - intros n Hn. by apply (flattenArray_of_endless (VArray arr) (Finite n)).
Qed.

(** [[1, [2, [3, [4]]]]] *)
Definition nested_numbers : list (option value) :=
  [Some (VNum 1);
   Some (VArray [Some (VNum 2);
                 Some (VArray [Some (VNum 3); Some (VArray [Some (VNum 4)])])])].

Lemma flattenArray_deep_witness :
  flattenArray nested_numbers (Some (Finite (-1))) = flattenArray nested_numbers None.
Proof.
  apply (proj1 (proj2 (proj2 (flattenArray_deep nested_numbers))) (-1)%Z). lia.
Defined.

(** On an array without holes at any depth, flattening to the depth [a]
    and then to the depth [b] is flattening to the depth [a + b], and a
    depth of 0 gives the array back. *)
Theorem flattenArray_add (arr : list (option value)) (a b : Z) :
  dense (VArray arr) = true -> (0 <= a)%Z -> (0 <= b)%Z ->
  flattenArray (flattenArray arr (Some (Finite a))) (Some (Finite b))
  = flattenArray arr (Some (Finite (a + b))) /\
  flattenArray arr (Some (Finite 0)) = arr.
Proof.
  intros Hd Ha Hb. split; [|done]. unfold flattenArray. simpl default.
  pose proof (flattenArray_of_add (Z.to_nat a) (VArray arr) (Z.to_nat b) Hd) as H.
  rewrite Nat2Z.inj_add, !Z2Nat.id in H by lia. exact H.
Qed.

Lemma flattenArray_add_witness :
  flattenArray (flattenArray nested_numbers (Some (Finite 1))) (Some (Finite 1))
  = flattenArray nested_numbers (Some (Finite (1 + 1))) /\
  flattenArray nested_numbers (Some (Finite 0)) = nested_numbers.
Proof.
  apply (flattenArray_add nested_numbers 1%Z 1%Z); [reflexivity|lia|lia].
Defined.

(** [myFlat] and [flattenArray] give the same array for [Infinity],
    whatever the array, and for a depth that is not negative on an array
    without holes at any depth. *)
Theorem myFlat_flattenArray (arr : list (option value)) :
  myFlat arr (Some Infinity) = flattenArray arr None /\
  (forall n, dense (VArray arr) = true -> (0 <= n)%Z ->
     myFlat arr (Some (Finite n)) = flattenArray arr (Some (Finite n))) /\
  Forall is_Some (myFlat arr None).
Proof.
  split; [apply flatten_Infinity|]. split; [|apply flatten_full].
  intros n Hd Hn. unfold myFlat, flattenArray. simpl default.
  pose proof (flatten_flattenArray_of (Z.to_nat n) (VArray arr) 0 Hd) as H.
  rewrite Nat.add_0_l, Z2Nat.id in H by lia. exact H.
Qed.

Lemma myFlat_flattenArray_witness :
  myFlat nested_numbers (Some (Finite 2))
  = flattenArray nested_numbers (Some (Finite 2)).
Proof.
  apply (proj1 (proj2 (myFlat_flattenArray nested_numbers)) 2%Z);
    [reflexivity|lia].
Defined.

End FlattenFacts.

(** * Facts about the event emitter *)

Module EventEmitterFacts.
Import EventEmitter.

(** The function of the caller that a listener calls. *)
Fixpoint subject (f : func) : nat :=
  match f with
  | User id => id
  | OnceWrapper _ _ inner => subject inner
  end.

(** The calls among the effects. *)
Definition calls_of (effects : list effect) : list (nat * list value) :=
  omap (fun e => match e with
                 | Called id args => Some (id, args)
                 | ConsoleError _ => None
                 end) effects.

(** The listeners of an event, none when there is no array. *)
Definition listeners (st : emitter) (event : string) : list func :=
  default [] (events st event).

Lemma calls_of_app l1 l2 : calls_of (l1 ++ l2) = calls_of l1 ++ calls_of l2.
Proof. apply omap_app. Qed.

Section any_listeners.
Context (inherited : string -> bool).
Context (apply : nat -> list value -> emitter -> completion * emitter).

Lemma invoke_calls f args st :
  calls_of (invoke inherited apply f args st).1.2 = [(subject f, args)].
Proof.
  revert st. induction f as [id|n event inner IH]; intros st; simpl.
  - by destruct (apply id args st).
  - specialize (IH st).
    destruct (invoke inherited apply inner args st) as [[c effects] st'].
    simpl in IH. destruct c as [v|e]; [|done].
    by destruct (off inherited event _ st') as [[]].
Qed.

Lemma notify_calls args acc f :
  calls_of (notify inherited apply args acc f).1
  = calls_of acc.1 ++ [(subject f, args)].
Proof.
  unfold notify. pose proof (invoke_calls f args acc.2) as H.
  destruct (invoke inherited apply f args acc.2) as [[c effects] st'].
  simpl in H. destruct c; simpl; rewrite ?calls_of_app, H; [done|].
  simpl. by rewrite ?app_nil_r.
Qed.

Lemma foldl_notify_calls args l acc :
  calls_of (foldl (notify inherited apply args) acc l).1
  = calls_of acc.1 ++ ((fun f => (subject f, args)) <$> l).
Proof.
  revert acc. induction l as [|f l IH]; intros acc; simpl.
  - by rewrite app_nil_r.
  - by rewrite IH, notify_calls, <- app_assoc.
Qed.

Lemma lookup_own st event :
  inherited event = false ->
  lookup inherited st event
  = match events st event with Some l => Listeners l | None => Absent end.
Proof. intros H. unfold lookup. by rewrite H. Qed.

Lemma emit_calls event args st :
  inherited event = false ->
  calls_of (emit inherited apply event args st).1.2
  = (fun f => (subject f, args)) <$> listeners st event.
Proof.
  intros Hi. unfold emit, listeners. rewrite (lookup_own _ _ Hi).
  destruct (events st event) as [l|]; [|done].
  pose proof (foldl_notify_calls args l ([], st)) as H.
  by destruct (foldl _ _ l).
Qed.

Lemma events_set_event event v st e :
  events (set_event event v st) e = if String.eqb e event then v else events st e.
Proof. done. Qed.

Lemma listeners_on event f st :
  inherited event = false ->
  listeners (on inherited event (Function f) st).2 event
  = listeners st event ++ [f].
Proof.
  intros Hi. unfold on, listeners. rewrite (lookup_own _ _ Hi).
  destruct (events st event) as [l|]; simpl; by rewrite String.eqb_refl.
Qed.

End any_listeners.

(** [emit] calls every listener that is registered for the event when it
    is called, once, in the order of their registration and with the
    arguments given, whatever the listeners do: one that throws does not
    keep the next from being called, and a listener that is removed or
    added meanwhile is still, or not yet, called.  It returns whether the
    event had listeners.  [on] registers a listener behind those there
    are, so [emit] calls it last. *)
Theorem emit_calls_registered (inherited : string -> bool)
    (apply : nat -> list value -> emitter -> completion * emitter)
    (event : string) (args : list value) (st : emitter) :
  inherited event = false ->
  calls_of (emit inherited apply event args st).1.2
  = (fun f => (subject f, args)) <$> listeners st event /\
  (emit inherited apply event args st).1.1
  = Returns (match events st event with Some _ => true | None => false end) /\
  (forall f,
     calls_of (emit inherited apply event args
                    (on inherited event (Function f) st).2).1.2
     = ((fun f => (subject f, args)) <$> listeners st event)
       ++ [(subject f, args)]).
Proof.
  intros Hi. split; [by apply emit_calls|]. split.
  - unfold emit. rewrite (lookup_own _ _ _ Hi).
    destruct (events st event) as [l|]; [|done]. by destruct (foldl _ _ l).
  - intros f. rewrite emit_calls by done.
    by rewrite listeners_on, fmap_app.
Qed.

(** Two listeners, the first of which throws. *)
Definition first_throws (id : nat) (args : list value) (st : emitter)
  : completion * emitter :=
  if id =? 0 then (Throw (VStr "boom"), st) else (Return VUndefined, st).

Lemma emit_calls_registered_witness :
  calls_of (emit (fun _ => false) first_throws "data" [VNum 1]
                 (on (fun _ => false) "data" (Function (User 1))
                     (on (fun _ => false) "data" (Function (User 0)) new).2).2).1.2
  = [(0, [VNum 1]); (1, [VNum 1])].
Proof.
  apply (proj1 (emit_calls_registered (fun _ => false) first_throws "data"
                  [VNum 1]
                  (on (fun _ => false) "data" (Function (User 1))
                      (on (fun _ => false) "data" (Function (User 0)) new).2).2
                  eq_refl)).
Defined.

(** ** Listeners that leave the emitter alone *)

(** A call of the caller that registers or removes functions of its own. *)
Definition plain_argument (a : argument) : Prop :=
  match a with
  | NotAFunction _ => True
  | Function f => exists id, f = User id
  end.

Definition plain (o : op) : Prop :=
  match o with
  | On _ a | Once _ a | Off _ a => plain_argument a
  | Emit _ _ | RemoveAllListeners _ => True
  end.

(** [onceWrapper] or not. *)
Definition is_once (f : func) : bool :=
  match f with
  | User _ => false
  | OnceWrapper _ _ _ => true
  end.

Definition returns (c : completion) : bool :=
  match c with
  | Return _ => true
  | Throw _ => false
  end.

(** [this.events[event]] for a list of listeners: no array when there is
    none. *)
Definition stored (l : list func) : option (list func) :=
  match l with
  | [] => None
  | _ => Some l
  end.

Section quiet_listeners.
Context (inherited : string -> bool).
(** The functions of the caller do not touch the emitter. *)
Context (behaviour : nat -> list value -> completion).

Definition quiet (id : nat) (args : list value) (st : emitter)
  : completion * emitter :=
  (behaviour id args, st).

(** A listener of [event] as [on] and [once] register them for functions
    of the caller. *)
Definition shallow_at (event : string) (f : func) : Prop :=
  (exists id, f = User id) \/ (exists n id, f = OnceWrapper n event (User id)).

(** The arrays of the emitter hold such listeners, there is no empty
    array, and no array under an inherited name. *)
Definition shallow (st : emitter) : Prop :=
  forall event l, events st event = Some l ->
    l <> [] /\ inherited event = false /\ Forall (shallow_at event) l.

Lemma stored_filter l (P : func -> bool) :
  stored (List.filter P l)
  = if length (List.filter P l) =? 0 then None else Some (List.filter P l).
Proof. by destruct (List.filter P l). Qed.

Lemma listeners_stored l : default [] (stored l) = l.
Proof. by destruct l. Qed.

Lemma removed_wrapper event n id f :
  shallow_at event f ->
  removed (Function (OnceWrapper n event (User id))) f
  = bool_decide (f = OnceWrapper n event (User id)).
Proof.
  intros [[id' ->]|(n' & id' & ->)]; simpl;
    repeat case_bool_decide; try done; congruence.
Qed.

Lemma removed_user event id f :
  shallow_at event f ->
  removed (Function (User id)) f = (subject f =? id).
Proof.
  intros [[id' ->]|(n' & id' & ->)]; simpl;
    destruct (Nat.eqb_spec id' id) as [->|Hne];
    repeat case_bool_decide; try done; congruence.
Qed.

(** What [off] does to the listeners of an event that is not inherited. *)
Lemma off_own event target st :
  inherited event = false ->
  (off inherited event target st).1 = Returns () /\
  events (off inherited event target st).2 event
  = stored (List.filter (fun f => negb (removed target f)) (listeners st event)) /\
  (events st event <> Some [] ->
   forall e, e <> event ->
     events (off inherited event target st).2 e = events st e) /\
  wrappers (off inherited event target st).2 = wrappers st.
Proof.
  intros Hi. unfold off, listeners. rewrite (lookup_own _ _ _ Hi).
  destruct (events st event) as [l|] eqn:He; simpl.
  - rewrite String.eqb_refl, stored_filter. split; [done|]. split; [done|].
    split; [|done]. intros _ e Hne.
    by rewrite (proj2 (String.eqb_neq e event) Hne).
  - by rewrite He.
Qed.

Lemma off_other event target st e :
  inherited event = false -> e <> event ->
  events (off inherited event target st).2 e = events st e.
Proof.
  intros Hi Hne. unfold off. rewrite (lookup_own _ _ _ Hi).
  destruct (events st event) as [l|] eqn:He; simpl; [|done].
  by rewrite (proj2 (String.eqb_neq e event) Hne).
Qed.

(** The wrappers among the listeners called so far whose listener
    returned: they have removed themselves. *)
Definition gone (args : list value) (called : list func) (f : func) : bool :=
  bool_decide (f ∈ List.filter
                     (fun f => is_once f && returns (behaviour (subject f) args))
                     called).

Lemma gone_snoc args called g f :
  gone args (called ++ [g]) f
  = gone args called f
    || (is_once g && returns (behaviour (subject g) args) && bool_decide (f = g)).
Proof.
  unfold gone. rewrite List.filter_app. simpl.
  destruct (is_once g && returns (behaviour (subject g) args)); simpl.
  - repeat case_bool_decide; simpl; try done; exfalso;
      rewrite elem_of_app, list_elem_of_singleton in *; tauto.
  - by rewrite app_nil_r, orb_false_r.
Qed.

Lemma filter_filter (P Q : func -> bool) l :
  List.filter P (List.filter Q l) = List.filter (fun f => Q f && P f) l.
Proof.
  induction l as [|f l IH]; [done|]. simpl.
  destruct (Q f); simpl; [|done]. destruct (P f); by rewrite IH.
Qed.

Lemma filter_ext_elem (P Q : func -> bool) l :
  (forall f, f ∈ l -> P f = Q f) -> List.filter P l = List.filter Q l.
Proof.
  intros H. apply List.filter_ext_in. intros f Hin. apply H.
  by apply list_elem_of_In.
Qed.

Lemma filter_shallow event (P : func -> bool) l :
  Forall (shallow_at event) l -> Forall (shallow_at event) (List.filter P l).
Proof.
  intros H. apply Forall_forall. intros f Hin.
  apply list_elem_of_In, List.filter_In in Hin as [Hin _].
  rewrite Forall_forall in H. by apply H, list_elem_of_In.
Qed.

(** The state while [emit] goes through its copy [l] of the listeners. *)
Record emitting (event : string) (args : list value) (l : list func)
    (st0 : emitter) (called : list func) (st : emitter) : Prop := {
  em_event : events st event
             = stored (List.filter (fun f => negb (gone args called f)) l);
  em_other : forall e, e <> event -> events st e = events st0 e;
  em_wrappers : wrappers st = wrappers st0
}.

Lemma invoke_quiet event args l st0 called st f :
  inherited event = false -> Forall (shallow_at event) l -> f ∈ l ->
  emitting event args l st0 called st ->
  emitting event args l st0 (called ++ [f])
           (invoke inherited quiet f args st).2.
Proof.
  intros Hi Hl Hf [He Ho Hw].
  assert (Hsh : shallow_at event f).
  { rewrite Forall_forall in Hl. by apply Hl. }
  assert (Hsame : forall g, negb (gone args (called ++ [f]) g)
                            = negb (gone args called g)
                              && negb (is_once f
                                       && returns (behaviour (subject f) args)
                                       && bool_decide (g = f))).
  { intros g. by rewrite gone_snoc, negb_orb. }
  destruct Hsh as [[id ->]|(n & id & ->)]; simpl.
  - split; [|done..].
    rewrite He. f_equal. apply filter_ext_elem. intros g _.
    rewrite Hsame. simpl. by rewrite andb_true_r.
  - destruct (behaviour id args) as [v|e] eqn:Hb; simpl.
    + destruct (off_own event (Function (OnceWrapper n event (User id))) st Hi)
        as (Hr & Hev & _ & Hwr).
      pose proof (fun e => off_other event
                    (Function (OnceWrapper n event (User id))) st e Hi) as Hoth.
      destruct (off inherited event _ st) as [r st'] eqn:Hoff.
      simpl in Hr, Hev, Hwr, Hoth. subst r. simpl.
      split.
      * rewrite Hev. unfold listeners. rewrite He, listeners_stored.
        rewrite filter_filter. f_equal. apply filter_ext_elem. intros g Hg.
        rewrite Hsame. simpl. rewrite Hb. simpl. f_equal.
        rewrite Forall_forall in Hl.
        pose proof (removed_wrapper event n id g (Hl g Hg)) as Hr.
        simpl in Hr. by rewrite Hr.
      * intros e0 Hne. rewrite Hoth by done. by apply Ho.
      * by rewrite Hwr.
    + split; [|done..].
      rewrite He. f_equal. apply filter_ext_elem. intros g _.
      rewrite Hsame. simpl. rewrite Hb. simpl. by rewrite andb_true_r.
Qed.

Lemma notify_quiet event args l st0 called acc f :
  inherited event = false -> Forall (shallow_at event) l -> f ∈ l ->
  emitting event args l st0 called acc.2 ->
  emitting event args l st0 (called ++ [f])
           (notify inherited quiet args acc f).2.
Proof.
  intros Hi Hl Hf Hem.
  pose proof (invoke_quiet event args l st0 called acc.2 f Hi Hl Hf Hem)
    as Hem'.
  unfold notify. destruct (invoke inherited quiet f args acc.2) as [[c effects] st'].
  simpl in Hem'. by destruct c.
Qed.

Lemma foldl_notify_quiet event args l st0 rest :
  inherited event = false -> Forall (shallow_at event) l ->
  forall called acc,
    l = called ++ rest ->
    emitting event args l st0 called acc.2 ->
    emitting event args l st0 l (foldl (notify inherited quiet args) acc rest).2.
Proof.
  intros Hi Hl. induction rest as [|f rest IH]; intros called acc Heq Hem.
  - rewrite app_nil_r in Heq. by subst called.
  - simpl. apply (IH (called ++ [f])).
    + by rewrite <- app_assoc.
    + apply notify_quiet; try done. rewrite Heq, elem_of_app. right. by left.
Qed.

(** What [emit] does to the emitter. *)
Lemma emit_quiet event args st :
  inherited event = false -> shallow st ->
  events (emit inherited quiet event args st).2 event
  = stored (List.filter
              (fun f => negb (is_once f && returns (behaviour (subject f) args)))
              (listeners st event)) /\
  (forall e, e <> event ->
     events (emit inherited quiet event args st).2 e = events st e) /\
  wrappers (emit inherited quiet event args st).2 = wrappers st.
Proof.
  intros Hi Hsh. unfold emit, listeners. rewrite (lookup_own _ _ _ Hi).
  destruct (events st event) as [l|] eqn:He; simpl; [|by rewrite He].
  destruct (Hsh event l He) as (Hne & _ & Hl).
  assert (Hstart : emitting event args l st [] st).
  { split; [|done..]. rewrite He.
    assert (Hall : List.filter (fun f => negb (gone args [] f)) l = l).
    { assert (Hg : forall f, negb (gone args [] f) = true).
      { intros f. unfold gone. simpl.
        first [done|by rewrite bool_decide_eq_false_2 by apply not_elem_of_nil]. }
      clear -Hg. induction l as [|f l IH]; [done|].
      cbn [List.filter]. by rewrite Hg, IH. }
    rewrite Hall. by destruct l. }
  pose proof (foldl_notify_quiet event args l st l Hi Hl [] ([], st) eq_refl Hstart)
    as [Hev Ho Hw].
  destruct (foldl (notify inherited quiet args) ([], st) l) as [effects st'].
  simpl in *. split; [|done]. rewrite Hev. f_equal.
  apply filter_ext_elem. intros f Hf. f_equal. unfold gone.
  destruct (is_once f && returns (behaviour (subject f) args)) eqn:Hc.
  - apply bool_decide_eq_true_2, list_elem_of_In, List.filter_In.
    split; [by apply list_elem_of_In|done].
  - apply bool_decide_eq_false_2. intros Hin.
    apply list_elem_of_In, List.filter_In in Hin as [_ Hin]. congruence.
Qed.

(** ** The emitters of a program *)

Lemma shallow_set_event event l st :
  shallow st -> inherited event = false -> Forall (shallow_at event) l ->
  shallow (set_event event (stored l) st).
Proof.
  intros Hsh Hi Hl e l'. rewrite events_set_event.
  destruct (String.eqb_spec e event) as [->|Hne]; [|apply Hsh].
  destruct l as [|f l]; [done|]. intros [= <-]. done.
Qed.

Lemma shallow_counter st n :
  shallow st -> shallow (Emitter (events st) n).
Proof. done. Qed.

Lemma shallow_on event a st :
  plain_argument a -> shallow st -> shallow (on inherited event a st).2.
Proof.
  intros Ha Hsh. unfold on. destruct a as [v|f]; [done|].
  destruct Ha as [id ->]. unfold lookup.
  destruct (events st event) as [l|] eqn:He; simpl.
  - destruct (Hsh event l He) as (_ & Hi & Hl).
    assert (H' : shallow (set_event event (stored (l ++ [User id])) st)).
    { apply (shallow_set_event event (l ++ [User id]) st Hsh Hi).
      apply Forall_app. split; [done|]. constructor; [|done]. left. by exists id. }
    by destruct l.
  - destruct (inherited event) eqn:Hi; [done|]. simpl.
    apply (shallow_set_event event [User id] st Hsh Hi).
    constructor; [|done]. left. by exists id.
Qed.

Lemma shallow_once event a st :
  plain_argument a -> shallow st -> shallow (once inherited event a st).2.
Proof.
  intros Ha Hsh. unfold once. destruct a as [v|f]; [done|].
  destruct Ha as [id ->]. unfold on, lookup. simpl.
  destruct (events st event) as [l|] eqn:He; simpl.
  - destruct (Hsh event l He) as (_ & Hi & Hl).
    assert (H' : shallow (set_event event
                            (stored (l ++ [OnceWrapper (wrappers st) event (User id)]))
                            (Emitter (events st) (S (wrappers st))))).
    { apply (shallow_set_event event _ _ (shallow_counter st _ Hsh) Hi).
      apply Forall_app. split; [done|]. constructor; [|done].
      right. by exists (wrappers st), id. }
    by destruct l.
  - destruct (inherited event) eqn:Hi; [by apply shallow_counter|]. simpl.
    apply (shallow_set_event event [OnceWrapper (wrappers st) event (User id)]
             (Emitter (events st) (S (wrappers st)))
             (shallow_counter st _ Hsh) Hi).
    constructor; [|done]. right. by exists (wrappers st), id.
Qed.

Lemma shallow_off event target st :
  shallow st -> shallow (off inherited event target st).2.
Proof.
  intros Hsh. unfold off, lookup.
  destruct (events st event) as [l|] eqn:He; simpl.
  - destruct (Hsh event l He) as (_ & Hi & Hl).
    rewrite <- stored_filter.
    apply shallow_set_event; [done..|]. by apply filter_shallow.
  - by destruct (inherited event).
Qed.

Lemma shallow_emit event args st :
  shallow st -> shallow (emit inherited quiet event args st).2.
Proof.
  intros Hsh. destruct (inherited event) eqn:Hi.
  - unfold emit, lookup. destruct (events st event) as [l|] eqn:He.
    + destruct (Hsh event l He) as (_ & Hi' & _). congruence.
    + by rewrite Hi.
  - destruct (emit_quiet event args st Hi Hsh) as (Hev & Hoth & _).
    intros e l He. destruct (String.eqb_spec e event) as [->|Hne].
    + rewrite Hev in He.
      pose proof (filter_shallow event
                    (fun f => negb (is_once f
                                    && returns (behaviour (subject f) args)))
                    (listeners st event)) as Hf.
      destruct (List.filter _ (listeners st event)) as [|f l']; [done|].
      injection He as <-. split; [done|]. split; [done|].
      apply Hf. unfold listeners.
      destruct (events st event) as [l0|] eqn:He0; [|done].
      by destruct (Hsh event l0 He0) as (_ & _ & ?).
    + rewrite Hoth in He by done. by apply Hsh.
Qed.

Lemma shallow_removeAllListeners event st :
  shallow st -> shallow (removeAllListeners event st).
Proof.
  intros Hsh. unfold removeAllListeners.
  destruct event as [e|]; [|done]. destruct (String.eqb e ""); [done|].
  intros e' l. rewrite events_set_event.
  destruct (String.eqb e' e); [done|]. apply Hsh.
Qed.

Lemma shallow_step acc o :
  plain o -> shallow acc.2 -> shallow (step inherited quiet acc o).2.
Proof.
  intros Ho Hsh. destruct o; simpl.
  - by apply shallow_on.
  - by apply shallow_once.
  - by apply shallow_off.
  - pose proof (shallow_emit event args acc.2 Hsh) as H.
    by destruct (emit inherited quiet event args acc.2) as [[]].
  - by apply shallow_removeAllListeners.
Qed.

Lemma shallow_run ops :
  Forall plain ops -> shallow (run inherited quiet ops).2.
Proof.
  unfold run. induction ops as [|o ops IH] using rev_ind; intros Hp;
    [by intros e l|].
  apply Forall_app in Hp as [Hp Ho]. apply Forall_inv in Ho.
  rewrite foldl_app. simpl. apply shallow_step; [done|]. by apply IH.
Qed.

Lemma shallow_listeners st event :
  shallow st -> Forall (shallow_at event) (listeners st event).
Proof.
  intros Hsh. unfold listeners.
  destruct (events st event) as [l|] eqn:He; [|done].
  by destruct (Hsh event l He) as (_ & _ & ?).
Qed.

Lemma fmap_filter_subject P args l :
  (fun f => (subject f, args)) <$> List.filter (fun f => P (subject f)) l
  = List.filter (fun c : nat * list value => P c.1)
                ((fun f => (subject f, args)) <$> l).
Proof.
  induction l as [|f l IH]; [done|]. rewrite fmap_cons.
  cbn [List.filter fst]. destruct (P (subject f)); [rewrite fmap_cons|];
    by rewrite IH.
Qed.

End quiet_listeners.

(** A listener registered with [once] is removed by the [emit] that calls
    it, when it returns; one that throws stays registered.  For a program
    that registers functions of its own that do not touch the emitter:
    after [emit(event, ...args)] the listeners of the event are those
    before it without the wrappers of [once] whose listener returned, the
    other events have their listeners, and the next [emit] of the event
    calls exactly the listeners that stayed. *)
Theorem emit_once_removes (inherited : string -> bool)
    (behaviour : nat -> list value -> completion) (ops : list op)
    (event : string) (args : list value) :
  Forall plain ops -> inherited event = false ->
  let st := (run inherited (quiet behaviour) ops).2 in
  let st' := (emit inherited (quiet behaviour) event args st).2 in
  let stay f := negb (is_once f && returns (behaviour (subject f) args)) in
  listeners st' event = List.filter stay (listeners st event) /\
  (forall e, e <> event -> listeners st' e = listeners st e) /\
  (forall args',
     calls_of (emit inherited (quiet behaviour) event args' st').1.2
     = (fun f => (subject f, args')) <$> List.filter stay (listeners st event)).
Proof.
  intros Hp Hi st st' stay.
  destruct (emit_quiet inherited behaviour event args st Hi
              (shallow_run inherited behaviour ops Hp)) as (Hev & Hoth & _).
  assert (Hl : listeners st' event = List.filter stay (listeners st event)).
  { unfold listeners at 1. unfold st'. rewrite Hev. apply listeners_stored. }
  split; [done|]. split.
  - intros e Hne. unfold listeners, st'. by rewrite Hoth.
  - intros args'. by rewrite emit_calls, Hl.
Qed.

(** Function 0 returns and function 1 throws. *)
Definition second_throws (id : nat) (args : list value) : completion :=
  if id =? 1 then Throw (VStr "boom") else Return VUndefined.

Definition once_twice : list op :=
  [Once "data" (Function (User 0)); Once "data" (Function (User 1))].

Lemma emit_once_removes_witness :
  calls_of (emit (fun _ => false) (quiet second_throws) "data" []
                 (emit (fun _ => false) (quiet second_throws) "data" [VNum 1]
                       (run (fun _ => false) (quiet second_throws) once_twice).2).2).1.2
  = (fun f => (subject f, [])) <$>
      List.filter (fun f => negb (is_once f
                                  && returns (second_throws (subject f) [VNum 1])))
                  (listeners (run (fun _ => false) (quiet second_throws)
                                  once_twice).2 "data").
Proof.
  refine (proj2 (proj2 (emit_once_removes (fun _ => false) second_throws
                          once_twice "data" [VNum 1] _ eq_refl)) []).
  repeat constructor; by eexists.
Defined.

(** [off(event, f)] removes every registration of [f] for the event, those
    made with [once] included, and no other: for a program that registers
    functions of its own that do not touch the emitter, [emit] after
    [off(event, f)] calls what it would have called before without the
    calls of [f], in the same order.  [off(event)], without a listener,
    removes the listeners registered with [on] and keeps those registered
    with [once]. *)
Theorem off_removes (inherited : string -> bool)
    (behaviour : nat -> list value -> completion) (ops : list op)
    (event : string) (id : nat) (args : list value) :
  Forall plain ops -> inherited event = false ->
  let st := (run inherited (quiet behaviour) ops).2 in
  calls_of (emit inherited (quiet behaviour) event args
                 (off inherited event (Function (User id)) st).2).1.2
  = List.filter (fun c => negb (c.1 =? id))
                (calls_of (emit inherited (quiet behaviour) event args st).1.2) /\
  listeners (off inherited event (NotAFunction VUndefined) st).2 event
  = List.filter is_once (listeners st event).
Proof.
  intros Hp Hi st.
  pose proof (shallow_run inherited behaviour ops Hp) as Hsh. fold st in Hsh.
  split.
  - rewrite !emit_calls by done.
    destruct (off_own inherited event (Function (User id)) st Hi) as (_ & Hev & _).
    unfold listeners at 1. rewrite Hev, listeners_stored.
    rewrite <- (fmap_filter_subject (fun n => negb (n =? id))). f_equal.
    apply filter_ext_elem. intros f Hf. f_equal.
    pose proof (shallow_listeners inherited st event Hsh) as Hl.
    rewrite Forall_forall in Hl. by apply (removed_user event), Hl.
  - destruct (off_own inherited event (NotAFunction VUndefined) st Hi)
      as (_ & Hev & _).
    unfold listeners at 1. rewrite Hev, listeners_stored.
    apply filter_ext_elem. intros f _. by destruct f.
Qed.

Definition on_once_on : list op :=
  [On "data" (Function (User 0)); Once "data" (Function (User 1));
   Once "data" (Function (User 0)); On "data" (Function (User 2))].

Lemma off_removes_witness :
  calls_of (emit (fun _ => false) (quiet second_throws) "data" [VNum 1]
                 (off (fun _ => false) "data" (Function (User 0))
                      (run (fun _ => false) (quiet second_throws) on_once_on).2).2).1.2
  = List.filter (fun c => negb (c.1 =? 0))
                (calls_of (emit (fun _ => false) (quiet second_throws) "data"
                                [VNum 1]
                                (run (fun _ => false) (quiet second_throws)
                                     on_once_on).2).1.2).
Proof.
  refine (proj1 (off_removes (fun _ => false) second_throws on_once_on
                   "data" 0 [VNum 1] _ eq_refl)).
  repeat constructor; by eexists.
Defined.

End EventEmitterFacts.

(** * Facts about debounce *)

Module DebounceFacts.
Import Timers Debounce.

(** The calls of the debounced function among the events. *)
Definition call_events (es : list event) : list (Z * list value) :=
  omap (fun e => match e with
                 | Call now args => Some (now, args)
                 | Fire _ _ => None
                 end) es.

(** A burst: whenever the host looks for a timer to run, the latest call
    of the debounced function is less than [delay] ago. *)
Fixpoint busy (delay : Z) (latest : option Z) (es : list event) : Prop :=
  match es with
  | [] => True
  | Call now _ :: es => busy delay (Some now) es
  | Fire now _ :: es =>
      match latest with
      | Some t => (now < t + delay)%Z
      | None => True
      end /\ busy delay latest es
  end.

(** The time of the latest call among the events, or [latest] when there
    is none. *)
Definition latest_of (latest : option Z) (es : list event) : option Z :=
  match last (call_events es) with
  | Some c => Some c.1
  | None => latest
  end.

Lemma busy_snoc delay es e latest :
  busy delay latest (es ++ [e]) <->
  busy delay latest es /\
  match e with
  | Call _ _ => True
  | Fire now _ =>
      match latest_of latest es with
      | Some t => (now < t + delay)%Z
      | None => True
      end
  end.
Proof.
  revert latest. induction es as [|e' es IH]; intros latest.
  - simpl. destruct e; unfold latest_of; simpl; tauto.
  - destruct e' as [now args|now pick]; simpl.
    + rewrite IH.
      assert (latest_of latest (Call now args :: es) = latest_of (Some now) es)
        as ->; [|done].
      unfold latest_of. simpl. rewrite last_cons.
      by destruct (last (call_events es)).
    + rewrite IH. unfold latest_of. simpl. tauto.
Qed.

(** While a burst lasts: the one timer that waits is that of the latest
    call, and [func] was called for the first call only, and only with
    [immediate]. *)
Record bursting (delay : Z) (immediate : bool) (es : list event) (st : state)
  : Prop := {
  bu_pending : pending (timers st)
               = match last (call_events es) with
                 | Some c => [Timer (created (timers st)) (c.1 + delay)%Z c.2]
                 | None => []
                 end;
  bu_timeoutId : timeoutId st
                 = match last (call_events es) with
                   | Some _ => Some (created (timers st))
                   | None => None
                   end;
  bu_calls : calls st
             = if immediate then option_list (head (call_events es)) else []
}.

Lemma call_events_snoc es e :
  call_events (es ++ [e])
  = call_events es ++ match e with
                      | Call now args => [(now, args)]
                      | Fire _ _ => []
                      end.
Proof. unfold call_events. rewrite omap_app. by destruct e. Qed.

Lemma head_snoc {A} (l : list A) x :
  head (l ++ [x]) = Some (default x (head l)).
Proof. by destruct l. Qed.

Lemma filter_single_out {F} (i : nat) (d : Z) (f : F) :
  filter (fun t => id t <> i) [Timer i d f] = [].
Proof. rewrite filter_cons_False; [done|]. by intros H. Qed.

Lemma bursting_call delay immediate es st now args :
  bursting delay immediate es st ->
  bursting delay immediate (es ++ [Call now args])
           (debounced delay immediate now args st).
Proof.
  intros [Hp Ht Hc]. unfold debounced.
  assert (Hclear : clearTimeout (timeoutId st) (timers st)
                   = Host [] (created (timers st))).
  { rewrite Ht. destruct (timers st) as [p n]. simpl in *. rewrite Hp.
    destruct (last (call_events es)) as [c|]; [|done].
    simpl. by rewrite filter_single_out. }
  assert (Hnow : immediate && negb (bool_decide (is_Some (timeoutId st)))
                 = immediate && bool_decide (call_events es = [])).
  { f_equal. rewrite Ht. destruct (call_events es) as [|c l] eqn:Hce; [done|].
    destruct (last (c :: l)) eqn:Hl; [done|].
    by apply last_None in Hl. }
  rewrite Hclear, Hnow. simpl.
  assert (Hlast : last (call_events (es ++ [Call now args])) = Some (now, args)).
  { by rewrite call_events_snoc, last_snoc. }
  assert (Hhead : head (call_events (es ++ [Call now args]))
                  = Some (default (now, args) (head (call_events es)))).
  { by rewrite call_events_snoc, head_snoc. }
  destruct immediate; simpl.
  - destruct (call_events es) as [|c l] eqn:Hce; simpl in *.
    + split; simpl; rewrite ?Hlast, ?Hhead; try done. by rewrite Hc.
    + split; simpl; rewrite ?Hlast, ?Hhead; try done.
  - split; simpl; rewrite ?Hlast; done.
Qed.

Lemma bursting_fire delay immediate es st now pick :
  bursting delay immediate es st ->
  match last (call_events es) with
  | Some c => (now < c.1 + delay)%Z
  | None => True
  end ->
  bursting delay immediate (es ++ [Fire now pick])
           (step delay immediate st (Fire now pick)).
Proof.
  intros [Hp Ht Hc] Hnow.
  assert (Hce : call_events (es ++ [Fire now pick]) = call_events es).
  { by rewrite call_events_snoc, app_nil_r. }
  assert (Hstep : step delay immediate st (Fire now pick) = st).
  { simpl. unfold take, ready. rewrite Hp.
    destruct (last (call_events es)) as [c|]; [|done].
    rewrite filter_cons_False by (simpl; lia). done. }
  rewrite Hstep. split; by rewrite Hce.
Qed.

Lemma bursting_run delay immediate es :
  busy delay None es -> bursting delay immediate es (run delay immediate es).
Proof.
  induction es as [|e es IH] using rev_ind; intros Hb;
    [split; [done|done|by destruct immediate]|].
  apply busy_snoc in Hb as [Hb He]. specialize (IH Hb). unfold latest_of in He.
  unfold run in *. rewrite foldl_app. simpl.
  destruct e as [now args|now pick].
  - by apply bursting_call.
  - apply bursting_fire; [done|]. by destruct (last (call_events es)).
Qed.

(** In a burst of calls, each less than [delay] after the one before as far
    as the host can tell, [func] is called once.  Without [immediate] it is
    not called while the burst lasts, and the timer that the host runs
    [delay] or more after the latest call calls it with the arguments of
    that call.  With [immediate] it is called at the first call of the
    burst, with its arguments, and not by a timer; after the timer has
    run, the next call is the first of a new burst.  A second timer run
    calls nothing. *)
Theorem debounce_burst (delay : Z) (immediate : bool) (es : list event) :
  busy delay None es ->
  let st := run delay immediate es in
  calls st = (if immediate then option_list (head (call_events es)) else []) /\
  forall now pick c,
    last (call_events es) = Some c -> (c.1 + delay <= now)%Z ->
    let st' := step delay immediate st (Fire now pick) in
    calls st' = calls st ++ (if immediate then [] else [(now, c.2)]) /\
    (forall now' pick',
       calls (step delay immediate st' (Fire now' pick')) = calls st') /\
    (forall now' args,
       calls (step delay immediate st' (Call now' args))
       = calls st' ++ (if immediate then [(now', args)] else [])).
Proof.
  intros Hb st. destruct (bursting_run delay immediate es Hb) as [Hp Ht Hc].
  fold st in Hp, Ht, Hc. split; [done|].
  intros now pick c Hl Hdue st'.
  assert (Hst' : st' = later immediate now c.2
                         (State (timeoutId st) (Host [] (created (timers st)))
                                (calls st))).
  { unfold st'. simpl. unfold take, ready. rewrite Hp, Hl.
    rewrite filter_cons_True by done.
    cbn [filter list_filter length]. rewrite Nat.mod_1_r. simpl.
    by rewrite decide_False by (intros H; by apply H). }
  rewrite Hst'. unfold later. split; [|split].
  - destruct immediate; simpl; by rewrite ?app_nil_r.
  - intros now' pick'. by destruct immediate.
  - intros now' args. unfold debounced.
    destruct immediate; simpl; by rewrite ?app_nil_r.
Qed.

(** Three calls, 50 apart, debounced by 100, and a timer run at 200. *)
Definition typing : list event :=
  [Call 0 [VStr "a"]; Fire 50 0; Call 50 [VStr "ab"]; Call 100 [VStr "abc"];
   Fire 150 0].

Lemma debounce_burst_witness :
  calls (step 100 false (run 100 false typing) (Fire 200 0))
  = calls (run 100 false typing) ++ [(200%Z, [VStr "abc"])].
Proof.
  refine (proj1 (proj2 (debounce_burst 100 false typing _) 200%Z 0
                   (100%Z, [VStr "abc"]) eq_refl _)).
  - simpl. lia.
  - simpl. lia.
Defined.

End DebounceFacts.

(** * Facts about mySetInterval *)

Module MySetIntervalFacts.
Import Timers MySetInterval.

(** Times that are [delay] or more apart, the first [delay] or more after
    [previous]. *)
Fixpoint spaced (delay : Z) (previous : Z) (l : list Z) : Prop :=
  match l with
  | [] => True
  | t :: l => (previous + delay <= t)%Z /\ spaced delay t l
  end.

Lemma spaced_snoc delay previous l t :
  spaced delay previous (l ++ [t]) <->
  spaced delay previous l /\ (default previous (last l) + delay <= t)%Z.
Proof.
  revert previous. induction l as [|t' l IH]; intros previous; simpl.
  - tauto.
  - rewrite IH, last_cons. destruct (last l); simpl; tauto.
Qed.

Lemma spaced_lookup delay previous l i t t' :
  spaced delay previous l -> l !! i = Some t -> l !! S i = Some t' ->
  (t + delay <= t')%Z.
Proof.
  revert previous i. induction l as [|t0 l IH]; intros previous i Hs Hi Hi';
    [done|].
  destruct Hs as [_ Hs]. destruct i as [|i]; simpl in *.
  - injection Hi as ->. destruct l as [|t1 l]; [done|].
    injection Hi' as ->. by destruct Hs.
  - by eapply IH.
Qed.

Definition returns (c : completion) : bool :=
  match c with
  | Return _ => true
  | Throw _ => false
  end.

Section interval_facts.
Context (callback : nat -> conduct) (delay : Z) (start : Z).

(** The calls of [callback] that returned. *)
Definition returned (n : nat) : list nat :=
  List.filter (fun k => returns (completes (callback k))) (seq 0 n).

Lemma returned_S n :
  returned (S n)
  = returned n ++ (if returns (completes (callback n)) then [n] else []).
Proof.
  unfold returned. rewrite seq_S, List.filter_app. simpl.
  by destruct (returns _).
Qed.

(** At every point: at most one timer waits, the one [timeoutId] names,
    due [delay] after the latest call of [callback]; none waits once a
    call has thrown. *)
Record ticking (st : state) : Prop := {
  ti_pending :
    pending (timers st) = [] \/
    (pending (timers st)
     = [Timer (created (timers st))
              (default start (last (calls st)) + delay)%Z ()] /\
     timeoutId st = Some (created (timers st)));
  ti_spaced : spaced delay start (calls st);
  ti_count : count st = length (returned (length (calls st)));
  ti_threw : forall n e,
    n < length (calls st) -> completes (callback n) = Throw e ->
    length (calls st) = S n /\ pending (timers st) = []
}.

Lemma ticking_start : ticking (mySetInterval delay start).
Proof.
  split; simpl; try done.
  - by right.
  - intros n e Hn. lia.
Qed.

Lemma clear_idle st :
  pending (timers st) = [] -> clear st = st.
Proof.
  intros Hp. unfold clear. destruct st as [tid n [p c] l]. simpl in *. subst p.
  by destruct tid.
Qed.

Lemma interval_step_idle st e :
  pending (timers st) = [] ->
  calls (step callback delay st e) = calls st /\
  pending (timers (step callback delay st e)) = [].
Proof.
  intros Hp. destruct e as [now pick|].
  - simpl. unfold take, ready. by rewrite Hp.
  - change (step callback delay st Clear) with (clear st).
    by rewrite clear_idle.
Qed.

Lemma interval_run_idle st es :
  pending (timers st) = [] ->
  calls (foldl (step callback delay) st es) = calls st.
Proof.
  revert st. induction es as [|e es IH]; intros st Hp; [done|].
  simpl. destruct (interval_step_idle st e Hp) as [Hc Hp']. by rewrite IH.
Qed.

(** The conduct of [callback] without its calls of [clear]. *)
Definition harmless (n : nat) : conduct :=
  Conduct false (completes (callback n)).

Lemma ticking_step st e :
  ticking st ->
  ticking (step callback delay st e) /\
  step callback delay st e = step harmless delay st e.
Proof.
  intros Hst. pose proof Hst as [Hp Hs Hc Ht].
  destruct e as [now pick|]; simpl.
  - unfold take, ready.
    destruct Hp as [Hp|[Hp Hid]]; rewrite Hp; [by split|].
    cbn [filter list_filter]. simpl due.
    destruct (decide (default start (last (calls st)) + delay <= now)%Z)
      as [Hdue|Hdue]; [|by split].
    cbn [length]. rewrite Nat.mod_1_r. simpl.
    rewrite decide_False by (intros H; by apply H).
    unfold tick. simpl.
    assert (Hclear : forall s : state,
              pending (timers s) = [] ->
              (if clears (callback (length (calls st))) then clear s else s) = s).
    { intros s Hs'. destruct (clears _); [by apply clear_idle|done]. }
    rewrite Hclear by done.
    assert (Hnone : forall n e, n < length (calls st) ->
                      completes (callback n) <> Throw e).
    { intros n e Hn He. destruct (Ht n e Hn He) as [_ Hp']. by rewrite Hp in Hp'. }
    destruct (completes (callback (length (calls st)))) as [v|e] eqn:Hcb.
    + split; [|done]. split; simpl.
      * right. by rewrite last_snoc.
      * apply spaced_snoc. by split.
      * rewrite length_app, Nat.add_1_r, returned_S, Hcb. simpl.
        rewrite length_app. simpl. lia.
      * intros n e. rewrite length_app, Nat.add_1_r. intros Hn He.
        destruct (decide (n = length (calls st))) as [->|Hne]; [congruence|].
        exfalso. apply (Hnone n e); [lia|done].
    + split; [|done]. split; simpl.
      * by left.
      * apply spaced_snoc. by split.
      * rewrite length_app, Nat.add_1_r, returned_S, Hcb. simpl.
        by rewrite app_nil_r.
      * intros n e'. rewrite length_app, Nat.add_1_r. intros Hn He.
        destruct (decide (n = length (calls st))) as [->|Hne]; [done|].
        exfalso. apply (Hnone n e'); [lia|done].
  - assert (Hcl : pending (timers (clear st)) = []).
    { unfold clear. simpl. destruct Hp as [Hp|[Hp Hid]].
      - destruct (timeoutId st); simpl; by rewrite Hp.
      - rewrite Hid. simpl. rewrite Hp. cbn [filter list_filter]. simpl.
        by rewrite decide_False by (intros H; by apply H). }
    split; [|done]. split; [by left|done|done|].
    intros n e Hn He. destruct (Ht n e Hn He) as [Hl Hp']. by split.
Qed.

Lemma ticking_run es :
  ticking (run callback delay start es) /\
  run callback delay start es = run harmless delay start es.
Proof.
  induction es as [|e es [IH Heq]] using rev_ind.
  - split; [apply ticking_start|done].
  - unfold run in *. rewrite !foldl_app. simpl.
    destruct (ticking_step _ e IH) as [Ht Hs]. split; [done|].
    by rewrite Hs, Heq.
Qed.

End interval_facts.

(** [mySetInterval] calls [callback] at times that are [delay] or more
    apart, the first [delay] or more after the start; [count()] is the
    number of calls that returned; a call that throws is the last one;
    after [clear()] there is no further call; and [clear()] called by
    [callback] itself changes nothing, the interval goes on. *)
Theorem mySetInterval_runs (callback : nat -> conduct) (delay start : Z)
    (es : list event) :
  let st := run callback delay start es in
  (forall i t t', calls st !! i = Some t -> calls st !! S i = Some t' ->
     (t + delay <= t')%Z) /\
  (forall t, head (calls st) = Some t -> (start + delay <= t)%Z) /\
  count st
  = length (List.filter (fun n => returns (completes (callback n)))
                        (seq 0 (length (calls st)))) /\
  (forall n e, n < length (calls st) -> completes (callback n) = Throw e ->
     length (calls st) = S n) /\
  (forall es',
     calls (run callback delay start (es ++ Clear :: es')) = calls st) /\
  st = run (fun n => Conduct false (completes (callback n))) delay start es.
Proof.
  intros st.
  destruct (ticking_run callback delay start es) as [[Hp Hs Hc Ht] Heq].
  fold st in Hp, Hs, Hc, Ht, Heq.
  split; [|split; [|split; [|split; [|split]]]]; try done.
  - intros i t t'. by apply (spaced_lookup delay start).
  - intros t Hh. destruct (calls st) as [|t0 l]; [done|].
    injection Hh as ->. by destruct Hs.
  - intros n e Hn He. by destruct (Ht n e Hn He).
  - intros es'. unfold run. rewrite foldl_app. simpl.
    fold (run callback delay start es). fold st.
    rewrite interval_run_idle; [done|].
    destruct Hp as [Hp|[Hp Hid]]; simpl.
    + destruct (timeoutId st); simpl; by rewrite Hp.
    + rewrite Hid. simpl. rewrite Hp. cbn [filter list_filter]. simpl.
      by rewrite decide_False by (intros H; by apply H).
Qed.

(** A callback that calls [clear] every time and throws at its second
    call. *)
Definition stops_at_second (n : nat) : conduct :=
  Conduct true (if n =? 1 then Throw (VStr "stop") else Return VUndefined).

Lemma mySetInterval_runs_witness :
  length (calls (run stops_at_second 10 0
                     [Fire 10 0; Fire 20 0; Fire 30 0; Fire 40 0])) = 2.
Proof.
  refine (proj1 (proj2 (proj2 (proj2
            (mySetInterval_runs stops_at_second 10 0
               [Fire 10 0; Fire 20 0; Fire 30 0; Fire 40 0]))))
            1 (VStr "stop") _ eq_refl).
  vm_compute. lia.
Defined.

End MySetIntervalFacts.

(** * Facts about the LRU cache *)

Module LRUCacheFacts.
Import LRUCache.

Section lru_facts.
Context {K : Type} `{EqDecision K}.
Implicit Types (m : list (K * value)) (c : t K) (key : K).

(** ** The map *)

Lemma map_has_true key m : map_has key m = true <-> key ∈ m.*1.
Proof. unfold map_has. by rewrite bool_decide_eq_true. Qed.

Lemma map_has_false key m : map_has key m = false <-> key ∉ m.*1.
Proof. unfold map_has. by rewrite bool_decide_eq_false. Qed.

Lemma map_delete_keys key m :
  (map_delete key m).*1 = filter (fun k => k <> key) m.*1.
Proof.
  unfold map_delete. induction m as [|[k v] m IH]; [done|].
  rewrite fmap_cons. simpl. destruct (decide (k <> key)).
  - rewrite (filter_cons_True (fun e : K * value => e.1 <> key)) by done.
    rewrite (filter_cons_True (fun k0 : K => k0 <> key)) by done.
    rewrite fmap_cons. simpl. by rewrite IH.
  - rewrite (filter_cons_False (fun e : K * value => e.1 <> key)) by done.
    rewrite (filter_cons_False (fun k0 : K => k0 <> key)) by done.
    done.
Qed.

Lemma map_delete_absent key m : key ∉ m.*1 -> map_delete key m = m.
Proof.
  unfold map_delete. induction m as [|[k v] m IH]; intros Hk; [done|].
  rewrite fmap_cons in Hk. apply not_elem_of_cons in Hk as [Hne Hk].
  rewrite filter_cons. simpl. rewrite decide_True by done. by rewrite IH.
Qed.

Lemma map_set_absent key v m :
  key ∉ m.*1 -> map_set key v m = m ++ [(key, v)].
Proof.
  intros Hk. unfold map_set. by rewrite (proj2 (map_has_false key m) Hk).
Qed.

Lemma map_delete_not_elem key m : key ∉ (map_delete key m).*1.
Proof.
  rewrite map_delete_keys. intros Hin.
  apply list_elem_of_filter in Hin as [Hne _]. done.
Qed.

Lemma map_get_delete_ne key key' m :
  key <> key' -> map_get key (map_delete key' m) = map_get key m.
Proof.
  intros Hne. unfold map_delete. induction m as [|[k v] m IH]; [done|].
  rewrite filter_cons. simpl. destruct (decide (k <> key')) as [Hk|Hk]; simpl.
  - by rewrite IH.
  - destruct (decide (k = key)); [|done]. exfalso. apply Hk. congruence.
Qed.

Lemma map_get_app key m m' :
  map_get key (m ++ m')
  = match map_get key m with Some v => Some v | None => map_get key m' end.
Proof.
  induction m as [|[k v] m IH]; [done|]. simpl.
  by destruct (decide (k = key)).
Qed.

Lemma map_get_absent key m : key ∉ m.*1 -> map_get key m = None.
Proof.
  induction m as [|[k v] m IH]; intros Hk; [done|].
  rewrite fmap_cons in Hk. apply not_elem_of_cons in Hk as [Hne Hk].
  simpl. rewrite decide_False by done. by apply IH.
Qed.

Lemma map_get_present key m : key ∈ m.*1 -> is_Some (map_get key m).
Proof.
  induction m as [|[k v] m IH]; intros Hk; [by apply not_elem_of_nil in Hk|].
  simpl. destruct (decide (k = key)); [by eexists|].
  rewrite fmap_cons in Hk. apply elem_of_cons in Hk as [Hk|Hk]; [done|].
  by apply IH.
Qed.

(** ** What [get] and [put] do to the entries *)

(** An access moves the key to the end. *)
Lemma get_cache key c :
  key ∈ (cache c).*1 ->
  cache (get key c).2
  = map_delete key (cache c)
      ++ [(key, default VUndefined (map_get key (cache c)))].
Proof.
  intros Hk. unfold get. rewrite (proj2 (map_has_true key _) Hk). simpl.
  apply map_set_absent, map_delete_not_elem.
Qed.

Lemma get_absent key c : key ∉ (cache c).*1 -> get key c = (VUndefined, c).
Proof.
  intros Hk. unfold get. by rewrite (proj2 (map_has_false key _) Hk).
Qed.

(** The entries [put] keeps: all but the one of the key, and but the first
    of those when they fill the cache. *)
Definition evicted (capacity : Z) m : list (K * value) :=
  if (capacity <=? Z.of_nat (length m))%Z
  then match head m with
       | Some firstEntry => map_delete firstEntry.1 m
       | None => m
       end
  else m.

Lemma put_cache key v c :
  cache (put key v c)
  = evicted (capacity c) (map_delete key (cache c)) ++ [(key, v)].
Proof.
  unfold put. simpl. fold (evicted (capacity c)).
  assert (Hm : (if map_has key (cache c) then map_delete key (cache c)
                else cache c) = map_delete key (cache c)).
  { destruct (map_has key (cache c)) eqn:Hh; [done|].
    symmetry. by apply map_delete_absent, map_has_false. }
  rewrite Hm. fold (evicted (capacity c) (map_delete key (cache c))).
  apply map_set_absent. intros Hin.
  apply (map_delete_not_elem key (cache c)).
  unfold evicted in Hin. destruct (_ <=? _)%Z; [|done].
  destruct (head _) as [e|]; [|done].
  rewrite map_delete_keys in Hin. by apply list_elem_of_filter in Hin as [_ ?].
Qed.

Lemma evicted_cases (capacity : Z) m :
  NoDup m.*1 ->
  (evicted capacity m = m /\
   ((Z.of_nat (length m) < capacity)%Z \/ m = [])) \/
  (exists e m', m = e :: m' /\ evicted capacity m = m' /\
                (capacity <= Z.of_nat (length m))%Z).
Proof.
  intros Hnd. unfold evicted. destruct (Z.leb_spec capacity (Z.of_nat (length m))).
  - destruct m as [|e m']; [left; split; [done|by right]|].
    right. exists e, m'. split; [done|]. split; [|done]. simpl.
    unfold map_delete. rewrite filter_cons_False by (simpl; tauto).
    apply map_delete_absent. rewrite fmap_cons in Hnd.
    by apply NoDup_cons in Hnd as [? _].
  - left. split; [done|by left].
Qed.

(** ** The keys are distinct, and at most [capacity] *)

Definition keys c : list K := (cache c).*1.

Definition wf c : Prop := NoDup (keys c).

Lemma NoDup_map_delete key m : NoDup m.*1 -> NoDup (map_delete key m).*1.
Proof. intros Hnd. rewrite map_delete_keys. by apply NoDup_filter. Qed.

Lemma put_keys key v c :
  keys (put key v c)
  = (evicted (capacity c) (map_delete key (cache c))).*1 ++ [key].
Proof. unfold keys. by rewrite put_cache, fmap_app. Qed.

Lemma get_keys key c :
  key ∈ keys c -> keys (get key c).2 = filter (fun k => k <> key) (keys c) ++ [key].
Proof.
  intros Hk. unfold keys. by rewrite (get_cache key c Hk), fmap_app, map_delete_keys.
Qed.

Lemma evicted_subseteq capacity m k :
  NoDup m.*1 -> k ∈ (evicted capacity m).*1 -> k ∈ m.*1.
Proof.
  intros Hnd Hk.
  destruct (evicted_cases capacity m Hnd) as [[Heq _]|(e & m' & -> & Heq & _)];
    rewrite Heq in Hk; [done|].
  rewrite fmap_cons. apply elem_of_cons. by right.
Qed.

Lemma NoDup_evicted capacity m : NoDup m.*1 -> NoDup (evicted capacity m).*1.
Proof.
  intros Hnd.
  destruct (evicted_cases capacity m Hnd) as [[-> _]|(e & m' & -> & -> & _)];
    [done|].
  rewrite fmap_cons in Hnd. by apply NoDup_cons in Hnd as [_ ?].
Qed.

Lemma wf_put key v c : wf c -> wf (put key v c).
Proof.
  unfold wf. intros Hnd. rewrite put_keys.
  pose proof (NoDup_map_delete key _ Hnd) as Hd.
  apply NoDup_app. split; [by apply NoDup_evicted|]. split.
  - intros k Hk Hin. apply list_elem_of_singleton in Hin as ->.
    apply evicted_subseteq in Hk; [|done].
    by apply (map_delete_not_elem key (cache c)).
  - apply NoDup_singleton.
Qed.

Lemma wf_get key c : wf c -> wf (get key c).2.
Proof.
  unfold wf. intros Hnd. destruct (decide (key ∈ keys c)) as [Hk|Hk].
  - rewrite (get_keys key c Hk). apply NoDup_app.
    split; [by apply NoDup_filter|]. split; [|apply NoDup_singleton].
    intros k Hin Hk'. apply list_elem_of_singleton in Hk' as ->.
    by apply list_elem_of_filter in Hin as [? _].
  - by rewrite (get_absent key c Hk).
Qed.

Lemma lru_wf_step c o : wf c -> wf (step c o).
Proof.
  intros Hwf. destruct o as [key|key v|key|]; simpl;
    [by apply wf_get|by apply wf_put|done|apply NoDup_nil_2].
Qed.

Lemma lru_wf_run c ops : wf c -> wf (run c ops).
Proof.
  revert c. induction ops as [|o ops IH]; intros c Hwf; [done|].
  simpl. by apply IH, lru_wf_step.
Qed.

Lemma capacity_step c o : capacity (step c o) = capacity c.
Proof.
  destruct o as [key|key v|key|]; simpl; try done.
  unfold get. by destruct (negb _).
Qed.

Lemma capacity_run c ops : capacity (run c ops) = capacity c.
Proof.
  revert c. induction ops as [|o ops IH]; intros c; [done|].
  simpl. fold (run (step c o) ops). by rewrite IH, capacity_step.
Qed.

Definition bounded c : Prop :=
  (Z.of_nat (size c) <= Z.max (capacity c) 1)%Z.

Lemma bounded_put key v c : wf c -> bounded c -> bounded (put key v c).
Proof.
  unfold bounded, size. intros Hwf Hb. rewrite put_cache, length_app. simpl.
  pose proof (length_filter (fun e : K * value => e.1 <> key) (cache c)) as Hlen.
  fold (map_delete key (cache c)) in Hlen.
  destruct (evicted_cases (capacity c) (map_delete key (cache c)))
    as [[-> [Hlt| ->]]|(e & m' & Hm & -> & Hle)];
    [by apply NoDup_map_delete|simpl; lia..| ].
  rewrite Hm in Hlen. simpl in Hlen. lia.
Qed.

Lemma bounded_get key c : bounded c -> bounded (get key c).2.
Proof.
  unfold bounded, size. intros Hb. destruct (decide (key ∈ keys c)) as [Hk|Hk].
  - rewrite (get_cache key c Hk), length_app. simpl.
    assert (Hc : capacity (get key c).2 = capacity c).
    { unfold get. by destruct (negb _). }
    rewrite Hc.
    apply list_elem_of_fmap in Hk as (e & -> & He).
    pose proof (length_filter_lt (fun e' : K * value => e'.1 <> e.1) (cache c) e He)
      as Hlt.
    fold (map_delete e.1 (cache c)) in Hlt.
    specialize (Hlt ltac:(tauto)). lia.
  - by rewrite (get_absent key c Hk).
Qed.

Lemma bounded_run c ops : wf c -> bounded c -> bounded (run c ops).
Proof.
  revert c. induction ops as [|o ops IH]; intros c Hwf Hb; [done|].
  simpl. apply IH; [by apply lru_wf_step|].
  destruct o as [key|key v|key|]; simpl;
    [by apply bounded_get|by apply bounded_put|done|].
  unfold bounded, size. simpl. lia.
Qed.

(** ** Looking up *)

Lemma get_hit key c v :
  map_get key (cache c) = Some v -> (get key c).1 = v.
Proof.
  intros Hv. unfold get.
  destruct (map_has key (cache c)) eqn:Hh; simpl; [by rewrite Hv|].
  apply map_has_false in Hh. by rewrite (map_get_absent key _ Hh) in Hv.
Qed.

Lemma map_get_put key v c : map_get key (cache (put key v c)) = Some v.
Proof.
  rewrite put_cache, map_get_app. rewrite map_get_absent; simpl.
  - by rewrite decide_True.
  - intros Hin. pose proof (wf_put key v c) as _.
    unfold evicted in Hin. apply (map_delete_not_elem key (cache c)).
    destruct (_ <=? _)%Z; [|done]. destruct (head _) as [e|]; [|done].
    rewrite map_delete_keys in Hin. by apply list_elem_of_filter in Hin as [_ ?].
Qed.

Lemma map_get_get key key' c :
  map_get key' (cache (get key c).2) = map_get key' (cache c).
Proof.
  destruct (decide (key ∈ keys c)) as [Hk|Hk];
    [|by rewrite (get_absent key c Hk)].
  rewrite (get_cache key c Hk), map_get_app.
  destruct (decide (key' = key)) as [->|Hne].
  - rewrite (map_get_absent key (map_delete key _)) by apply map_delete_not_elem.
    simpl. rewrite decide_True by done.
    by destruct (map_get_present key _ Hk) as [v ->].
  - rewrite (map_get_delete_ne key' key) by done. simpl.
    rewrite decide_False by done. by destruct (map_get key' (cache c)).
Qed.

Lemma map_get_put_ne key key' v c :
  wf c -> key' <> key -> key' ∈ keys (put key v c) ->
  map_get key' (cache (put key v c)) = map_get key' (cache c).
Proof.
  intros Hwf Hne Hin. rewrite put_keys in Hin. rewrite put_cache, map_get_app.
  apply elem_of_app in Hin as [Hin|Hin];
    [|apply list_elem_of_singleton in Hin; done].
  pose proof (NoDup_map_delete key _ Hwf) as Hnd.
  destruct (evicted_cases (capacity c) (map_delete key (cache c)) Hnd)
    as [[Heq _]|(e & m' & Hm & Heq & _)]; rewrite Heq in *.
  - destruct (map_get_present key' _ Hin) as [x Hx]. rewrite Hx.
    by rewrite <- (map_get_delete_ne key' key (cache c)).
  - destruct (map_get_present key' _ Hin) as [x Hx]. rewrite Hx.
    rewrite <- (map_get_delete_ne key' key (cache c)) by done. rewrite Hm.
    simpl. rewrite decide_False; [done|].
    rewrite Hm, fmap_cons in Hnd. apply NoDup_cons in Hnd as [Hnot _].
    intros Heq'. apply Hnot. by rewrite Heq'.
Qed.

Lemma evicted_not_elem key capacity m :
  key ∉ m.*1 -> key ∉ (evicted capacity m).*1.
Proof.
  intros Hk Hin. apply Hk. unfold evicted in Hin.
  destruct (_ <=? _)%Z; [|done]. destruct (head _) as [e|]; [|done].
  rewrite map_delete_keys in Hin. by apply list_elem_of_filter in Hin as [_ ?].
Qed.

Lemma put_eq key v c :
  put key v c
  = LRU (capacity c) (evicted (capacity c) (map_delete key (cache c)) ++ [(key, v)]).
Proof.
  assert (H0 : put key v c = LRU (capacity c) (cache (put key v c))) by done.
  by rewrite H0, put_cache.
Qed.

Lemma get_put key v c : get key (put key v c) = (v, put key v c).
Proof.
  rewrite put_eq.
  set (E := evicted (capacity c) (map_delete key (cache c))).
  assert (Hk : key ∉ E.*1) by apply evicted_not_elem, map_delete_not_elem.
  unfold get. simpl.
  assert (Hh : map_has key (E ++ [(key, v)]) = true).
  { apply map_has_true. rewrite fmap_app. apply elem_of_app. right.
    by apply list_elem_of_singleton. }
  rewrite Hh. simpl. rewrite map_get_app, (map_get_absent key E Hk). simpl.
  rewrite decide_True by done. simpl. do 2 f_equal.
  unfold map_delete. rewrite filter_app.
  fold (map_delete key E). rewrite (map_delete_absent key E Hk).
  rewrite filter_cons_False by (simpl; tauto). rewrite filter_nil, app_nil_r.
  by apply map_set_absent.
Qed.

(** ** The most recently used keys stay *)

(** The key an operation uses. *)
Definition used (o : op K) : option K :=
  match o with
  | Get key | Put key _ => Some key
  | Has _ | Clear => None
  end.

(** The keys other than [k] that [ops] use, each once. *)
Definition others (k : K) (ops : list (op K)) : list K :=
  remove_dups (filter (fun j => j <> k) (omap used ops)).

(** The operations that neither clear the cache nor put a value for [k]. *)
Definition keeps (k : K) (o : op K) : Prop :=
  match o with
  | Clear => False
  | Put key _ => key <> k
  | _ => True
  end.

(** [k] holds [v] and every key behind it, more recently used, is one of
    [F]. *)
Definition recent (F : list K) (k : K) (v : value) c : Prop :=
  wf c /\ map_get k (cache c) = Some v /\
  exists before after,
    keys c = before ++ k :: after /\ forall x, x ∈ after -> x ∈ F.

Lemma filter_ne_not_elem (l : list K) j :
  j ∉ l -> filter (fun x => x <> j) l = l.
Proof.
  induction l as [|y l IH]; intros Hj; [done|].
  apply not_elem_of_cons in Hj as [Hne Hj].
  rewrite filter_cons_True by done. by rewrite IH.
Qed.

Lemma filter_ne_split (before after : list K) k j :
  j <> k ->
  filter (fun x => x <> j) (before ++ k :: after)
  = filter (fun x => x <> j) before ++ k :: filter (fun x => x <> j) after.
Proof.
  intros Hne. rewrite filter_app, filter_cons_True by done. done.
Qed.

Lemma recent_step F k v c o :
  NoDup F -> k ∉ F -> (Z.of_nat (length F) < capacity c)%Z ->
  keeps k o -> (forall j, used o = Some j -> j = k \/ j ∈ F) ->
  recent F k v c -> recent F k v (step c o).
Proof.
  intros HF HkF Hcap Hkeeps Hused (Hwf & Hv & before & after & Hkeys & Hafter).
  assert (Hnd : NoDup (before ++ k :: after)) by (by rewrite <- Hkeys).
  apply NoDup_app in Hnd as (Hnb & Hdisj & Hnka).
  apply NoDup_cons in Hnka as [Hka Hna].
  assert (Hkb : k ∉ before).
  { intros Hin. apply (Hdisj k Hin). apply elem_of_cons. by left. }
  destruct o as [j|j v'|j|]; simpl in *;
    [| |split; [done|split; [done|by exists before, after]]|done].
  - split; [by apply wf_get|]. split; [by rewrite map_get_get|].
    destruct (decide (j ∈ keys c)) as [Hj|Hj];
      [|rewrite (get_absent j c Hj); by exists before, after].
    rewrite (get_keys j c Hj), Hkeys.
    destruct (decide (j = k)) as [->|Hne].
    + exists (filter (fun x => x <> k) (before ++ k :: after)), [].
      split; [done|]. intros x Hx. by apply not_elem_of_nil in Hx.
    + rewrite (filter_ne_split before after k j Hne), <- app_assoc. simpl.
      eexists _, _. split; [done|]. intros x Hx.
      apply elem_of_app in Hx as [Hx|Hx].
      * apply list_elem_of_filter in Hx as [_ Hx]. by apply Hafter.
      * apply list_elem_of_singleton in Hx as ->.
        destruct (Hused j eq_refl); done.
  - rename Hkeeps into Hne.
    assert (HjF : j ∈ F) by (destruct (Hused j eq_refl); done).
    split; [by apply wf_put|].
    pose proof (NoDup_map_delete j _ Hwf) as Hndd.
    assert (Hdk : (map_delete j (cache c)).*1
                  = filter (fun x => x <> j) before
                      ++ k :: filter (fun x => x <> j) after).
    { rewrite map_delete_keys. fold (keys c). rewrite Hkeys.
      by apply filter_ne_split. }
    assert (Hlen : length (filter (fun x => x <> j) after) + 1 <= length F).
    { assert (Hsub : j :: filter (fun x => x <> j) after ⊆+ F).
      { apply NoDup_submseteq.
        - apply NoDup_cons. split; [|by apply NoDup_filter].
          intros Hin. by apply list_elem_of_filter in Hin as [? _].
        - intros x Hx. apply elem_of_cons in Hx as [->|Hx]; [done|].
          apply list_elem_of_filter in Hx as [_ Hx]. by apply Hafter. }
      apply submseteq_length in Hsub. simpl in Hsub. lia. }
    assert (Hrest : exists before',
              (evicted (capacity c) (map_delete j (cache c))).*1
              = before' ++ k :: filter (fun x => x <> j) after /\
              map_get k (evicted (capacity c) (map_delete j (cache c)))
              = Some v).
    { destruct (evicted_cases (capacity c) (map_delete j (cache c)) Hndd)
        as [[-> _]|(e & m' & Hm & -> & Hle)].
      - eexists. split; [done|]. by rewrite map_get_delete_ne.
      - rewrite Hm in Hdk. rewrite fmap_cons in Hdk.
        destruct (filter (fun x => x <> j) before) as [|b0 B'] eqn:HB.
        + exfalso. apply (f_equal length) in Hdk. simpl in Hdk.
          rewrite length_fmap in Hdk.
          rewrite Hm in Hle. simpl in Hle. lia.
        + simpl in Hdk. injection Hdk as He Hm'. exists B'. split; [done|].
          pose proof (map_get_delete_ne k j (cache c) ltac:(done)) as Hg.
          rewrite Hm in Hg. simpl in Hg. rewrite decide_False in Hg.
          * by rewrite Hg.
          * rewrite He. intros ->. apply Hkb.
            assert (Hin : k ∈ filter (fun x => x <> j) before)
              by (rewrite HB; apply elem_of_cons; by left).
            by apply list_elem_of_filter in Hin as [_ ?]. }
    destruct Hrest as (before' & Hk' & Hg').
    split.
    + rewrite put_cache, map_get_app. by rewrite Hg'.
    + rewrite put_keys, Hk', <- app_assoc. simpl.
      eexists _, _. split; [done|]. intros x Hx.
      apply elem_of_app in Hx as [Hx|Hx].
      * apply list_elem_of_filter in Hx as [_ Hx]. by apply Hafter.
      * by apply list_elem_of_singleton in Hx as ->.
Qed.

Lemma recent_run F k v c ops :
  NoDup F -> k ∉ F -> (Z.of_nat (length F) < capacity c)%Z ->
  Forall (keeps k) ops ->
  (forall o j, o ∈ ops -> used o = Some j -> j = k \/ j ∈ F) ->
  recent F k v c -> recent F k v (run c ops).
Proof.
  intros HF HkF. revert c. induction ops as [|o ops IH];
    intros c Hcap Hkeeps Hused Hr; [done|].
  apply Forall_cons in Hkeeps as [Ho Hkeeps].
  simpl. apply IH; [by rewrite capacity_step|done| |].
  - intros o' j Ho' Hj. apply (Hused o' j); [|done]. apply elem_of_cons. by right.
  - apply recent_step; try done.
    intros j Hj. apply (Hused o j); [|done]. apply elem_of_cons. by left.
Qed.

Lemma recent_put F k v c : wf c -> recent F k v (put k v c).
Proof.
  intros Hwf. split; [by apply wf_put|]. split; [apply map_get_put|].
  rewrite put_keys. eexists _, []. split; [done|].
  intros x Hx. by apply not_elem_of_nil in Hx.
Qed.

Lemma others_spec k (ops : list (op K)) o j :
  o ∈ ops -> used o = Some j -> j = k \/ j ∈ others k ops.
Proof.
  intros Ho Hj. destruct (decide (j = k)) as [|Hne]; [by left|right].
  unfold others. apply elem_of_remove_dups, list_elem_of_filter.
  split; [done|]. apply list_elem_of_omap. by exists o.
Qed.

Lemma others_not_elem k (ops : list (op K)) : k ∉ others k ops.
Proof.
  unfold others. rewrite elem_of_remove_dups. intros Hin.
  by apply list_elem_of_filter in Hin as [? _].
Qed.

End lru_facts.

(** Every cache that operations build from an empty one is within its
    capacity. *)
Lemma run_size {K : Type} `{EqDecision K} (capacity : Z) (ops : list (op K)) :
  (Z.of_nat (size (run (new capacity) ops)) <= Z.max capacity 1)%Z.
Proof.
  pose proof (bounded_run (new capacity) ops) as H. unfold bounded in H.
  rewrite capacity_run in H. apply H; [apply NoDup_nil_2|].
  unfold size. simpl. lia.
Qed.

(** Whatever is done to a cache, it never holds more entries than its
    capacity, or than one when the capacity is less than 1, and no key
    twice. *)
Theorem lru_size_bound {K : Type} `{EqDecision K} (capacity : Z)
    (ops : list (op K)) :
  (Z.of_nat (size (run (new capacity) ops)) <= Z.max capacity 1)%Z /\
  NoDup (keys (run (new capacity) ops)).
Proof.
  split; [apply run_size|].
  apply (lru_wf_run (new capacity) ops). apply NoDup_nil_2.
Qed.

(** [get] after [put] gives the value back and leaves the cache as it is;
    [get] changes the value of no key; and [put] changes the value of no
    other key that it leaves in the cache. *)
Theorem lru_lookup {K : Type} `{EqDecision K} (c : t K) (key : K) (v : value) :
  get key (put key v c) = (v, put key v c) /\
  (forall key', map_get key' (cache (get key c).2) = map_get key' (cache c)) /\
  (forall key', NoDup (keys c) -> key' <> key -> key' ∈ keys (put key v c) ->
     map_get key' (cache (put key v c)) = map_get key' (cache c)).
Proof.
  split; [|split].
  - apply get_put.
  - intros key'. apply map_get_get.
  - intros key' Hwf Hne Hin. by apply map_get_put_ne.
Qed.

Lemma lru_lookup_witness :
  map_get 1 (cache (put 2 (VStr "b") (put 1 (VStr "a") (new 2))))
  = map_get 1 (cache (put 1 (VStr "a") (new 2))).
Proof.
  apply (lru_lookup (put 1 (VStr "a") (new 2)) 2 (VStr "b")).
  - simpl. apply NoDup_singleton.
  - done.
  - vm_compute. apply elem_of_cons. by left.
Defined.

(** A key stays in the cache, with its value, while fewer than [capacity]
    other keys are used after it: after [put(k, v)], whatever was done to
    the cache before, and then any operations that do not clear the cache,
    put no other value for [k] and use ([get] or [put]) fewer than
    [capacity] different other keys, [get(k)] returns [v]. *)
Theorem lru_recently_used {K : Type} `{EqDecision K} (capacity : Z)
    (ops1 ops2 : list (op K)) (k : K) (v : value) :
  Forall (keeps k) ops2 ->
  (Z.of_nat (length (others k ops2)) < capacity)%Z ->
  (get k (run (new capacity) (ops1 ++ Put k v :: ops2))).1 = v.
Proof.
  intros Hkeeps Hlen. unfold run. rewrite foldl_app. simpl.
  set (c := foldl step (new capacity) ops1).
  assert (Hwf : wf c) by (apply (lru_wf_run (new capacity) ops1), NoDup_nil_2).
  assert (Hc : LRUCache.capacity (put k v c) = capacity).
  { unfold c. pose proof (capacity_run (new capacity) ops1) as Hcap.
    unfold run in Hcap. simpl. by rewrite Hcap. }
  destruct (recent_run (others k ops2) k v (put k v c) ops2)
    as (_ & Hv & _).
  - apply NoDup_remove_dups.
  - apply others_not_elem.
  - by rewrite Hc.
  - done.
  - intros o j. apply others_spec.
  - by apply recent_put.
  - by apply get_hit.
Qed.

(** A cache for two keys: key 1 is put, then key 2 is put and read twice;
    key 1 is still there. *)
Lemma lru_recently_used_witness :
  (get 1 (run (new 2) ([Put 0 (VStr "z")] ++ Put 1 (VStr "a") ::
                       [Put 2 (VStr "b"); Get 2; Get 2]))).1
  = VStr "a".
Proof.
  apply (lru_recently_used 2 [Put 0 (VStr "z")]
           [Put 2 (VStr "b"); Get 2; Get 2] 1 (VStr "a")).
  - repeat constructor; simpl; lia.
  - vm_compute. done.
Defined.



End LRUCacheFacts.

(** * Facts about memoization *)

Module MemoizeFacts.
Import LRUCache LRUCacheFacts Memoize.

Lemma call_all_snoc {A S} (f : A -> S -> completion * S) (l : list A) a st :
  call_all f (l ++ [a]) st
  = ((call_all f l st).1 ++ [(f a (call_all f l st).2).1],
     (f a (call_all f l st).2).2).
Proof.
  unfold call_all. rewrite foldl_app. simpl.
  by destruct (f a _).
Qed.

Lemma call_all_length {A S} (f : A -> S -> completion * S) (l : list A) st :
  length (call_all f l st).1 = length l.
Proof.
  induction l as [|a l IH] using rev_ind; [done|].
  rewrite call_all_snoc. cbn [fst]. by rewrite !length_app, IH.
Qed.

(** The completion of call [i] is that of the call after the calls before
    it. *)
Lemma call_all_lookup {A S} (f : A -> S -> completion * S) (l : list A) st i a :
  l !! i = Some a ->
  (call_all f l st).1 !! i = Some (f a (call_all f (take i l) st).2).1.
Proof.
  revert i. induction l as [|b l IH] using rev_ind; intros i Hi; [done|].
  rewrite call_all_snoc. destruct (decide (i < length l)) as [Hlt|Hge].
  - rewrite lookup_app_l in Hi by done.
    cbn [fst]. rewrite (lookup_app_l (call_all f l st).1)
      by (rewrite call_all_length; done).
    rewrite take_app_le by lia. by apply IH.
  - assert (i = length l) as ->.
    { apply lookup_lt_Some in Hi. rewrite length_app in Hi. simpl in Hi. lia. }
    rewrite list_lookup_middle in Hi by done. injection Hi as <-.
    rewrite take_app_length. cbn [fst].
    by rewrite (list_lookup_middle (call_all f l st).1)
      by (by rewrite call_all_length).
Qed.

Section memoize_facts.
Context {K : Type} `{EqDecision K} (JSON_stringify : list value -> K).
Context (fn : list value -> completion) (keyGenerator : option (list value -> K)).

(** The key of a list of arguments. *)
Definition key_of (args : list value) : K :=
  match keyGenerator with
  | Some generate => generate args
  | None => JSON_stringify args
  end.

(** The value [fn] returned for the first of the arguments [l] with the
    key [key] for which it returned. *)
Fixpoint first_result (l : list (list value)) (key : K) : option value :=
  match l with
  | [] => None
  | args :: l =>
      if decide (key_of args = key) then
        match fn args with
        | Return result => Some result
        | Throw _ => first_result l key
        end
      else first_result l key
  end.

Lemma first_result_snoc l args key :
  first_result (l ++ [args]) key
  = match first_result l key with
    | Some r => Some r
    | None =>
        if decide (key_of args = key) then
          match fn args with Return r => Some r | Throw _ => None end
        else None
    end.
Proof.
  induction l as [|b l IH]; simpl.
  - destruct (decide _); [|done]. by destruct (fn args).
  - destruct (decide (key_of b = key)); [|done]. by destruct (fn b).
Qed.

Lemma map_has_get key (m : list (K * value)) :
  map_has key m = true <-> is_Some (map_get key m).
Proof.
  rewrite map_has_true. split; [apply map_get_present|].
  intros [v Hv]. destruct (decide (key ∈ m.*1)) as [|Hn]; [done|].
  by rewrite (map_get_absent key m Hn) in Hv.
Qed.

Lemma map_get_set key key' v (m : list (K * value)) :
  map_has key m = false ->
  map_get key' (map_set key v m)
  = match map_get key' m with
    | Some r => Some r
    | None => if decide (key = key') then Some v else None
    end.
Proof.
  intros Hh. unfold map_set. rewrite Hh, map_get_app. simpl.
  destruct (map_get key' m); [done|]. by destruct (decide _).
Qed.

(** The cache of [memoizeWithKey] after calls with the arguments [l], one
    after the other: for every key, what [fn] returned for the first of
    them with that key. *)
Definition remembers (l : list (list value)) (st : memo K) : Prop :=
  forall key, map_get key (cache st) = first_result l key.

Lemma remembers_step l args st :
  remembers l st ->
  remembers (l ++ [args]) (memoizeWithKey JSON_stringify fn keyGenerator args st).2 /\
  (memoizeWithKey JSON_stringify fn keyGenerator args st).1
  = match first_result (l ++ [args]) (key_of args) with
    | Some r => Return r
    | None => fn args
    end.
Proof.
  intros Hr. unfold memoizeWithKey. fold (key_of args).
  destruct (map_has (key_of args) (cache st)) eqn:Hh.
  - apply map_has_get in Hh as [r Hget]. simpl.
    pose proof (Hr (key_of args)) as Hk. rewrite Hget in Hk.
    split.
    + intros key. rewrite first_result_snoc, <- (Hr key).
      destruct (map_get key (cache st)) eqn:Hg; [done|].
      destruct (decide (key_of args = key)) as [<-|]; [|done].
      by rewrite Hget in Hg.
    + rewrite first_result_snoc, <- Hk, Hget. done.
  - assert (Hnone : map_get (key_of args) (cache st) = None).
    { destruct (map_get (key_of args) (cache st)) eqn:Hg; [|done].
      assert (map_has (key_of args) (cache st) = true)
        by (apply map_has_get; by eexists).
      congruence. }
    pose proof (Hr (key_of args)) as Hk. rewrite Hnone in Hk.
    destruct (fn args) as [result|e] eqn:Hfn; cbn [fst snd cache calls].
    + split.
      * intros key. rewrite first_result_snoc, <- (Hr key), Hfn.
        cbn [cache]. by rewrite map_get_set.
      * rewrite first_result_snoc, <- Hk, decide_True, Hfn by done. done.
    + split.
      * intros key. rewrite first_result_snoc, <- (Hr key), Hfn.
        cbn [cache].
        destruct (map_get key (cache st)); [done|]. by destruct (decide _).
      * rewrite first_result_snoc, <- Hk, decide_True, Hfn by done. done.
Qed.

Lemma remembers_all l :
  remembers l (call_all (memoizeWithKey JSON_stringify fn keyGenerator) l fresh).2.
Proof.
  induction l as [|args l IH] using rev_ind; [done|].
  rewrite call_all_snoc. simpl. by apply remembers_step.
Qed.

End memoize_facts.

(** [memoize(fn)] does what [memoizeWithKey(fn)] does without a key
    generator, apart from its lines on the console. *)
Lemma memoize_memoizeWithKey {K : Type} `{EqDecision K}
    (JSON_stringify : list value -> K) fn args (st st' : memo K) :
  cache st = cache st' -> calls st = calls st' ->
  (memoize JSON_stringify fn args st).1
  = (memoizeWithKey JSON_stringify fn None args st').1 /\
  cache (memoize JSON_stringify fn args st).2
  = cache (memoizeWithKey JSON_stringify fn None args st').2 /\
  calls (memoize JSON_stringify fn args st).2
  = calls (memoizeWithKey JSON_stringify fn None args st').2.
Proof.
  intros Hc Hl. unfold memoize, memoizeWithKey. rewrite Hc, Hl.
  destruct (map_has _ _); [done|]. simpl. by destruct (fn args).
Qed.

Lemma memoize_all {K : Type} `{EqDecision K}
    (JSON_stringify : list value -> K) fn l :
  (call_all (memoize JSON_stringify fn) l fresh).1
  = (call_all (memoizeWithKey JSON_stringify fn None) l fresh).1 /\
  cache (call_all (memoize JSON_stringify fn) l fresh).2
  = cache (call_all (memoizeWithKey JSON_stringify fn None) l fresh).2 /\
  calls (call_all (memoize JSON_stringify fn) l fresh).2
  = calls (call_all (memoizeWithKey JSON_stringify fn None) l fresh).2.
Proof.
  induction l as [|args l (IH1 & IH2 & IH3)] using rev_ind; [done|].
  rewrite !call_all_snoc. simpl.
  destruct (memoize_memoizeWithKey JSON_stringify fn args _ _ IH2 IH3)
    as (H1 & H2 & H3).
  by rewrite IH1, H1.
Qed.

(** A memoized function gives for every call what [fn] returned for the
    first call with the same key for which it returned, and what [fn]
    does for the arguments of the call when there is none: a value is
    computed once for a key, and an exception is not kept.  So when [fn]
    does the same for any two lists of arguments with the same key, the
    memoized function does for every call what [fn] does.  This holds for
    [memoizeWithKey] with and without a key generator, and for [memoize]. *)
Theorem memoize_first_result {K : Type} `{EqDecision K}
    (JSON_stringify : list value -> K) (fn : list value -> completion)
    (keyGenerator : option (list value -> K)) (l : list (list value)) :
  (forall i args, l !! i = Some args ->
     (call_all (memoizeWithKey JSON_stringify fn keyGenerator) l fresh).1 !! i
     = Some match first_result JSON_stringify fn keyGenerator (take (S i) l)
                    (key_of JSON_stringify keyGenerator args) with
            | Some r => Return r
            | None => fn args
            end) /\
  ((forall a b, key_of JSON_stringify keyGenerator a
                = key_of JSON_stringify keyGenerator b -> fn a = fn b) ->
   (call_all (memoizeWithKey JSON_stringify fn keyGenerator) l fresh).1
   = fn <$> l) /\
  (call_all (memoize JSON_stringify fn) l fresh).1
  = (call_all (memoizeWithKey JSON_stringify fn None) l fresh).1.
Proof.
  assert (Hlook : forall i args, l !! i = Some args ->
     (call_all (memoizeWithKey JSON_stringify fn keyGenerator) l fresh).1 !! i
     = Some match first_result JSON_stringify fn keyGenerator (take (S i) l)
                    (key_of JSON_stringify keyGenerator args) with
            | Some r => Return r
            | None => fn args
            end).
  { intros i args Hi. rewrite (call_all_lookup _ l fresh i args Hi). f_equal.
    destruct (remembers_step JSON_stringify fn keyGenerator (take i l) args _
                (remembers_all JSON_stringify fn keyGenerator (take i l)))
      as [_ ->].
    by rewrite (take_S_r l i args Hi). }
  split; [done|]. split; [|apply memoize_all].
  intros Hadequate. apply list_eq. intros i.
  rewrite list_lookup_fmap. destruct (l !! i) as [args|] eqn:Hi; simpl.
  - rewrite (Hlook i args Hi). f_equal.
    destruct (first_result _ _ _ _ _) as [r|] eqn:Hr; [|done].
    clear Hlook. revert Hr. generalize (take (S i) l). intros l'.
    induction l' as [|b l' IH]; simpl; [done|].
    destruct (decide _) as [Hk|]; [|done].
    destruct (fn b) as [r'|] eqn:Hb; [|done].
    intros [= ->]. by rewrite <- (Hadequate b args Hk).
  - apply lookup_ge_None_2. rewrite call_all_length. by apply lookup_ge_None_1.
Qed.

(** A key that forgets the order of two arguments, for a function that
    does not: the second call gets the value of the first. *)
Lemma memoize_first_result_witness :
  (call_all (memoizeWithKey (fun _ => 0) (fun args => Return (VArray (Some <$> args)))
               (Some (fun args => length args)))
            [[VNum 1; VNum 2]; [VNum 2; VNum 1]] fresh).1 !! 1
  = Some match first_result (fun _ => 0)
                 (fun args => Return (VArray (Some <$> args)))
                 (Some (fun args => length args))
                 (take 2 [[VNum 1; VNum 2]; [VNum 2; VNum 1]])
                 (key_of (fun _ => 0) (Some (fun args => length args))
                         [VNum 2; VNum 1]) with
         | Some r => Return r
         | None => Return (VArray (Some <$> [VNum 2; VNum 1]))
         end.
Proof.
  apply (proj1 (memoize_first_result (fun _ => 0)
                  (fun args => Return (VArray (Some <$> args)))
                  (Some (fun args => length args))
                  [[VNum 1; VNum 2]; [VNum 2; VNum 1]]) 1 [VNum 2; VNum 1]).
  done.
Defined.

(** ** With an LRU cache *)

Section lru_memo.
Context {K : Type} `{EqDecision K} (JSON_stringify : list value -> K).
Context (fn : list value -> completion) (maxSize : Z).

(** Every value in the cache is what [fn] returned for arguments of an
    earlier call with that key, and the cache is within its bounds. *)
Definition sourced (l : list (list value)) (st : memo_lru K) : Prop :=
  wf (lru st) /\ bounded (lru st) /\ capacity (lru st) = maxSize /\
  forall key v, map_get key (LRUCache.cache (lru st)) = Some v ->
    exists args, args ∈ l /\ JSON_stringify args = key /\ fn args = Return v.

Lemma sourced_step l args st :
  sourced l st ->
  sourced (l ++ [args]) (memoizeWithLRU JSON_stringify fn args st).2 /\
  exists args', args' ∈ l ++ [args] /\
    JSON_stringify args' = JSON_stringify args /\
    (memoizeWithLRU JSON_stringify fn args st).1 = fn args'.
Proof.
  intros (Hwf & Hb & Hcap & Hsrc). unfold memoizeWithLRU, has.
  destruct (map_has (JSON_stringify args) (LRUCache.cache (lru st))) eqn:Hh.
  - apply map_has_get in Hh as [v Hv].
    pose proof (get_hit _ _ _ Hv) as Hget.
    destruct (get (JSON_stringify args) (lru st)) as [v' c] eqn:Hg.
    simpl in Hget. subst v'. cbn [fst snd].
    assert (Hc : c = (get (JSON_stringify args) (lru st)).2) by by rewrite Hg.
    destruct (Hsrc _ _ Hv) as (args' & Hin & Hkey & Hfn).
    split.
    + split; [rewrite Hc; by apply wf_get|].
      split; [rewrite Hc; by apply bounded_get|].
      split.
      { rewrite Hc. simpl. unfold get. by destruct (negb _). }
      intros key w. cbn [lru]. rewrite Hc, map_get_get. intros Hw.
      destruct (Hsrc key w Hw) as (a & Ha & Hk & Hf).
      exists a. split; [|done]. apply elem_of_app. by left.
    + exists args'. split; [apply elem_of_app; by left|]. by rewrite Hfn.
  - destruct (fn args) as [result|e] eqn:Hfn; cbn [fst snd lru].
    + split.
      * split; [by apply wf_put|]. split; [by apply bounded_put|].
        split; [done|]. intros key w Hw. cbn [lru] in Hw.
        destruct (decide (key = JSON_stringify args)) as [->|Hne].
        -- rewrite map_get_put in Hw. injection Hw as <-.
           exists args. split; [|done]. apply elem_of_app. right.
           by apply list_elem_of_singleton.
        -- assert (Hin : key ∈ keys (put (JSON_stringify args) result (lru st))).
           { destruct (decide (key ∈ keys (put (JSON_stringify args) result (lru st))))
               as [|Hn]; [done|].
             unfold keys in Hn. by rewrite (map_get_absent key _ Hn) in Hw. }
           rewrite (map_get_put_ne _ _ _ _ Hwf Hne Hin) in Hw.
           destruct (Hsrc key w Hw) as (a & Ha & Hk & Hf).
           exists a. split; [|done]. apply elem_of_app. by left.
      * exists args. split; [|by rewrite Hfn]. apply elem_of_app. right.
        by apply list_elem_of_singleton.
    + split.
      * split; [done|]. split; [done|]. split; [done|].
        intros key w Hw. destruct (Hsrc key w Hw) as (a & Ha & Hk & Hf).
        exists a. split; [|done]. apply elem_of_app. by left.
      * exists args. split; [|by rewrite Hfn]. apply elem_of_app. right.
        by apply list_elem_of_singleton.
Qed.

Lemma sourced_all l :
  sourced l (call_all (memoizeWithLRU JSON_stringify fn) l (fresh_lru maxSize)).2.
Proof.
  induction l as [|args l IH] using rev_ind.
  - split; [apply NoDup_nil_2|]. split; [unfold bounded, size; simpl; lia|].
    split; [done|]. intros key v Hv. done.
  - rewrite call_all_snoc. cbn [snd]. by apply sourced_step.
Qed.

End lru_memo.

(** A function memoized with an LRU cache never keeps more than [maxSize]
    values (or than one, for a [maxSize] below 1), and gives for every call
    what [fn] does for the arguments of that call or of an earlier call with
    the same key; so when [fn] does the same for any two lists of arguments
    with the same key, the memoized function does for every call what [fn]
    does, whatever was evicted in between. *)
Theorem memoizeWithLRU_bounded {K : Type} `{EqDecision K}
    (JSON_stringify : list value -> K) (fn : list value -> completion)
    (maxSize : Z) (l : list (list value)) :
  (Z.of_nat (size (lru (call_all (memoizeWithLRU JSON_stringify fn) l
                                 (fresh_lru maxSize)).2))
   <= Z.max maxSize 1)%Z /\
  (forall i args, l !! i = Some args ->
     exists args', args' ∈ take (S i) l /\
       JSON_stringify args' = JSON_stringify args /\
       (call_all (memoizeWithLRU JSON_stringify fn) l (fresh_lru maxSize)).1 !! i
       = Some (fn args')) /\
  ((forall a b, JSON_stringify a = JSON_stringify b -> fn a = fn b) ->
   (call_all (memoizeWithLRU JSON_stringify fn) l (fresh_lru maxSize)).1
   = fn <$> l).
Proof.
  assert (Hlook : forall i args, l !! i = Some args ->
     exists args', args' ∈ take (S i) l /\
       JSON_stringify args' = JSON_stringify args /\
       (call_all (memoizeWithLRU JSON_stringify fn) l (fresh_lru maxSize)).1 !! i
       = Some (fn args')).
  { intros i args Hi. rewrite (call_all_lookup _ l _ i args Hi).
    destruct (sourced_step JSON_stringify fn maxSize (take i l) args _
                (sourced_all JSON_stringify fn maxSize (take i l)))
      as [_ (args' & Hin & Hkey & Hres)].
    exists args'. rewrite (take_S_r l i args Hi). by rewrite Hres. }
  split; [|split; [done|]].
  - destruct (sourced_all JSON_stringify fn maxSize l) as (_ & Hb & Hcap & _).
    unfold bounded in Hb. by rewrite Hcap in Hb.
  - intros Hadequate. apply list_eq. intros i.
    rewrite list_lookup_fmap. destruct (l !! i) as [args|] eqn:Hi; simpl.
    + destruct (Hlook i args Hi) as (args' & _ & Hkey & ->).
      by rewrite (Hadequate args' args Hkey).
    + apply lookup_ge_None_2. rewrite call_all_length. by apply lookup_ge_None_1.
Qed.

Lemma memoizeWithLRU_bounded_witness :
  (call_all (memoizeWithLRU (fun args => length args)
               (fun args => Return (VNum (Z.of_nat (length args)))))
            [[VNum 1]; []; [VNum 2]] (fresh_lru 1)).1
  = (fun args => Return (VNum (Z.of_nat (length args))))
      <$> [[VNum 1]; []; [VNum 2]].
Proof.
  apply (proj2 (proj2 (memoizeWithLRU_bounded (fun args => length args)
                         (fun args => Return (VNum (Z.of_nat (length args))))
                         1 [[VNum 1]; []; [VNum 2]]))).
  intros a b Hab. by rewrite Hab.
Defined.

(** ** With an expiration *)

Section ttl_memo.
Context {K : Type} `{EqDecision K} (JSON_stringify : list value -> K).
Context (fn : Z -> list value -> completion) (ttl : Z).

(** Every entry of the cache holds what [fn] returned for an earlier call
    with that key, and the time of that call. *)
Definition dated (l : list (Z * list value)) (st : memo_ttl K) : Prop :=
  forall key entry, map_get key (ttl_cache st) = Some entry ->
    exists j now args r,
      l !! j = Some (now, args) /\ JSON_stringify args = key /\
      fn now args = Return r /\ entry = stamped r now.

Lemma dated_step l now args st :
  dated l st ->
  dated (l ++ [(now, args)])
        (memoizeWithExpiration JSON_stringify fn ttl now args st).2 /\
  match (memoizeWithExpiration JSON_stringify fn ttl now args st).1 with
  | Return r =>
      exists j now' args',
        (l ++ [(now, args)]) !! j = Some (now', args') /\
        JSON_stringify args' = JSON_stringify args /\
        fn now' args' = Return r /\
        (j = length l \/ (now - now' < ttl)%Z)
  | Throw e => fn now args = Throw e
  end.
Proof.
  intros Hd.
  assert (Hold : forall key entry, map_get key (ttl_cache st) = Some entry ->
            exists j now' args' r,
              (l ++ [(now, args)]) !! j = Some (now', args') /\
              JSON_stringify args' = key /\
              fn now' args' = Return r /\ entry = stamped r now').
  { intros key entry He. destruct (Hd key entry He) as (j & n' & a' & r & Hj & ?).
    exists j, n', a', r. split; [|done]. by apply lookup_app_l_Some. }
  assert (Hmiss : forall m,
            (forall key entry, map_get key m = Some entry ->
               key <> JSON_stringify args /\
               map_get key (ttl_cache st) = Some entry) ->
            JSON_stringify args ∉ m.*1 ->
            let st' := MemoTTL m (ttl_calls st ++ [(now, args)]) in
            let r := match fn now args with
                     | Return result =>
                         (Return result,
                          MemoTTL (map_set (JSON_stringify args)
                                     (stamped result now) (ttl_cache st'))
                                  (ttl_calls st'))
                     | Throw e => (Throw e, st')
                     end in
            dated (l ++ [(now, args)]) r.2 /\
            match r.1 with
            | Return r =>
                exists j now' args',
                  (l ++ [(now, args)]) !! j = Some (now', args') /\
                  JSON_stringify args' = JSON_stringify args /\
                  fn now' args' = Return r /\
                  (j = length l \/ (now - now' < ttl)%Z)
            | Throw e => fn now args = Throw e
            end).
  { intros m Hm Habs st' r. unfold r, st'.
    destruct (fn now args) as [result|e] eqn:Hfn; cbn [fst snd ttl_cache].
    - split.
      + unfold dated. cbn [ttl_cache]. intros key entry.
        rewrite (map_set_absent _ _ _ Habs), map_get_app.
        destruct (map_get key m) as [entry'|] eqn:Hg.
        * intros [= <-]. destruct (Hm key entry' Hg) as [_ Hg']. by apply Hold.
        * simpl. destruct (decide _) as [Hk|]; [|done]. intros [= <-].
          exists (length l), now, args, result.
          split; [by apply list_lookup_middle|done].
      + exists (length l), now, args. split; [by apply list_lookup_middle|].
        split; [done|]. split; [done|by left].
    - split; [|done]. unfold dated. cbn [ttl_cache]. intros key entry Hg.
      destruct (Hm key entry Hg) as [_ Hg']. by apply Hold. }
  unfold memoizeWithExpiration.
  destruct (map_has (JSON_stringify args) (ttl_cache st)) eqn:Hh.
  - apply map_has_get in Hh as [entry Hentry]. rewrite Hentry. simpl default.
    destruct (Hd _ _ Hentry) as (j & now' & args' & r & Hj & Hkey & Hfn & ->).
    cbn [field stamped find String.eqb Ascii.eqb Bool.eqb fst snd fmap option_fmap
         option_map default id].
    destruct (now - now' <? ttl)%Z eqn:Hfresh.
    + cbn [fst snd]. split; [by intros key entry He; apply Hold|].
      exists j, now', args'. split; [by apply lookup_app_l_Some|].
      split; [done|]. split; [done|]. right. by apply Z.ltb_lt.
    + apply Hmiss.
      * intros key entry Hg.
        destruct (decide (key = JSON_stringify args)) as [->|Hne].
        -- by rewrite (map_get_absent _ _ (map_delete_not_elem _ _)) in Hg.
        -- split; [done|]. by rewrite map_get_delete_ne in Hg.
      * apply map_delete_not_elem.
  - apply Hmiss.
    + intros key entry Hg. split; [|done]. intros ->.
      assert (map_has (JSON_stringify args) (ttl_cache st) = true)
        by (apply map_has_get; by eexists).
      congruence.
    + by apply map_has_false.
Qed.

Lemma dated_all l :
  dated l (call_all (fun c => memoizeWithExpiration JSON_stringify fn ttl c.1 c.2)
                    l (MemoTTL [] [])).2.
Proof.
  induction l as [|[now args] l IH] using rev_ind; [by intros key entry|].
  rewrite call_all_snoc. cbn [snd]. by apply dated_step.
Qed.

End ttl_memo.

(** A function memoized with an expiration never gives a value that was
    computed [ttl] or more before: a value that call [i], at the time
    [now], returns is what [fn] returned for a call [j] with the same key
    that is call [i] itself or was made at a time [now'] with
    [now - now' < ttl]; and what call [i] throws, [fn] threw for it. *)
Theorem memoizeWithExpiration_fresh {K : Type} `{EqDecision K}
    (JSON_stringify : list value -> K) (fn : Z -> list value -> completion)
    (ttl : Z) (l : list (Z * list value)) (i : nat) (now : Z)
    (args : list value) :
  l !! i = Some (now, args) ->
  exists c,
    (call_all (fun c => memoizeWithExpiration JSON_stringify fn ttl c.1 c.2)
              l (MemoTTL [] [])).1 !! i = Some c /\
    match c with
    | Return r =>
        exists j now' args',
          j <= i /\ l !! j = Some (now', args') /\
          JSON_stringify args' = JSON_stringify args /\
          fn now' args' = Return r /\
          (j = i \/ (now - now' < ttl)%Z)
    | Throw e => fn now args = Throw e
    end.
Proof.
  intros Hi. rewrite (call_all_lookup _ l _ i (now, args) Hi). eexists.
  split; [done|]. cbn [fst snd].
  destruct (dated_step JSON_stringify fn ttl (take i l) now args _
              (dated_all JSON_stringify fn ttl (take i l))) as [_ Hres].
  assert (Hlen : length (take i l) = i).
  { apply length_take_le. apply lookup_lt_Some in Hi. lia. }
  destruct (memoizeWithExpiration _ _ _ _ _ _).1 as [r|e]; [|done].
  destruct Hres as (j & now' & args' & Hj & Hkey & Hfn & Hfresh).
  rewrite Hlen in Hfresh.
  exists j, now', args'.
  assert (Hj' : j <= i /\ l !! j = Some (now', args')).
  { destruct (decide (j < i)) as [Hlt|Hge].
    - rewrite lookup_app_l in Hj by lia.
      rewrite lookup_take_lt in Hj by done. split; [lia|done].
    - apply lookup_lt_Some in Hj as Hb. rewrite length_app, Hlen in Hb.
      simpl in Hb. assert (j = i) as -> by lia.
      rewrite list_lookup_middle in Hj by done. injection Hj as <- <-.
      split; [lia|done]. }
  destruct Hj' as [? ?]. done.
Qed.

(** A clock read through a function memoized for 10 time units: the call
    at time 5 gets the value of time 0. *)
Lemma memoizeWithExpiration_fresh_witness :
  exists c,
    (call_all (fun c => memoizeWithExpiration (fun _ => 0)
                          (fun now _ => Return (VNum now)) 10 c.1 c.2)
              [(0%Z, []); (5%Z, []); (12%Z, [])] (MemoTTL [] [])).1 !! 1 = Some c /\
    match c with
    | Return r =>
        exists j now' args',
          j <= 1 /\ [(0%Z, []); (5%Z, []); (12%Z, [])] !! j = Some (now', args') /\
          (fun _ : list value => 0) args' = (fun _ : list value => 0) [] /\
          (fun now (_ : list value) => Return (VNum now)) now' args' = Return r /\
          (j = 1 \/ (5 - now' < 10)%Z)
    | Throw e => (fun now (_ : list value) => Return (VNum now)) 5%Z [] = Throw e
    end.
Proof.
  apply (memoizeWithExpiration_fresh (fun _ => 0)
           (fun now _ => Return (VNum now)) 10
           [(0%Z, []); (5%Z, []); (12%Z, [])] 1 5%Z []).
  done.
Defined.

End MemoizeFacts.
